(** * RailflowAI station simulation: a shallow embedding and its properties

    The repository drives a SimPy discrete-event simulation of a five-line
    railway station ([station_simulation.py]), wraps it in a Gymnasium
    environment ([train_env.py]) and serves it from a Flask application
    ([app.py]).  This development embeds

    - the part of the SimPy kernel the station code calls (the event queue of
      [Environment], [Event], [Timeout], [Process], [Condition] and the
      capacity-bounded [Resource] with its [Request]/[Release] events),
    - the generators of [station_simulation.py] as explicit frames,
    - [StationTrainEnv.reset]/[step] of [train_env.py],
    - the timing globals and the speed-multiplier helpers of [app.py], and
      the two episodes it serves ([get_ai_sim_data], [get_naive_sim_data]),

    and proves the properties of the specification about them, and then
    more of what the code does. *)

From Stdlib Require Import ZArith Sorted.
From Stdlib Require SpecFloat.
From stdpp Require Import base option list strings gmap relations.

Open Scope string_scope.
Open Scope list_scope.
Open Scope Z_scope.

(** ** Objects of the embedding *)

(** Python objects live in heaps; a reference is the index at which the object
    was allocated. *)
Definition ref := nat.

(** [station_simulation.py], lines 7-10: the module-level timing globals. *)
Record Globals := {
  TIME_MAIN_SEGMENT : Z;
  TIME_PLATFORM_SEGMENT : Z;
  TIME_AT_PLATFORM : Z;
  TIME_ON_CROSSOVER : Z
}.

(** The names under which a path step reads one of the timing globals; the
    global is read when the [env.timeout(...)] call is evaluated. *)
Inductive TimeName :=
  | MAIN_SEGMENT | PLATFORM_SEGMENT | AT_PLATFORM | ON_CROSSOVER.

Definition read_time (g : Globals) (n : TimeName) : Z :=
  match n with
  | MAIN_SEGMENT => TIME_MAIN_SEGMENT g
  | PLATFORM_SEGMENT => TIME_PLATFORM_SEGMENT g
  | AT_PLATFORM => TIME_AT_PLATFORM g
  | ON_CROSSOVER => TIME_ON_CROSSOVER g
  end.

(** The body of one of the five [path_*] generators: the switches requested
    jointly and the position written to them, then the track sections in
    order, each with the resource requested, the name logged and the timing
    global of the dwell. *)
Record Path := {
  path_points : list string;
  path_state : string;
  path_tracks : list (ref * string * TimeName)
}.

(** A train as handed to [train_process]. *)
Record Train := {
  train_id : string;
  direction : string;
  priority : string;
  route_decision : option string
}.

(** One statement of a driver generator in the style of [test_runner]:
    [env.process(station.train_process(...))] or [yield env.timeout(d)]. *)
Inductive DriverStep :=
  | Submit (t : Train)
  | Wait (d : Z).

(** Generator frames: the point at which a generator is suspended together
    with its live local variables. *)
Inductive Gen :=
  | train_process_start (t : Train)
  | train_process_journey (t : Train)
  | path_start (p : Path) (tid dir : string)
  | path_joint (p : Path) (tid dir : string) (reqs : list (ref * ref))
  | path_enter (p : Path) (tid dir : string) (reqs : list (ref * ref))
      (i : nat) (track : ref) (track_req : ref)
  | path_dwell (p : Path) (tid dir : string) (reqs : list (ref * ref))
      (i : nat) (track : ref) (track_req : ref)
  | test_runner (script : list DriverStep)
  | exhausted.

(** Bound methods registered in [Event.callbacks]. *)
Inductive Callback :=
  | Process_resume (p : ref)
  | Condition_check (c : ref)
  | Condition_build_value (c : ref)
  | BaseResource_trigger_get (r : ref)
  | BaseResource_trigger_put (r : ref).

(** The class of an event object with the attributes the kernel reads. *)
Inductive Kind :=
  | Initialize
  | Timeout
  | Request (resource : ref) (proc : option ref)
  | Release (resource : ref) (request : ref)
  | Condition (events : list ref) (count : nat)
  | Process (generator : Gen).

(** [simpy.events.Event]: [callbacks] is [None] once the event has been
    processed; [triggered] says that [_value] is no longer [PENDING].  Every
    event of the station code succeeds, so [_ok] is not represented. *)
Record Event := {
  callbacks : option (list Callback);
  triggered : bool;
  kind : Kind
}.

(** Ghost record of what happened to a resource and at which virtual time: it
    is only ever appended to and never read by the simulation. *)
Inductive Hold :=
  | Granted (request : ref) (at_time : Z)
  | Released (request : ref) (at_time : Z).

(** [simpy.resources.resource.Resource]. *)
Record Resource := {
  capacity : nat;
  users : list ref;
  put_queue : list ref;
  get_queue : list ref;
  history : list Hold
}.

(** The dictionary of a log entry's [details]. *)
Inductive Details :=
  | route_details (route : option string)
  | points_details (points : list string) (state : string)
  | track_details (track : string)
  | no_details.

(** An entry of [StationSimulation.event_log]. *)
Record LogEntry := {
  time : Z;
  log_train_id : string;
  log_direction : string;
  event : string;
  details : Details
}.

(** An entry of [StationSimulation.points]. *)
Record Point := {
  resource : ref;
  state : string
}.

(** Entries of [Environment._queue]: [(time, priority, eid, event)]. *)
Definition QueueEntry : Type := Z * nat * nat * ref.

(** The whole state: the [simpy.Environment], the two object heaps, the
    [StationSimulation] attributes that change, and the timing globals of the
    module. *)
Record World := {
  now : Z;
  queue : list QueueEntry;
  eid : nat;
  active_proc : option ref;
  events : list Event;
  resources : list Resource;
  event_log : list LogEntry;
  points : gmap string Point;
  globals : Globals
}.

Definition set_now (t : Z) (w : World) : World :=
  {| now := t; queue := queue w; eid := eid w; active_proc := active_proc w;
     events := events w; resources := resources w; event_log := event_log w;
     points := points w; globals := globals w |}.

Definition set_queue (q : list QueueEntry) (n : nat) (w : World) : World :=
  {| now := now w; queue := q; eid := n; active_proc := active_proc w;
     events := events w; resources := resources w; event_log := event_log w;
     points := points w; globals := globals w |}.

Definition set_active_proc (p : option ref) (w : World) : World :=
  {| now := now w; queue := queue w; eid := eid w; active_proc := p;
     events := events w; resources := resources w; event_log := event_log w;
     points := points w; globals := globals w |}.

Definition set_events (es : list Event) (w : World) : World :=
  {| now := now w; queue := queue w; eid := eid w; active_proc := active_proc w;
     events := es; resources := resources w; event_log := event_log w;
     points := points w; globals := globals w |}.

Definition set_resources (rs : list Resource) (w : World) : World :=
  {| now := now w; queue := queue w; eid := eid w; active_proc := active_proc w;
     events := events w; resources := rs; event_log := event_log w;
     points := points w; globals := globals w |}.

Definition set_event_log (l : list LogEntry) (w : World) : World :=
  {| now := now w; queue := queue w; eid := eid w; active_proc := active_proc w;
     events := events w; resources := resources w; event_log := l;
     points := points w; globals := globals w |}.

Definition set_points (ps : gmap string Point) (w : World) : World :=
  {| now := now w; queue := queue w; eid := eid w; active_proc := active_proc w;
     events := events w; resources := resources w; event_log := event_log w;
     points := ps; globals := globals w |}.

Definition set_globals (g : Globals) (w : World) : World :=
  {| now := now w; queue := queue w; eid := eid w; active_proc := active_proc w;
     events := events w; resources := resources w; event_log := event_log w;
     points := points w; globals := g |}.

(** ** The monad of simulation code

    A computation reads and writes the world and either returns or raises;
    [None] stands for a Python exception leaving the computation. *)
Definition Sim (A : Type) : Type := World -> option (A * World).

Definition ret {A} (a : A) : Sim A := fun w => Some (a, w).

Definition bind {A B} (m : Sim A) (k : A -> Sim B) : Sim B :=
  fun w => match m w with
           | Some (a, w') => k a w'
           | None => None
           end.

Definition raise {A} : Sim A := fun _ => None.

Definition gets {A} (f : World -> A) : Sim A := fun w => Some (f w, w).

Definition modify (f : World -> World) : Sim unit := fun w => Some (tt, f w).

Declare Scope sim_scope.
Delimit Scope sim_scope with sim.
Notation "x <- m ;; k" := (bind m (fun x => k))
  (at level 100, m at next level, right associativity) : sim_scope.
Notation "m ;;; k" := (bind m (fun _ => k))
  (at level 100, right associativity) : sim_scope.
Open Scope sim_scope.

(** [for x in xs: f(x)] *)
Fixpoint for_each {A} (f : A -> Sim unit) (xs : list A) : Sim unit :=
  match xs with
  | [] => ret tt
  | x :: xs' => f x ;;; for_each f xs'
  end.

(** ** The SimPy kernel *)

Module simpy.

(** [simpy.core]: event priorities. *)
Definition URGENT : nat := 0.
Definition NORMAL : nat := 1.

(** Python's comparison of the tuples [(time, priority, eid, event)]; the
    counter makes [eid] unique, so the event itself is never compared. *)
Definition entry_lt (a b : QueueEntry) : bool :=
  let '(ta, pa, ia, _) := a in
  let '(tb, pb, ib, _) := b in
  (ta <? tb)
  || ((ta =? tb) && ((pa <? pb)%nat || ((pa =? pb)%nat && (ia <? ib)%nat))).

(** [heapq.heappush] followed later by [heapq.heappop]: the heap hands out the
    least entry, which is the head of the list when every push keeps the list
    ordered. *)
Fixpoint heappush (e : QueueEntry) (q : list QueueEntry) : list QueueEntry :=
  match q with
  | [] => [e]
  | x :: q' => if entry_lt e x then e :: x :: q' else x :: heappush e q'
  end.

(** [Environment.schedule(event, priority, delay)]. *)
Definition schedule (ev : ref) (prio : nat) (delay : Z) : Sim unit :=
  modify (fun w =>
    set_queue (heappush (now w + delay, prio, eid w, ev) (queue w)) (S (eid w)) w).

(** Allocation of an event object. *)
Definition new_event (e : Event) : Sim ref :=
  fun w => Some (length (events w), set_events (events w ++ [e]) w).

(** Reading an event object through a reference. *)
Definition get_event (ev : ref) : Sim Event :=
  fun w => match events w !! ev with
           | Some e => Some (e, w)
           | None => None
           end.

Definition put_event (ev : ref) (e : Event) : Sim unit :=
  modify (fun w => set_events (<[ev := e]> (events w)) w).

Definition get_resource (r : ref) : Sim Resource :=
  fun w => match resources w !! r with
           | Some x => Some (x, w)
           | None => None
           end.

Definition put_resource (r : ref) (x : Resource) : Sim unit :=
  modify (fun w => set_resources (<[r := x]> (resources w)) w).

(** [event.callbacks.append(cb)] on an event that has not been processed. *)
Definition append_callback (ev : ref) (cb : Callback) : Sim unit :=
  e <- get_event ev ;;
  match callbacks e with
  | Some cbs =>
      put_event ev {| callbacks := Some (cbs ++ [cb]);
                      triggered := triggered e; kind := kind e |}
  | None => raise
  end.

(** [Event.succeed()]: raises [RuntimeError] if already triggered. *)
Definition succeed (ev : ref) : Sim unit :=
  e <- get_event ev ;;
  if triggered e then raise
  else
    put_event ev {| callbacks := callbacks e; triggered := true; kind := kind e |} ;;;
    schedule ev NORMAL 0.

(** [Timeout.__init__]: raises [ValueError] on a negative delay, otherwise the
    event is born triggered and scheduled [delay] from now. *)
Definition timeout (delay : Z) : Sim ref :=
  if delay <? 0 then raise
  else
    ev <- new_event {| callbacks := Some []; triggered := true; kind := Timeout |} ;;
    schedule ev NORMAL delay ;;;
    ret ev.

(** [Process.__init__] with [Initialize.__init__]: the process event is
    pending, and an urgent [Initialize] event carrying [process._resume] is
    scheduled at the current time. *)
Definition process (g : Gen) : Sim ref :=
  p <- new_event {| callbacks := Some []; triggered := false; kind := Process g |} ;;
  i <- new_event {| callbacks := Some [Process_resume p]; triggered := true;
                    kind := Initialize |} ;;
  schedule i URGENT 0 ;;;
  ret p.

(** [list.remove(x)]: the first occurrence is removed; [None] when there is
    none ([ValueError]). *)
Fixpoint list_remove (x : ref) (l : list ref) : option (list ref) :=
  match l with
  | [] => None
  | y :: l' => if (x =? y)%nat then Some l'
               else match list_remove x l' with
                    | Some r => Some (y :: r)
                    | None => None
                    end
  end.

(** [Resource._do_put(event)]: the request joins [users] while there is
    capacity left, and then succeeds. *)
Definition Resource_do_put (r : ref) (ev : ref) : Sim unit :=
  x <- get_resource r ;;
  t <- gets now ;;
  if (length (users x) <? capacity x)%nat then
    put_resource r {| capacity := capacity x; users := users x ++ [ev];
                      put_queue := put_queue x; get_queue := get_queue x;
                      history := history x ++ [Granted ev t] |} ;;;
    succeed ev
  else ret tt.

(** [Resource._do_get(event)]: [users.remove(event.request)], a missing
    request being ignored, and the release event succeeds. *)
Definition Resource_do_get (r : ref) (ev : ref) : Sim unit :=
  e <- get_event ev ;;
  match kind e with
  | Release _ req =>
      x <- get_resource r ;;
      t <- gets now ;;
      match list_remove req (users x) with
      | Some us =>
          put_resource r {| capacity := capacity x; users := us;
                            put_queue := put_queue x; get_queue := get_queue x;
                            history := history x ++ [Released req t] |}
      | None => ret tt
      end ;;;
      succeed ev
  | _ => raise
  end.

(** [BaseResource._trigger_put]: the loop over [put_queue] starts at index 0;
    [_do_put] returns [None], so [if not proceed: break] leaves the loop after
    its first round.  A triggered head is popped. *)
Definition trigger_put (r : ref) : Sim unit :=
  x <- get_resource r ;;
  match put_queue x with
  | [] => ret tt
  | head :: _ =>
      Resource_do_put r head ;;;
      e <- get_event head ;;
      if triggered e then
        x' <- get_resource r ;;
        put_resource r {| capacity := capacity x'; users := users x';
                          put_queue := tail (put_queue x');
                          get_queue := get_queue x'; history := history x' |}
      else ret tt
  end.

(** [BaseResource._trigger_get]: the same loop over [get_queue]. *)
Definition trigger_get (r : ref) : Sim unit :=
  x <- get_resource r ;;
  match get_queue x with
  | [] => ret tt
  | head :: _ =>
      Resource_do_get r head ;;;
      e <- get_event head ;;
      if triggered e then
        x' <- get_resource r ;;
        put_resource r {| capacity := capacity x'; users := users x';
                          put_queue := put_queue x';
                          get_queue := tail (get_queue x'); history := history x' |}
      else ret tt
  end.

(** [resource.request()], i.e. [Put.__init__] of a [Request]. *)
Definition request (r : ref) : Sim ref :=
  proc <- gets active_proc ;;
  ev <- new_event {| callbacks := Some []; triggered := false;
                     kind := Request r proc |} ;;
  x <- get_resource r ;;
  put_resource r {| capacity := capacity x; users := users x;
                    put_queue := put_queue x ++ [ev];
                    get_queue := get_queue x; history := history x |} ;;;
  append_callback ev (BaseResource_trigger_get r) ;;;
  trigger_put r ;;;
  ret ev.

(** [resource.release(request)], i.e. [Get.__init__] of a [Release]. *)
Definition release (r : ref) (req : ref) : Sim ref :=
  ev <- new_event {| callbacks := Some []; triggered := false;
                     kind := Release r req |} ;;
  x <- get_resource r ;;
  put_resource r {| capacity := capacity x; users := users x;
                    put_queue := put_queue x;
                    get_queue := get_queue x ++ [ev]; history := history x |} ;;;
  append_callback ev (BaseResource_trigger_put r) ;;;
  trigger_get r ;;;
  ret ev.

(** [Request.__exit__] on a normal exit of the [with] block: [cancel()] takes
    an untriggered request out of the queue, then the resource is released. *)
Definition Request_exit (r : ref) (req : ref) : Sim unit :=
  e <- get_event req ;;
  (if triggered e then ret tt
   else
     x <- get_resource r ;;
     match list_remove req (put_queue x) with
     | Some q =>
         put_resource r {| capacity := capacity x; users := users x;
                           put_queue := q; get_queue := get_queue x;
                           history := history x |}
     | None => raise
     end) ;;;
  _ <- release r req ;;
  ret tt.

(** [Condition._check(event)] for a condition built with [all_events]. *)
Definition check (c : ref) : Sim unit :=
  e <- get_event c ;;
  if triggered e then ret tt
  else
    match kind e with
    | Condition evs n =>
        put_event c {| callbacks := callbacks e; triggered := false;
                       kind := Condition evs (S n) |} ;;;
        if (length evs =? S n)%nat then succeed c else ret tt
    | _ => raise
    end.

(** [Condition.__init__(env, Condition.all_events, events)]. *)
Definition all_of (evs : list ref) : Sim ref :=
  c <- new_event {| callbacks := Some []; triggered := false;
                    kind := Condition evs 0 |} ;;
  (if (length evs =? 0)%nat then succeed c
   else
     for_each (fun ev =>
       e <- get_event ev ;;
       match callbacks e with
       | None => check c
       | Some _ => append_callback ev (Condition_check c)
       end) evs ;;;
     append_callback c (Condition_build_value c)) ;;;
  ret c.

(** [a & b & ...]: [Event.__and__] nests to the left. *)
Definition and_events (a : ref) (rest : list ref) : Sim ref :=
  fold_left (fun acc b => c <- acc ;; all_of [c; b]) rest (ret a).

#[global] Instance Callback_eq_dec : EqDecision Callback.
Proof. solve_decision. Defined.

(** [callbacks.remove(cb)] guarded by [cb in callbacks]. *)
Fixpoint remove_callback (cb : Callback) (l : list Callback) : list Callback :=
  match l with
  | [] => []
  | x :: l' => if decide (cb = x) then l' else x :: remove_callback cb l'
  end.

(** [Condition._remove_check_callbacks]: the check of this condition is taken
    off every sub-event that still has callbacks, recursively through nested
    conditions.  A nested condition was allocated before the condition that
    contains it, so the recursion is bounded by the reference. *)
Fixpoint remove_check_callbacks (depth : nat) (c : ref) : Sim unit :=
  match depth with
  | O => ret tt
  | S depth' =>
      e <- get_event c ;;
      match kind e with
      | Condition evs _ =>
          for_each (fun ev =>
            x <- get_event ev ;;
            match callbacks x with
            | Some cbs =>
                put_event ev {| callbacks := Some (remove_callback (Condition_check c) cbs);
                                triggered := triggered x; kind := kind x |}
            | None => ret tt
            end ;;;
            match kind x with
            | Condition _ _ => remove_check_callbacks depth' ev
            | _ => ret tt
            end) evs
      | _ => raise
      end
  end.

(** [Condition._build_value]: the value it builds is never read by the
    station code, which leaves the removal of the check callbacks. *)
Definition build_value (c : ref) : Sim unit :=
  remove_check_callbacks (S c) c.

(** [[f(x) for x in xs]] *)
Fixpoint map_m {A B} (f : A -> Sim B) (xs : list A) : Sim (list B) :=
  match xs with
  | [] => ret []
  | x :: xs' => y <- f x ;; ys <- map_m f xs' ;; ret (y :: ys)
  end.

End simpy.

(** ** station_simulation.py *)

Module station_simulation.

(** The constants of lines 7-10. *)
Definition initial_globals : Globals :=
  {| TIME_MAIN_SEGMENT := 25; TIME_PLATFORM_SEGMENT := 40;
     TIME_AT_PLATFORM := 50; TIME_ON_CROSSOVER := 10 |}.

(** [StationSimulation.__init__], lines 25-32: the eight track resources, in
    the order in which they are allocated. *)
Definition line1_up_platform : ref := 0%nat.
Definition line2_up_main_approach : ref := 1%nat.
Definition line2_up_main_exit : ref := 2%nat.
Definition line3_down_main_approach : ref := 3%nat.
Definition line3_down_main_exit : ref := 4%nat.
Definition line4_down_platform : ref := 5%nat.
Definition line5_down_siding : ref := 6%nat.
Definition mainline_crossover : ref := 7%nat.

(** [simpy.Resource(env, capacity=1)]. *)
Definition new_resource : Resource :=
  {| capacity := 1; users := []; put_queue := []; get_queue := []; history := [] |}.

(** Lines 35-43: the seven points, each with its own resource, all normal. *)
Definition initial_points : gmap string Point :=
  <["P1" := {| resource := 8%nat; state := "normal" |}]>
  (<["P2" := {| resource := 9%nat; state := "normal" |}]>
  (<["P3" := {| resource := 10%nat; state := "normal" |}]>
  (<["P4" := {| resource := 11%nat; state := "normal" |}]>
  (<["PX1" := {| resource := 12%nat; state := "normal" |}]>
  (<["PX2" := {| resource := 13%nat; state := "normal" |}]>
  (<["P5" := {| resource := 14%nat; state := "normal" |}]> ∅)))))).

(** [env = simpy.Environment(); station = StationSimulation(env)] in a module
    whose timing globals are [g]. *)
Definition StationSimulation (g : Globals) : World :=
  {| now := 0; queue := []; eid := 0; active_proc := None;
     events := []; resources := replicate 15 new_resource;
     event_log := []; points := initial_points; globals := g |}.

(** [log_event], lines 160-168. *)
Definition log_event (tid dir event_type : string) (d : Details) : Sim unit :=
  modify (fun w =>
    set_event_log
      (event_log w ++ [{| time := now w; log_train_id := tid; log_direction := dir;
                          event := event_type; details := d |}]) w).

(** The five path generators, lines 67-158. *)
Definition path_up_main : Path :=
  {| path_points := ["P1"; "P2"]; path_state := "normal";
     path_tracks := [(line2_up_main_approach, "L2_Approach", MAIN_SEGMENT);
                     (line2_up_main_exit, "L2_Exit", MAIN_SEGMENT)] |}.

Definition path_up_platform : Path :=
  {| path_points := ["P1"; "P2"]; path_state := "reverse";
     path_tracks := [(line2_up_main_approach, "L2_Approach", ON_CROSSOVER);
                     (line1_up_platform, "L1_Platform_2", AT_PLATFORM)] |}.

Definition path_down_main : Path :=
  {| path_points := ["P3"; "P4"]; path_state := "normal";
     path_tracks := [(line3_down_main_approach, "L3_Approach", MAIN_SEGMENT);
                     (line3_down_main_exit, "L3_Exit", MAIN_SEGMENT)] |}.

Definition path_down_platform : Path :=
  {| path_points := ["P3"; "P4"]; path_state := "reverse";
     path_tracks := [(line3_down_main_approach, "L3_Approach", ON_CROSSOVER);
                     (line4_down_platform, "L4_Platform_1", AT_PLATFORM)] |}.

Definition path_down_siding : Path :=
  {| path_points := ["P3"; "P4"; "P5"]; path_state := "reverse";
     path_tracks := [(line3_down_main_approach, "L3_Approach", ON_CROSSOVER);
                     (line4_down_platform, "L4_Platform_1", PLATFORM_SEGMENT);
                     (line5_down_siding, "L5_Siding", AT_PLATFORM)] |}.

(** [path_map], lines 49-55. *)
Definition path_map : gmap string Path :=
  <["UP_MAIN" := path_up_main]>
  (<["UP_PLATFORM" := path_up_platform]>
  (<["DOWN_MAIN" := path_down_main]>
  (<["DOWN_PLATFORM" := path_down_platform]>
  (<["DOWN_SIDING" := path_down_siding]> ∅)))).

(** [path_map.get(route_decision)]: [route_decision] may be Python's [None]. *)
Definition path_function (route_decision : option string) : option Path :=
  match route_decision with
  | Some name => path_map !! name
  | None => None
  end.

(** [self.points[name]]. *)
Definition get_point (name : string) : Sim Point :=
  fun w => match points w !! name with
           | Some pt => Some (pt, w)
           | None => None
           end.

(** [self.points[name]['state'] = position]. *)
Definition set_point_state (position name : string) : Sim unit :=
  pt <- get_point name ;;
  modify (fun w =>
    set_points (<[name := {| resource := resource pt; state := position |}]> (points w)) w).

(** What a generator hands back to [Process._resume]: the event it yields,
    or nothing when it returns ([StopIteration]). *)
Definition Sent : Type := Gen * option ref.

(** Leaving the outer [with] block at the end of a path: the context managers
    exit in the reverse of the order in which they were entered. *)
Definition leave_points (reqs : list (ref * ref)) : Sim Sent :=
  for_each (fun rq => simpy.Request_exit (fst rq) (snd rq)) (rev reqs) ;;;
  ret (exhausted, None).

(** Entering the [with] block of the [i]-th track section: the request is
    made and yielded.  After the last section the path is over. *)
Definition enter_track (p : Path) (tid dir : string) (reqs : list (ref * ref))
    (i : nat) : Sim Sent :=
  match path_tracks p !! i with
  | Some (track, _, _) =>
      track_req <- simpy.request track ;;
      ret (path_enter p tid dir reqs i track track_req, Some track_req)
  | None => leave_points reqs
  end.

(** The generator of [test_runner], lines 177-185, for any list of
    submissions and waits: it runs up to its next [yield]. *)
Fixpoint run_script (script : list DriverStep) : Sim Sent :=
  match script with
  | [] => ret (exhausted, None)
  | Submit t :: rest =>
      _ <- simpy.process (train_process_start t) ;;
      run_script rest
  | Wait d :: rest =>
      ev <- simpy.timeout d ;;
      ret (test_runner rest, Some ev)
  end.

(** [generator.send(value)]: the generator runs from the frame at which it
    was suspended to its next [yield] or to its end. *)
Definition send (g : Gen) : Sim Sent :=
  match g with
  | train_process_start t =>
      (* line 47 *)
      log_event (train_id t) (direction t) "spawned"
        (route_details (route_decision t)) ;;;
      (* lines 57-61 *)
      match path_function (route_decision t) with
      | Some p =>
          pr <- simpy.process (path_start p (train_id t) (direction t)) ;;
          ret (train_process_journey t, Some pr)
      | None =>
          (* line 63 *)
          log_event (train_id t) (direction t) "finished" no_details ;;;
          ret (exhausted, None)
      end
  | train_process_journey t =>
      (* line 63 *)
      log_event (train_id t) (direction t) "finished" no_details ;;;
      ret (exhausted, None)
  | path_start p tid dir =>
      (* [with ...request() as p1_req, ...request() as p2_req: yield p1_req & p2_req] *)
      reqs <- simpy.map_m (fun name =>
                pt <- get_point name ;;
                q <- simpy.request (resource pt) ;;
                ret (resource pt, q)) (path_points p) ;;
      match reqs with
      | (_, q) :: rest =>
          c <- simpy.and_events q (map snd rest) ;;
          ret (path_joint p tid dir reqs, Some c)
      | [] => raise
      end
  | path_joint p tid dir reqs =>
      for_each (set_point_state (path_state p)) (path_points p) ;;;
      log_event tid dir "points_set"
        (points_details (path_points p) (path_state p)) ;;;
      enter_track p tid dir reqs 0
  | path_enter p tid dir reqs i track track_req =>
      match path_tracks p !! i with
      | Some (_, name, duration) =>
          log_event tid dir "enter_track" (track_details name) ;;;
          g <- gets globals ;;
          t <- simpy.timeout (read_time g duration) ;;
          ret (path_dwell p tid dir reqs i track track_req, Some t)
      | None => raise
      end
  | path_dwell p tid dir reqs i track track_req =>
      simpy.Request_exit track track_req ;;;
      enter_track p tid dir reqs (S i)
  | test_runner script => run_script script
  | exhausted => raise
  end.

(** An upper bound on the number of [yield]s a generator has left. *)
Definition yields_left (g : Gen) : nat :=
  match g with
  | train_process_start _ => 1
  | train_process_journey _ => 0
  | path_start p _ _ => 1 + 2 * length (path_tracks p)
  | path_joint p _ _ _ => 2 * length (path_tracks p)
  | path_enter p _ _ _ i _ _ => 2 * (length (path_tracks p) - i) - 1
  | path_dwell p _ _ _ i _ _ => 2 * (length (path_tracks p) - i) - 2
  | test_runner script => length script
  | exhausted => 0
  end.

End station_simulation.

(** ** The event loop *)

Module Environment.

Import simpy.

Definition set_generator (p : ref) (g : Gen) : Sim unit :=
  e <- get_event p ;;
  put_event p {| callbacks := callbacks e; triggered := triggered e;
                 kind := Process g |}.

(** The [while True] loop of [Process._resume]: the generator is sent the
    value of the event; when it returns, the process event is triggered and
    scheduled; when it yields an event that is still to be processed, the
    process registers itself there and the loop is left; an event that has
    been processed already is sent straight back.  Every round consumes a
    [yield] of the generator, which bounds the recursion. *)
Fixpoint resume_loop (rounds : nat) (p : ref) : Sim unit :=
  e <- get_event p ;;
  match kind e with
  | Process g =>
      sent <- station_simulation.send g ;;
      set_generator p (fst sent) ;;;
      match snd sent with
      | None =>
          e' <- get_event p ;;
          put_event p {| callbacks := callbacks e'; triggered := true;
                         kind := kind e' |} ;;;
          schedule p NORMAL 0
      | Some ev =>
          target <- get_event ev ;;
          match callbacks target with
          | Some _ => append_callback ev (Process_resume p)
          | None =>
              match rounds with
              | O => raise
              | S rounds' => resume_loop rounds' p
              end
          end
      end
  | _ => raise
  end.

(** [Process._resume(event)]. *)
Definition resume (p : ref) : Sim unit :=
  modify (set_active_proc (Some p)) ;;;
  e <- get_event p ;;
  match kind e with
  | Process g =>
      resume_loop (station_simulation.yields_left g) p ;;;
      modify (set_active_proc None)
  | _ => raise
  end.

Definition call (cb : Callback) : Sim unit :=
  match cb with
  | Process_resume p => resume p
  | Condition_check c => check c
  | Condition_build_value c => build_value c
  | BaseResource_trigger_get r => trigger_get r
  | BaseResource_trigger_put r => trigger_put r
  end.

(** [Environment.step]: the least entry is popped, the clock moves to its
    time, the callbacks of the event are detached and called in order.  An
    empty queue raises [EmptySchedule]. *)
Definition step : Sim unit :=
  q <- gets queue ;;
  match q with
  | [] => raise
  | (t, _, _, ev) :: q' =>
      n <- gets eid ;;
      modify (set_queue q' n) ;;;
      modify (set_now t) ;;;
      e <- get_event ev ;;
      match callbacks e with
      | Some cbs =>
          put_event ev {| callbacks := None; triggered := triggered e;
                          kind := kind e |} ;;;
          for_each call cbs
      | None => raise
      end
  end.

(** [Environment.run()] without [until]: steps are taken until the queue is
    empty.  The recursion is bounded by [fuel]; running out of it is reported
    like an exception. *)
Fixpoint run (fuel : nat) : Sim unit :=
  q <- gets queue ;;
  match q with
  | [] => ret tt
  | _ :: _ =>
      match fuel with
      | O => raise
      | S fuel' => step ;;; run fuel'
      end
  end.

End Environment.

(** ** train_env.py *)

Module train_env.

Import station_simulation.

(** A row of the schedule read by [pd.read_csv]. *)
Record Row := {
  row_train_id : string;
  row_direction : string;
  row_priority : string
}.

(** [StationTrainEnv] after [reset]: the rows still to be dispatched, and the
    world in which [self.simpy_env] and [self.station] live. *)
Record StationTrainEnv := {
  schedule : list Row;
  world : World
}.

(** The Python objects that [step] may be handed as its [action]: integers
    (of any size), booleans, floats, strings, [None], tuples, lists, and
    numpy arrays.  An array is given by its elements in order, each as the
    Python object that [item()] returns for it; its shape plays no part in
    [step], only its size.  The array [np.array(3)] that [model.predict]
    returns for one observation is [np_ndarray [py_int 3]]. *)
#[warnings="-register-all"] Inductive PyObject :=
  | py_int (a : Z)
  | py_bool (b : bool)
  | py_float (f : SpecFloat.spec_float)
  | py_str (s : string)
  | py_None
  | py_tuple (items : list PyObject)
  | py_list (items : list PyObject)
  | np_ndarray (elements : list PyObject).

Definition Action : Type := PyObject.

(** [ndarray.item()] without an argument: the element of an array of size
    one; [None] stands for the [ValueError] numpy raises for any other
    size. *)
Definition item (elements : list PyObject) : option PyObject :=
  match elements with
  | [x] => Some x
  | _ => None
  end.

(** Lines 61-62: [if isinstance(action, np.ndarray): action = action.item()]. *)
Definition item_of_array (action : Action) : option PyObject :=
  match action with
  | np_ndarray elements => item elements
  | _ => Some action
  end.

(** [hash(x)] raises [TypeError] for a list, for an array, and for a tuple
    that holds one of them. *)
Fixpoint hashable (x : PyObject) : bool :=
  match x with
  | py_list _ => false
  | np_ndarray _ => false
  | py_tuple items => forallb hashable items
  | _ => true
  end.

(** The value of a float that is a whole number: [(-1)^s * m * 2^e]. *)
Definition float_integer (f : SpecFloat.spec_float) : option Z :=
  match f with
  | SpecFloat.S754_zero _ => Some 0
  | SpecFloat.S754_finite s m e =>
      let magnitude :=
        if 0 <=? e then Some (Z.pos m * 2 ^ e)
        else if Z.pos m mod 2 ^ (- e) =? 0 then Some (Z.pos m / 2 ^ (- e))
        else None in
      option_map (fun v => if s then - v else v) magnitude
  | _ => None
  end.

(** The integer that a hashable object is equal to, with the same hash, so
    that it finds the entry of that integer in a dictionary: [True == 1],
    [1.0 == 1]; a string, [None] and a tuple equal no integer. *)
Definition as_integer (x : PyObject) : option Z :=
  match x with
  | py_int a => Some a
  | py_bool b => Some (if b then 1 else 0)
  | py_float f => float_integer f
  | _ => None
  end.

(** [self.action_to_route], lines 28-31. *)
Definition action_to_route : gmap Z string :=
  <[0 := "UP_MAIN"]> (<[1 := "UP_PLATFORM"]> (<[2 := "DOWN_MAIN"]>
  (<[3 := "DOWN_PLATFORM"]> (<[4 := "DOWN_SIDING"]> ∅)))).

(** Line 67, [self.action_to_route.get(action)]: the route of the key the
    action is equal to, Python's [None] when there is no such key; the outer
    [None] stands for the [TypeError] of an action that cannot be hashed. *)
Definition action_to_route_get (action : PyObject) : option (option string) :=
  if hashable action then
    Some (match as_integer action with
          | Some a => action_to_route !! a
          | None => None
          end)
  else None.

(** [_get_observation], lines 33-41; the two entries are 0 or 1. *)
Definition _get_observation (sched : list Row) : list Z :=
  match sched with
  | [] => [0; 0]
  | next_train :: _ =>
      [ (if String.eqb (row_priority next_train) "high" then 1 else 0);
        (if String.eqb (row_direction next_train) "south" then 1 else 0) ]
  end.

(** [reset], lines 43-54: [rows] is what [pd.read_csv(self.schedule_file)]
    returned; a new environment and a new station are made. *)
Definition reset (rows : list Row) (g : Globals) : list Z * StationTrainEnv :=
  (_get_observation rows, {| schedule := rows; world := StationSimulation g |}).

(** The tuple returned by [step]. *)
Record StepResult := {
  observation : list Z;
  reward : Z;
  done : bool;
  truncated : bool;
  info : list (string * string)
}.

(** [route_decision in [...]] for a route that may be [None]. *)
Definition route_in (route : option string) (l : list string) : bool :=
  match route with
  | Some s => existsb (String.eqb s) l
  | None => false
  end.

(** ['MAIN' in route_decision]. *)
Definition has_MAIN (route : option string) : bool :=
  match route with
  | Some s => match String.index 0 "MAIN" s with Some _ => true | None => false end
  | None => false
  end.

(** Lines 81-90. *)
Definition compute_reward (train_info : Row) (route : option string) : Z :=
  let is_valid_route :=
    (String.eqb (row_direction train_info) "north"
       && route_in route ["UP_MAIN"; "UP_PLATFORM"])
    || (String.eqb (row_direction train_info) "south"
          && route_in route ["DOWN_MAIN"; "DOWN_PLATFORM"; "DOWN_SIDING"]) in
  if is_valid_route then
    1 + (if String.eqb (row_priority train_info) "high" && has_MAIN route
         then 2 else 0)
  else -5.

(** [step], lines 56-97.  [fuel] bounds [self.simpy_env.run()].  The array
    is unwrapped before the schedule is looked at, and the route is looked up
    before the row is taken off the schedule and the train is submitted. *)
Definition step (fuel : nat) (action : Action) (e : StationTrainEnv)
    : option (StepResult * StationTrainEnv) :=
  match item_of_array action with
  | None => None
  | Some action =>
      match schedule e with
      | [] =>
          Some ({| observation := _get_observation (schedule e); reward := 0;
                   done := true; truncated := false; info := [] |}, e)
      | train_info :: rest =>
          match action_to_route_get action with
          | None => None
          | Some route_decision =>
              match (_ <- simpy.process (train_process_start
                            {| train_id := row_train_id train_info;
                               direction := row_direction train_info;
                               priority := row_priority train_info;
                               route_decision := route_decision |}) ;;
                     Environment.run fuel) (world e) with
              | Some (_, w) =>
                  Some ({| observation := _get_observation rest;
                           reward := compute_reward train_info route_decision;
                           done := match rest with [] => true | _ => false end;
                           truncated := false; info := [] |},
                        {| schedule := rest; world := w |})
              | None => None
              end
          end
      end
  end.

(** The route [step] decides on for an action: lines 61-62 and 67 together. *)
Definition decision (action : Action) : option (option string) :=
  match item_of_array action with
  | Some key => action_to_route_get key
  | None => None
  end.

End train_env.

(** ** app.py *)

Module app.

(** [_backup_original_times], lines 111-119: the dictionary of the four
    globals. *)
Definition _backup_original_times (g : Globals) : Globals := g.

(** [_apply_speed_multiplier], lines 121-127.  The multiplier is a float;
    [scaled] is the function [t ↦ int(t / multiplier)] of the multiplier the
    helper is called with. *)
Definition _apply_speed_multiplier (scaled : Z -> Z) (g : Globals) : Globals :=
  {| TIME_MAIN_SEGMENT := scaled (TIME_MAIN_SEGMENT g);
     TIME_PLATFORM_SEGMENT := scaled (TIME_PLATFORM_SEGMENT g);
     TIME_AT_PLATFORM := scaled (TIME_AT_PLATFORM g);
     TIME_ON_CROSSOVER := scaled (TIME_ON_CROSSOVER g) |}.

(** [_restore_original_times], lines 129-135. *)
Definition _restore_original_times (original_times : Globals) (g : Globals)
    : Globals :=
  {| TIME_MAIN_SEGMENT := TIME_MAIN_SEGMENT original_times;
     TIME_PLATFORM_SEGMENT := TIME_PLATFORM_SEGMENT original_times;
     TIME_AT_PLATFORM := TIME_AT_PLATFORM original_times;
     TIME_ON_CROSSOVER := TIME_ON_CROSSOVER original_times |}.

(** [int(t / 2.0)] for [SIMULATION_SPEED_MULTIPLIER = 2.0], line 15, and an
    integer [t] of at most 53 bits, as the timing globals are: [t] is then
    exact as a float, halving it is exact, and [int] truncates towards
    zero. *)
Definition scaled_by_2 (t : Z) : Z := Z.quot t 2.

(** [self.action_to_route], lines 28-31 of [train_env.py], in the order in
    which [items()] yields it. *)
Definition action_items : list (Z * string) :=
  [(0, "UP_MAIN"); (1, "UP_PLATFORM"); (2, "DOWN_MAIN");
   (3, "DOWN_PLATFORM"); (4, "DOWN_SIDING")].

(** The rule of [get_naive_sim_data], lines 87-91. *)
Definition naive_route (train_info : train_env.Row) : string :=
  if String.eqb (train_env.row_direction train_info) "north" then
    if String.eqb (train_env.row_priority train_info) "high" then "UP_MAIN"
    else "UP_PLATFORM"
  else
    if String.eqb (train_env.row_priority train_info) "high" then "DOWN_MAIN"
    else "DOWN_PLATFORM".

(** Line 94, [[k for k, v in ...items() if v == route][0]]; [None] stands for
    the [IndexError] of an empty list. *)
Definition naive_action (route : string) : option Z :=
  head (map fst (List.filter (fun kv => String.eqb (snd kv) route) action_items)).

(** Lines 49-51 of [get_ai_sim_data]: [while not done], with [predict] for
    [model.predict(obs, deterministic=True)].  [rounds] bounds the loop. *)
Fixpoint ai_loop (predict : list Z -> train_env.Action) (fuel rounds : nat)
    (obs : list Z) (env : train_env.StationTrainEnv)
    : option train_env.StationTrainEnv :=
  match rounds with
  | O => None
  | S rounds' =>
      match train_env.step fuel (predict obs) env with
      | Some (r, env') =>
          if train_env.done r then Some env'
          else ai_loop predict fuel rounds' (train_env.observation r) env'
      | None => None
      end
  end.

(** [get_ai_sim_data], lines 30-64: the events it returns, if the episode
    does not raise, and the timing globals it leaves behind ([finally]).
    [rows] is the schedule file, [g] the globals it finds. *)
Definition get_ai_sim_data (predict : list Z -> train_env.Action)
    (scaled : Z -> Z) (rows : list train_env.Row) (fuel rounds : nat)
    (g : Globals) : option (list LogEntry) * Globals :=
  let original_times := _backup_original_times g in
  let g1 := _apply_speed_multiplier scaled g in
  let '(obs, env) := train_env.reset rows g1 in
  (match ai_loop predict fuel rounds obs env with
   | Some env' => Some (event_log (train_env.world env'))
   | None => None
   end,
   _restore_original_times original_times g1).

(** Lines 84-96 of [get_naive_sim_data]: [while not env.schedule.empty]. *)
Fixpoint naive_loop (fuel rounds : nat) (env : train_env.StationTrainEnv)
    : option train_env.StationTrainEnv :=
  match train_env.schedule env with
  | [] => Some env
  | train_info :: _ =>
      match rounds with
      | O => None
      | S rounds' =>
          match naive_action (naive_route train_info) with
          | Some action =>
              match train_env.step fuel (train_env.py_int action) env with
              | Some (_, env') => naive_loop fuel rounds' env'
              | None => None
              end
          | None => None
          end
      end
  end.

(** [get_naive_sim_data], lines 66-108. *)
Definition get_naive_sim_data (scaled : Z -> Z) (rows : list train_env.Row)
    (fuel rounds : nat) (g : Globals) : option (list LogEntry) * Globals :=
  let original_times := _backup_original_times g in
  let g1 := _apply_speed_multiplier scaled g in
  let '(_, env) := train_env.reset rows g1 in
  (match naive_loop fuel rounds env with
   | Some env' => Some (event_log (train_env.world env'))
   | None => None
   end,
   _restore_original_times original_times g1).

End app.

(** ** Drivers *)

Module driver.

Import station_simulation.

(** What the code around the simulation does to the world: it submits a
    train ([env.process(station.train_process(...))], as [StationTrainEnv.step]
    does), starts a [test_runner], lets the event loop take a step, or
    assigns the timing globals (as [app.py] does). *)
Inductive DriverOp :=
  | submit (t : Train)
  | start_runner (script : list DriverStep)
  | env_step
  | set_timing (g : Globals).

Definition apply_op (op : DriverOp) (w : World) : option World :=
  match op with
  | submit t =>
      match simpy.process (train_process_start t) w with
      | Some (_, w') => Some w'
      | None => None
      end
  | start_runner script =>
      match simpy.process (test_runner script) w with
      | Some (_, w') => Some w'
      | None => None
      end
  | env_step =>
      match Environment.step w with
      | Some (_, w') => Some w'
      | None => None
      end
  | set_timing g => Some (set_globals g w)
  end.

Fixpoint exec (ops : list DriverOp) (w : World) : option World :=
  match ops with
  | [] => Some w
  | op :: ops' =>
      match apply_op op w with
      | Some w' => exec ops' w'
      | None => None
      end
  end.

(** [env.process(test_runner()); env.run()] on a new station. *)
Definition play (script : list DriverStep) (fuel : nat) (g : Globals)
    : option World :=
  match (_ <- simpy.process (test_runner script) ;; Environment.run fuel)
          (StationSimulation g) with
  | Some (_, w) => Some w
  | None => None
  end.

(** [env.process(test_runner()); env.run()] on a station that exists. *)
Definition play_on (script : list DriverStep) (fuel : nat) (w : World)
    : option World :=
  match (_ <- simpy.process (test_runner script) ;; Environment.run fuel) w with
  | Some (_, w') => Some w'
  | None => None
  end.

(** [env.step(a)] for every [a] of a list, in order, as a training loop or a
    controller calls it. *)
Fixpoint steps (fuel : nat) (actions : list train_env.Action)
    (env : train_env.StationTrainEnv) : option train_env.StationTrainEnv :=
  match actions with
  | [] => Some env
  | action :: rest =>
      match train_env.step fuel action env with
      | Some (_, env') => steps fuel rest env'
      | None => None
      end
  end.

End driver.

Import station_simulation driver.

(** * Properties *)

(** ** Running the event loop *)

Lemma bind_Some {A B} (m : Sim A) (k : A -> Sim B) w b w' :
  bind m k w = Some (b, w') ->
  exists a w1, m w = Some (a, w1) /\ k a w1 = Some (b, w').
Proof.
  unfold bind. destruct (m w) as [[a w1]|]; [|discriminate].
  intros H. exists a, w1. split; [reflexivity|exact H].
Qed.

(** More fuel does not change the outcome of a run that ends. *)
Lemma run_more_fuel n : forall m w r,
  Environment.run n w = Some r -> (n <= m)%nat -> Environment.run m w = Some r.
Proof.
  induction n as [|n IH]; intros m w r H Hle.
  - destruct m; [exact H|].
    simpl in *. unfold bind, gets in *. simpl in *.
    destruct (queue w); [exact H|discriminate].
  - destruct m; [lia|].
    simpl in *. unfold bind, gets in *. simpl in *.
    destruct (queue w); [exact H|].
    destruct (Environment.step w) as [[[] w1]|]; [|discriminate].
    apply IH; [exact H|lia].
Qed.

Lemma run_deterministic n m w r1 r2 :
  Environment.run n w = Some r1 -> Environment.run m w = Some r2 -> r1 = r2.
Proof.
  intros H1 H2.
  destruct (Nat.le_ge_cases n m) as [Hle|Hle].
  - apply (run_more_fuel _ _ _ _ H1) in Hle. congruence.
  - apply (run_more_fuel _ _ _ _ H2) in Hle. congruence.
Qed.


(** [env.process(station.train_process(...)); env.run()]: what
    [StationTrainEnv.step] does with the next train. *)
Definition dispatch (t : Train) (fuel : nat) : Sim unit :=
  _ <- simpy.process (train_process_start t) ;; Environment.run fuel.

Lemma dispatch_more_fuel t n m w r :
  dispatch t n w = Some r -> (n <= m)%nat -> dispatch t m w = Some r.
Proof.
  unfold dispatch, bind. intros H Hle.
  destruct (simpy.process _ _) as [[p w0]|]; [|discriminate].
  exact (run_more_fuel _ _ _ _ H Hle).
Qed.

(** How [step] returns: the action has been unwrapped; either there was no
    row left, or the route has been looked up and the first row has been
    dispatched with it. *)
Lemma step_cases fuel action e r e' :
  train_env.step fuel action e = Some (r, e') ->
  exists key, train_env.item_of_array action = Some key
    /\ ((train_env.schedule e = []
         /\ r = {| train_env.observation := [0; 0]; train_env.reward := 0;
                   train_env.done := true; train_env.truncated := false;
                   train_env.info := [] |}
         /\ e' = e)
        \/ exists row rest route w',
             train_env.schedule e = row :: rest
             /\ train_env.action_to_route_get key = Some route
             /\ dispatch {| train_id := train_env.row_train_id row;
                            direction := train_env.row_direction row;
                            priority := train_env.row_priority row;
                            route_decision := route |} fuel (train_env.world e)
                = Some (tt, w')
             /\ r = {| train_env.observation := train_env._get_observation rest;
                       train_env.reward := train_env.compute_reward row route;
                       train_env.done := match rest with [] => true | _ => false end;
                       train_env.truncated := false; train_env.info := [] |}
             /\ e' = {| train_env.schedule := rest; train_env.world := w' |}).
Proof.
  unfold train_env.step. intros H.
  destruct (train_env.item_of_array action) as [key|]; [|discriminate].
  exists key. split; [reflexivity|].
  destruct (train_env.schedule e) as [|row rest] eqn:Hs.
  - left. injection H as <- <-. repeat split; reflexivity.
  - right. destruct (train_env.action_to_route_get key) as [route|]; [|discriminate].
    unfold dispatch.
    destruct (bind _ _ _) as [[[] w]|] eqn:E; [|discriminate].
    injection H as <- <-. exists row, rest, route, w.
    split; [reflexivity|]. split; [reflexivity|]. split; [exact E|].
    split; reflexivity.
Qed.

(** ** Scenario A *)

(** C3. One train routed UP_PLATFORM on a new station at time 0, with a
    crossover time of 10 and a platform dwell of 50 (whatever the other two
    timings, the identity of the train, and the fuel beyond the 15 steps the
    run takes): the run ends, and the log is spawned at 0, points_set
    {P1, P2, reverse} at 0, enter_track L2_Approach at 0, enter_track
    L1_Platform_2 at 10, finished at 60. *)
Theorem scenario_A_event_log (tid dir prio : string) (main seg : Z) (extra : nat) :
  option_map (fun r => event_log (snd r))
    (dispatch {| train_id := tid; direction := dir; priority := prio;
                 route_decision := Some "UP_PLATFORM" |} (15 + extra)
       (StationSimulation {| TIME_MAIN_SEGMENT := main;
                             TIME_PLATFORM_SEGMENT := seg;
                             TIME_AT_PLATFORM := 50;
                             TIME_ON_CROSSOVER := 10 |}))
  = Some
      [ {| time := 0; log_train_id := tid; log_direction := dir;
           event := "spawned"; details := route_details (Some "UP_PLATFORM") |};
        {| time := 0; log_train_id := tid; log_direction := dir;
           event := "points_set";
           details := points_details ["P1"; "P2"] "reverse" |};
        {| time := 0; log_train_id := tid; log_direction := dir;
           event := "enter_track"; details := track_details "L2_Approach" |};
        {| time := 10; log_train_id := tid; log_direction := dir;
           event := "enter_track"; details := track_details "L1_Platform_2" |};
        {| time := 60; log_train_id := tid; log_direction := dir;
           event := "finished"; details := no_details |} ].
Proof.
  match goal with
  | |- option_map _ (dispatch ?t _ ?w) = _ =>
      destruct (dispatch t 15 w) as [r|] eqn:E;
        [rewrite (dispatch_more_fuel t 15 (15 + extra) w r E) by lia
        |vm_compute in E; discriminate]
  end.
  vm_compute in E. injection E as <-. reflexivity.
Qed.

(** ** An empty schedule *)

(** What [step] returns when there is no row left, together with the
    environment it leaves. *)
Definition nothing_to_do (w : World)
    : train_env.StepResult * train_env.StationTrainEnv :=
  ({| train_env.observation := [0; 0]; train_env.reward := 0;
      train_env.done := true; train_env.truncated := false;
      train_env.info := [] |},
   {| train_env.schedule := []; train_env.world := w |}).

(** C10 as the specification states it: every call on an empty schedule
    returns. *)
Definition empty_schedule_always_returns : Prop :=
  forall (fuel : nat) (action : train_env.Action) (w : World),
    train_env.step fuel action
      {| train_env.schedule := []; train_env.world := w |}
    = Some (nothing_to_do w).

(** [step(np.array([7, 8]))]: line 62 raises before line 64 looks at the
    schedule. *)
Lemma array_raises_on_empty_schedule : ~ empty_schedule_always_returns.
Proof.
  intros H.
  specialize (H 0%nat (train_env.np_ndarray [train_env.py_int 7; train_env.py_int 8])
                (StationSimulation initial_globals)).
  discriminate H.
Qed.

(** The size of an action that is an array. *)
Definition array_size (action : train_env.Action) : option nat :=
  match action with
  | train_env.np_ndarray elements => Some (length elements)
  | _ => None
  end.

(** C10, amended. On an empty schedule [step] raises exactly when the action
    is an array whose size is not one.  For every other action, hashable or
    not, in or out of range, it returns observation [0, 0], reward 0, done,
    not truncated and an empty info, and the environment it leaves is the one
    it found: no process is submitted, the clock and the log are
    untouched. *)
Theorem step_on_empty_schedule (fuel : nat) (action : train_env.Action) (w : World) :
  train_env.step fuel action {| train_env.schedule := []; train_env.world := w |}
  = match array_size action with
    | Some n => if (n =? 1)%nat then Some (nothing_to_do w) else None
    | None => Some (nothing_to_do w)
    end.
Proof.
  destruct action as [a|b|f|s| |items|items|elements]; try reflexivity.
  destruct elements as [|x [|y elements]]; reflexivity.
Qed.

(** ** The order of the event queue *)

Definition qtime (a : QueueEntry) : Z := fst (fst (fst a)).
Definition qprio (a : QueueEntry) : nat := snd (fst (fst a)).
Definition qeid (a : QueueEntry) : nat := snd (fst a).

Definition before (a b : QueueEntry) : Prop := simpy.entry_lt a b = true.

Lemma before_spec a b :
  before a b <->
  qtime a < qtime b
  \/ (qtime a = qtime b
      /\ ((qprio a < qprio b)%nat \/ (qprio a = qprio b /\ (qeid a < qeid b)%nat))).
Proof.
  destruct a as [[[ta pa] ia] ea], b as [[[tb pb] ib] eb].
  unfold before, simpy.entry_lt, qtime, qprio, qeid. simpl.
  rewrite orb_true_iff, andb_true_iff, orb_true_iff, andb_true_iff.
  rewrite Z.ltb_lt, Z.eqb_eq, !Nat.ltb_lt, Nat.eqb_eq. reflexivity.
Qed.

Lemma before_time a b : before a b -> qtime a <= qtime b.
Proof. rewrite before_spec. lia. Qed.

Lemma before_trans a b c : before a b -> before b c -> before a c.
Proof. rewrite !before_spec. lia. Qed.

Lemma before_total a b : ~ before a b -> qeid a <> qeid b -> before b a.
Proof. rewrite !before_spec. lia. Qed.

Lemma Forall_heappush (P : QueueEntry -> Prop) e q :
  P e -> Forall P q -> Forall P (simpy.heappush e q).
Proof.
  intros He Hq. induction Hq as [|x q Hx Hq IH]; simpl.
  - constructor; [exact He|constructor].
  - destruct (simpy.entry_lt e x); repeat constructor; assumption.
Qed.

Lemma heappush_sorted e q :
  StronglySorted before q ->
  Forall (fun x => qeid x <> qeid e) q ->
  StronglySorted before (simpy.heappush e q).
Proof.
  intros Hs Hne. induction Hs as [|x q Hs IH Hx]; simpl.
  - repeat constructor.
  - inversion Hne as [|? ? Hxe Hne']; subst.
    destruct (simpy.entry_lt e x) eqn:E.
    + constructor; [constructor; assumption|].
      constructor; [exact E|].
      eapply Forall_impl; [exact Hx|].
      intros y Hy. exact (before_trans _ _ _ E Hy).
    + constructor; [apply IH; exact Hne'|].
      apply Forall_heappush; [|exact Hx].
      apply before_total; [unfold before; rewrite E; discriminate|congruence].
Qed.

(** ** The invariant of the kernel *)

Definition grant_release (p : ref * Z * Z) : list Hold :=
  [Granted (fst (fst p)) (snd (fst p)); Released (fst (fst p)) (snd p)].

(** The history of a resource is a sequence of grants, each followed by the
    release of the same request, and then the grant of the present user, if
    there is one. *)
Definition paired (us : list ref) (h : list Hold) : Prop :=
  exists closed open,
    h = flat_map grant_release closed ++ open
    /\ Forall2 (fun q a => exists t, a = Granted q t) us open.

Record resource_ok (x : Resource) : Prop := {
  ok_capacity : capacity x = 1%nat;
  ok_users : (length (users x) <= 1)%nat;
  ok_paired : paired (users x) (history x)
}.

Record Inv (w : World) : Prop := {
  inv_sorted : StronglySorted before (queue w);
  inv_queue : Forall (fun a => now w <= qtime a /\ (qeid a < eid w)%nat) (queue w);
  inv_log_past : Forall (fun e => time e <= now w) (event_log w);
  inv_log_sorted : StronglySorted (fun a b => time a <= time b) (event_log w);
  inv_resources : Forall resource_ok (resources w);
  inv_count : length (resources w) = 15%nat
}.

(** A computation preserves the invariant when every world it returns in
    satisfies it, provided the world it started in did. *)
Definition pres {A} (m : Sim A) : Prop :=
  forall w a w', Inv w -> m w = Some (a, w') -> Inv w'.

Lemma pres_ret {A} (a : A) : pres (ret a).
Proof. intros w b w' HI H. inversion H; subst. exact HI. Qed.

Lemma pres_raise {A} : pres (@raise A).
Proof. intros w b w' HI H. discriminate. Qed.

Lemma pres_gets {A} (f : World -> A) : pres (gets f).
Proof. intros w b w' HI H. inversion H; subst. exact HI. Qed.

Lemma pres_bind {A B} (m : Sim A) (k : A -> Sim B) :
  pres m -> (forall a, pres (k a)) -> pres (bind m k).
Proof.
  intros Hm Hk w b w' HI H.
  apply bind_Some in H as (a & w1 & H1 & H2).
  exact (Hk a w1 b w' (Hm w a w1 HI H1) H2).
Qed.

Lemma pres_for_each {A} (f : A -> Sim unit) xs :
  (forall x, pres (f x)) -> pres (for_each f xs).
Proof.
  intros Hf. induction xs as [|x xs IH]; simpl.
  - apply pres_ret.
  - apply pres_bind; [apply Hf|intros _; exact IH].
Qed.

Lemma pres_map_m {A B} (f : A -> Sim B) xs :
  (forall x, pres (f x)) -> pres (simpy.map_m f xs).
Proof.
  intros Hf. induction xs as [|x xs IH]; simpl.
  - apply pres_ret.
  - apply pres_bind; [apply Hf|intros y].
    apply pres_bind; [exact IH|intros ys; apply pres_ret].
Qed.

Lemma pres_modify_events (f : World -> list Event) :
  pres (modify (fun w => set_events (f w) w)).
Proof.
  intros w [] w' [] H. inversion H; subst. constructor; assumption.
Qed.

Lemma pres_set_active_proc p : pres (modify (set_active_proc p)).
Proof.
  intros w [] w' [] H. inversion H; subst. constructor; assumption.
Qed.

Lemma pres_new_event e : pres (simpy.new_event e).
Proof.
  intros w a w' [] H. inversion H; subst. constructor; assumption.
Qed.

Lemma pres_get_event ev : pres (simpy.get_event ev).
Proof.
  intros w a w' HI H. unfold simpy.get_event in H.
  destruct (events w !! ev); inversion H; subst. exact HI.
Qed.

Lemma pres_put_event ev e : pres (simpy.put_event ev e).
Proof. apply (pres_modify_events (fun w => <[ev := e]> (events w))). Qed.

Lemma pres_get_resource r : pres (simpy.get_resource r).
Proof.
  intros w a w' HI H. unfold simpy.get_resource in H.
  destruct (resources w !! r); inversion H; subst. exact HI.
Qed.

Lemma pres_schedule ev prio delay :
  0 <= delay -> pres (simpy.schedule ev prio delay).
Proof.
  intros Hd w [] w' [Hs Hq Hp Hl Hr Hc] H. inversion H; subst; clear H.
  constructor; simpl; try assumption.
  - apply heappush_sorted; [exact Hs|].
    eapply Forall_impl; [exact Hq|]. simpl. intros a [_ Ha].
    unfold qeid at 2. simpl. lia.
  - apply Forall_heappush.
    + unfold qtime, qeid. simpl. lia.
    + eapply Forall_impl; [exact Hq|]. simpl. intros a [Ht Ha]. lia.
Qed.

Lemma pres_log_event tid dir ev d : pres (log_event tid dir ev d).
Proof.
  intros w [] w' [Hs Hq Hp Hl Hr Hc] H. inversion H; subst; clear H.
  constructor; simpl; try assumption.
  - apply Forall_app. split; [exact Hp|].
    constructor; [simpl; lia|constructor].
  - clear -Hp Hl. induction Hl as [|x l Hl IH Hx]; simpl.
    + repeat constructor.
    + inversion Hp; subst. constructor; [apply IH; assumption|].
      apply Forall_app. split; [exact Hx|].
      constructor; [simpl; assumption|constructor].
Qed.

Lemma pres_put_resource r x : resource_ok x -> pres (simpy.put_resource r x).
Proof.
  intros Hx w [] w' [Hs Hq Hp Hl Hr Hc] H. inversion H; subst; clear H.
  constructor; simpl; try assumption.
  - apply Forall_insert; assumption.
  - rewrite length_insert. exact Hc.
Qed.

Lemma pres_set_points (f : World -> gmap string Point) :
  pres (modify (fun w => set_points (f w) w)).
Proof.
  intros w [] w' [] H. inversion H; subst. constructor; assumption.
Qed.

(** Reading a resource yields one that is in order. *)
Lemma pres_with_resource {B} r (k : Resource -> Sim B) :
  (forall x, resource_ok x -> pres (k x)) -> pres (bind (simpy.get_resource r) k).
Proof.
  intros Hk w b w' HI H. apply bind_Some in H as (x & w1 & H1 & H2).
  unfold simpy.get_resource in H1.
  destruct (resources w !! r) as [y|] eqn:E; [|discriminate].
  inversion H1; subst.
  refine (Hk x _ w1 b w' HI H2).
  exact (proj1 (Forall_lookup _ _) (inv_resources _ HI) r x E).
Qed.

Lemma ok_queues x pq gq :
  resource_ok x ->
  resource_ok {| capacity := capacity x; users := users x; put_queue := pq;
                 get_queue := gq; history := history x |}.
Proof. intros [Hc Hu Hp]. constructor; assumption. Qed.

Lemma ok_grant x ev t :
  resource_ok x -> (length (users x) < capacity x)%nat ->
  resource_ok {| capacity := capacity x; users := users x ++ [ev];
                 put_queue := put_queue x; get_queue := get_queue x;
                 history := history x ++ [Granted ev t] |}.
Proof.
  intros [Hc Hu (closed & open & Hh & Ho)] Hlt.
  rewrite Hc in Hlt. destruct (users x) as [|u us]; [|simpl in Hlt; lia].
  inversion Ho; subst.
  constructor; simpl; [exact Hc|lia|].
  exists closed, [Granted ev t]. split.
  - rewrite Hh, app_nil_r. reflexivity.
  - constructor; [exists t; reflexivity|constructor].
Qed.

Lemma list_remove_singleton req us rest :
  (length us <= 1)%nat -> simpy.list_remove req us = Some rest ->
  us = [req] /\ rest = [].
Proof.
  destruct us as [|u [|u' us]]; simpl; intros Hl H; [discriminate| |lia].
  destruct (Nat.eqb_spec req u) as [->|]; [|discriminate].
  inversion H; subst. split; reflexivity.
Qed.

Lemma ok_release x req us t :
  resource_ok x -> simpy.list_remove req (users x) = Some us ->
  resource_ok {| capacity := capacity x; users := us;
                 put_queue := put_queue x; get_queue := get_queue x;
                 history := history x ++ [Released req t] |}.
Proof.
  intros [Hc Hu (closed & open & Hh & Ho)] Hrm.
  destruct (list_remove_singleton _ _ _ Hu Hrm) as [Hus ->].
  rewrite Hus in Ho.
  inversion Ho as [|? a ? rest [t0 ->] Hrest]; subst. inversion Hrest; subst.
  constructor; simpl; [exact Hc|lia|].
  exists (closed ++ [(req, t0, t)]), []. split.
  - rewrite Hh, flat_map_app. simpl. rewrite <- !app_assoc. reflexivity.
  - constructor.
Qed.

Create HintDb pres.
#[local] Hint Resolve pres_new_event pres_get_event pres_put_event
  pres_get_resource pres_log_event pres_set_active_proc : pres.

Ltac pres_tac :=
  repeat match goal with
    | |- pres (ret _) => apply pres_ret
    | |- pres raise => apply pres_raise
    | |- pres (gets _) => apply pres_gets
    | |- pres (simpy.schedule _ _ _) => apply pres_schedule; lia
    | |- pres (bind (simpy.get_resource _) _) =>
        apply pres_with_resource; intros ? ?
    | |- pres (simpy.put_resource _ _) =>
        apply pres_put_resource, ok_queues; assumption
    | |- pres (bind _ _) => apply pres_bind; [|intros ?]
    | |- pres (for_each _ _) => apply pres_for_each; intros ?
    | |- pres (simpy.map_m _ _) => apply pres_map_m; intros ?
    | |- pres (match ?x with _ => _ end) => destruct x
    | |- pres _ => solve [auto with pres]
    end.

Lemma pres_append_callback ev cb : pres (simpy.append_callback ev cb).
Proof. unfold simpy.append_callback. pres_tac. Qed.

Lemma pres_succeed ev : pres (simpy.succeed ev).
Proof. unfold simpy.succeed. pres_tac. Qed.

Lemma pres_timeout delay : pres (simpy.timeout delay).
Proof.
  unfold simpy.timeout. destruct (Z.ltb_spec delay 0); pres_tac.
Qed.

Lemma pres_process g : pres (simpy.process g).
Proof. unfold simpy.process. pres_tac. Qed.

#[local] Hint Resolve pres_append_callback pres_succeed pres_timeout
  pres_process : pres.

Lemma pres_Resource_do_put r ev : pres (simpy.Resource_do_put r ev).
Proof.
  unfold simpy.Resource_do_put. apply pres_with_resource. intros x Hx.
  apply pres_bind; [apply pres_gets|intros t].
  destruct (Nat.ltb_spec (length (users x)) (capacity x)); pres_tac.
  apply pres_put_resource, ok_grant; assumption.
Qed.

Lemma pres_Resource_do_get r ev : pres (simpy.Resource_do_get r ev).
Proof.
  unfold simpy.Resource_do_get.
  apply pres_bind; [apply pres_get_event|intros e].
  destruct (kind e); try apply pres_raise.
  apply pres_with_resource. intros x Hx.
  apply pres_bind; [apply pres_gets|intros t].
  destruct (simpy.list_remove request (users x)) eqn:E; pres_tac.
  apply pres_put_resource. eapply ok_release; eassumption.
Qed.

#[local] Hint Resolve pres_Resource_do_put pres_Resource_do_get : pres.

Lemma pres_trigger_put r : pres (simpy.trigger_put r).
Proof.
  unfold simpy.trigger_put. pres_tac.
Qed.

Lemma pres_trigger_get r : pres (simpy.trigger_get r).
Proof.
  unfold simpy.trigger_get. pres_tac.
Qed.

#[local] Hint Resolve pres_trigger_put pres_trigger_get : pres.

Lemma pres_request r : pres (simpy.request r).
Proof.
  unfold simpy.request. pres_tac.
Qed.

Lemma pres_release r req : pres (simpy.release r req).
Proof.
  unfold simpy.release. pres_tac.
Qed.

#[local] Hint Resolve pres_request pres_release : pres.

Lemma pres_Request_exit r req : pres (simpy.Request_exit r req).
Proof.
  unfold simpy.Request_exit. pres_tac.
Qed.

Lemma pres_check c : pres (simpy.check c).
Proof. unfold simpy.check. pres_tac. Qed.

#[local] Hint Resolve pres_Request_exit pres_check : pres.

Lemma pres_all_of evs : pres (simpy.all_of evs).
Proof. unfold simpy.all_of. pres_tac. Qed.

#[local] Hint Resolve pres_all_of : pres.

Lemma pres_and_events a rest : pres (simpy.and_events a rest).
Proof.
  unfold simpy.and_events.
  assert (Ha : pres (ret a)) by apply pres_ret.
  revert Ha. generalize (ret a). induction rest as [|b rest IH]; simpl; intros m Hm.
  - exact Hm.
  - apply IH. pres_tac.
Qed.

Lemma pres_remove_check_callbacks depth : forall c,
  pres (simpy.remove_check_callbacks depth c).
Proof.
  induction depth as [|depth IH]; intros c; simpl; pres_tac; apply IH.
Qed.

Lemma pres_build_value c : pres (simpy.build_value c).
Proof. apply pres_remove_check_callbacks. Qed.

#[local] Hint Resolve pres_and_events pres_build_value : pres.

Lemma pres_get_point name : pres (get_point name).
Proof.
  intros w a w' HI H. unfold get_point in H.
  destruct (points w !! name); inversion H; subst. exact HI.
Qed.

Lemma pres_set_point_state position name : pres (set_point_state position name).
Proof.
  unfold set_point_state. apply pres_bind; [apply pres_get_point|intros pt].
  apply (pres_set_points
           (fun w => <[name := {| resource := resource pt; state := position |}]>
                       (points w))).
Qed.

#[local] Hint Resolve pres_get_point pres_set_point_state : pres.

Lemma pres_leave_points reqs : pres (leave_points reqs).
Proof. unfold leave_points. pres_tac. Qed.

#[local] Hint Resolve pres_leave_points : pres.

Lemma pres_enter_track p tid dir reqs i : pres (enter_track p tid dir reqs i).
Proof. unfold enter_track. pres_tac. Qed.

Lemma pres_run_script script : pres (run_script script).
Proof.
  induction script as [|[t|d] script IH]; simpl; pres_tac.
Qed.

#[local] Hint Resolve pres_enter_track pres_run_script : pres.

Lemma pres_send g : pres (send g).
Proof. destruct g; simpl; pres_tac. Qed.

#[local] Hint Resolve pres_send : pres.

Lemma pres_resume_loop rounds : forall p, pres (Environment.resume_loop rounds p).
Proof.
  induction rounds as [|rounds IH]; intros p; simpl;
    unfold Environment.set_generator; pres_tac.
Qed.

Lemma pres_resume p : pres (Environment.resume p).
Proof.
  unfold Environment.resume. pres_tac; apply pres_resume_loop.
Qed.

#[local] Hint Resolve pres_resume : pres.

Lemma pres_call cb : pres (Environment.call cb).
Proof. destruct cb; simpl; pres_tac. Qed.

#[local] Hint Resolve pres_call : pres.

Lemma Inv_pop w t p i ev q :
  Inv w -> queue w = (t, p, i, ev) :: q ->
  Inv (set_now t (set_queue q (eid w) w)).
Proof.
  intros [Hs Hq Hp Hl Hr Hc] E. rewrite E in Hs, Hq.
  inversion Hs as [|? ? Hs' Hhd]; subst.
  inversion Hq as [|? ? [Ht Hi] Hq']; subst.
  unfold qtime in Ht. simpl in Ht.
  constructor; simpl; try assumption.
  - rewrite Forall_forall in Hhd, Hq'. apply Forall_forall. intros a Ha.
    split; [|exact (proj2 (Hq' a Ha))].
    exact (before_time _ _ (Hhd a Ha)).
  - eapply Forall_impl; [exact Hp|]. simpl. intros e He. lia.
Qed.

Lemma pres_step : pres Environment.step.
Proof.
  intros w a w' HI H. unfold Environment.step in H.
  apply bind_Some in H as (q & w1 & H1 & H). inversion H1; subst; clear H1.
  destruct (queue w1) as [|[[[t p] i] ev] q'] eqn:E; [discriminate|].
  apply bind_Some in H as (n & w2 & H1 & H). inversion H1; subst; clear H1.
  apply bind_Some in H as ([] & w3 & H1 & H). inversion H1; subst; clear H1.
  apply bind_Some in H as ([] & w4 & H1 & H). inversion H1; subst; clear H1.
  assert (Hk : pres (e <- simpy.get_event ev ;;
                     match callbacks e with
                     | Some cbs =>
                         simpy.put_event ev {| callbacks := None;
                                               triggered := triggered e;
                                               kind := kind e |} ;;;
                         for_each Environment.call cbs
                     | None => raise
                     end)) by pres_tac.
  exact (Hk _ _ _ (Inv_pop _ _ _ _ _ _ HI E) H).
Qed.

Lemma new_resource_ok : resource_ok new_resource.
Proof.
  constructor; simpl; [reflexivity|lia|].
  exists [], []. split; [reflexivity|constructor].
Qed.

Lemma Inv_StationSimulation g : Inv (StationSimulation g).
Proof.
  constructor; try solve [constructor].
  apply Forall_replicate, new_resource_ok.
Qed.

Lemma Inv_apply_op op w w' : Inv w -> apply_op op w = Some w' -> Inv w'.
Proof.
  intros HI H. destruct op as [t|script| |g]; unfold apply_op in H.
  - destruct (simpy.process _ w) as [[p w1]|] eqn:E; inversion H; subst.
    exact (pres_process _ _ _ _ HI E).
  - destruct (simpy.process _ w) as [[p w1]|] eqn:E; inversion H; subst.
    exact (pres_process _ _ _ _ HI E).
  - destruct (Environment.step w) as [[[] w1]|] eqn:E; inversion H; subst.
    exact (pres_step _ _ _ HI E).
  - inversion H; subst. destruct HI. constructor; assumption.
Qed.

Lemma Inv_exec ops : forall w w', Inv w -> exec ops w = Some w' -> Inv w'.
Proof.
  induction ops as [|op ops IH]; simpl; intros w w' HI H.
  - inversion H; subst. exact HI.
  - destruct (apply_op op w) as [w1|] eqn:E; [|discriminate].
    exact (IH _ _ (Inv_apply_op _ _ _ HI E) H).
Qed.

Lemma sorted_times (l : list LogEntry) :
  StronglySorted (fun a b => time a <= time b) l ->
  StronglySorted Z.le (map time l).
Proof.
  induction 1 as [|x l Hl IH Hx]; simpl; constructor; [exact IH|].
  apply Forall_map. exact Hx.
Qed.

(** The run of [test_runner] in the source, taken step by step to its end. *)
Definition test_script : list DriverStep :=
  [ Submit {| train_id := "N1(P)"; direction := "north"; priority := "low";
              route_decision := Some "UP_PLATFORM" |};
    Wait 5;
    Submit {| train_id := "N2(M)"; direction := "north"; priority := "high";
              route_decision := Some "UP_MAIN" |};
    Wait 10;
    Submit {| train_id := "S1(P)"; direction := "south"; priority := "low";
              route_decision := Some "DOWN_PLATFORM" |};
    Wait 15;
    Submit {| train_id := "S2(S)"; direction := "south"; priority := "low";
              route_decision := Some "DOWN_SIDING" |} ].

Definition test_ops : list DriverOp :=
  start_runner test_script :: replicate 71 env_step.

Definition test_world : World :=
  default (StationSimulation initial_globals)
    (exec test_ops (StationSimulation initial_globals)).

(** ** The event log is ordered in time *)

(** C8. Whatever the driver does (submitting trains, starting runner scripts,
    stepping the event loop, assigning the timing globals), the [time] values
    of the event log, read in the order in which the entries were appended,
    never decrease. *)
Theorem event_log_times_nondecreasing (g : Globals) (ops : list DriverOp) (w : World) :
  exec ops (StationSimulation g) = Some w ->
  StronglySorted Z.le (map time (event_log w)).
Proof.
  intros H. apply sorted_times.
  exact (inv_log_sorted _ (Inv_exec _ _ _ (Inv_StationSimulation g) H)).
Qed.

Lemma event_log_times_nondecreasing_witness :
  StronglySorted Z.le (map time (event_log test_world)).
Proof.
  apply (event_log_times_nondecreasing initial_globals test_ops test_world).
  vm_compute. reflexivity.
Defined.

(** ** Replaying a run *)

(** C4 as the specification states it: two runs of the same script on a new
    station with the same timings end with the same log, and entries of the
    event queue with the same time leave it in the order of their sequence
    numbers. *)
Definition replay_identical_and_fifo : Prop :=
  (forall g script n m w1 w2,
      play script n g = Some w1 -> play script m g = Some w2 ->
      event_log w1 = event_log w2)
  /\ (forall g ops w i j a b,
         exec ops (StationSimulation g) = Some w ->
         queue w !! i = Some a -> queue w !! j = Some b -> (i < j)%nat ->
         qtime a = qtime b -> (qeid a < qeid b)%nat).

(** Train A takes UP_MAIN at time 0; the runner waits 25 and submits B. *)
Definition urgent_script : list DriverStep :=
  [ Submit {| train_id := "A"; direction := "north"; priority := "low";
              route_decision := Some "UP_MAIN" |};
    Wait 25;
    Submit {| train_id := "B"; direction := "north"; priority := "low";
              route_decision := Some "UP_MAIN" |} ].

Definition urgent_ops : list DriverOp :=
  start_runner urgent_script :: replicate 9 env_step.

Definition urgent_world : World :=
  default (StationSimulation initial_globals)
    (exec urgent_ops (StationSimulation initial_globals)).

Lemma exec_urgent_world :
  exec urgent_ops (StationSimulation initial_globals) = Some urgent_world.
Proof. vm_compute. reflexivity. Qed.

(** At time 25 the queue holds the [Initialize] event of B's process, urgent
    and scheduled with sequence number 11, ahead of the timeout that ends A's
    dwell, scheduled at time 0 with sequence number 8. *)
Lemma urgent_event_overtakes : ~ replay_identical_and_fifo.
Proof.
  intros [_ H].
  assert (H0 : queue urgent_world !! 0%nat = Some (25, 0%nat, 11%nat, 15%nat))
    by (vm_compute; reflexivity).
  assert (H1 : queue urgent_world !! 1%nat = Some (25, 1%nat, 8%nat, 11%nat))
    by (vm_compute; reflexivity).
  specialize (H initial_globals urgent_ops urgent_world 0%nat 1%nat _ _
                exec_urgent_world H0 H1).
  unfold qtime, qeid in H. simpl in H. lia.
Qed.

(** The overtaking shows in the log: B is spawned at 25 before A enters its
    second section at 25. *)
Example urgent_script_log :
  option_map (fun w => map (fun e => (time e, log_train_id e, event e))
                         (event_log w))
    (play urgent_script 40 initial_globals)
  = Some [ (0, "A", "spawned"); (0, "A", "points_set");
           (0, "A", "enter_track"); (25, "B", "spawned");
           (25, "A", "enter_track"); (50, "A", "finished");
           (50, "B", "points_set"); (50, "B", "enter_track");
           (75, "B", "enter_track"); (100, "B", "finished") ].
Proof. vm_compute. reflexivity. Qed.

(** ** Joint acquisition of a set of points *)

(** The request [snd rq] is among the users of the resource [fst rq]. *)
Definition held (w : World) (rq : ref * ref) : bool :=
  match resources w !! fst rq with
  | Some x => existsb (Nat.eqb (snd rq)) (users x)
  | None => false
  end.

(** C1 as the specification states it: a path process that is suspended in
    the joint acquisition of its points holds either none of them or all of
    them, in every world that the driver can observe. *)
Definition joint_acquisition_is_atomic : Prop :=
  forall g ops w p e path tid dir reqs,
    exec ops (StationSimulation g) = Some w ->
    events w !! p = Some e ->
    kind e = Process (path_joint path tid dir reqs) ->
    forallb (held w) reqs = true
    \/ forallb (fun rq => negb (held w rq)) reqs = true.

(** The run of [test_runner] in the source after 38 steps, at time 60: S1(P)
    has held P3 and P4 since 15 and keeps them until 75; S2(S), submitted at
    30 for the siding, waits for P3 and P4 and has held P5 since 30. *)
Definition siding_ops : list DriverOp :=
  start_runner test_script :: replicate 38 env_step.

Definition siding_world : World :=
  default (StationSimulation initial_globals)
    (exec siding_ops (StationSimulation initial_globals)).

Lemma partial_acquisition_observable : ~ joint_acquisition_is_atomic.
Proof.
  intros H.
  specialize (H initial_globals siding_ops siding_world 38%nat
                {| callbacks := Some [Process_resume 36%nat]; triggered := false;
                   kind := Process (path_joint path_down_siding "S2(S)" "south"
                                      [(10, 40); (11, 41); (14, 42)]%nat) |}
                path_down_siding "S2(S)" "south"
                [(10, 40); (11, 41); (14, 42)]%nat).
  destruct H as [H|H]; try (vm_compute in H; discriminate);
    vm_compute; reflexivity.
Qed.

(** ** Two trains that need the same track section *)






(** ** The timing globals *)

(** C7 as the specification states it: the timings in force are those the
    station was built with, and no helper of the application alters them. *)
Definition timings_fixed_at_construction : Prop :=
  forall (scaled : Z -> Z) (g : Globals),
    app._apply_speed_multiplier scaled g = g.

(** With the multiplier 2.0 of [app.py], the globals 25, 40, 50, 10 become
    12, 20, 25, 5. *)
Lemma speed_multiplier_rewrites_the_globals : ~ timings_fixed_at_construction.
Proof.
  intros H. specialize (H app.scaled_by_2 initial_globals).
  apply (f_equal TIME_MAIN_SEGMENT) in H. vm_compute in H. discriminate.
Qed.

(** A station built under the initial globals runs scenario A at half the
    durations once the globals have been rewritten. *)
Example scenario_A_after_rescaling :
  option_map (fun r => map time (event_log (snd r)))
    (dispatch {| train_id := "N1"; direction := "north"; priority := "low";
                 route_decision := Some "UP_PLATFORM" |} 15
       (set_globals (app._apply_speed_multiplier app.scaled_by_2 initial_globals)
          (StationSimulation initial_globals)))
  = Some [0; 0; 0; 5; 30].
Proof. vm_compute. reflexivity. Qed.

(** C7, amended. The four durations are globals of the module
    [station_simulation], initially 25, 40, 50 and 10; a station is built
    without them and carries whatever the module holds; a path step reads the
    global when it creates its timeout, which is scheduled that much later;
    [_apply_speed_multiplier] overwrites all four with their scaled values,
    and [_restore_original_times] applied to the backup puts the former
    values back. *)
Theorem timings_are_module_globals
    (scaled : Z -> Z) (g : Globals) (w : World)
    (p : Path) (tid dir : string) (reqs : list (ref * ref)) (i : nat)
    (track q section : ref) (name : string) (duration : TimeName) :
  path_tracks p !! i = Some (section, name, duration) ->
  0 <= read_time (globals w) duration ->
  initial_globals
  = {| TIME_MAIN_SEGMENT := 25; TIME_PLATFORM_SEGMENT := 40;
       TIME_AT_PLATFORM := 50; TIME_ON_CROSSOVER := 10 |}
  /\ globals (StationSimulation g) = g
  /\ (exists w',
        send (path_enter p tid dir reqs i track q) w
        = Some ((path_dwell p tid dir reqs i track q, Some (length (events w))), w')
        /\ queue w'
           = simpy.heappush
               (now w + read_time (globals w) duration, simpy.NORMAL, eid w,
                length (events w)) (queue w))
  /\ app._apply_speed_multiplier scaled g
     = {| TIME_MAIN_SEGMENT := scaled (TIME_MAIN_SEGMENT g);
          TIME_PLATFORM_SEGMENT := scaled (TIME_PLATFORM_SEGMENT g);
          TIME_AT_PLATFORM := scaled (TIME_AT_PLATFORM g);
          TIME_ON_CROSSOVER := scaled (TIME_ON_CROSSOVER g) |}
  /\ app._restore_original_times (app._backup_original_times g)
       (app._apply_speed_multiplier scaled g) = g.
Proof.
  intros Hi Hd. repeat split.
  - unfold send. rewrite Hi.
    unfold bind, log_event, modify, gets, simpy.timeout. simpl.
    destruct (Z.ltb_spec (read_time (globals w) duration) 0) as [Hneg|_]; [lia|].
    eexists. split; reflexivity.
  - destruct g. reflexivity.
Qed.

Lemma timings_are_module_globals_witness :
  initial_globals
  = {| TIME_MAIN_SEGMENT := 25; TIME_PLATFORM_SEGMENT := 40;
       TIME_AT_PLATFORM := 50; TIME_ON_CROSSOVER := 10 |}
  /\ globals (StationSimulation initial_globals) = initial_globals
  /\ (exists w',
        send (path_enter path_up_main "N1" "north" [] 0 line2_up_main_approach
                0%nat) (StationSimulation initial_globals)
        = Some ((path_dwell path_up_main "N1" "north" [] 0
                   line2_up_main_approach 0%nat,
                 Some (length (events (StationSimulation initial_globals)))), w')
        /\ queue w'
           = simpy.heappush
               (now (StationSimulation initial_globals)
                + read_time (globals (StationSimulation initial_globals))
                    MAIN_SEGMENT,
                simpy.NORMAL, eid (StationSimulation initial_globals),
                length (events (StationSimulation initial_globals)))
               (queue (StationSimulation initial_globals)))
  /\ app._apply_speed_multiplier app.scaled_by_2 initial_globals
     = {| TIME_MAIN_SEGMENT := app.scaled_by_2 (TIME_MAIN_SEGMENT initial_globals);
          TIME_PLATFORM_SEGMENT :=
            app.scaled_by_2 (TIME_PLATFORM_SEGMENT initial_globals);
          TIME_AT_PLATFORM := app.scaled_by_2 (TIME_AT_PLATFORM initial_globals);
          TIME_ON_CROSSOVER := app.scaled_by_2 (TIME_ON_CROSSOVER initial_globals) |}
  /\ app._restore_original_times (app._backup_original_times initial_globals)
       (app._apply_speed_multiplier app.scaled_by_2 initial_globals)
     = initial_globals.
Proof.
  apply (timings_are_module_globals app.scaled_by_2 initial_globals
           (StationSimulation initial_globals) path_up_main "N1" "north" [] 0
           line2_up_main_approach 0%nat line2_up_main_approach "L2_Approach"
           MAIN_SEGMENT).
  - reflexivity.
  - vm_compute. discriminate.
Defined.

(** ** Unknown routes *)

Definition route_names : list string :=
  ["UP_MAIN"; "UP_PLATFORM"; "DOWN_MAIN"; "DOWN_PLATFORM"; "DOWN_SIDING"].

Lemma path_function_unknown (route : option string) :
  (forall name, route = Some name -> name ∉ route_names) ->
  path_function route = None.
Proof.
  intros H. destruct route as [name|]; [|reflexivity].
  specialize (H name eq_refl). unfold path_function, path_map.
  unfold route_names in H.
  rewrite !lookup_insert_ne; [apply lookup_empty|..];
    intros <-; apply H; set_solver.
Qed.

Definition spawned (t : Train) (at_time : Z) : LogEntry :=
  {| time := at_time; log_train_id := train_id t; log_direction := direction t;
     event := "spawned"; details := route_details (route_decision t) |}.

Definition finished (t : Train) (at_time : Z) : LogEntry :=
  {| time := at_time; log_train_id := train_id t; log_direction := direction t;
     event := "finished"; details := no_details |}.

Lemma send_unknown_route t w :
  path_function (route_decision t) = None ->
  send (train_process_start t) w
  = Some ((exhausted, None),
          set_event_log (event_log w ++ [spawned t (now w); finished t (now w)]) w).
Proof.
  intros H. unfold send. rewrite H. 
  unfold bind, log_event, modify, ret. simpl. rewrite <- app_assoc. reflexivity.
Qed.

Lemma resume_unknown_route t w p cbs :
  path_function (route_decision t) = None ->
  events w !! p = Some {| callbacks := Some cbs; triggered := false;
                          kind := Process (train_process_start t) |} ->
  Environment.resume p w
  = Some (tt,
          set_active_proc None
            (set_queue (simpy.heappush (now w + 0, simpy.NORMAL, eid w, p) (queue w))
               (S (eid w))
               (set_events
                  (<[p := {| callbacks := Some cbs; triggered := true;
                             kind := Process exhausted |}]> (events w))
                  (set_event_log
                     (event_log w ++ [spawned t (now w); finished t (now w)]) w)))).
Proof.
  intros H Hp. pose proof (lookup_lt_Some _ _ _ Hp) as Hlt.
  unfold Environment.resume, bind, modify, simpy.get_event.
  cbn [events set_active_proc]. rewrite Hp. cbn [kind yields_left Environment.resume_loop].
  unfold bind, simpy.get_event. cbn [events set_active_proc]. rewrite Hp. cbn [kind].
  rewrite (send_unknown_route _ _ H). 
  unfold Environment.set_generator, bind, simpy.get_event, simpy.put_event, modify.
  cbn [events set_active_proc set_event_log fst snd].
  rewrite Hp. cbn [events set_events callbacks triggered kind].
  rewrite list_lookup_insert_eq by exact Hlt. cbn [events set_events callbacks triggered kind].
  unfold simpy.schedule, modify. destruct w. cbn.
  rewrite list_insert_insert_eq. reflexivity.
Qed.

Lemma run_step n w a q :
  queue w = a :: q ->
  Environment.run (S n) w
  = match Environment.step w with
    | Some (_, w') => Environment.run n w'
    | None => None
    end.
Proof. intros H. simpl. unfold bind, gets. rewrite H. reflexivity. Qed.

Lemma run_done n w : queue w = [] -> Environment.run n w = Some (tt, w).
Proof. intros H. destruct n; simpl; unfold bind, gets; rewrite H; reflexivity. Qed.

Lemma step_pop w t p i ev q e cbs :
  queue w = (t, p, i, ev) :: q ->
  events w !! ev = Some e ->
  callbacks e = Some cbs ->
  Environment.step w
  = for_each Environment.call cbs
      (set_events (<[ev := {| callbacks := None; triggered := triggered e;
                              kind := kind e |}]> (events w))
         (set_now t (set_queue q (eid w) w))).
Proof.
  intros Hq He Hc. unfold Environment.step, bind, gets, modify, simpy.get_event.
  rewrite Hq. cbn [events set_now set_queue]. rewrite He, Hc. reflexivity.
Qed.

Ltac norm_world :=
  cbn [set_now set_queue set_active_proc set_events set_resources
       set_event_log set_points set_globals now queue eid active_proc events
       resources event_log points globals].

Lemma process_eq g w :
  simpy.process g w
  = Some (length (events w),
          set_queue
            (simpy.heappush (now w + 0, simpy.URGENT, eid w, S (length (events w)))
               (queue w))
            (S (eid w))
            (set_events
               (events w ++
                [ {| callbacks := Some []; triggered := false; kind := Process g |};
                  {| callbacks := Some [Process_resume (length (events w))];
                     triggered := true; kind := Initialize |} ]) w)).
Proof.
  destruct w. unfold simpy.process, bind, simpy.new_event, simpy.schedule, modify, ret.
  norm_world. rewrite length_app, <- app_assoc, Nat.add_1_r. reflexivity.
Qed.

Lemma lookup_app_0 {A} (l r : list A) a : (l ++ a :: r) !! length l = Some a.
Proof. apply list_lookup_middle. reflexivity. Qed.

Lemma lookup_app_1 {A} (l r : list A) a b :
  (l ++ a :: b :: r) !! S (length l) = Some b.
Proof.
  rewrite lookup_app_r by lia.
  replace (S (length l) - length l)%nat with 1%nat by lia. reflexivity.
Qed.

Lemma insert_app_0 {A} (l r : list A) a x :
  <[length l := x]> (l ++ a :: r) = l ++ x :: r.
Proof.
  replace (length l) with (length l + 0)%nat at 1 by lia.
  rewrite insert_app_r. reflexivity.
Qed.

Lemma insert_app_1 {A} (l r : list A) a b x :
  <[S (length l) := x]> (l ++ a :: b :: r) = l ++ a :: x :: r.
Proof.
  replace (S (length l)) with (length l + 1)%nat by lia.
  rewrite insert_app_r. reflexivity.
Qed.

(** Submitting a train with an unknown route to a world at rest and running
    the event loop. *)
Lemma dispatch_unknown_route t w extra :
  path_function (route_decision t) = None ->
  queue w = [] ->
  exists w',
    dispatch t (2 + extra) w = Some (tt, w')
    /\ event_log w' = event_log w ++ [spawned t (now w); finished t (now w)]
    /\ now w' = now w /\ queue w' = []
    /\ resources w' = resources w /\ points w' = points w
    /\ globals w' = globals w.
Proof.
  intros H Hq. destruct w as [t0 q n ap es rs lg ps gl]. simpl in Hq. subst q.
  unfold dispatch, bind. rewrite process_eq. norm_world.
  cbn [simpy.heappush Nat.add].
  erewrite run_step by reflexivity.
  erewrite step_pop;
    [|reflexivity|norm_world; apply lookup_app_1|reflexivity].
  norm_world. rewrite insert_app_1.
  cbn [for_each Environment.call bind callbacks triggered kind].
  unfold bind at 1.
  erewrite (resume_unknown_route t _ (length es));
    [|exact H|norm_world; apply lookup_app_0].
  norm_world. rewrite insert_app_0. cbn [simpy.heappush ret].
  erewrite run_step by reflexivity.
  erewrite step_pop;
    [|reflexivity|norm_world; apply lookup_app_0|reflexivity].
  norm_world. rewrite insert_app_0.
  cbn [for_each Environment.call bind callbacks triggered kind ret].
  rewrite run_done by reflexivity.
  eexists. split; [reflexivity|]. norm_world.
  rewrite !Z.add_0_r. repeat split; reflexivity.
Qed.

(** C5. A train whose route is none of the five names runs no step of any
    path: its generator logs [spawned] and [finished] at the current time and
    returns, and nothing else in the world changes (no point is written, no
    resource is requested).  When its process is resumed, in whatever world,
    the process ends and is scheduled as finished.  Submitted to a station at
    rest, the run ends after two steps with exactly these two entries added
    to the log, the clock, the resources and the points as they were. *)
Theorem unknown_route_is_a_noop_journey
    (t : Train) (w : World) (p : ref) (cbs : list Callback)
    (w0 : World) (extra : nat) :
  (forall name, route_decision t = Some name -> name ∉ route_names) ->
  events w !! p = Some {| callbacks := Some cbs; triggered := false;
                          kind := Process (train_process_start t) |} ->
  queue w0 = [] ->
  send (train_process_start t) w
  = Some ((exhausted, None),
          set_event_log
            (event_log w ++ [spawned t (now w); finished t (now w)]) w)
  /\ Environment.resume p w
     = Some (tt,
             set_active_proc None
               (set_queue
                  (simpy.heappush (now w + 0, simpy.NORMAL, eid w, p) (queue w))
                  (S (eid w))
                  (set_events
                     (<[p := {| callbacks := Some cbs; triggered := true;
                                kind := Process exhausted |}]> (events w))
                     (set_event_log
                        (event_log w ++ [spawned t (now w); finished t (now w)])
                        w))))
  /\ exists w',
       dispatch t (2 + extra) w0 = Some (tt, w')
       /\ event_log w'
          = event_log w0 ++ [spawned t (now w0); finished t (now w0)]
       /\ now w' = now w0 /\ queue w' = []
       /\ resources w' = resources w0 /\ points w' = points w0
       /\ globals w' = globals w0.
Proof.
  intros Hr Hp Hq. pose proof (path_function_unknown _ Hr) as H.
  split; [|split].
  - exact (send_unknown_route t w H).
  - exact (resume_unknown_route t w p cbs H Hp).
  - exact (dispatch_unknown_route t w0 extra H Hq).
Qed.

Definition stray_train : Train :=
  {| train_id := "X1"; direction := "north"; priority := "low";
     route_decision := Some "LOOP" |}.

Definition stray_world : World :=
  default (StationSimulation initial_globals)
    (exec [submit stray_train] (StationSimulation initial_globals)).

Lemma unknown_route_is_a_noop_journey_witness :
  send (train_process_start stray_train) stray_world
  = Some ((exhausted, None),
          set_event_log
            (event_log stray_world
             ++ [spawned stray_train (now stray_world);
                 finished stray_train (now stray_world)]) stray_world)
  /\ Environment.resume 0%nat stray_world
     = Some (tt,
             set_active_proc None
               (set_queue
                  (simpy.heappush
                     (now stray_world + 0, simpy.NORMAL, eid stray_world, 0%nat)
                     (queue stray_world))
                  (S (eid stray_world))
                  (set_events
                     (<[0%nat := {| callbacks := Some []; triggered := true;
                                    kind := Process exhausted |}]>
                        (events stray_world))
                     (set_event_log
                        (event_log stray_world
                         ++ [spawned stray_train (now stray_world);
                             finished stray_train (now stray_world)])
                        stray_world))))
  /\ exists w',
       dispatch stray_train (2 + 0) (StationSimulation initial_globals)
       = Some (tt, w')
       /\ event_log w'
          = event_log (StationSimulation initial_globals)
            ++ [spawned stray_train (now (StationSimulation initial_globals));
                finished stray_train (now (StationSimulation initial_globals))]
       /\ now w' = now (StationSimulation initial_globals) /\ queue w' = []
       /\ resources w' = resources (StationSimulation initial_globals)
       /\ points w' = points (StationSimulation initial_globals)
       /\ globals w' = globals (StationSimulation initial_globals).
Proof.
  apply (unknown_route_is_a_noop_journey stray_train stray_world 0%nat []
           (StationSimulation initial_globals) 0%nat).
  - intros name E. injection E as <-. unfold route_names.
    intros Hin. repeat (apply elem_of_cons in Hin as [Hin|Hin]; [discriminate|]).
    inversion Hin.
  - reflexivity.
  - reflexivity.
Defined.

(** ** Actions outside the action space *)

Lemma action_to_route_unknown (a : Z) :
  ~ (0 <= a <= 4) -> train_env.action_to_route !! a = None.
Proof.
  intros H. unfold train_env.action_to_route.
  rewrite !lookup_insert_ne by lia. apply lookup_empty.
Qed.

Lemma compute_reward_no_route row : train_env.compute_reward row None = -5.
Proof.
  unfold train_env.compute_reward. cbn [train_env.route_in].
  rewrite !andb_false_r. reflexivity.
Qed.

(** Between two calls of [step] the event queue is empty: [reset] makes a new
    environment, and [run] returns only when nothing is left to do. *)
Lemma run_leaves_queue_empty n : forall w w',
  Environment.run n w = Some (tt, w') -> queue w' = [].
Proof.
  induction n as [|n IH]; intros w w' H; simpl in H; unfold bind, gets in H;
    destruct (queue w) eqn:E; try discriminate.
  - inversion H; subst. exact E.
  - inversion H; subst. exact E.
  - destruct (Environment.step w) as [[[] w1]|]; [|discriminate].
    exact (IH _ _ H).
Qed.

Lemma step_leaves_queue_empty fuel action e r e' :
  queue (train_env.world e) = [] ->
  train_env.step fuel action e = Some (r, e') ->
  queue (train_env.world e') = [].
Proof.
  intros Hq H.
  destruct (step_cases _ _ _ _ _ H)
    as (key & _ & [(_ & _ & ->)|(row & rest & route & w' & _ & _ & Hd & _ & ->)]).
  - exact Hq.
  - unfold dispatch, bind in Hd.
    destruct (simpy.process _ _) as [[p w0]|]; [|discriminate].
    destruct (Environment.run fuel w0) as [[[] w1]|] eqn:E; [|discriminate].
    injection Hd as <-. exact (run_leaves_queue_empty _ _ _ E).
Qed.

(** C9 as the specification states it: with a row on the schedule, every
    action that is none of the integers 0, ..., 4 makes [step] return, with
    the reward of an invalid route. *)
Definition unknown_action_never_raises : Prop :=
  forall (action : train_env.Action) (row : train_env.Row)
         (rest : list train_env.Row),
    (forall a, 0 <= a <= 4 -> action <> train_env.py_int a) ->
    exists fuel r e',
      train_env.step fuel action
        {| train_env.schedule := row :: rest;
           train_env.world := StationSimulation initial_globals |}
      = Some (r, e')
      /\ train_env.reward r = -5.

Definition lone_row : train_env.Row :=
  {| train_env.row_train_id := "N1"; train_env.row_direction := "north";
     train_env.row_priority := "high" |}.

(** [step(np.array([7, 8]))]: [item()] raises [ValueError] at line 62. *)
Lemma array_of_two_raises : ~ unknown_action_never_raises.
Proof.
  intros H.
  destruct (H (train_env.np_ndarray [train_env.py_int 7; train_env.py_int 8])
              lone_row []) as (fuel & r & e' & Hstep & _).
  - intros a _. discriminate.
  - discriminate Hstep.
Qed.

(** [step(1.0)] and [step(True)] return, but with the route of action 1. *)
Example float_and_bool_select_a_route :
  train_env.decision
    (train_env.py_float (SpecFloat.S754_finite false 4503599627370496 (-52)))
  = Some (Some "UP_PLATFORM")
  /\ train_env.decision (train_env.py_bool true) = Some (Some "UP_PLATFORM")
  /\ train_env.decision (train_env.py_list [train_env.py_int 7]) = None.
Proof. vm_compute. repeat split; reflexivity. Qed.

Lemma decision_None action :
  train_env.decision action = None <->
  (exists n, array_size action = Some n /\ n <> 1%nat)
  \/ (exists key, train_env.item_of_array action = Some key
                  /\ train_env.hashable key = false).
Proof.
  unfold train_env.decision, train_env.action_to_route_get. split.
  - destruct (train_env.item_of_array action) as [key|] eqn:E.
    + destruct (train_env.hashable key) eqn:Hh; [discriminate|].
      intros _. right. exists key. split; [reflexivity|exact Hh].
    + intros _. left. destruct action; try discriminate E.
      cbn [array_size]. eexists. split; [reflexivity|].
      destruct elements as [|x [|y elements]]; cbn; try lia. discriminate E.
  - intros [(n & Hn & Hne)|(key & -> & ->)]; [|reflexivity].
    destruct action; try discriminate Hn. cbn [array_size] in Hn.
    injection Hn as <-. cbn [train_env.item_of_array].
    destruct elements as [|x [|y elements]]; try reflexivity. cbn in Hne. lia.
Qed.

Lemma step_raises fuel action e row rest :
  train_env.schedule e = row :: rest ->
  train_env.decision action = None ->
  train_env.step fuel action e = None.
Proof.
  unfold train_env.decision, train_env.step. intros Hs H.
  destruct (train_env.item_of_array action) as [key|]; [|reflexivity].
  rewrite Hs, H. reflexivity.
Qed.

(** C9, amended. With a row on the schedule, no route is decided on and
    [step] raises, before anything is submitted, when the action is an array
    whose size is not one ([ValueError] of [item()]) or when the action,
    unwrapped, cannot be hashed ([TypeError] of the dictionary lookup), and
    in no other case.  Every other action is
    equal to at most one integer; when that is none of 0, ..., 4 (an integer
    out of range, a float that is no whole number in range, a string, [None],
    a tuple), the route looked up is [None]; [step] returns normally (given
    the two steps of fuel the run needs) with reward -5, the reward of an
    invalid route; the train has taken the no-op journey: the log has gained
    its [spawned] and [finished] entries and nothing else has moved.  An
    action equal to one of 0, ..., 4, such as [True] or [1.0], has the route
    of that integer. *)
Theorem step_with_unknown_action
    (action : train_env.Action) (row : train_env.Row)
    (rest : list train_env.Row) (w : World) (extra : nat) :
  queue w = [] ->
  let t := {| train_id := train_env.row_train_id row;
              direction := train_env.row_direction row;
              priority := train_env.row_priority row;
              route_decision := None |} in
  let e := {| train_env.schedule := row :: rest; train_env.world := w |} in
  ((exists n, array_size action = Some n /\ n <> 1%nat)
   \/ (exists key, train_env.item_of_array action = Some key
                   /\ train_env.hashable key = false) <->
   train_env.decision action = None)
  /\ (train_env.decision action = None ->
      forall fuel, train_env.step fuel action e = None)
  /\ (forall key a, train_env.item_of_array action = Some key ->
        train_env.hashable key = true -> train_env.as_integer key = Some a ->
        train_env.decision action = Some (train_env.action_to_route !! a))
  /\ (forall key, train_env.item_of_array action = Some key ->
        train_env.hashable key = true ->
        (forall a, train_env.as_integer key = Some a -> ~ (0 <= a <= 4)) ->
        train_env.decision action = Some None
        /\ exists w',
             train_env.step (2 + extra) action e
             = Some ({| train_env.observation := train_env._get_observation rest;
                        train_env.reward := -5;
                        train_env.done := match rest with [] => true | _ => false end;
                        train_env.truncated := false; train_env.info := [] |},
                     {| train_env.schedule := rest; train_env.world := w' |})
             /\ event_log w' = event_log w ++ [spawned t (now w); finished t (now w)]
             /\ now w' = now w /\ queue w' = []
             /\ resources w' = resources w /\ points w' = points w).
Proof.
  intros Hq t e. split; [|split; [|split]].
  - symmetry. apply decision_None.
  - intros H fuel. exact (step_raises fuel action e row rest eq_refl H).
  - intros key a Hk Hh Ha. unfold train_env.decision, train_env.action_to_route_get.
    rewrite Hk, Hh, Ha. reflexivity.
  - intros key Hk Hh Ha.
    assert (Hr : train_env.action_to_route_get key = Some None).
    { unfold train_env.action_to_route_get. rewrite Hh.
      destruct (train_env.as_integer key) as [a|] eqn:Ea; [|reflexivity].
      rewrite (action_to_route_unknown a (Ha a eq_refl)). reflexivity. }
    split; [unfold train_env.decision; rewrite Hk; exact Hr|].
    destruct (dispatch_unknown_route t w extra eq_refl Hq)
      as (w' & Hd & Hl & Hn & Hq' & Hrs & Hps & _).
    exists w'. split; [|repeat split; assumption].
    unfold train_env.step. rewrite Hk. cbn [e train_env.schedule train_env.world].
    rewrite Hr. fold t. unfold dispatch in Hd. rewrite Hd.
    rewrite compute_reward_no_route. reflexivity.
Qed.

Lemma step_with_unknown_action_witness :
  let action := train_env.np_ndarray [train_env.py_str "UP_MAIN"] in
  let t := {| train_id := train_env.row_train_id lone_row;
              direction := train_env.row_direction lone_row;
              priority := train_env.row_priority lone_row;
              route_decision := None |} in
  let w := StationSimulation initial_globals in
  let e := {| train_env.schedule := [lone_row]; train_env.world := w |} in
  ((exists n, array_size action = Some n /\ n <> 1%nat)
   \/ (exists key, train_env.item_of_array action = Some key
                   /\ train_env.hashable key = false) <->
   train_env.decision action = None)
  /\ (train_env.decision action = None ->
      forall fuel, train_env.step fuel action e = None)
  /\ (forall key a, train_env.item_of_array action = Some key ->
        train_env.hashable key = true -> train_env.as_integer key = Some a ->
        train_env.decision action = Some (train_env.action_to_route !! a))
  /\ (forall key, train_env.item_of_array action = Some key ->
        train_env.hashable key = true ->
        (forall a, train_env.as_integer key = Some a -> ~ (0 <= a <= 4)) ->
        train_env.decision action = Some None
        /\ exists w',
             train_env.step (2 + 0) action e
             = Some ({| train_env.observation := train_env._get_observation [];
                        train_env.reward := -5;
                        train_env.done := true;
                        train_env.truncated := false; train_env.info := [] |},
                     {| train_env.schedule := []; train_env.world := w' |})
             /\ event_log w' = event_log w ++ [spawned t (now w); finished t (now w)]
             /\ now w' = now w /\ queue w' = []
             /\ resources w' = resources w /\ points w' = points w).
Proof.
  apply (step_with_unknown_action
           (train_env.np_ndarray [train_env.py_str "UP_MAIN"]) lone_row []
           (StationSimulation initial_globals) 0%nat).
  reflexivity.
Defined.

(** ** Two trains in the same direction *)

Definition journey_time (g : Globals) (p : Path) : Z :=
  foldr Z.add 0 (map (fun s => read_time g (snd s)) (path_tracks p)).








Ltac enumerate :=
  repeat match goal with
    | |- Forall _ [] => constructor
    | |- Forall _ (_ :: _) => constructor
    | |- Forall _ ?l => let l' := eval vm_compute in l in change l with l'
    | |- _ = _ => vm_compute; reflexivity
    end.






(** ** What joint acquisition does guarantee *)

(** The point requests of a path that has passed its joint wait, written the
    positions and logged [points_set]. *)
Definition past_joint (g : Gen) : option (list (ref * ref)) :=
  match g with
  | path_enter _ _ _ reqs _ _ _ => Some reqs
  | path_dwell _ _ _ reqs _ _ _ => Some reqs
  | _ => None
  end.

(** ** Coherence of the kernel state

    The statement about joint acquisition holds in every world the driver can
    reach.  It follows from an invariant of the kernel that relates the
    frames of the suspended generators, the requests they have made, the
    users of the resources, and the callbacks through which a condition
    learns that its events have been processed. *)

Definition is_triggered (es : list Event) (x : ref) : Prop :=
  exists e, es !! x = Some e /\ triggered e = true.

Definition frame (es : list Event) (p : ref) (g : Gen) : Prop :=
  exists e, es !! p = Some e /\ kind e = Process g.

(** The requests a suspended path has made and not yet given back. *)
Definition requests_of (g : Gen) : list (ref * ref) :=
  match g with
  | path_joint _ _ _ reqs => reqs
  | path_enter _ _ _ reqs _ track track_req => (track, track_req) :: reqs
  | path_dwell _ _ _ reqs _ track track_req => (track, track_req) :: reqs
  | _ => []
  end.

Definition is_joint (g : Gen) : option (list (ref * ref)) :=
  match g with
  | path_joint _ _ _ reqs => Some reqs
  | _ => None
  end.

Definition in_use (rs : list Resource) (r q : ref) : Prop :=
  exists x, rs !! r = Some x /\ q ∈ users x.

Record owned (es : list Event) (rs : list Resource) (p : ref)
    (own : list (ref * ref)) : Prop := {
  owned_nodup : NoDup (map snd own);
  owned_req : forall r q, (r, q) ∈ own ->
    exists e, es !! q = Some e /\ kind e = Request r (Some p)
              /\ (triggered e = true -> in_use rs r q)
}.

(** [covers es c q]: the event [q] is [c] or lies under the condition [c]. *)
Inductive covers (es : list Event) : ref -> ref -> Prop :=
  | covers_here x : covers es x x
  | covers_under c e evs k s q :
      es !! c = Some e -> kind e = Condition evs k -> s ∈ evs ->
      covers es s q -> covers es c q.

(** The callbacks of an event, of the whole heap, and the number of times a
    callback is registered or about to be called. *)
Definition cbl (e : Event) : list Callback := default [] (callbacks e).

Definition heap_callbacks (es : list Event) : list Callback := flat_map cbl es.

Definition count (cb : Callback) (l : list Callback) : nat :=
  count_occ simpy.Callback_eq_dec l cb.

Definition occ (cb : Callback) (pend : list Callback) (es : list Event) : nat :=
  count cb (pend ++ heap_callbacks es).

(** A callback refers to an object that exists. *)
Definition cb_fresh (n : nat) (cb : Callback) : Prop :=
  match cb with
  | Process_resume p => (p < n)%nat
  | Condition_check c => (c < n)%nat
  | _ => True
  end.

(** What the world does not record about the point the kernel has reached:
    the callbacks that [Environment.step] has detached and still has to call,
    the process that is running together with the requests it has made and not
    given back, and the reference from which on a condition may still be
    under construction. *)
Record Ctx := {
  pend : list Callback;
  active : option (ref * list (ref * ref));
  bound : nat
}.

(** The invariant.  A process owns the requests of its frame, and a request
    that is owned and triggered is among the users of its resource
    ([coh_frames], [coh_own]).  A path beyond its joint wait has all its point
    requests triggered ([coh_past]); this is so because a process that waits
    with a joint frame waits on an event that covers its requests
    ([coh_waits]), a condition is triggered only when all its events are
    ([coh_cond]), and it counts each of them once: the count and the checks
    that are still registered add up to the number of events
    ([coh_count]). *)
Record Coh (c : Ctx) (w : World) : Prop := {
  coh_bound : (bound c <= length (events w))%nat;
  coh_active : forall p own, active c = Some (p, own) ->
    active_proc w = Some p /\ exists g, frame (events w) p g;
  coh_processed : forall x e, events w !! x = Some e ->
    callbacks e = None -> triggered e = true;
  coh_queue : forall a, a ∈ queue w -> is_triggered (events w) (snd a);
  coh_fresh : Forall (cb_fresh (length (events w)))
                (pend c ++ heap_callbacks (events w));
  coh_frames : forall p g, frame (events w) p g ->
    (forall own, active c <> Some (p, own)) ->
    owned (events w) (resources w) p (requests_of g);
  coh_own : forall p own, active c = Some (p, own) ->
    owned (events w) (resources w) p own;
  coh_put_queue : forall r x q, resources w !! r = Some x -> q ∈ put_queue x ->
    exists e pr, events w !! q = Some e /\ kind e = Request r pr;
  coh_past : forall p g reqs, frame (events w) p g -> past_joint g = Some reqs ->
    forall rq, rq ∈ reqs -> is_triggered (events w) (snd rq);
  coh_cond : forall c0 e evs k, events w !! c0 = Some e ->
    kind e = Condition evs k -> triggered e = true ->
    forall s, s ∈ evs -> is_triggered (events w) s;
  coh_waits : forall x e cbs p g reqs, events w !! x = Some e ->
    callbacks e = Some cbs -> Process_resume p ∈ cbs ->
    frame (events w) p g -> is_joint g = Some reqs ->
    forall rq, rq ∈ reqs -> covers (events w) x (snd rq);
  coh_woken : forall p g reqs, Process_resume p ∈ pend c ->
    frame (events w) p g -> is_joint g = Some reqs ->
    forall rq, rq ∈ reqs -> is_triggered (events w) (snd rq);
  coh_once : forall p, (occ (Process_resume p) (pend c) (events w) <= 1)%nat;
  coh_running : forall p own, active c = Some (p, own) ->
    occ (Process_resume p) (pend c) (events w) = 0%nat;
  coh_count : forall c0 e evs k, (c0 < bound c)%nat ->
    events w !! c0 = Some e -> kind e = Condition evs k ->
    triggered e = false ->
    (k + occ (Condition_check c0) (pend c) (events w) = length evs)%nat
    /\ forall s, s ∈ evs ->
         is_triggered (events w) s
         \/ exists es cbs, events w !! s = Some es /\ callbacks es = Some cbs
                           /\ Condition_check c0 ∈ cbs;
  coh_build : forall x e c0, events w !! x = Some e ->
    Condition_build_value c0 ∈ cbl e -> c0 = x;
  coh_built : forall c0, Condition_build_value c0 ∈ pend c ->
    is_triggered (events w) c0
}.

(** *** Counting callbacks *)

Lemma count_app cb l1 l2 : count cb (l1 ++ l2) = (count cb l1 + count cb l2)%nat.
Proof. apply count_occ_app. Qed.

Lemma count_in cb l : cb ∈ l -> (1 <= count cb l)%nat.
Proof.
  intros H. apply list_elem_of_In in H.
  apply (count_occ_In simpy.Callback_eq_dec) in H. unfold count. lia.
Qed.

Lemma count_zero cb l : count cb l = 0%nat -> cb ∉ l.
Proof. intros H Hin. apply count_in in Hin. lia. Qed.

Lemma heap_callbacks_app es1 es2 :
  heap_callbacks (es1 ++ es2) = heap_callbacks es1 ++ heap_callbacks es2.
Proof. apply flat_map_app. Qed.

Lemma count_heap_insert cb es : forall (x : ref) e e',
  es !! x = Some e ->
  (count cb (heap_callbacks (<[x := e']> es)) + count cb (cbl e)
   = count cb (heap_callbacks es) + count cb (cbl e'))%nat.
Proof.
  induction es as [|a es IH]; intros x e e' H.
  - rewrite lookup_nil in H. discriminate.
  - destruct x as [|x]; simpl in *.
    + inversion H; subst. rewrite !count_app. lia.
    + rewrite !count_app. specialize (IH x e e' H). unfold ref in *. lia.
Qed.

Lemma heap_callbacks_lookup es (x : ref) e cb :
  es !! x = Some e -> cb ∈ cbl e -> cb ∈ heap_callbacks es.
Proof.
  intros H Hin. unfold heap_callbacks. apply list_elem_of_In, in_flat_map.
  exists e. split; [|apply list_elem_of_In; exact Hin].
  apply list_elem_of_In. exact (list_elem_of_lookup_2 _ _ _ H).
Qed.

Lemma heap_callbacks_elem es cb :
  cb ∈ heap_callbacks es -> exists (x : ref) e, es !! x = Some e /\ cb ∈ cbl e.
Proof.
  unfold heap_callbacks. intros H. apply list_elem_of_In, in_flat_map in H.
  destruct H as (e & He & Hcb). apply list_elem_of_In, list_elem_of_lookup in He.
  destruct He as [x Hx]. exists x, e. split; [exact Hx|].
  apply list_elem_of_In. exact Hcb.
Qed.

(** *** Writing to one event *)

Definition kind_like (k k' : Kind) : Prop :=
  match k with
  | Condition evs _ => exists n, k' = Condition evs n
  | Process _ => exists g, k' = Process g
  | _ => k' = k
  end.

Lemma kind_like_refl k : kind_like k k.
Proof. destruct k; simpl; eauto. Qed.

Section put.
Context (es : list Event) (x : ref) (e e' : Event).
Hypothesis Hx : es !! x = Some e.
Hypothesis Hmono : triggered e = true -> triggered e' = true.
Hypothesis Hkind : kind_like (kind e) (kind e').

Let es' := <[x := e']> es.

Lemma put_lookup (y : ref) :
  es' !! y = if decide (y = x) then Some e' else es !! y.
Proof.
  unfold es'. destruct (decide (y = x)) as [Heq|Hne].
  - rewrite Heq. apply list_lookup_insert_eq. exact (lookup_lt_Some _ _ _ Hx).
  - apply list_lookup_insert_ne. congruence.
Qed.

Lemma put_lookup_ne (y : ref) : y <> x -> es' !! y = es !! y.
Proof. intros H. rewrite put_lookup. destruct (decide (y = x)); congruence. Qed.

Lemma put_lookup_eq : es' !! x = Some e'.
Proof. rewrite put_lookup. destruct (decide (x = x)); congruence. Qed.

Lemma put_length : length es' = length es.
Proof. apply length_insert. Qed.

Lemma put_triggered y : is_triggered es y -> is_triggered es' y.
Proof.
  intros (ey & Hy & Ht). unfold is_triggered. rewrite put_lookup.
  destruct (decide (y = x)) as [Heq|Hne]; [|eauto].
  exists e'. split; [reflexivity|]. apply Hmono.
  rewrite Heq, Hx in Hy. congruence.
Qed.

Lemma put_frame_ne y g : y <> x -> frame es' y g <-> frame es y g.
Proof. intros H. unfold frame. rewrite put_lookup_ne by exact H. reflexivity. Qed.

Lemma put_frame_same y g : kind e' = kind e -> frame es' y g <-> frame es y g.
Proof.
  intros Hk. unfold frame. rewrite put_lookup.
  destruct (decide (y = x)) as [Heq|Hne]; [|reflexivity].
  rewrite Heq.
  split; intros (ey & Hy & Hg).
  - exists e. split; [exact Hx|]. inversion Hy. congruence.
  - exists e'. split; [reflexivity|]. rewrite Hx in Hy. inversion Hy.
    congruence.
Qed.

Lemma put_covers a b : covers es a b -> covers es' a b.
Proof.
  induction 1 as [a|c ec evs k s q Hc Hk Hs Hcov IH]; [constructor|].
  destruct (decide (c = x)) as [Heq|Hne].
  - rewrite Heq in Hc. rewrite Hx in Hc. inversion Hc as [He]. rewrite <- He in Hk.
    pose proof Hkind as Hkl. rewrite Hk in Hkl. destruct Hkl as [n Hn].
    rewrite Heq.
    exact (covers_under es' x e' evs n s q put_lookup_eq Hn Hs IH).
  - refine (covers_under es' c ec evs k s q _ Hk Hs IH).
    rewrite put_lookup_ne by exact Hne. exact Hc.
Qed.

Lemma put_owned rs p own :
  (forall r pr, kind e = Request r pr -> triggered e' = true ->
                triggered e = true \/ in_use rs r x) ->
  owned es rs p own -> owned es' rs p own.
Proof.
  intros Hreq [Hnd Hrs]. constructor; [exact Hnd|].
  intros r q Hin. destruct (Hrs r q Hin) as (eq & Hq & Hk & Hu).
  rewrite put_lookup. destruct (decide (q = x)) as [Heq|Hne]; [|eauto].
  rewrite Heq in Hq, Hu |- *. rewrite Hx in Hq. inversion Hq as [He].
  rewrite <- He in Hk, Hu. exists e'.
  split; [reflexivity|]. pose proof Hkind as Hkl. rewrite Hk in Hkl.
  simpl in Hkl. split; [exact Hkl|]. intros Ht.
  destruct (Hreq r (Some p) Hk Ht) as [H|H]; [exact (Hu H)|exact H].
Qed.

Lemma put_occ cb pd :
  (occ cb pd es' + count cb (cbl e) = occ cb pd es + count cb (cbl e'))%nat.
Proof.
  unfold occ, es'. rewrite !count_app.
  pose proof (count_heap_insert cb es x e e' Hx).
  unfold ref in *. lia.
Qed.

Lemma put_heap_fresh pd :
  Forall (cb_fresh (length es)) (pd ++ heap_callbacks es) ->
  Forall (cb_fresh (length es)) (cbl e') ->
  Forall (cb_fresh (length es')) (pd ++ heap_callbacks es').
Proof.
  intros H He'. rewrite put_length. apply Forall_app in H as [Hp Hh].
  apply Forall_app. split; [exact Hp|].
  apply Forall_forall. intros cb Hcb.
  apply heap_callbacks_elem in Hcb as (y & ey & Hy & Hin).
  rewrite put_lookup in Hy. case_decide as Hne.
  - injection Hy as He. subst ey.
    exact (proj1 (Forall_forall _ _) He' cb Hin).
  - exact (proj1 (Forall_forall _ _) Hh cb (heap_callbacks_lookup _ _ _ _ Hy Hin)).
Qed.
End put.

Lemma count_notin cb l : cb ∉ l -> count cb l = 0%nat.
Proof.
  intros H. apply count_occ_not_In. intros Hin. apply H, list_elem_of_In, Hin.
Qed.

Lemma count_heap_lookup cb es (x : ref) e :
  es !! x = Some e -> (count cb (cbl e) <= count cb (heap_callbacks es))%nat.
Proof.
  revert x. induction es as [|a es IH]; intros x H.
  - rewrite lookup_nil in H. discriminate.
  - simpl. rewrite count_app. destruct x as [|x]; simpl in H.
    + inversion H; subst. lia.
    + specialize (IH x H). lia.
Qed.

Lemma occ_lookup cb pd es (x : ref) e :
  es !! x = Some e -> (count cb (cbl e) <= occ cb pd es)%nat.
Proof.
  intros H. unfold occ. rewrite count_app.
  pose proof (count_heap_lookup cb es x e H). lia.
Qed.

Lemma occ_pend cb pd es : (count cb pd <= occ cb pd es)%nat.
Proof. unfold occ. rewrite count_app. lia. Qed.

Lemma cbl_Some cb e : cb ∈ cbl e -> exists cbs, callbacks e = Some cbs /\ cb ∈ cbs.
Proof.
  unfold cbl. destruct (callbacks e) as [cbs|]; simpl; [eauto|].
  intros H. inversion H.
Qed.

Lemma cbl_of_Some e cbs : callbacks e = Some cbs -> cbl e = cbs.
Proof. unfold cbl. intros ->. reflexivity. Qed.

Lemma kind_like_process k g : kind_like k (Process g) -> exists g0, k = Process g0.
Proof. destruct k; simpl; try discriminate; eauto. intros [n H]. discriminate. Qed.

Lemma kind_like_condition k evs n :
  kind_like k (Condition evs n) -> exists n0, k = Condition evs n0.
Proof.
  destruct k; simpl; try discriminate; try (intros <-; eauto).
  - intros [m H]. inversion H; subst. eauto.
  - intros [g H]. discriminate.
Qed.

Lemma kind_like_request k r pr : kind_like k (Request r pr) -> k = Request r pr.
Proof.
  destruct k; simpl; try discriminate; try (intros H; symmetry; exact H).
  - intros [m H]. discriminate.
  - intros [g H]. discriminate.
Qed.

Lemma covers_triggered c w a b :
  Coh c w -> covers (events w) a b ->
  is_triggered (events w) a -> is_triggered (events w) b.
Proof.
  intros HC. induction 1 as [a|c0 ec evs k s q Hc Hk Hs Hcov IH]; [tauto|].
  intros (e0 & He0 & Ht). rewrite Hc in He0. injection He0 as <-.
  apply IH. exact (coh_cond _ _ HC c0 ec evs k Hc Hk Ht s Hs).
Qed.

Lemma Coh_put c c' w (x : ref) e e' :
  Coh c w ->
  active c' = active c -> bound c' = bound c ->
  events w !! x = Some e ->
  (triggered e = true -> triggered e' = true) ->
  kind_like (kind e) (kind e') ->
  (callbacks e' = None -> triggered e' = true) ->
  Forall (cb_fresh (length (events w))) (pend c' ++ cbl e') ->
  (forall r pr, kind e = Request r pr -> triggered e' = true ->
                triggered e = true \/ in_use (resources w) r x) ->
  (forall g, kind e' = Process g ->
     kind e = Process g
     \/ ((exists own, active c = Some (x, own))
         /\ forall reqs, past_joint g = Some reqs ->
              forall rq, rq ∈ reqs -> is_triggered (events w) (snd rq))) ->
  (forall evs k, kind e = Condition evs k -> triggered e' = true ->
     triggered e = true \/ forall s, s ∈ evs -> is_triggered (events w) s) ->
  (forall cb, cb ∈ pend c' ->
     cb ∈ pend c \/ (cb ∈ cbl e /\ triggered e = true)) ->
  (forall c0, Condition_build_value c0 ∈ cbl e' -> c0 = x) ->
  (forall p, Process_resume p ∈ cbl e' ->
     Process_resume p ∈ cbl e
     \/ ((forall own, active c <> Some (p, own))
         /\ forall g reqs, frame (events w) p g -> is_joint g = Some reqs ->
              forall rq, rq ∈ reqs -> covers (events w) x (snd rq))) ->
  (forall p,
     (count (Process_resume p) (pend c') + count (Process_resume p) (cbl e')
      <= count (Process_resume p) (pend c) + count (Process_resume p) (cbl e))%nat
     \/ (occ (Process_resume p) (pend c) (events w) = 0%nat
         /\ (count (Process_resume p) (pend c')
              + count (Process_resume p) (cbl e') = 1)%nat
         /\ forall own, active c <> Some (p, own))) ->
  (forall c0 ec evs k, (c0 < bound c)%nat -> events w !! c0 = Some ec ->
     kind ec = Condition evs k -> triggered ec = false ->
     (exists k', (c0 = x -> kind e' = Condition evs k') /\ (c0 <> x -> k' = k)
        /\ (k' + count (Condition_check c0) (pend c')
             + count (Condition_check c0) (cbl e')
            = k + count (Condition_check c0) (pend c)
              + count (Condition_check c0) (cbl e))%nat)
     /\ (Condition_check c0 ∈ cbl e ->
         triggered e' = true
         \/ exists cbs', callbacks e' = Some cbs' /\ Condition_check c0 ∈ cbs')) ->
  Coh c' (set_events (<[x := e']> (events w)) w).
Proof.
  intros HC Hact Hbd Hx Hmono Hkind HP HF HReq HFrame HCond HWoken HBuild
    HResume HTotal HCheck.
  pose proof (put_lookup (events w) x e e' Hx) as Hlk.
  pose proof (put_triggered (events w) x e e' Hx Hmono) as Htr.
  assert (Hfr : forall p g, frame (<[x := e']> (events w)) p g ->
            frame (events w) p g
            \/ (p = x /\ (exists own, active c = Some (x, own))
                /\ forall reqs, past_joint g = Some reqs ->
                     forall rq, rq ∈ reqs -> is_triggered (events w) (snd rq))).
  { intros p g (ep & Hp & Hg). rewrite Hlk in Hp. case_decide as Hpx.
    - injection Hp as <-. destruct (HFrame g Hg) as [Hk|[Ha Hr]].
      + left. subst p. exists e. split; assumption.
      + right. split; [exact Hpx|]. split; assumption.
    - left. exists ep. split; assumption. }
  assert (Hfr_old : forall p g, frame (<[x := e']> (events w)) p g ->
            (1 <= occ (Process_resume p) (pend c) (events w))%nat ->
            frame (events w) p g).
  { intros p g Hp Hocc. destruct (Hfr p g Hp) as [Hold|(-> & [own Ha] & _)];
      [exact Hold|].
    pose proof (coh_running _ _ HC x own Ha). lia. }
  constructor; cbn [events set_events resources queue active_proc];
    rewrite ?Hact, ?Hbd.
  - rewrite length_insert. exact (coh_bound _ _ HC).
  - intros p own Ha. destruct (coh_active _ _ HC p own Ha) as [Hap (g & eg & Hp & Hg)].
    split; [exact Hap|]. unfold frame. rewrite Hlk. case_decide as Hpx.
    + subst p. rewrite Hx in Hp. injection Hp as <-.
      pose proof Hkind as Hkl. rewrite Hg in Hkl. destruct Hkl as [g' Hg'].
      exists g', e'. split; [reflexivity|exact Hg'].
    + exists g, eg. split; assumption.
  - intros y ey Hy Hcb. rewrite Hlk in Hy. case_decide as Hyx.
    + injection Hy as <-. exact (HP Hcb).
    + exact (coh_processed _ _ HC y ey Hy Hcb).
  - intros a Ha. apply Htr. exact (coh_queue _ _ HC a Ha).
  - rewrite length_insert. apply Forall_app in HF as [HFp HFe].
    apply Forall_app. split; [exact HFp|].
    pose proof (coh_fresh _ _ HC) as Hfresh. apply Forall_app in Hfresh as [_ Hh].
    apply Forall_forall. intros cb Hcb.
    apply heap_callbacks_elem in Hcb as (y & ey & Hy & Hin).
    rewrite Hlk in Hy. case_decide as Hne.
    + injection Hy as He. subst ey. exact (proj1 (Forall_forall _ _) HFe cb Hin).
    + exact (proj1 (Forall_forall _ _) Hh cb (heap_callbacks_lookup _ _ _ _ Hy Hin)).
  - intros p g Hp Hna. destruct (Hfr p g Hp) as [Hold|(-> & [own Ha] & _)].
    + apply (put_owned (events w) x e e' Hx Hkind); [exact HReq|].
      exact (coh_frames _ _ HC p g Hold Hna).
    + exfalso. exact (Hna own Ha).
  - intros p own Ha.
    apply (put_owned (events w) x e e' Hx Hkind); [exact HReq|].
    exact (coh_own _ _ HC p own Ha).
  - intros r xr q Hr Hq.
    destruct (coh_put_queue _ _ HC r xr q Hr Hq) as (eq & pr & Heq & Hk).
    rewrite Hlk. case_decide as Hqx; [|eauto].
    subst q. rewrite Hx in Heq. injection Heq as <-.
    pose proof Hkind as Hkl. rewrite Hk in Hkl. simpl in Hkl. eauto.
  - intros p g reqs Hp Hpast rq Hrq. apply Htr.
    destruct (Hfr p g Hp) as [Hold|(_ & _ & Hr)].
    + exact (coh_past _ _ HC p g reqs Hold Hpast rq Hrq).
    + exact (Hr reqs Hpast rq Hrq).
  - intros c0 ec evs k Hc0 Hk Ht s Hs. apply Htr.
    rewrite Hlk in Hc0. case_decide as Hcx.
    + injection Hc0 as <-. pose proof Hkind as Hkl. rewrite Hk in Hkl.
      apply kind_like_condition in Hkl as [k0 Hk0].
      destruct (HCond evs k0 Hk0 Ht) as [Ht0|Hall]; [|exact (Hall s Hs)].
      subst c0. exact (coh_cond _ _ HC x e evs k0 Hx Hk0 Ht0 s Hs).
    + exact (coh_cond _ _ HC c0 ec evs k Hc0 Hk Ht s Hs).
  - intros y ey cbs p g reqs Hy Hcbs Hin Hp Hj rq Hrq.
    apply (put_covers (events w) x e e' Hx Hkind).
    rewrite Hlk in Hy. rewrite <- (cbl_of_Some _ _ Hcbs) in Hin.
    case_decide as Hyx.
    + injection Hy as <-.
      destruct (HResume p Hin) as [Hin0|(Hna & Hcov)].
      * assert (Hold : frame (events w) p g).
        { apply (Hfr_old p g Hp).
          pose proof (occ_lookup (Process_resume p) (pend c) _ _ _ Hx).
          pose proof (count_in _ _ Hin0). lia. }
        apply cbl_Some in Hin0 as (cbs0 & Hcbs0 & Hin0). subst y.
        exact (coh_waits _ _ HC x e cbs0 p g reqs Hx Hcbs0 Hin0 Hold Hj rq Hrq).
      * assert (Hold : frame (events w) p g).
        { destruct (Hfr p g Hp) as [Hold|(-> & [own Ha] & _)]; [exact Hold|].
          exfalso. exact (Hna own Ha). }
        subst y. exact (Hcov g reqs Hold Hj rq Hrq).
    + assert (Hold : frame (events w) p g).
      { apply (Hfr_old p g Hp).
        pose proof (occ_lookup (Process_resume p) (pend c) _ _ _ Hy).
        pose proof (count_in _ _ Hin). lia. }
      rewrite (cbl_of_Some _ _ Hcbs) in Hin.
      exact (coh_waits _ _ HC y ey cbs p g reqs Hy Hcbs Hin Hold Hj rq Hrq).
  - intros p g reqs Hin Hp Hj rq Hrq. apply Htr.
    destruct (HWoken _ Hin) as [Hin0|[Hin0 Ht]].
    + assert (Hold : frame (events w) p g).
      { apply (Hfr_old p g Hp).
        pose proof (occ_pend (Process_resume p) (pend c) (events w)).
        pose proof (count_in _ _ Hin0). lia. }
      exact (coh_woken _ _ HC p g reqs Hin0 Hold Hj rq Hrq).
    + assert (Hold : frame (events w) p g).
      { apply (Hfr_old p g Hp).
        pose proof (occ_lookup (Process_resume p) (pend c) _ _ _ Hx).
        pose proof (count_in _ _ Hin0). lia. }
      apply cbl_Some in Hin0 as (cbs0 & Hcbs0 & Hin0).
      apply (covers_triggered c w x); [exact HC| |exists e; split; assumption].
      exact (coh_waits _ _ HC x e cbs0 p g reqs Hx Hcbs0 Hin0 Hold Hj rq Hrq).
  - intros p.
    pose proof (count_heap_insert (Process_resume p) (events w) x e e' Hx) as Ho.
    pose proof (coh_once _ _ HC p) as H1.
    pose proof (occ_lookup (Process_resume p) (pend c) _ _ _ Hx) as Hle.
    destruct (HTotal p) as [Hle'|(H0 & H1' & _)];
      unfold occ in *; rewrite count_app in *; unfold ref in *; lia.
  - intros p own Ha.
    pose proof (count_heap_insert (Process_resume p) (events w) x e e' Hx) as Ho.
    pose proof (coh_running _ _ HC p own Ha) as H0.
    pose proof (occ_lookup (Process_resume p) (pend c) _ _ _ Hx) as Hle.
    destruct (HTotal p) as [Hle'|(_ & _ & Hna)];
      [|exfalso; exact (Hna own Ha)].
    unfold occ in *. rewrite count_app in *. unfold ref in *. lia.
  - intros c0 ec evs k Hlt Hc0 Hk Ht.
    assert (Hold : exists ec0 k0, events w !! c0 = Some ec0
                     /\ kind ec0 = Condition evs k0 /\ triggered ec0 = false
                     /\ (c0 = x -> ec = e') /\ (c0 <> x -> k0 = k)).
    { destruct (decide (c0 = x)) as [Hcx|Hcx].
      - subst c0. rewrite Hlk in Hc0. rewrite decide_True in Hc0 by reflexivity.
        injection Hc0 as <-. pose proof Hkind as Hkl. rewrite Hk in Hkl.
        apply kind_like_condition in Hkl as [k0 Hk0].
        exists e, k0. split; [exact Hx|]. split; [exact Hk0|].
        split; [|split; [reflexivity|congruence]].
        destruct (triggered e) eqn:E; [|reflexivity].
        rewrite (Hmono eq_refl) in Ht. discriminate.
      - rewrite Hlk in Hc0. rewrite decide_False in Hc0 by exact Hcx.
        exists ec, k. split; [exact Hc0|]. split; [exact Hk|]. split; [exact Ht|].
        split; [congruence|reflexivity]. }
    destruct Hold as (ec0 & k0 & Hc00 & Hk0 & Ht0 & Hee & Hkk).
    destruct (coh_count _ _ HC c0 ec0 evs k0 Hlt Hc00 Hk0 Ht0) as [Hn Hs].
    destruct (HCheck c0 ec0 evs k0 Hlt Hc00 Hk0 Ht0)
      as [(k' & Hk'1 & Hk'2 & Hcnt) Hmem].
    assert (k' = k) as ->.
    { destruct (decide (c0 = x)) as [Hcx|Hcx].
      - specialize (Hk'1 Hcx). rewrite (Hee Hcx) in Hk. congruence.
      - rewrite (Hk'2 Hcx). exact (Hkk Hcx). }
    split.
    + pose proof (count_heap_insert (Condition_check c0) (events w) x e e' Hx) as Ho.
      pose proof (occ_lookup (Condition_check c0) (pend c) _ _ _ Hx) as Hle.
      unfold occ in *. rewrite count_app in *. unfold ref in *. lia.
    + intros s Hin. destruct (Hs s Hin) as [H|(es0 & cbs & Hes & Hcbs & Hcin)].
      * left. apply Htr. exact H.
      * destruct (decide (s = x)) as [->|Hsx].
        -- rewrite Hx in Hes. injection Hes as <-.
           rewrite <- (cbl_of_Some _ _ Hcbs) in Hcin.
           destruct (Hmem Hcin) as [Ht'|(cbs' & Hcbs' & Hin')].
           ++ left. exists e'. split; [|exact Ht'].
              exact (put_lookup_eq (events w) x e e' Hx).
           ++ right. exists e', cbs'. split; [|split; assumption].
              exact (put_lookup_eq (events w) x e e' Hx).
        -- right. exists es0, cbs. split; [|split; assumption].
           rewrite (put_lookup_ne (events w) x e e' Hx) by exact Hsx. exact Hes.
  - intros y ey c0 Hy Hin. rewrite Hlk in Hy. case_decide as Hyx.
    + injection Hy as <-. rewrite Hyx. exact (HBuild c0 Hin).
    + exact (coh_build _ _ HC y ey c0 Hy Hin).
  - intros c0 Hin. apply Htr. destruct (HWoken _ Hin) as [Hin0|[Hin0 Ht]].
    + exact (coh_built _ _ HC c0 Hin0).
    + rewrite (coh_build _ _ HC x e c0 Hx Hin0). exists e. split; assumption.
Qed.

(** *** Allocating an event *)

Lemma app_lookup_inv {A} (l : list A) a (y : nat) b :
  (l ++ [a]) !! y = Some b -> l !! y = Some b \/ (y = length l /\ b = a).
Proof.
  intros H. destruct (decide (y < length l)%nat) as [Hlt|Hge].
  - left. rewrite lookup_app_l in H by exact Hlt. exact H.
  - right. rewrite lookup_app_r in H by lia.
    destruct (y - length l)%nat as [|n] eqn:E; simpl in H; [|rewrite lookup_nil in H; discriminate].
    injection H as <-. split; [lia|reflexivity].
Qed.

Lemma app_triggered es e y : is_triggered es y -> is_triggered (es ++ [e]) y.
Proof.
  intros (ey & Hy & Ht). exists ey. split; [|exact Ht].
  apply lookup_app_l_Some. exact Hy.
Qed.

Lemma app_covers es e a b : covers es a b -> covers (es ++ [e]) a b.
Proof.
  induction 1 as [a|c ec evs k s q Hc Hk Hs Hcov IH]; [constructor|].
  refine (covers_under _ c ec evs k s q _ Hk Hs IH).
  apply lookup_app_l_Some. exact Hc.
Qed.

Lemma app_owned es e rs p own : owned es rs p own -> owned (es ++ [e]) rs p own.
Proof.
  intros [Hnd Hrs]. constructor; [exact Hnd|].
  intros r q Hin. destruct (Hrs r q Hin) as (eq & Hq & Hk & Hu).
  exists eq. split; [apply lookup_app_l_Some; exact Hq|]. split; assumption.
Qed.

Lemma app_occ cb pd es e :
  occ cb pd (es ++ [e]) = (occ cb pd es + count cb (cbl e))%nat.
Proof.
  unfold occ. rewrite heap_callbacks_app, !count_app. simpl.
  rewrite app_nil_r. lia.
Qed.

Lemma cb_fresh_mono n m cb : (n <= m)%nat -> cb_fresh n cb -> cb_fresh m cb.
Proof. destruct cb; simpl; lia. Qed.

Lemma Coh_new c w e cbs :
  Coh c w ->
  callbacks e = Some cbs ->
  Forall (cb_fresh (S (length (events w)))) cbs ->
  (forall g, kind e = Process g -> requests_of g = [] /\ past_joint g = None) ->
  (forall evs k, kind e = Condition evs k -> triggered e = false) ->
  (forall p, Process_resume p ∈ cbs ->
     occ (Process_resume p) (pend c) (events w) = 0%nat
     /\ count (Process_resume p) cbs = 1%nat
     /\ (forall own, active c <> Some (p, own))
     /\ forall g, frame (events w ++ [e]) p g -> is_joint g = None) ->
  (forall c0, Condition_check c0 ∉ cbs) ->
  (forall c0, Condition_build_value c0 ∉ cbs) ->
  Coh c (set_events (events w ++ [e]) w).
Proof.
  intros HC Hcb HF HProc HCond HRes HChk HBld.
  assert (Hcbl : cbl e = cbs) by exact (cbl_of_Some _ _ Hcb).
  assert (Hfr : forall p g, frame (events w ++ [e]) p g ->
            frame (events w) p g \/ (p = length (events w) /\ kind e = Process g)).
  { intros p g (ep & Hp & Hg). apply app_lookup_inv in Hp as [Hp|[-> ->]].
    - left. exists ep. split; assumption.
    - right. split; [reflexivity|exact Hg]. }
  constructor; cbn [events set_events resources queue active_proc].
  - rewrite length_app. pose proof (coh_bound _ _ HC). simpl. lia.
  - intros p own Ha. destruct (coh_active _ _ HC p own Ha) as [Hap (g & eg & Hp & Hg)].
    split; [exact Hap|]. exists g, eg. split; [|exact Hg].
    apply lookup_app_l_Some. exact Hp.
  - intros y ey Hy Hn. apply app_lookup_inv in Hy as [Hy|[-> ->]].
    + exact (coh_processed _ _ HC y ey Hy Hn).
    + congruence.
  - intros a Ha. apply app_triggered. exact (coh_queue _ _ HC a Ha).
  - rewrite length_app, heap_callbacks_app, app_assoc. simpl.
    rewrite Nat.add_1_r. apply Forall_app. split.
    + eapply Forall_impl; [exact (coh_fresh _ _ HC)|].
      intros cb. apply cb_fresh_mono. lia.
    + rewrite app_nil_r, Hcbl. exact HF.
  - intros p g Hp Hna. destruct (Hfr p g Hp) as [Hold|[-> Hk]].
    + apply app_owned. exact (coh_frames _ _ HC p g Hold Hna).
    + destruct (HProc g Hk) as [-> _]. constructor; [constructor|].
      intros r q Hin. inversion Hin.
  - intros p own Ha. apply app_owned. exact (coh_own _ _ HC p own Ha).
  - intros r xr q Hr Hq.
    destruct (coh_put_queue _ _ HC r xr q Hr Hq) as (eq & pr & Heq & Hk).
    exists eq, pr. split; [apply lookup_app_l_Some; exact Heq|exact Hk].
  - intros p g reqs Hp Hpast rq Hrq. destruct (Hfr p g Hp) as [Hold|[-> Hk]].
    + apply app_triggered. exact (coh_past _ _ HC p g reqs Hold Hpast rq Hrq).
    + destruct (HProc g Hk) as [_ Hn]. congruence.
  - intros c0 ec evs k Hc0 Hk Ht s Hs. apply app_triggered.
    apply app_lookup_inv in Hc0 as [Hc0|[-> ->]].
    + exact (coh_cond _ _ HC c0 ec evs k Hc0 Hk Ht s Hs).
    + rewrite (HCond evs k Hk) in Ht. discriminate.
  - intros y ey cbs0 p g reqs Hy Hcbs Hin Hp Hj rq Hrq. apply app_covers.
    apply app_lookup_inv in Hy as [Hy|[-> ->]].
    + destruct (Hfr p g Hp) as [Hold|[-> Hk]].
      * exact (coh_waits _ _ HC y ey cbs0 p g reqs Hy Hcbs Hin Hold Hj rq Hrq).
      * exfalso. rewrite <- (cbl_of_Some _ _ Hcbs) in Hin.
        pose proof (heap_callbacks_lookup _ _ _ _ Hy Hin) as Hh.
        pose proof (coh_fresh _ _ HC) as Hfresh.
        apply Forall_app in Hfresh as [_ Hfresh].
        pose proof (proj1 (Forall_forall _ _) Hfresh _ Hh) as Hlt.
        simpl in Hlt. lia.
    + rewrite Hcb in Hcbs. injection Hcbs as <-.
      destruct (HRes p Hin) as (_ & _ & _ & Hnj).
      rewrite (Hnj g Hp) in Hj. discriminate.
  - intros p g reqs Hin Hp Hj rq Hrq. apply app_triggered.
    destruct (Hfr p g Hp) as [Hold|[-> Hk]].
    + exact (coh_woken _ _ HC p g reqs Hin Hold Hj rq Hrq).
    + exfalso. pose proof (coh_fresh _ _ HC) as Hfresh.
      apply Forall_app in Hfresh as [Hfresh _].
      pose proof (proj1 (Forall_forall _ _) Hfresh _ Hin) as Hlt.
      simpl in Hlt. lia.
  - intros p. rewrite app_occ, Hcbl. pose proof (coh_once _ _ HC p).
    destruct (decide (Process_resume p ∈ cbs)) as [Hin|Hnin].
    + destruct (HRes p Hin) as (H0 & H1 & _). lia.
    + rewrite (count_notin _ _ Hnin). lia.
  - intros p own Ha. rewrite app_occ, Hcbl.
    pose proof (coh_running _ _ HC p own Ha).
    destruct (decide (Process_resume p ∈ cbs)) as [Hin|Hnin].
    + destruct (HRes p Hin) as (_ & _ & Hna & _). exfalso. exact (Hna own Ha).
    + rewrite (count_notin _ _ Hnin). lia.
  - intros c0 ec evs k Hlt Hc0 Hk Ht.
    pose proof (coh_bound _ _ HC) as Hb.
    apply app_lookup_inv in Hc0 as [Hc0|[-> _]]; [|lia].
    destruct (coh_count _ _ HC c0 ec evs k Hlt Hc0 Hk Ht) as [Hn Hs].
    split.
    + rewrite app_occ, Hcbl, (count_notin _ _ (HChk c0)). lia.
    + intros s Hin. destruct (Hs s Hin) as [H|(es0 & cbs0 & Hes & Hcbs & Hcin)].
      * left. apply app_triggered. exact H.
      * right. exists es0, cbs0. split; [|split; assumption].
        apply lookup_app_l_Some. exact Hes.
  - intros y ey c0 Hy Hin. apply app_lookup_inv in Hy as [Hy|[-> ->]].
    + exact (coh_build _ _ HC y ey c0 Hy Hin).
    + rewrite Hcbl in Hin. exfalso. exact (HBld c0 Hin).
  - intros c0 Hin. apply app_triggered. exact (coh_built _ _ HC c0 Hin).
Qed.

(** *** Changes outside the event heap *)

Definition claimed (c : Ctx) (w : World) (p : ref) (own : list (ref * ref)) : Prop :=
  active c = Some (p, own)
  \/ ((forall o, active c <> Some (p, o))
      /\ exists g, frame (events w) p g /\ own = requests_of g).

Lemma Coh_world c w w' :
  Coh c w ->
  events w' = events w ->
  (forall p own, active c = Some (p, own) -> active_proc w' = Some p) ->
  (forall a, a ∈ queue w' -> is_triggered (events w) (snd a)) ->
  (forall r x q, resources w' !! r = Some x -> q ∈ put_queue x ->
     exists e pr, events w !! q = Some e /\ kind e = Request r pr) ->
  (forall p own, owned (events w) (resources w) p own -> claimed c w p own ->
     owned (events w) (resources w') p own) ->
  Coh c w'.
Proof.
  intros HC He Hap Hq Hpq Hown.
  constructor; rewrite ?He.
  - exact (coh_bound _ _ HC).
  - intros p own Ha. split; [exact (Hap p own Ha)|].
    exact (proj2 (coh_active _ _ HC p own Ha)).
  - exact (coh_processed _ _ HC).
  - exact Hq.
  - exact (coh_fresh _ _ HC).
  - intros p g Hp Hna. apply Hown; [exact (coh_frames _ _ HC p g Hp Hna)|].
    right. split; [exact Hna|]. exists g. split; [exact Hp|reflexivity].
  - intros p own Ha. apply Hown; [exact (coh_own _ _ HC p own Ha)|].
    left. exact Ha.
  - exact Hpq.
  - exact (coh_past _ _ HC).
  - exact (coh_cond _ _ HC).
  - exact (coh_waits _ _ HC).
  - exact (coh_woken _ _ HC).
  - exact (coh_once _ _ HC).
  - exact (coh_running _ _ HC).
  - exact (coh_count _ _ HC).
  - exact (coh_build _ _ HC).
  - exact (coh_built _ _ HC).
Qed.

Lemma Coh_same c w w' :
  Coh c w -> events w' = events w -> resources w' = resources w ->
  active_proc w' = active_proc w ->
  (forall a, a ∈ queue w' -> is_triggered (events w) (snd a)) ->
  Coh c w'.
Proof.
  intros HC He Hr Hap Hq. apply (Coh_world c w w' HC He).
  - intros p own Ha. rewrite Hap. exact (proj1 (coh_active _ _ HC p own Ha)).
  - exact Hq.
  - rewrite Hr. exact (coh_put_queue _ _ HC).
  - intros p own Ho _. rewrite Hr. exact Ho.
Qed.

Lemma elem_of_heappush a e q : a ∈ simpy.heappush e q -> a = e \/ a ∈ q.
Proof.
  induction q as [|x q IH]; simpl.
  - intros H. apply list_elem_of_singleton in H. left. exact H.
  - destruct (simpy.entry_lt e x).
    + intros H. apply elem_of_cons in H as [H|H]; [left; exact H|right; exact H].
    + intros H. apply elem_of_cons in H as [H|H].
      * right. subst. apply list_elem_of_here.
      * destruct (IH H) as [H'|H']; [left; exact H'|].
        right. apply list_elem_of_further. exact H'.
Qed.

Lemma owned_weaken es rs rs' p own :
  owned es rs p own ->
  (forall r q, (r, q) ∈ own -> in_use rs r q -> in_use rs' r q) ->
  owned es rs' p own.
Proof.
  intros [Hnd Hrs] Hu. constructor; [exact Hnd|].
  intros r q Hin. destruct (Hrs r q Hin) as (e & He & Hk & Ht).
  exists e. split; [exact He|]. split; [exact Hk|].
  intros H. exact (Hu r q Hin (Ht H)).
Qed.

Lemma owned_sub es rs p own own' :
  owned es rs p own -> NoDup (map snd own') ->
  (forall x, x ∈ own' -> x ∈ own) -> owned es rs p own'.
Proof.
  intros [Hnd Hrs] Hnd' Hsub. constructor; [exact Hnd'|].
  intros r q Hin. exact (Hrs r q (Hsub _ Hin)).
Qed.

Lemma frame_inj es p g g' : frame es p g -> frame es p g' -> g = g'.
Proof. intros (e & He & Hg) (e' & He' & Hg'). congruence. Qed.

(** *** Changes of the ghost context *)

Lemma occ_cons cb' cb rest es :
  occ cb' (cb :: rest) es
  = ((if decide (cb = cb') then 1 else 0) + occ cb' rest es)%nat.
Proof.
  unfold occ, count. simpl.
  destruct (simpy.Callback_eq_dec cb cb'); destruct (decide (cb = cb'));
    try contradiction; reflexivity.
Qed.

Lemma Coh_drop cb rest a n w :
  Coh {| pend := cb :: rest; active := a; bound := n |} w ->
  (forall c0 e evs k, cb = Condition_check c0 -> events w !! c0 = Some e ->
     kind e = Condition evs k -> triggered e = true) ->
  Coh {| pend := rest; active := a; bound := n |} w.
Proof.
  intros HC Hchk. destruct HC; cbn [pend active bound] in *.
  constructor; cbn [pend active bound]; try assumption.
  - inversion coh_fresh0; assumption.
  - intros p g reqs Hin. apply coh_woken0. apply list_elem_of_further. exact Hin.
  - intros p. specialize (coh_once0 p). rewrite occ_cons in coh_once0. lia.
  - intros p own Ha. specialize (coh_running0 p own Ha).
    rewrite occ_cons in coh_running0. lia.
  - intros c0 e evs k Hlt He Hk Ht.
    destruct (coh_count0 c0 e evs k Hlt He Hk Ht) as [Hn Hs].
    split; [|exact Hs]. rewrite occ_cons in Hn.
    destruct (decide (cb = Condition_check c0)) as [Heq|Hne]; [|exact Hn].
    rewrite (Hchk c0 e evs k Heq He Hk) in Ht. discriminate.
  - intros c0 Hin. apply coh_built0. apply list_elem_of_further. exact Hin.
Qed.

Lemma Coh_activate pd n w p g :
  Coh {| pend := pd; active := None; bound := n |} w ->
  active_proc w = Some p -> frame (events w) p g ->
  occ (Process_resume p) pd (events w) = 0%nat ->
  Coh {| pend := pd; active := Some (p, requests_of g); bound := n |} w.
Proof.
  intros HC Hap Hp Hocc. destruct HC; cbn [pend active bound] in *.
  constructor; cbn [pend active bound]; try assumption.
  - intros p0 own [= <- <-]. split; [exact Hap|]. exists g. exact Hp.
  - intros p0 g0 Hp0 _. apply coh_frames0; [exact Hp0|]. intros own. discriminate.
  - intros p0 own [= <- <-]. apply coh_frames0; [exact Hp|]. intros own. discriminate.
  - intros p0 own [= <- <-]. exact Hocc.
Qed.

Lemma Coh_deactivate pd n w p g :
  Coh {| pend := pd; active := Some (p, requests_of g); bound := n |} w ->
  frame (events w) p g ->
  Coh {| pend := pd; active := None; bound := n |} w.
Proof.
  intros HC Hp. destruct HC; cbn [pend active bound] in *.
  constructor; cbn [pend active bound]; try assumption; try discriminate.
  intros p0 g0 Hp0 _. destruct (decide (p0 = p)) as [->|Hne].
  - rewrite (frame_inj _ _ _ _ Hp0 Hp). apply coh_own0. reflexivity.
  - apply coh_frames0; [exact Hp0|]. intros own [= -> _]. exact (Hne eq_refl).
Qed.

Lemma Coh_own pd n w p own own' :
  Coh {| pend := pd; active := Some (p, own); bound := n |} w ->
  owned (events w) (resources w) p own' ->
  Coh {| pend := pd; active := Some (p, own'); bound := n |} w.
Proof.
  intros HC Ho. destruct HC; cbn [pend active bound] in *.
  constructor; cbn [pend active bound]; try assumption.
  - intros p0 o [= <- <-]. exact (coh_active0 p own eq_refl).
  - intros p0 g0 Hp0 Hna. apply coh_frames0; [exact Hp0|].
    intros o [= -> _]. exact (Hna own' eq_refl).
  - intros p0 o [= <- <-]. exact Ho.
  - intros p0 o [= <- <-]. exact (coh_running0 p own eq_refl).
Qed.

Lemma Coh_bump pd a n m w :
  Coh {| pend := pd; active := a; bound := n |} w ->
  (m <= length (events w))%nat ->
  (forall c0 e evs k, (n <= c0 < m)%nat -> events w !! c0 = Some e ->
     kind e = Condition evs k -> triggered e = false ->
     (k + occ (Condition_check c0) pd (events w) = length evs)%nat
     /\ forall s, s ∈ evs ->
          is_triggered (events w) s
          \/ exists es cbs, events w !! s = Some es /\ callbacks es = Some cbs
                            /\ Condition_check c0 ∈ cbs) ->
  Coh {| pend := pd; active := a; bound := m |} w.
Proof.
  intros HC Hm Hnew. destruct HC; cbn [pend active bound] in *.
  constructor; cbn [pend active bound]; try assumption.
  intros c0 e evs k Hlt He Hk Ht.
  destruct (decide (c0 < n)%nat) as [Hold|Hge].
  - exact (coh_count0 c0 e evs k Hold He Hk Ht).
  - apply (Hnew c0 e evs k); [lia|assumption..].
Qed.

(** *** Two common writes *)

Lemma fresh_lookup c w (x : ref) e :
  Coh c w -> events w !! x = Some e ->
  Forall (cb_fresh (length (events w))) (cbl e).
Proof.
  intros HC Hx. pose proof (coh_fresh _ _ HC) as H.
  apply Forall_app in H as [_ H]. apply Forall_forall. intros cb Hcb.
  exact (proj1 (Forall_forall _ _) H cb (heap_callbacks_lookup _ _ _ _ Hx Hcb)).
Qed.

Lemma fresh_pend c w :
  Coh c w -> Forall (cb_fresh (length (events w))) (pend c).
Proof.
  intros HC. pose proof (coh_fresh _ _ HC) as H.
  apply Forall_app in H as [H _]. exact H.
Qed.

(** The event keeps its callbacks and its class; it may become triggered. *)
Lemma Coh_put_trigger c w (x : ref) e e' :
  Coh c w ->
  events w !! x = Some e ->
  callbacks e' = callbacks e -> kind e' = kind e ->
  (triggered e = true -> triggered e' = true) ->
  (forall r pr, kind e = Request r pr -> triggered e' = true ->
                triggered e = true \/ in_use (resources w) r x) ->
  (forall evs k, kind e = Condition evs k -> triggered e' = true ->
     triggered e = true \/ forall s, s ∈ evs -> is_triggered (events w) s) ->
  Coh c (set_events (<[x := e']> (events w)) w).
Proof.
  intros HC Hx Hcb Hk Hmono HReq HCond.
  assert (Hcbl : cbl e' = cbl e) by (unfold cbl; rewrite Hcb; reflexivity).
  apply (Coh_put c c w x e e' HC eq_refl eq_refl Hx Hmono).
  - rewrite Hk. apply kind_like_refl.
  - intros Hn. apply Hmono. rewrite Hcb in Hn.
    exact (coh_processed _ _ HC x e Hx Hn).
  - apply Forall_app. split; [exact (fresh_pend c w HC)|].
    rewrite Hcbl. exact (fresh_lookup c w x e HC Hx).
  - exact HReq.
  - intros g Hg. left. congruence.
  - exact HCond.
  - intros cb Hin. left. exact Hin.
  - intros c0 Hin. rewrite Hcbl in Hin. exact (coh_build _ _ HC x e c0 Hx Hin).
  - intros p Hin. left. rewrite <- Hcbl. exact Hin.
  - intros p. left. rewrite Hcbl. lia.
  - intros c0 ec evs k Hlt Hc0 Hkc Ht. split.
    + exists k. split; [|split; [reflexivity|rewrite Hcbl; lia]].
      intros ->. unfold ref in *. congruence.
    + intros Hin. right. apply cbl_Some in Hin as (cbs & Hcbs & Hin).
      exists cbs. split; [congruence|exact Hin].
Qed.

(** Only the list of callbacks changes. *)
Lemma Coh_put_cbs c w (x : ref) e cbs' :
  Coh c w ->
  events w !! x = Some e ->
  callbacks e <> None ->
  Forall (cb_fresh (length (events w))) cbs' ->
  (forall c0, Condition_build_value c0 ∈ cbs' -> c0 = x) ->
  (forall p, Process_resume p ∈ cbs' ->
     Process_resume p ∈ cbl e
     \/ (occ (Process_resume p) (pend c) (events w) = 0%nat
         /\ count (Process_resume p) cbs' = 1%nat
         /\ (forall own, active c <> Some (p, own))
         /\ forall g reqs, frame (events w) p g -> is_joint g = Some reqs ->
              forall rq, rq ∈ reqs -> covers (events w) x (snd rq))) ->
  (forall p, Process_resume p ∈ cbl e ->
     (count (Process_resume p) cbs' <= count (Process_resume p) (cbl e))%nat) ->
  (forall c0 ec evs k, (c0 < bound c)%nat -> events w !! c0 = Some ec ->
     kind ec = Condition evs k -> triggered ec = false ->
     count (Condition_check c0) cbs' = count (Condition_check c0) (cbl e)) ->
  Coh c (set_events
           (<[x := {| callbacks := Some cbs'; triggered := triggered e;
                      kind := kind e |}]> (events w)) w).
Proof.
  intros HC Hx Hcb HF HBuild HResume HLe HCheck.
  apply (Coh_put c c w x e _ HC eq_refl eq_refl Hx); cbn [callbacks triggered kind cbl default from_option id].
  - tauto.
  - apply kind_like_refl.
  - discriminate.
  - apply Forall_app. split; [exact (fresh_pend c w HC)|exact HF].
  - intros r pr _ Ht. left. exact Ht.
  - intros g Hg. left. exact Hg.
  - intros evs k _ Ht. left. exact Ht.
  - intros cb Hin. left. exact Hin.
  - exact HBuild.
  - intros p Hin. destruct (HResume p Hin) as [H|(_ & _ & Hna & Hcov)];
      [left; exact H|right; split; assumption].
  - intros p. destruct (decide (Process_resume p ∈ cbs')) as [Hin|Hnin].
    + destruct (HResume p Hin) as [H|(H0 & H1 & Hna & _)].
      * left. specialize (HLe p H). lia.
      * right. split; [exact H0|]. split; [|exact Hna].
        pose proof (occ_pend (Process_resume p) (pend c) (events w)). lia.
    + left. rewrite (count_notin _ _ Hnin). lia.
  - intros c0 ec evs k Hlt Hc0 Hkc Ht.
    pose proof (HCheck c0 ec evs k Hlt Hc0 Hkc Ht) as Heq. split.
    + exists k. split; [|split; [reflexivity|lia]].
      intros ->. unfold ref in *. congruence.
    + intros Hin. right. exists cbs'. split; [reflexivity|].
      apply count_in in Hin.
      destruct (decide (Condition_check c0 ∈ cbs')) as [H|H]; [exact H|].
      rewrite (count_notin _ _ H) in Heq. lia.
Qed.

(** *** What an operation may do to the events that exist *)

Definition kind_same (k k' : Kind) : Prop :=
  match k with
  | Condition evs _ => exists n, k' = Condition evs n
  | _ => k' = k
  end.

Definition evolves (es es' : list Event) : Prop :=
  forall (x : ref) e, es !! x = Some e ->
    exists e', es' !! x = Some e' /\ kind_same (kind e) (kind e')
               /\ (triggered e = true -> triggered e' = true).

Lemma kind_same_refl k : kind_same k k.
Proof. destruct k; simpl; eauto. Qed.

Lemma kind_same_trans k1 k2 k3 :
  kind_same k1 k2 -> kind_same k2 k3 -> kind_same k1 k3.
Proof.
  destruct k1; simpl; try (intros ->; simpl; tauto).
  intros [n ->]. simpl. tauto.
Qed.

Lemma kind_same_like k k' : kind_same k k' -> kind_like k k'.
Proof. destruct k; simpl; eauto. Qed.

Lemma evolves_refl es : evolves es es.
Proof. intros x e H. exists e. split; [exact H|]. split; [apply kind_same_refl|tauto]. Qed.

Lemma evolves_trans es1 es2 es3 :
  evolves es1 es2 -> evolves es2 es3 -> evolves es1 es3.
Proof.
  intros H12 H23 x e H. destruct (H12 x e H) as (e2 & H2 & Hk2 & Ht2).
  destruct (H23 x e2 H2) as (e3 & H3 & Hk3 & Ht3).
  exists e3. split; [exact H3|]. split; [exact (kind_same_trans _ _ _ Hk2 Hk3)|tauto].
Qed.

Lemma evolves_put es (x : ref) e e' :
  es !! x = Some e -> kind_same (kind e) (kind e') ->
  (triggered e = true -> triggered e' = true) ->
  evolves es (<[x := e']> es).
Proof.
  intros Hx Hk Ht y ey Hy. rewrite (put_lookup es x e e' Hx).
  case_decide as Hyx.
  - subst y. rewrite Hx in Hy. injection Hy as <-. eauto.
  - exists ey. split; [exact Hy|]. split; [apply kind_same_refl|tauto].
Qed.

Lemma evolves_app es e : evolves es (es ++ [e]).
Proof.
  intros y ey Hy. exists ey. split; [apply lookup_app_l_Some; exact Hy|].
  split; [apply kind_same_refl|tauto].
Qed.

Lemma evolves_triggered es es' x :
  evolves es es' -> is_triggered es x -> is_triggered es' x.
Proof.
  intros H (e & He & Ht). destruct (H x e He) as (e' & He' & _ & Ht').
  exists e'. split; [exact He'|exact (Ht' Ht)].
Qed.

Lemma evolves_frame es es' p g : evolves es es' -> frame es p g -> frame es' p g.
Proof.
  intros H (e & He & Hg). destruct (H p e He) as (e' & He' & Hk & _).
  exists e'. split; [exact He'|]. rewrite Hg in Hk. exact Hk.
Qed.

Lemma evolves_request es es' (q : ref) e r pr :
  evolves es es' -> es !! q = Some e -> kind e = Request r pr ->
  exists e', es' !! q = Some e' /\ kind e' = Request r pr.
Proof.
  intros H He Hk. destruct (H q e He) as (e' & He' & Hk' & _).
  exists e'. split; [exact He'|]. rewrite Hk in Hk'. exact Hk'.
Qed.

Lemma evolves_covers es es' a b : evolves es es' -> covers es a b -> covers es' a b.
Proof.
  intros H. induction 1 as [a|c ec evs k s q Hc Hk Hs Hcov IH]; [constructor|].
  destruct (H c ec Hc) as (e' & He' & Hk' & _). rewrite Hk in Hk'.
  destruct Hk' as [n Hn].
  exact (covers_under es' c e' evs n s q He' Hn Hs IH).
Qed.

Lemma evolves_length es es' : evolves es es' -> (length es <= length es')%nat.
Proof.
  intros H. destruct es as [|e0 es0] eqn:E; [simpl; lia|]. rewrite <- E in *.
  assert (Hl : is_Some (es !! (length es - 1)%nat)).
  { apply lookup_lt_is_Some. rewrite E. simpl. lia. }
  destruct Hl as [e He]. destruct (H _ e He) as (e' & He' & _).
  apply lookup_lt_Some in He'. lia.
Qed.

(** *** Weakest preconditions for the simulation monad *)

Definition wp {A} (m : Sim A) (Q : A -> World -> Prop) (w : World) : Prop :=
  forall a w', m w = Some (a, w') -> Q a w'.

Lemma wp_bind {A B} (m : Sim A) (k : A -> Sim B) Q w :
  wp m (fun a w1 => wp (k a) Q w1) w -> wp (bind m k) Q w.
Proof.
  intros H b w' Hb. apply bind_Some in Hb as (a & w1 & Hm & Hk).
  exact (H a w1 Hm b w' Hk).
Qed.

Lemma wp_ret {A} (a : A) (Q : A -> World -> Prop) w : Q a w -> wp (ret a) Q w.
Proof. intros H b w' E. unfold ret in E. inversion E; subst. exact H. Qed.

Lemma wp_raise {A} (Q : A -> World -> Prop) w : wp raise Q w.
Proof. intros b w' H. discriminate. Qed.

Lemma wp_gets {A} (f : World -> A) (Q : A -> World -> Prop) w :
  Q (f w) w -> wp (gets f) Q w.
Proof. intros H b w' E. unfold gets in E. inversion E; subst. exact H. Qed.

Lemma wp_modify (f : World -> World) (Q : unit -> World -> Prop) w :
  Q tt (f w) -> wp (modify f) Q w.
Proof.
  intros H b w' E. unfold modify in E. destruct b. inversion E; subst. exact H.
Qed.

Lemma wp_mono {A} (m : Sim A) (Q Q' : A -> World -> Prop) w :
  wp m Q w -> (forall a w', Q a w' -> Q' a w') -> wp m Q' w.
Proof. intros H HQ a w' Hm. exact (HQ a w' (H a w' Hm)). Qed.

Lemma wp_get_event ev (Q : Event -> World -> Prop) w :
  (forall e, events w !! ev = Some e -> Q e w) -> wp (simpy.get_event ev) Q w.
Proof.
  intros H e w'. unfold simpy.get_event.
  destruct (events w !! ev) as [e0|] eqn:E; [|discriminate].
  intros E'. inversion E'; subst. exact (H e eq_refl).
Qed.

Lemma wp_put_event ev e (Q : unit -> World -> Prop) w :
  Q tt (set_events (<[ev := e]> (events w)) w) -> wp (simpy.put_event ev e) Q w.
Proof. apply wp_modify. Qed.

Lemma wp_new_event e (Q : ref -> World -> Prop) w :
  Q (length (events w)) (set_events (events w ++ [e]) w) ->
  wp (simpy.new_event e) Q w.
Proof.
  intros H x w' E. unfold simpy.new_event in E. inversion E; subst. exact H.
Qed.

Lemma wp_get_resource r (Q : Resource -> World -> Prop) w :
  (forall x, resources w !! r = Some x -> Q x w) -> wp (simpy.get_resource r) Q w.
Proof.
  intros H x w'. unfold simpy.get_resource.
  destruct (resources w !! r) as [x0|] eqn:E; [|discriminate].
  intros E'. inversion E'; subst. exact (H x eq_refl).
Qed.

Lemma wp_put_resource r x (Q : unit -> World -> Prop) w :
  Q tt (set_resources (<[r := x]> (resources w)) w) ->
  wp (simpy.put_resource r x) Q w.
Proof. apply wp_modify. Qed.

Lemma wp_for_each {A} (f : A -> Sim unit) (I : World -> Prop) xs :
  (forall x w, x ∈ xs -> I w -> wp (f x) (fun _ w' => I w') w) ->
  forall w, I w -> wp (for_each f xs) (fun _ w' => I w') w.
Proof.
  induction xs as [|x xs IH]; intros Hf w HI; simpl.
  - apply wp_ret. exact HI.
  - apply wp_bind. eapply wp_mono.
    + apply Hf; [apply list_elem_of_here|exact HI].
    + intros u w1 H1. apply IH; [|exact H1].
      intros y w2 Hy. apply Hf. apply list_elem_of_further. exact Hy.
Qed.

(** *** The state between two operations of the kernel *)

(** No release is waiting, except the one that [release] is handling. *)
Definition waiting (gq : option (ref * ref)) (w : World) : Prop :=
  forall (r : ref) x, resources w !! r = Some x ->
    get_queue x = match gq with
                  | Some (r0, ev) => if decide (r = r0) then [ev] else []
                  | None => []
                  end.

Definition mk (pd : list Callback) (a : option (ref * list (ref * ref)))
    (w : World) : Ctx :=
  {| pend := pd; active := a; bound := length (events w) |}.

Record good (pd : list Callback) (a : option (ref * list (ref * ref)))
    (gq : option (ref * ref)) (w0 w : World) : Prop := {
  good_coh : Coh (mk pd a w) w;
  good_waiting : waiting gq w;
  good_evolves : evolves (events w0) (events w)
}.

Lemma mk_put pd a w (x : ref) e' :
  mk pd a (set_events (<[x := e']> (events w)) w) = mk pd a w.
Proof. unfold mk. cbn [events set_events]. rewrite length_insert. reflexivity. Qed.

Lemma good_refl pd a gq w : Coh (mk pd a w) w -> waiting gq w -> good pd a gq w w.
Proof. intros HC Hq. constructor; [exact HC|exact Hq|apply evolves_refl]. Qed.

(** A change of the clock, the queue, the log, the points or the globals. *)
Lemma good_same pd a gq w0 w w' :
  good pd a gq w0 w ->
  events w' = events w -> resources w' = resources w ->
  active_proc w' = active_proc w ->
  (forall x, x ∈ queue w' -> is_triggered (events w) (snd x)) ->
  good pd a gq w0 w'.
Proof.
  intros [HC Hq He] Hes Hrs Hap Hqu. constructor.
  - unfold mk. rewrite Hes. exact (Coh_same _ w w' HC Hes Hrs Hap Hqu).
  - unfold waiting. rewrite Hrs. exact Hq.
  - rewrite Hes. exact He.
Qed.

Lemma good_queue pd a gq w0 w :
  good pd a gq w0 w -> forall x, x ∈ queue w -> is_triggered (events w) (snd x).
Proof. intros [HC _ _]. exact (coh_queue _ _ HC). Qed.

Lemma schedule_ok pd a gq w0 w ev prio delay :
  good pd a gq w0 w -> is_triggered (events w) ev ->
  wp (simpy.schedule ev prio delay) (fun _ w' => good pd a gq w0 w') w.
Proof.
  intros Hg Ht. unfold simpy.schedule. apply wp_modify.
  apply (good_same pd a gq w0 w); try reflexivity; [exact Hg|].
  cbn [queue set_queue]. intros x Hx. apply elem_of_heappush in Hx as [->|Hx].
  - exact Ht.
  - exact (good_queue _ _ _ _ _ Hg x Hx).
Qed.

Lemma log_event_ok pd a gq w0 w tid dir ev d :
  good pd a gq w0 w -> wp (log_event tid dir ev d) (fun _ w' => good pd a gq w0 w') w.
Proof.
  intros Hg. unfold log_event. apply wp_modify.
  apply (good_same pd a gq w0 w); try reflexivity; [exact Hg|].
  exact (good_queue _ _ _ _ _ Hg).
Qed.

(** An event that keeps its callbacks and its class. *)
Lemma good_put_trigger pd a gq w0 w (x : ref) e e' :
  good pd a gq w0 w ->
  events w !! x = Some e ->
  callbacks e' = callbacks e -> kind e' = kind e ->
  (triggered e = true -> triggered e' = true) ->
  (forall r pr, kind e = Request r pr -> triggered e' = true ->
                triggered e = true \/ in_use (resources w) r x) ->
  (forall evs k, kind e = Condition evs k -> triggered e' = true ->
     triggered e = true \/ forall s, s ∈ evs -> is_triggered (events w) s) ->
  good pd a gq w0 (set_events (<[x := e']> (events w)) w).
Proof.
  intros [HC Hq He] Hx Hcb Hk Hmono HReq HCond. constructor.
  - rewrite mk_put. exact (Coh_put_trigger _ w x e e' HC Hx Hcb Hk Hmono HReq HCond).
  - exact Hq.
  - apply (evolves_trans _ _ _ He). apply (evolves_put _ x e e' Hx); [|exact Hmono].
    rewrite Hk. apply kind_same_refl.
Qed.

Lemma succeed_ok pd a gq w0 w (ev : ref) :
  good pd a gq w0 w ->
  (forall e, events w !! ev = Some e -> triggered e = false ->
     (forall r pr, kind e = Request r pr -> in_use (resources w) r ev)
     /\ (forall evs k, kind e = Condition evs k ->
           forall s, s ∈ evs -> is_triggered (events w) s)) ->
  wp (simpy.succeed ev)
     (fun _ w' => good pd a gq w0 w' /\ is_triggered (events w') ev) w.
Proof.
  intros Hg Hpre. unfold simpy.succeed. apply wp_bind, wp_get_event. intros e He.
  destruct (triggered e) eqn:Ht; [apply wp_raise|].
  destruct (Hpre e He Ht) as [HReq HCond].
  apply wp_bind, wp_put_event.
  set (e' := {| callbacks := callbacks e; triggered := true; kind := kind e |}).
  assert (Hg' : good pd a gq w0 (set_events (<[ev := e']> (events w)) w)).
  { apply (good_put_trigger pd a gq w0 w ev e e' Hg He); try reflexivity.
    - intros r pr Hk _. right. exact (HReq r pr Hk).
    - intros evs k Hk _. right. exact (HCond evs k Hk). }
  assert (Ht' : is_triggered (events (set_events (<[ev := e']> (events w)) w)) ev).
  { exists e'. split; [|reflexivity]. cbn [events set_events].
    apply list_lookup_insert_eq. exact (lookup_lt_Some _ _ _ He). }
  unfold simpy.schedule. apply wp_modify. split; [|exact Ht'].
  apply (good_same pd a gq w0 _ _ Hg'); try reflexivity.
  cbn [queue set_queue]. intros x Hx. apply elem_of_heappush in Hx as [->|Hx].
  - exact Ht'.
  - exact (good_queue _ _ _ _ _ Hg' x Hx).
Qed.

Lemma fresh_occ c w cb :
  Coh c w -> ~ cb_fresh (length (events w)) cb ->
  occ cb (pend c) (events w) = 0%nat.
Proof.
  intros HC Hn. apply count_notin. intros Hin.
  exact (Hn (proj1 (Forall_forall _ _) (coh_fresh _ _ HC) cb Hin)).
Qed.

Lemma lookup_snoc {A} (l : list A) (x : A) : (l ++ [x]) !! length l = Some x.
Proof. rewrite lookup_app_r by lia. rewrite Nat.sub_diag. reflexivity. Qed.

Lemma new_event_ok pd a gq w0 w e :
  good pd a gq w0 w ->
  callbacks e = Some [] ->
  (forall g, kind e = Process g -> requests_of g = [] /\ past_joint g = None) ->
  (forall evs k, kind e <> Condition evs k) ->
  wp (simpy.new_event e)
     (fun x w' => good pd a gq w0 w' /\ x = length (events w)
                  /\ events w' = events w ++ [e]) w.
Proof.
  intros [HC Hq He] Hcb HProc HNC. apply wp_new_event.
  split; [|split; reflexivity]. constructor.
  - unfold mk. cbn [events set_events].
    apply (Coh_bump pd a (length (events w))).
    + apply (Coh_new (mk pd a w) w e [] HC Hcb).
      * constructor.
      * exact HProc.
      * intros evs k Hk. exfalso. exact (HNC evs k Hk).
      * intros p Hin. inversion Hin.
      * intros c0 Hin. inversion Hin.
      * intros c0 Hin. inversion Hin.
    + cbn [events set_events]. lia.
    + cbn [events set_events]. intros c0 e0 evs k Hr He0 Hk.
      rewrite length_app in Hr. simpl in Hr.
      assert (c0 = length (events w)) as -> by lia.
      rewrite lookup_snoc in He0. injection He0 as <-.
      exfalso. exact (HNC evs k Hk).
  - exact Hq.
  - cbn [events set_events]. apply (evolves_trans _ _ _ He), evolves_app.
Qed.

Lemma count_snoc cb' l cb :
  count cb' (l ++ [cb]) = (count cb' l + (if decide (cb = cb') then 1 else 0))%nat.
Proof.
  rewrite count_app. unfold count at 2. simpl.
  destruct (simpy.Callback_eq_dec cb cb'); destruct (decide (cb = cb'));
    try contradiction; reflexivity.
Qed.

Lemma good_put_cbs pd a gq w0 w (x : ref) e cbs' :
  good pd a gq w0 w ->
  events w !! x = Some e ->
  callbacks e <> None ->
  Forall (cb_fresh (length (events w))) cbs' ->
  (forall c0, Condition_build_value c0 ∈ cbs' -> c0 = x) ->
  (forall p, Process_resume p ∈ cbs' ->
     Process_resume p ∈ cbl e
     \/ (occ (Process_resume p) pd (events w) = 0%nat
         /\ count (Process_resume p) cbs' = 1%nat
         /\ (forall own, a <> Some (p, own))
         /\ forall g reqs, frame (events w) p g -> is_joint g = Some reqs ->
              forall rq, rq ∈ reqs -> covers (events w) x (snd rq))) ->
  (forall p, Process_resume p ∈ cbl e ->
     (count (Process_resume p) cbs' <= count (Process_resume p) (cbl e))%nat) ->
  (forall c0 ec evs k, (c0 < length (events w))%nat -> events w !! c0 = Some ec ->
     kind ec = Condition evs k -> triggered ec = false ->
     count (Condition_check c0) cbs' = count (Condition_check c0) (cbl e)) ->
  good pd a gq w0
    (set_events
       (<[x := {| callbacks := Some cbs'; triggered := triggered e;
                  kind := kind e |}]> (events w)) w).
Proof.
  intros [HC Hq He] Hx Hcb HF HBuild HResume HLe HCheck. constructor.
  - rewrite mk_put.
    exact (Coh_put_cbs _ w x e cbs' HC Hx Hcb HF HBuild HResume HLe HCheck).
  - exact Hq.
  - apply (evolves_trans _ _ _ He).
    apply (evolves_put _ x e _ Hx); [apply kind_same_refl|tauto].
Qed.

(** Appending a callback that is neither a process nor a check. *)
Lemma append_plain_ok pd a gq w0 w (ev : ref) cb :
  good pd a gq w0 w ->
  (forall p, cb <> Process_resume p) ->
  (forall c, cb <> Condition_check c) ->
  (forall c, cb = Condition_build_value c -> c = ev) ->
  wp (simpy.append_callback ev cb) (fun _ w' => good pd a gq w0 w') w.
Proof.
  intros Hg Hnp Hnc Hb. unfold simpy.append_callback.
  apply wp_bind, wp_get_event. intros e He.
  destruct (callbacks e) as [cbs|] eqn:Hcbs; [|apply wp_raise].
  apply wp_put_event.
  assert (Hcbl : cbl e = cbs) by exact (cbl_of_Some _ _ Hcbs).
  apply (good_put_cbs pd a gq w0 w ev e (cbs ++ [cb]) Hg He).
  - congruence.
  - apply Forall_app. split.
    + rewrite <- Hcbl. exact (fresh_lookup _ w ev e (good_coh _ _ _ _ _ Hg) He).
    + constructor; [|constructor].
      destruct cb; simpl; try exact I; [exfalso; exact (Hnp _ eq_refl)|].
      exfalso. exact (Hnc _ eq_refl).
  - intros c0 Hin. apply elem_of_app in Hin as [Hin|Hin].
    + rewrite <- Hcbl in Hin.
      exact (coh_build _ _ (good_coh _ _ _ _ _ Hg) ev e c0 He Hin).
    + apply list_elem_of_singleton in Hin. symmetry in Hin. exact (Hb c0 Hin).
  - intros p Hin. left. apply elem_of_app in Hin as [Hin|Hin].
    + rewrite Hcbl. exact Hin.
    + apply list_elem_of_singleton in Hin. symmetry in Hin.
      exfalso. exact (Hnp p Hin).
  - intros p _. rewrite count_snoc, Hcbl.
    destruct (decide (cb = Process_resume p)) as [H|H]; [|lia].
    exfalso. exact (Hnp p H).
  - intros c0 ec evs k _ _ _ _. rewrite count_snoc, Hcbl.
    destruct (decide (cb = Condition_check c0)) as [H|H]; [|lia].
    exfalso. exact (Hnc c0 H).
Qed.

Lemma timeout_ok pd a gq w0 w delay :
  good pd a gq w0 w ->
  wp (simpy.timeout delay) (fun _ w' => good pd a gq w0 w') w.
Proof.
  intros Hg. unfold simpy.timeout. destruct (delay <? 0); [apply wp_raise|].
  apply wp_bind. eapply wp_mono.
  { apply (new_event_ok pd a gq w0 w _ Hg); [reflexivity| |]; discriminate. }
  intros ev w1 (Hg1 & -> & Hes). apply wp_bind. eapply wp_mono.
  { apply (schedule_ok pd a gq w0 w1 _ _ _ Hg1).
    eexists. split; [rewrite Hes; apply lookup_snoc|reflexivity]. }
  intros u w2 Hg2. apply wp_ret. exact Hg2.
Qed.

Lemma process_ok pd a gq w0 w g :
  good pd a gq w0 w ->
  requests_of g = [] -> past_joint g = None -> is_joint g = None ->
  wp (simpy.process g) (fun _ w' => good pd a gq w0 w') w.
Proof.
  intros Hg Hr Hp Hj. unfold simpy.process.
  apply wp_bind. eapply wp_mono.
  { apply (new_event_ok pd a gq w0 w _ Hg); [reflexivity| |discriminate].
    intros g0 [= <-]. split; assumption. }
  intros p w1 (Hg1 & -> & Hes).
  pose proof (good_coh _ _ _ _ _ Hg) as HC.
  pose proof (good_coh _ _ _ _ _ Hg1) as HC1.
  apply wp_bind, wp_new_event.
  set (i := {| callbacks := Some [Process_resume (length (events w))];
               triggered := true; kind := Initialize |}).
  assert (Hocc : occ (Process_resume (length (events w))) pd (events w1) = 0%nat).
  { assert (H0 : occ (Process_resume (length (events w))) pd (events w) = 0%nat).
    { apply (fresh_occ (mk pd a w) w _ HC). simpl. lia. }
    rewrite Hes, app_occ, H0. reflexivity. }
  assert (Hg2 : good pd a gq w0 (set_events (events w1 ++ [i]) w1)).
  { constructor.
    - unfold mk. cbn [events set_events].
      apply (Coh_bump pd a (length (events w1))).
      + apply (Coh_new (mk pd a w1) w1 i _ HC1 eq_refl).
        * constructor; [|constructor]. simpl. rewrite Hes, length_app. simpl. lia.
        * discriminate.
        * discriminate.
        * intros p Hin. apply list_elem_of_singleton in Hin. injection Hin as ->.
          split; [exact Hocc|]. split.
          { unfold count. rewrite count_occ_cons_eq by reflexivity. reflexivity. }
          split.
          { intros own Ha.
            destruct (proj2 (coh_active _ _ HC _ own Ha)) as (g0 & e0 & He0 & _).
            apply lookup_lt_Some in He0. lia. }
          intros g0 (e0 & He0 & Hg0). rewrite Hes in He0.
          rewrite lookup_app_l in He0 by (rewrite length_app; simpl; lia).
          rewrite lookup_snoc in He0. injection He0 as <-.
          simpl in Hg0. injection Hg0 as <-. exact Hj.
        * intros c0 Hin. apply list_elem_of_singleton in Hin. discriminate.
        * intros c0 Hin. apply list_elem_of_singleton in Hin. discriminate.
      + cbn [events set_events]. lia.
      + cbn [events set_events]. intros c0 e0 evs k Hrange He0 Hk.
        rewrite length_app in Hrange. simpl in Hrange.
        assert (c0 = length (events w1)) as -> by lia.
        rewrite lookup_snoc in He0. injection He0 as <-. discriminate.
    - exact (good_waiting _ _ _ _ _ Hg1).
    - cbn [events set_events].
      apply (evolves_trans _ _ _ (good_evolves _ _ _ _ _ Hg1)), evolves_app. }
  apply wp_bind. eapply wp_mono.
  { apply (schedule_ok pd a gq w0 _ _ _ _ Hg2).
    exists i. split; [cbn [events set_events]; apply lookup_snoc|reflexivity]. }
  intros u w3 Hg3. apply wp_ret. exact Hg3.
Qed.

(** *** Resources *)

Lemma good_put_resource pd a gq gq' w0 w (r : ref) x x' :
  good pd a gq w0 w ->
  resources w !! r = Some x ->
  (forall q, q ∈ put_queue x' ->
     q ∈ put_queue x
     \/ exists e pr, events w !! q = Some e /\ kind e = Request r pr) ->
  (forall q, q ∈ users x ->
     q ∈ users x'
     \/ forall p own, claimed (mk pd a w) w p own -> q ∉ map snd own) ->
  waiting gq' (set_resources (<[r := x']> (resources w)) w) ->
  good pd a gq' w0 (set_resources (<[r := x']> (resources w)) w).
Proof.
  intros [HC Hq He] Hr Hpq Hus Hq'.
  assert (Hlk : forall r1 : ref, <[r := x']> (resources w) !! r1
                  = if decide (r1 = r) then Some x' else resources w !! r1).
  { intros r1. destruct (decide (r1 = r)) as [->|Hne].
    - apply list_lookup_insert_eq. exact (lookup_lt_Some _ _ _ Hr).
    - apply list_lookup_insert_ne. congruence. }
  constructor; [|exact Hq'|exact He].
  change (Coh (mk pd a w) (set_resources (<[r := x']> (resources w)) w)).
  apply (Coh_world (mk pd a w) w (set_resources (<[r := x']> (resources w)) w)
           HC eq_refl).
  - intros p own Ha. exact (proj1 (coh_active _ _ HC p own Ha)).
  - exact (coh_queue _ _ HC).
  - cbn [resources set_resources]. intros r1 x1 q Hr1 Hin. rewrite Hlk in Hr1.
    destruct (decide (r1 = r)) as [->|Hne].
    + injection Hr1 as <-. destruct (Hpq q Hin) as [H|H]; [|exact H].
      exact (coh_put_queue _ _ HC r x q Hr H).
    + exact (coh_put_queue _ _ HC r1 x1 q Hr1 Hin).
  - cbn [resources set_resources]. intros p own Ho Hcl.
    apply (owned_weaken _ _ _ _ _ Ho). intros r1 q Hin (x1 & Hr1 & Hu).
    unfold in_use. rewrite Hlk. destruct (decide (r1 = r)) as [->|Hne].
    + exists x'. split; [reflexivity|].
      assert (x1 = x) as -> by (unfold ref in *; congruence).
      destruct (Hus q Hu) as [H|H]; [exact H|].
      exfalso. apply (H p own Hcl). apply list_elem_of_fmap.
      exists (r, q). split; [reflexivity|exact Hin].
    + exists x1. split; assumption.
Qed.

Lemma waiting_put gq w (r : ref) x x' :
  waiting gq w -> resources w !! r = Some x -> get_queue x' = get_queue x ->
  waiting gq (set_resources (<[r := x']> (resources w)) w).
Proof.
  intros Hq Hr Hg r1 x1. cbn [resources set_resources].
  destruct (decide (r1 = r)) as [->|Hne].
  - rewrite list_lookup_insert_eq by exact (lookup_lt_Some _ _ _ Hr).
    intros [= <-]. rewrite Hg. exact (Hq r x Hr).
  - rewrite list_lookup_insert_ne by congruence. exact (Hq r1 x1).
Qed.

Lemma Resource_do_put_ok pd a gq w0 w (r ev : ref) :
  good pd a gq w0 w ->
  (forall e, events w !! ev = Some e -> exists pr, kind e = Request r pr) ->
  wp (simpy.Resource_do_put r ev) (fun _ w' => good pd a gq w0 w') w.
Proof.
  intros Hg Hk. unfold simpy.Resource_do_put.
  apply wp_bind, wp_get_resource. intros x Hx.
  apply wp_bind, wp_gets.
  destruct (length (users x) <? capacity x)%nat; [|apply wp_ret; exact Hg].
  apply wp_bind, wp_put_resource.
  set (x' := {| capacity := capacity x; users := users x ++ [ev];
                put_queue := put_queue x; get_queue := get_queue x;
                history := history x ++ [Granted ev (now w)] |}).
  assert (Hg' : good pd a gq w0 (set_resources (<[r := x']> (resources w)) w)).
  { apply (good_put_resource pd a gq gq w0 w r x x' Hg Hx).
    - intros q Hq. left. exact Hq.
    - intros q Hq. left. apply elem_of_app. left. exact Hq.
    - apply (waiting_put gq w r x x' (good_waiting _ _ _ _ _ Hg) Hx). reflexivity. }
  eapply wp_mono.
  { apply (succeed_ok pd a gq w0 _ ev Hg').
    cbn [events set_events set_resources resources].
    intros e He _. destruct (Hk e He) as [pr Hpr]. split.
    - intros r1 pr1 Hk1. rewrite Hpr in Hk1. injection Hk1 as <- <-.
      exists x'. split.
      + apply list_lookup_insert_eq. exact (lookup_lt_Some _ _ _ Hx).
      + apply elem_of_app. right. apply list_elem_of_here.
    - intros evs k Hk1. rewrite Hpr in Hk1. discriminate. }
  intros u w' [Hw' _]. exact Hw'.
Qed.

Lemma trigger_put_ok pd a gq w0 w (r : ref) :
  good pd a gq w0 w ->
  wp (simpy.trigger_put r) (fun _ w' => good pd a gq w0 w') w.
Proof.
  intros Hg. unfold simpy.trigger_put.
  apply wp_bind, wp_get_resource. intros x Hx.
  destruct (put_queue x) as [|head rest] eqn:Hpq; [apply wp_ret; exact Hg|].
  apply wp_bind. eapply wp_mono.
  { apply (Resource_do_put_ok pd a gq w0 w r head Hg). intros e He.
    destruct (coh_put_queue _ _ (good_coh _ _ _ _ _ Hg) r x head Hx)
      as (e0 & pr & He0 & Hk0).
    - rewrite Hpq. apply list_elem_of_here.
    - exists pr. unfold ref in *. congruence. }
  intros u w1 Hg1. apply wp_bind, wp_get_event. intros e He.
  destruct (triggered e); [|apply wp_ret; exact Hg1].
  apply wp_bind, wp_get_resource. intros x1 Hx1. apply wp_put_resource.
  apply (good_put_resource pd a gq gq w0 w1 r x1 _ Hg1 Hx1);
    cbn [put_queue users get_queue].
  - intros q Hq. left. destruct (put_queue x1); [inversion Hq|].
    apply list_elem_of_further. exact Hq.
  - intros q Hq. left. exact Hq.
  - apply (waiting_put gq w1 r x1 _ (good_waiting _ _ _ _ _ Hg1) Hx1). reflexivity.
Qed.

Lemma trigger_get_ok pd a w0 w (r : ref) :
  good pd a None w0 w ->
  wp (simpy.trigger_get r) (fun _ w' => good pd a None w0 w') w.
Proof.
  intros Hg. unfold simpy.trigger_get.
  apply wp_bind, wp_get_resource. intros x Hx.
  rewrite (good_waiting _ _ _ _ _ Hg r x Hx). apply wp_ret. exact Hg.
Qed.

Lemma good_own pd p own own' gq w0 w :
  good pd (Some (p, own)) gq w0 w ->
  owned (events w) (resources w) p own' ->
  good pd (Some (p, own')) gq w0 w.
Proof.
  intros [HC Hq He] Ho. constructor; [|exact Hq|exact He].
  exact (Coh_own pd _ w p own own' HC Ho).
Qed.

Lemma good_trans pd a gq w0 w w' :
  evolves (events w0) (events w) -> good pd a gq w w' -> good pd a gq w0 w'.
Proof.
  intros He [HC Hq He']. constructor; [exact HC|exact Hq|].
  exact (evolves_trans _ _ _ He He').
Qed.

Lemma good_active pd p own gq w0 w :
  good pd (Some (p, own)) gq w0 w ->
  active_proc w = Some p /\ owned (events w) (resources w) p own.
Proof.
  intros [HC _ _]. split.
  - exact (proj1 (coh_active _ _ HC p own eq_refl)).
  - exact (coh_own _ _ HC p own eq_refl).
Qed.

Lemma request_ok pd p own gq w0 w (r : ref) :
  good pd (Some (p, own)) gq w0 w ->
  wp (simpy.request r)
     (fun ev w' => good pd (Some (p, (r, ev) :: own)) gq w0 w') w.
Proof.
  intros Hg. destruct (good_active _ _ _ _ _ _ Hg) as [Hap Hown].
  unfold simpy.request. apply wp_bind, wp_gets. rewrite Hap.
  apply wp_bind. eapply wp_mono.
  { apply (new_event_ok pd _ gq w0 w _ Hg); [reflexivity| |]; discriminate. }
  intros ev w1 (Hg1 & -> & Hes).
  set (e := {| callbacks := Some []; triggered := false;
               kind := Request r (Some p) |}) in *.
  assert (Hev : events w1 !! length (events w) = Some e).
  { rewrite Hes. apply lookup_snoc. }
  assert (Hg2 : good pd (Some (p, (r, length (events w)) :: own)) gq w0 w1).
  { apply (good_own pd p own _ gq w0 w1 Hg1).
    destruct (good_active _ _ _ _ _ _ Hg1) as [_ [Hnd Hrs]].
    constructor.
    - simpl. constructor; [|exact Hnd].
      intros Hin. apply list_elem_of_fmap in Hin as ([r1 q] & Hq & Hin).
      simpl in Hq. subst q.
      destruct (owned_req _ _ _ _ Hown r1 _ Hin) as (e1 & He1 & _).
      apply lookup_lt_Some in He1. lia.
    - intros r1 q Hin. apply elem_of_cons in Hin as [Heq|Hin].
      + injection Heq as -> ->. exists e. split; [exact Hev|].
        split; [reflexivity|discriminate].
      + exact (Hrs r1 q Hin). }
  apply wp_bind, wp_get_resource. intros x Hx.
  apply wp_bind, wp_put_resource.
  set (x' := {| capacity := capacity x; users := users x;
                put_queue := put_queue x ++ [length (events w)];
                get_queue := get_queue x; history := history x |}).
  assert (Hg3 : good pd (Some (p, (r, length (events w)) :: own)) gq w0
                  (set_resources (<[r := x']> (resources w1)) w1)).
  { apply (good_put_resource pd _ gq gq w0 w1 r x x' Hg2 Hx).
    - intros q Hq. apply elem_of_app in Hq as [Hq|Hq]; [left; exact Hq|].
      apply list_elem_of_singleton in Hq. subst q. right. exists e, (Some p).
      split; [exact Hev|reflexivity].
    - intros q Hq. left. exact Hq.
    - apply (waiting_put gq w1 r x x' (good_waiting _ _ _ _ _ Hg2) Hx). reflexivity. }
  apply wp_bind. eapply wp_mono.
  { apply (append_plain_ok pd _ gq w0 _ (length (events w)) _ Hg3); discriminate. }
  intros u w4 Hg4. apply wp_bind. eapply wp_mono.
  { exact (trigger_put_ok pd _ gq w0 w4 r Hg4). }
  intros u' w5 Hg5. apply wp_ret. exact Hg5.
Qed.

Lemma list_remove_sub x l : forall l',
  simpy.list_remove x l = Some l' -> forall y, y ∈ l' -> y ∈ l.
Proof.
  induction l as [|z l IH]; intros l' H y Hy; simpl in H; [discriminate|].
  destruct (x =? z)%nat.
  - injection H as <-. apply list_elem_of_further. exact Hy.
  - destruct (simpy.list_remove x l) as [r|]; [|discriminate].
    injection H as <-. apply elem_of_cons in Hy as [->|Hy].
    + apply list_elem_of_here.
    + apply list_elem_of_further. exact (IH r eq_refl y Hy).
Qed.

Lemma list_remove_keep x l : forall l',
  simpy.list_remove x l = Some l' -> forall y, y ∈ l -> y ∈ l' \/ y = x.
Proof.
  induction l as [|z l IH]; intros l' H y Hy; simpl in H; [discriminate|].
  destruct (x =? z)%nat eqn:E.
  - injection H as <-. apply Nat.eqb_eq in E. subst z.
    apply elem_of_cons in Hy as [->|Hy]; [right; reflexivity|left; exact Hy].
  - destruct (simpy.list_remove x l) as [r|]; [|discriminate].
    injection H as <-. apply elem_of_cons in Hy as [->|Hy].
    + left. apply list_elem_of_here.
    + destruct (IH r eq_refl y Hy) as [H|H]; [|right; exact H].
      left. apply list_elem_of_further. exact H.
Qed.

(** A request of the running process that it no longer counts as its own is
    claimed by nobody. *)
Lemma unclaimed pd p own gq w0 w (req : ref) e r :
  good pd (Some (p, own)) gq w0 w ->
  events w !! req = Some e -> kind e = Request r (Some p) ->
  req ∉ map snd own ->
  forall p' own', claimed (mk pd (Some (p, own)) w) w p' own' -> req ∉ map snd own'.
Proof.
  intros [HC _ _] He Hk Hnin p' own' [Ha|[Hna (g & Hp' & ->)]].
  - cbn [mk active] in Ha. injection Ha as <- <-. exact Hnin.
  - intros Hin. apply list_elem_of_fmap in Hin as ([r1 q] & Hq & Hin).
    simpl in Hq. subst q.
    destruct (owned_req _ _ _ _ (coh_frames _ _ HC p' g Hp' Hna) r1 req Hin)
      as (e1 & He1 & Hk1 & _).
    assert (p' = p) as -> by (unfold ref in *; congruence).
    exact (Hna own eq_refl).
Qed.

Lemma resources_insert_lookup (rs : list Resource) (r r1 : ref) x x' :
  rs !! r = Some x ->
  <[r := x']> rs !! r1 = if decide (r1 = r) then Some x' else rs !! r1.
Proof.
  intros Hr. destruct (decide (r1 = r)) as [->|Hne].
  - apply list_lookup_insert_eq. exact (lookup_lt_Some _ _ _ Hr).
  - apply list_lookup_insert_ne. congruence.
Qed.

Lemma release_ok pd p own w0 w (r req : ref) e r0 :
  good pd (Some (p, own)) None w0 w ->
  events w !! req = Some e -> kind e = Request r0 (Some p) ->
  req ∉ map snd own ->
  wp (simpy.release r req) (fun _ w' => good pd (Some (p, own)) None w0 w') w.
Proof.
  intros Hg He Hk Hnin. unfold simpy.release.
  apply wp_bind. eapply wp_mono.
  { apply (new_event_ok pd _ None w0 w _ Hg); [reflexivity| |]; discriminate. }
  intros ev w1 (Hg1 & -> & Hes).
  set (rel := {| callbacks := Some []; triggered := false;
                 kind := Release r req |}) in *.
  set (a := Some (p, own)) in *.
  (* from here on the world [w1] is the point of reference *)
  apply (wp_mono _ (fun _ w' => good pd a None w1 w')).
  2:{ intros x w' Hw'. exact (good_trans _ _ _ _ _ _ (good_evolves _ _ _ _ _ Hg1) Hw'). }
  assert (Hb : good pd a None w1 w1).
  { apply good_refl; [exact (good_coh _ _ _ _ _ Hg1)|exact (good_waiting _ _ _ _ _ Hg1)]. }
  assert (Hrel : events w1 !! length (events w) = Some rel).
  { rewrite Hes. apply lookup_snoc. }
  assert (Hreq : events w1 !! req = Some e).
  { rewrite Hes. apply lookup_app_l_Some. exact He. }
  assert (Hlater : forall w', good pd a (Some (r, length (events w))) w1 w' ->
            (exists e', events w' !! length (events w) = Some e'
                        /\ kind e' = Release r req)
            /\ forall p' own', claimed (mk pd a w') w' p' own' ->
                 req ∉ map snd own').
  { intros w' Hw'. split.
    - destruct (good_evolves _ _ _ _ _ Hw' _ rel Hrel) as (e' & He' & Hk' & _).
      exists e'. split; [exact He'|exact Hk'].
    - destruct (evolves_request _ _ req e r0 (Some p)
                  (good_evolves _ _ _ _ _ Hw') Hreq Hk) as (e' & He' & Hk').
      exact (unclaimed pd p own _ w1 w' req e' r0 Hw' He' Hk' Hnin). }
  apply wp_bind, wp_get_resource. intros x Hx.
  pose proof (good_waiting _ _ _ _ _ Hb r x Hx) as Hgq. simpl in Hgq.
  apply wp_bind, wp_put_resource.
  set (x2 := {| capacity := capacity x; users := users x;
                put_queue := put_queue x;
                get_queue := get_queue x ++ [length (events w)];
                history := history x |}).
  assert (Hg2 : good pd a (Some (r, length (events w))) w1
                  (set_resources (<[r := x2]> (resources w1)) w1)).
  { apply (good_put_resource pd a None _ w1 w1 r x x2 Hb Hx).
    - intros q Hq. left. exact Hq.
    - intros q Hq. left. exact Hq.
    - intros r1 x1. cbn [resources set_resources].
      rewrite (resources_insert_lookup _ r r1 x x2 Hx).
      destruct (decide (r1 = r)) as [->|Hne].
      + intros [= <-]. cbn [get_queue x2]. rewrite Hgq. reflexivity.
      + intros H1. exact (good_waiting _ _ _ _ _ Hb r1 x1 H1). }
  apply wp_bind. eapply wp_mono.
  { apply (append_plain_ok pd a _ w1 _ (length (events w)) _ Hg2); discriminate. }
  intros u w3 Hg3.
  apply wp_bind. unfold simpy.trigger_get.
  apply wp_bind, wp_get_resource. intros x3 Hx3.
  pose proof (good_waiting _ _ _ _ _ Hg3 r x3 Hx3) as Hgq3. simpl in Hgq3.
  rewrite decide_True in Hgq3 by reflexivity. rewrite Hgq3.
  apply wp_bind. unfold simpy.Resource_do_get.
  apply wp_bind, wp_get_event. intros e3 He3.
  destruct (Hlater w3 Hg3) as [(e3' & He3' & Hk3) Hun3].
  assert (e3' = e3) as -> by (unfold ref in *; congruence).
  rewrite Hk3.
  apply wp_bind, wp_get_resource. intros x4 Hx4.
  apply wp_bind, wp_gets.
  apply wp_bind.
  apply (wp_mono _ (fun _ w' => good pd a (Some (r, length (events w))) w1 w')).
  { destruct (simpy.list_remove req (users x4)) as [us|] eqn:Hrm;
      [|apply wp_ret; exact Hg3].
    apply wp_put_resource.
    apply (good_put_resource pd a _ _ w1 w3 r x4 _ Hg3 Hx4); cbn [put_queue users].
    - intros q Hq. left. exact Hq.
    - intros q Hq. destruct (list_remove_keep _ _ _ Hrm q Hq) as [H| ->].
      + left. exact H.
      + right. exact Hun3.
    - apply (waiting_put _ w3 r x4 _ (good_waiting _ _ _ _ _ Hg3) Hx4). reflexivity. }
  intros u4 w4 Hg4. eapply wp_mono.
  { apply (succeed_ok pd a _ w1 w4 (length (events w)) Hg4).
    intros e4 He4 _. destruct (Hlater w4 Hg4) as [(e4' & He4' & Hk4) _].
    assert (e4' = e4) as -> by (unfold ref in *; congruence).
    split; intros ? ? Hk'; rewrite Hk4 in Hk'; discriminate. }
  intros u5 w5 [Hg5 (e5 & He5 & Ht5)].
  apply wp_bind, wp_get_event. intros e5' He5'.
  assert (e5' = e5) as -> by (unfold ref in *; congruence).
  rewrite Ht5.
  apply wp_bind, wp_get_resource. intros x5 Hx5.
  pose proof (good_waiting _ _ _ _ _ Hg5 r x5 Hx5) as Hgq5. simpl in Hgq5.
  rewrite decide_True in Hgq5 by reflexivity.
  apply wp_put_resource. apply wp_ret.
  apply (good_put_resource pd a _ None w1 w5 r x5 _ Hg5 Hx5); cbn [put_queue users].
  - intros q Hq. left. exact Hq.
  - intros q Hq. left. exact Hq.
  - intros r1 x1. cbn [resources set_resources].
    rewrite (resources_insert_lookup _ r r1 x5 _ Hx5).
    destruct (decide (r1 = r)) as [->|Hne].
    + intros [= <-]. cbn [get_queue]. rewrite Hgq5. reflexivity.
    + intros H1. pose proof (good_waiting _ _ _ _ _ Hg5 r1 x1 H1) as H. simpl in H.
      rewrite decide_False in H by exact Hne. exact H.
Qed.

Lemma Request_exit_ok pd p own own' w0 w (r req : ref) :
  good pd (Some (p, own)) None w0 w ->
  (r, req) ∈ own ->
  NoDup (map snd own') -> (forall x, x ∈ own' -> x ∈ own) ->
  req ∉ map snd own' ->
  wp (simpy.Request_exit r req)
     (fun _ w' => good pd (Some (p, own')) None w0 w') w.
Proof.
  intros Hg Hin Hnd Hsub Hnin. unfold simpy.Request_exit.
  destruct (good_active _ _ _ _ _ _ Hg) as [_ Hown].
  destruct (owned_req _ _ _ _ Hown r req Hin) as (e & He & Hk & _).
  apply wp_bind, wp_get_event. intros e' He'.
  assert (e' = e) as -> by (unfold ref in *; congruence).
  apply wp_bind.
  apply (wp_mono _ (fun _ w' => good pd (Some (p, own)) None w0 w'
                                /\ events w' = events w)).
  { destruct (triggered e); [apply wp_ret; split; [exact Hg|reflexivity]|].
    apply wp_bind, wp_get_resource. intros x Hx.
    destruct (simpy.list_remove req (put_queue x)) as [q|] eqn:Hrm; [|apply wp_raise].
    apply wp_put_resource. split; [|reflexivity].
    apply (good_put_resource pd _ None None w0 w r x _ Hg Hx); cbn [put_queue users].
    - intros y Hy. left. exact (list_remove_sub _ _ _ Hrm y Hy).
    - intros y Hy. left. exact Hy.
    - apply (waiting_put _ w r x _ (good_waiting _ _ _ _ _ Hg) Hx). reflexivity. }
  intros u w1 [Hg1 Hes].
  destruct (good_active _ _ _ _ _ _ Hg1) as [_ Hown1].
  assert (Hg2 : good pd (Some (p, own')) None w0 w1).
  { apply (good_own pd p own own' None w0 w1 Hg1).
    exact (owned_sub _ _ _ _ _ Hown1 Hnd Hsub). }
  apply wp_bind. eapply wp_mono.
  { apply (release_ok pd p own' w0 w1 r req e r Hg2); [|exact Hk|exact Hnin].
    rewrite Hes. exact He. }
  intros ev w2 Hg3. apply wp_ret. exact Hg3.
Qed.

(** *** Conditions *)

Lemma count_cons cb' cb l :
  count cb' (cb :: l) = ((if decide (cb = cb') then 1 else 0) + count cb' l)%nat.
Proof.
  unfold count. simpl.
  destruct (simpy.Callback_eq_dec cb cb'); destruct (decide (cb = cb'));
    try contradiction; reflexivity.
Qed.

(** [_check] counts one more processed event: either the condition is still
    under construction, or the check is the callback being called. *)
Lemma Coh_put_count pd pd' a n w (x : ref) e evs k :
  Coh {| pend := pd; active := a; bound := n |} w ->
  events w !! x = Some e -> kind e = Condition evs k -> triggered e = false ->
  (pd = pd' /\ (n <= x)%nat) \/ pd = Condition_check x :: pd' ->
  Coh {| pend := pd'; active := a; bound := n |}
      (set_events
         (<[x := {| callbacks := callbacks e; triggered := false;
                    kind := Condition evs (S k) |}]> (events w)) w).
Proof.
  intros HC Hx Hk Ht Hpd.
  assert (Hsub : forall cb, cb ∈ pd' -> cb ∈ pd).
  { intros cb Hin. destruct Hpd as [[-> _]| ->]; [exact Hin|].
    apply list_elem_of_further. exact Hin. }
  assert (Hcnt : forall cb, (count cb pd' <= count cb pd)%nat).
  { intros cb. destruct Hpd as [[-> _]| ->]; [lia|]. rewrite count_cons. lia. }
  apply (Coh_put _ {| pend := pd'; active := a; bound := n |} w x e _ HC
           eq_refl eq_refl Hx);
    cbn [callbacks triggered kind pend active bound].
  - rewrite Ht. discriminate.
  - rewrite Hk. simpl. eauto.
  - intros Hn. rewrite (coh_processed _ _ HC x e Hx Hn) in Ht. discriminate.
  - apply Forall_app. split.
    + apply Forall_forall. intros cb Hin.
      exact (proj1 (Forall_forall _ _) (fresh_pend _ w HC) cb (Hsub cb Hin)).
    + exact (fresh_lookup _ w x e HC Hx).
  - intros r pr Hr. rewrite Hk in Hr. discriminate.
  - discriminate.
  - discriminate.
  - intros cb Hin. left. exact (Hsub cb Hin).
  - intros c0 Hin. exact (coh_build _ _ HC x e c0 Hx Hin).
  - intros p Hin. left. exact Hin.
  - intros p. left. unfold cbl at 1. cbn [callbacks]. fold (cbl e).
    specialize (Hcnt (Process_resume p)). lia.
  - intros c0 ec evs0 k0 Hlt Hc0 Hk0 Ht0. split.
    + unfold cbl at 1. cbn [callbacks]. fold (cbl e).
      destruct (decide (c0 = x)) as [->|Hne].
      * assert (ec = e) as -> by (unfold ref in *; congruence).
        rewrite Hk in Hk0. injection Hk0 as <- <-.
        exists (S k). split; [reflexivity|]. split; [congruence|].
        destruct Hpd as [[-> Hle]| ->]; [lia|].
        rewrite count_cons, decide_True by reflexivity. lia.
      * exists k0. split; [congruence|]. split; [reflexivity|].
        destruct Hpd as [[-> Hle]| ->]; [lia|].
        rewrite count_cons, decide_False by congruence. lia.
    + intros Hin. right. apply cbl_Some in Hin as (cbs & Hcbs & Hin).
      exists cbs. split; assumption.
Qed.

Lemma good_drop cb rest a gq w0 w :
  good (cb :: rest) a gq w0 w ->
  (forall c0 e evs k, cb = Condition_check c0 -> events w !! c0 = Some e ->
     kind e = Condition evs k -> triggered e = true) ->
  good rest a gq w0 w.
Proof.
  intros [HC Hq He] H. constructor; [|exact Hq|exact He].
  exact (Coh_drop cb rest a _ w HC H).
Qed.

(** All the events of a condition have been processed once its count is
    complete and no check is left. *)
Lemma count_complete pd a n w (c : ref) (evs : list ref) :
  Coh {| pend := pd; active := a; bound := n |} w ->
  occ (Condition_check c) pd (events w) = 0%nat ->
  (forall s, s ∈ evs ->
     is_triggered (events w) s
     \/ exists es cbs, events w !! s = Some es /\ callbacks es = Some cbs
                       /\ Condition_check c ∈ cbs) ->
  forall s, s ∈ evs -> is_triggered (events w) s.
Proof.
  intros HC Hocc Hall s Hs. destruct (Hall s Hs) as [H|(es & cbs & Hes & Hcbs & Hin)];
    [exact H|].
  exfalso. rewrite <- (cbl_of_Some _ _ Hcbs) in Hin.
  pose proof (occ_lookup (Condition_check c) pd _ _ _ Hes).
  pose proof (count_in _ _ Hin). lia.
Qed.

Lemma check_ok rest a gq w0 w (c : ref) :
  good (Condition_check c :: rest) a gq w0 w ->
  wp (simpy.check c) (fun _ w' => good rest a gq w0 w') w.
Proof.
  intros Hg. unfold simpy.check. apply wp_bind, wp_get_event. intros e He.
  destruct (triggered e) eqn:Ht.
  { apply wp_ret. apply (good_drop _ _ _ _ _ _ Hg).
    intros c0 e0 evs k [= <-] He0 _. unfold ref in *. congruence. }
  destruct (kind e) as [| | | |evs n|] eqn:Hk; try apply wp_raise.
  destruct Hg as [HC Hq Hev].
  pose proof (lookup_lt_Some _ _ _ He) as Hlt.
  apply wp_bind, wp_put_event.
  set (e1 := {| callbacks := callbacks e; triggered := false;
                kind := Condition evs (S n) |}).
  set (w1 := set_events (<[c := e1]> (events w)) w).
  assert (HC1 : Coh (mk rest a w1) w1).
  { unfold w1. rewrite mk_put.
    apply (Coh_put_count _ rest a _ w c e evs n HC He Hk Ht). right. reflexivity. }
  assert (He1 : events w1 !! c = Some e1).
  { apply list_lookup_insert_eq. exact Hlt. }
  assert (Hg1 : good rest a gq w0 w1).
  { constructor; [exact HC1|exact Hq|].
    apply (evolves_trans _ _ _ Hev). apply (evolves_put _ c e e1 He).
    - rewrite Hk. simpl. eauto.
    - rewrite Ht. discriminate. }
  destruct (length evs =? S n)%nat eqn:Hlen; [|apply wp_ret; exact Hg1].
  apply Nat.eqb_eq in Hlen.
  eapply wp_mono.
  { apply (succeed_ok rest a gq w0 w1 c Hg1). intros e' He' _.
    assert (e' = e1) as -> by (unfold ref in *; congruence).
    split; [discriminate|]. intros evs' k' [= <- <-].
    assert (Hc1 : (c < bound (mk rest a w1))%nat).
    { unfold mk, w1. cbn [bound events set_events]. rewrite length_insert.
      exact Hlt. }
    destruct (coh_count _ _ HC1 c e1 evs (S n) Hc1 He1 eq_refl eq_refl)
      as [Hn Hall].
    apply (count_complete rest a _ w1 c evs HC1); [|exact Hall].
    cbn [pend mk] in Hn. lia. }
  intros u w2 [Hg2 _]. exact Hg2.
Qed.

(** The condition [c] is being constructed over [evs]; [prefix] is the part
    of [evs] that the constructor has gone through. *)
Record building (c : ref) (evs prefix : list ref) (pd : list Callback)
    (a : option (ref * list (ref * ref))) (gq : option (ref * ref))
    (w0 w : World) : Prop := {
  b_coh : Coh {| pend := pd; active := a; bound := c |} w;
  b_waiting : waiting gq w;
  b_evolves : evolves (events w0) (events w);
  b_length : length (events w) = S c;
  b_cond : exists ec k, events w !! c = Some ec /\ kind ec = Condition evs k
    /\ (triggered ec = false ->
        (k + occ (Condition_check c) pd (events w) = length prefix)%nat
        /\ forall s, s ∈ prefix ->
             is_triggered (events w) s
             \/ exists es cbs, events w !! s = Some es /\ callbacks es = Some cbs
                               /\ Condition_check c ∈ cbs)
}.

Lemma building_check c evs prefix s rest pd a gq w0 w :
  building c evs prefix pd a gq w0 w ->
  evs = prefix ++ s :: rest ->
  is_triggered (events w) s ->
  wp (simpy.check c) (fun _ w' => building c evs (prefix ++ [s]) pd a gq w0 w') w.
Proof.
  intros [HC Hq Hev Hlen (ec & k & Hc & Hk & Hun)] Hevs Hs.
  unfold simpy.check. apply wp_bind, wp_get_event. intros e He.
  assert (e = ec) as -> by (unfold ref in *; congruence).
  destruct (triggered ec) eqn:Ht.
  { apply wp_ret. constructor; try assumption.
    exists ec, k. split; [exact Hc|]. split; [exact Hk|].
    rewrite Ht. discriminate. }
  rewrite Hk. destruct (Hun eq_refl) as [Hn Hall]. clear Hun.
  apply wp_bind, wp_put_event.
  set (e1 := {| callbacks := callbacks ec; triggered := false;
                kind := Condition evs (S k) |}).
  set (w1 := set_events (<[c := e1]> (events w)) w).
  assert (Hlt : (c < length (events w))%nat) by lia.
  assert (HC1 : Coh {| pend := pd; active := a; bound := c |} w1).
  { apply (Coh_put_count pd pd a c w c ec evs k HC Hc Hk Ht). left.
    split; [reflexivity|lia]. }
  assert (He1 : events w1 !! c = Some e1).
  { apply list_lookup_insert_eq. exact Hlt. }
  assert (Hm : triggered ec = true -> triggered e1 = true).
  { rewrite Ht. discriminate. }
  assert (Hev1 : evolves (events w0) (events w1)).
  { apply (evolves_trans _ _ _ Hev). apply (evolves_put _ c ec e1 Hc); [|exact Hm].
    rewrite Hk. simpl. eauto. }
  assert (Hocc1 : occ (Condition_check c) pd (events w1)
                  = occ (Condition_check c) pd (events w)).
  { pose proof (put_occ (events w) c ec e1 Hc (Condition_check c) pd) as H.
    unfold cbl in H. cbn [callbacks e1] in H. unfold w1. cbn [events set_events].
    lia. }
  assert (Hall1 : forall s', s' ∈ prefix ++ [s] ->
            is_triggered (events w1) s'
            \/ exists es cbs, events w1 !! s' = Some es /\ callbacks es = Some cbs
                              /\ Condition_check c ∈ cbs).
  { intros s' Hin. apply elem_of_app in Hin as [Hin|Hin].
    - destruct (Hall s' Hin) as [H|(es & cbs & Hes & Hcbs & Hcin)].
      + left. exact (put_triggered (events w) c ec e1 Hc Hm s' H).
      + right. destruct (decide (s' = c)) as [->|Hne].
        * assert (es = ec) as -> by (unfold ref in *; congruence).
          exists e1, cbs. split; [exact He1|]. split; [exact Hcbs|exact Hcin].
        * exists es, cbs. split; [|split; assumption].
          unfold w1. cbn [events set_events].
          rewrite (put_lookup_ne (events w) c ec e1 Hc) by exact Hne. exact Hes.
    - apply list_elem_of_singleton in Hin. subst s'. left.
      exact (put_triggered (events w) c ec e1 Hc Hm s Hs). }
  assert (Hb1 : building c evs (prefix ++ [s]) pd a gq w0 w1).
  { constructor; try assumption.
    - unfold w1. cbn [events set_events]. rewrite length_insert. exact Hlen.
    - exists e1, (S k). split; [exact He1|]. split; [reflexivity|]. intros _.
      split; [|exact Hall1]. rewrite Hocc1, length_app. simpl. lia. }
  destruct (length evs =? S k)%nat eqn:Hfull; [|apply wp_ret; exact Hb1].
  apply Nat.eqb_eq in Hfull.
  assert (Hevs' : evs = prefix ++ [s]).
  { rewrite Hevs in Hfull |- *. rewrite length_app in Hfull. simpl in Hfull.
    destruct rest; [reflexivity|]. simpl in Hfull. lia. }
  assert (Hocc0 : occ (Condition_check c) pd (events w1) = 0%nat).
  { rewrite Hocc1. rewrite Hevs', length_app in Hfull. simpl in Hfull. lia. }
  unfold simpy.succeed. apply wp_bind, wp_get_event. intros e' He'.
  assert (e' = e1) as -> by (unfold ref in *; congruence).
  cbn [triggered e1]. apply wp_bind, wp_put_event.
  set (e2 := {| callbacks := callbacks e1; triggered := true; kind := kind e1 |}).
  set (w2 := set_events (<[c := e2]> (events w1)) w1).
  assert (HC2 : Coh {| pend := pd; active := a; bound := c |} w2).
  { apply (Coh_put_trigger _ w1 c e1 e2 HC1 He1); try reflexivity.
    - discriminate.
    - intros evs' k' [= <- <-] _. right. rewrite Hevs'.
      exact (count_complete pd a c w1 c (prefix ++ [s]) HC1 Hocc0 Hall1). }
  assert (He2 : events w2 !! c = Some e2).
  { apply list_lookup_insert_eq. unfold w1. cbn [events set_events].
    rewrite length_insert. exact Hlt. }
  unfold simpy.schedule. apply wp_modify. constructor.
  - apply (Coh_same _ w2 _ HC2); try reflexivity.
    cbn [queue set_queue]. intros x Hx. apply elem_of_heappush in Hx as [->|Hx].
    + exists e2. split; [exact He2|reflexivity].
    + exact (coh_queue _ _ HC2 x Hx).
  - exact Hq.
  - apply (evolves_trans _ _ _ Hev1). apply (evolves_put _ c e1 e2 He1).
    + apply kind_same_refl.
    + reflexivity.
  - cbn [events set_events set_queue w2 w1]. rewrite !length_insert. exact Hlen.
  - exists e2, (S k). split; [exact He2|]. split; [reflexivity|]. discriminate.
Qed.

Lemma building_append c evs prefix (s : ref) pd a gq w0 w :
  building c evs prefix pd a gq w0 w ->
  (s < c)%nat ->
  wp (simpy.append_callback s (Condition_check c))
     (fun _ w' => building c evs (prefix ++ [s]) pd a gq w0 w') w.
Proof.
  intros [HC Hq Hev Hlen (ec & k & Hc & Hk & Hun)] Hs.
  unfold simpy.append_callback. apply wp_bind, wp_get_event. intros es Hes.
  destruct (callbacks es) as [cbs|] eqn:Hcbs; [|apply wp_raise].
  apply wp_put_event.
  set (e1 := {| callbacks := Some (cbs ++ [Condition_check c]);
                triggered := triggered es; kind := kind es |}).
  set (w1 := set_events (<[s := e1]> (events w)) w).
  assert (Hcbl : cbl es = cbs) by exact (cbl_of_Some _ _ Hcbs).
  assert (Hm : triggered es = true -> triggered e1 = true) by tauto.
  assert (HC1 : Coh {| pend := pd; active := a; bound := c |} w1).
  { apply (Coh_put_cbs _ w s es (cbs ++ [Condition_check c]) HC Hes).
    - congruence.
    - apply Forall_app. split.
      + rewrite <- Hcbl. exact (fresh_lookup _ w s es HC Hes).
      + constructor; [|constructor]. simpl. lia.
    - intros c0 Hin. apply elem_of_app in Hin as [Hin|Hin].
      + rewrite <- Hcbl in Hin. exact (coh_build _ _ HC s es c0 Hes Hin).
      + apply list_elem_of_singleton in Hin. discriminate.
    - intros p Hin. left. apply elem_of_app in Hin as [Hin|Hin].
      + rewrite Hcbl. exact Hin.
      + apply list_elem_of_singleton in Hin. discriminate.
    - intros p _. rewrite count_snoc, Hcbl, decide_False by discriminate. lia.
    - cbn [bound]. intros c0 e0 evs0 k0 Hlt _ _ _.
      rewrite count_snoc, Hcbl, decide_False; [lia|].
      intros [= ->]. lia. }
  assert (Hc1 : events w1 !! c = Some ec).
  { unfold w1. cbn [events set_events].
    rewrite (put_lookup_ne (events w) s es e1 Hes) by lia. exact Hc. }
  assert (Hs1 : events w1 !! s = Some e1).
  { apply list_lookup_insert_eq. exact (lookup_lt_Some _ _ _ Hes). }
  constructor; try assumption.
  - apply (evolves_trans _ _ _ Hev). apply (evolves_put _ s es e1 Hes); [|exact Hm].
    apply kind_same_refl.
  - unfold w1. cbn [events set_events]. rewrite length_insert. exact Hlen.
  - exists ec, k. split; [exact Hc1|]. split; [exact Hk|]. intros Ht.
    destruct (Hun Ht) as [Hn Hall]. split.
    + pose proof (put_occ (events w) s es e1 Hes (Condition_check c) pd) as H.
      unfold cbl at 2 in H. cbn [callbacks e1 default from_option id] in H.
      rewrite count_snoc, decide_True, Hcbl in H by reflexivity.
      unfold w1. cbn [events set_events]. rewrite length_app. simpl. lia.
    + intros s' Hin. destruct (decide (s' = s)) as [->|Hne].
      * right. exists e1, (cbs ++ [Condition_check c]).
        split; [exact Hs1|]. split; [reflexivity|].
        apply elem_of_app. right. apply list_elem_of_here.
      * apply elem_of_app in Hin as [Hin|Hin].
        -- destruct (Hall s' Hin) as [H|(es' & cbs' & Hes' & Hcbs' & Hcin)].
           ++ left. exact (put_triggered (events w) s es e1 Hes Hm s' H).
           ++ right. exists es', cbs'. split; [|split; assumption].
              unfold w1. cbn [events set_events].
              rewrite (put_lookup_ne (events w) s es e1 Hes) by exact Hne.
              exact Hes'.
        -- apply list_elem_of_singleton in Hin. contradiction.
Qed.

Lemma all_of_loop c evs pd a gq w0 : forall todo seen w,
  evs = seen ++ todo ->
  (forall s, s ∈ todo -> (s < c)%nat) ->
  building c evs seen pd a gq w0 w ->
  wp (for_each (fun ev =>
        e <- simpy.get_event ev ;;
        match callbacks e with
        | None => simpy.check c
        | Some _ => simpy.append_callback ev (Condition_check c)
        end) todo)
     (fun _ w' => building c evs evs pd a gq w0 w') w.
Proof.
  induction todo as [|s todo IH]; intros seen w Hevs Hlt Hb; simpl.
  - apply wp_ret. rewrite app_nil_r in Hevs. rewrite Hevs at 2. exact Hb.
  - apply wp_bind.
    apply (wp_mono _ (fun _ w' => building c evs (seen ++ [s]) pd a gq w0 w')).
    + apply wp_bind, wp_get_event. intros e He.
      destruct (callbacks e) as [cbs|] eqn:Hcbs.
      * apply (building_append c evs seen s pd a gq w0 w Hb).
        apply Hlt, list_elem_of_here.
      * apply (building_check c evs seen s todo pd a gq w0 w Hb Hevs).
        exists e. split; [exact He|].
        exact (coh_processed _ _ (b_coh _ _ _ _ _ _ _ _ Hb) s e He Hcbs).
    + intros u w1 Hb1. apply (IH (seen ++ [s]) w1).
      * rewrite <- app_assoc. exact Hevs.
      * intros s' Hin. apply Hlt, list_elem_of_further, Hin.
      * exact Hb1.
Qed.

Lemma building_build c evs pd a gq w0 w :
  building c evs evs pd a gq w0 w ->
  wp (simpy.append_callback c (Condition_build_value c))
     (fun _ w' => building c evs evs pd a gq w0 w') w.
Proof.
  intros [HC Hq Hev Hlen (ec & k & Hc & Hk & Hun)].
  unfold simpy.append_callback. apply wp_bind, wp_get_event. intros e He.
  assert (e = ec) as -> by (unfold ref in *; congruence).
  destruct (callbacks ec) as [cbs|] eqn:Hcbs; [|apply wp_raise].
  apply wp_put_event.
  set (e1 := {| callbacks := Some (cbs ++ [Condition_build_value c]);
                triggered := triggered ec; kind := kind ec |}).
  set (w1 := set_events (<[c := e1]> (events w)) w).
  assert (Hcbl : cbl ec = cbs) by exact (cbl_of_Some _ _ Hcbs).
  assert (Hm : triggered ec = true -> triggered e1 = true) by tauto.
  assert (HC1 : Coh {| pend := pd; active := a; bound := c |} w1).
  { apply (Coh_put_cbs _ w c ec (cbs ++ [Condition_build_value c]) HC Hc).
    - congruence.
    - apply Forall_app. split.
      + rewrite <- Hcbl. exact (fresh_lookup _ w c ec HC Hc).
      + constructor; [|constructor]. exact I.
    - intros c0 Hin. apply elem_of_app in Hin as [Hin|Hin].
      + rewrite <- Hcbl in Hin. exact (coh_build _ _ HC c ec c0 Hc Hin).
      + apply list_elem_of_singleton in Hin. congruence.
    - intros p Hin. left. apply elem_of_app in Hin as [Hin|Hin].
      + rewrite Hcbl. exact Hin.
      + apply list_elem_of_singleton in Hin. discriminate.
    - intros p _. rewrite count_snoc, Hcbl, decide_False by discriminate. lia.
    - intros c0 e0 evs0 k0 _ _ _ _.
      rewrite count_snoc, Hcbl, decide_False by discriminate. lia. }
  assert (Hc1 : events w1 !! c = Some e1).
  { apply list_lookup_insert_eq. exact (lookup_lt_Some _ _ _ Hc). }
  constructor; try assumption.
  - apply (evolves_trans _ _ _ Hev). apply (evolves_put _ c ec e1 Hc); [|exact Hm].
    apply kind_same_refl.
  - unfold w1. cbn [events set_events]. rewrite length_insert. exact Hlen.
  - exists e1, k. split; [exact Hc1|]. split; [exact Hk|]. intros Ht.
    destruct (Hun Ht) as [Hn Hall]. split.
    + pose proof (put_occ (events w) c ec e1 Hc (Condition_check c) pd) as H.
      unfold cbl at 2 in H. cbn [callbacks e1 default from_option id] in H.
      rewrite count_snoc, decide_False, Hcbl in H by discriminate.
      unfold w1. cbn [events set_events]. lia.
    + intros s Hin. destruct (Hall s Hin) as [H|(es & cbs' & Hes & Hcbs' & Hcin)].
      * left. exact (put_triggered (events w) c ec e1 Hc Hm s H).
      * right. destruct (decide (s = c)) as [->|Hne].
        -- assert (es = ec) as -> by (unfold ref in *; congruence).
           exists e1, (cbs ++ [Condition_build_value c]).
           split; [exact Hc1|]. split; [reflexivity|].
           apply elem_of_app. left. congruence.
        -- exists es, cbs'. split; [|split; assumption].
           unfold w1. cbn [events set_events].
           rewrite (put_lookup_ne (events w) c ec e1 Hc) by exact Hne. exact Hes.
Qed.

Lemma all_of_ok pd a gq w0 w (evs : list ref) :
  good pd a gq w0 w ->
  (forall s, s ∈ evs -> (s < length (events w))%nat) ->
  wp (simpy.all_of evs)
     (fun c w' => good pd a gq w0 w' /\ c = length (events w)
                  /\ forall s, s ∈ evs -> covers (events w') c s) w.
Proof.
  intros [HC Hq Hev] Hlt. unfold simpy.all_of.
  apply wp_bind, wp_new_event.
  set (c := length (events w)).
  set (e := {| callbacks := Some []; triggered := false;
               kind := Condition evs 0 |}).
  set (w1 := set_events (events w ++ [e]) w).
  assert (HC1 : Coh {| pend := pd; active := a; bound := c |} w1).
  { apply (Coh_new (mk pd a w) w e [] HC eq_refl).
    - constructor.
    - discriminate.
    - reflexivity.
    - intros p Hin. inversion Hin.
    - intros c0 Hin. inversion Hin.
    - intros c0 Hin. inversion Hin. }
  assert (Hc1 : events w1 !! c = Some e) by apply lookup_snoc.
  assert (Hocc : occ (Condition_check c) pd (events w1) = 0%nat).
  { unfold w1. cbn [events set_events]. rewrite app_occ.
    assert (H0 : occ (Condition_check c) pd (events w) = 0%nat).
    { apply (fresh_occ (mk pd a w) w _ HC). simpl. unfold c. lia. }
    rewrite H0. reflexivity. }
  assert (Hb : building c evs [] pd a gq w0 w1).
  { constructor.
    - exact HC1.
    - exact Hq.
    - apply (evolves_trans _ _ _ Hev), evolves_app.
    - unfold w1. cbn [events set_events]. rewrite length_app. simpl. unfold c. lia.
    - exists e, 0%nat. split; [exact Hc1|]. split; [reflexivity|]. intros _.
      split; [rewrite Hocc; reflexivity|]. intros s Hin. inversion Hin. }
  (* what the constructor leaves behind *)
  assert (Hdone : forall w', building c evs evs pd a gq w0 w' ->
            good pd a gq w0 w' /\ forall s, s ∈ evs -> covers (events w') c s).
  { intros w' [HC' Hq' Hev' Hlen' (ec & k & Hc' & Hk' & Hun')]. split.
    - constructor; [|exact Hq'|exact Hev'].
      unfold mk. apply (Coh_bump pd a c _ w' HC'); [lia|].
      intros c0 e0 evs0 k0 Hr He0 Hk0 Ht0.
      assert (c0 = c) as -> by lia.
      assert (e0 = ec) as -> by (unfold ref in *; congruence).
      rewrite Hk' in Hk0. injection Hk0 as <- <-. exact (Hun' Ht0).
    - intros s Hin.
      exact (covers_under _ c ec evs k s s Hc' Hk' Hin (covers_here _ s)). }
  apply wp_bind.
  apply (wp_mono _ (fun _ w' => good pd a gq w0 w'
                     /\ forall s, s ∈ evs -> covers (events w') c s)).
  2:{ intros u w' [H1 H2]. apply wp_ret.
      split; [exact H1|]. split; [reflexivity|exact H2]. }
  destruct (length evs =? 0)%nat eqn:Hlen.
  - apply Nat.eqb_eq in Hlen. destruct evs as [|s evs']; [|discriminate].
    destruct (Hdone w1 Hb) as [Hg1 _].
    eapply wp_mono.
    { apply (succeed_ok pd a gq w0 w1 c Hg1). intros e' He' _.
      assert (e' = e) as -> by (unfold ref in *; congruence).
      split; [discriminate|]. intros evs0 k0 [= <- <-] s Hin. inversion Hin. }
    intros u w2 [Hg2 _]. split; [exact Hg2|]. intros s Hin. inversion Hin.
  - apply wp_bind. eapply wp_mono.
    { apply (all_of_loop c evs pd a gq w0 evs [] w1); [reflexivity|exact Hlt|exact Hb]. }
    intros u w2 Hb2. eapply wp_mono.
    { exact (building_build c evs pd a gq w0 w2 Hb2). }
    intros u' w3 Hb3. exact (Hdone w3 Hb3).
Qed.

Lemma covers_trans es a b c : covers es a b -> covers es b c -> covers es a c.
Proof.
  induction 1 as [a|x e evs k s q Hx Hk Hs Hcov IH]; [tauto|].
  intros H. exact (covers_under es x e evs k s c Hx Hk Hs (IH H)).
Qed.

Lemma covers_lt es a b : covers es a b -> (b < length es)%nat -> (a < length es)%nat.
Proof.
  intros [a'|x e evs k s q Hx Hk Hs Hcov] H; [exact H|].
  exact (lookup_lt_Some _ _ _ Hx).
Qed.

Lemma and_events_fold pd a gq w : forall rest (acc : Sim ref) (seen : list ref),
  wp acc (fun x w' => good pd a gq w w' /\ (x < length (events w'))%nat
                      /\ forall s, s ∈ seen -> covers (events w') x s) w ->
  (forall b, b ∈ rest -> (b < length (events w))%nat) ->
  wp (fold_left (fun acc b => c <- acc ;; simpy.all_of [c; b]) rest acc)
     (fun x w' => good pd a gq w w'
                  /\ forall s, s ∈ seen ++ rest -> covers (events w') x s) w.
Proof.
  induction rest as [|b rest IH]; intros acc seen Hacc Hlt; simpl.
  - eapply wp_mono; [exact Hacc|]. intros x w' (Hg & _ & Hcov).
    split; [exact Hg|]. rewrite app_nil_r. exact Hcov.
  - eapply wp_mono.
    + apply (IH _ (seen ++ [b])).
      * apply wp_bind. eapply wp_mono; [exact Hacc|].
        intros x w1 (Hg1 & Hx & Hcov).
        pose proof (evolves_length _ _ (good_evolves _ _ _ _ _ Hg1)) as Hlen.
        assert (Hb1 : good pd a gq w1 w1).
        { apply good_refl; [exact (good_coh _ _ _ _ _ Hg1)|].
          exact (good_waiting _ _ _ _ _ Hg1). }
        eapply wp_mono.
        { apply (all_of_ok pd a gq w1 w1 [x; b] Hb1). intros s Hs.
          apply elem_of_cons in Hs as [->|Hs]; [exact Hx|].
          apply list_elem_of_singleton in Hs. subst s.
          specialize (Hlt b (list_elem_of_here _ _)). lia. }
        intros c w2 (Hg2 & -> & Hcov2).
        pose proof (good_evolves _ _ _ _ _ Hg2) as Hev2.
        pose proof (evolves_length _ _ Hev2) as Hlen2.
        split; [exact (good_trans _ _ _ _ _ _ (good_evolves _ _ _ _ _ Hg1) Hg2)|].
        split.
        { apply (covers_lt _ _ x); [|lia].
          apply Hcov2, list_elem_of_here. }
        intros s Hs. apply elem_of_app in Hs as [Hs|Hs].
        -- apply (covers_trans _ _ x).
           ++ apply Hcov2, list_elem_of_here.
           ++ exact (evolves_covers _ _ _ _ Hev2 (Hcov s Hs)).
        -- apply list_elem_of_singleton in Hs. subst s.
           apply Hcov2, list_elem_of_further, list_elem_of_here.
      * intros b' Hb'. apply Hlt, list_elem_of_further, Hb'.
    + intros x w' [Hg Hcov]. split; [exact Hg|].
      intros s Hs. apply Hcov. rewrite <- app_assoc. exact Hs.
Qed.

Lemma and_events_ok pd a gq w0 w (q : ref) (rest : list ref) :
  good pd a gq w0 w ->
  (q < length (events w))%nat ->
  (forall b, b ∈ rest -> (b < length (events w))%nat) ->
  wp (simpy.and_events q rest)
     (fun c w' => good pd a gq w0 w'
                  /\ forall s, s ∈ q :: rest -> covers (events w') c s) w.
Proof.
  intros Hg Hq Hlt. unfold simpy.and_events.
  assert (Hb : good pd a gq w w).
  { apply good_refl; [exact (good_coh _ _ _ _ _ Hg)|exact (good_waiting _ _ _ _ _ Hg)]. }
  eapply wp_mono.
  - apply (and_events_fold pd a gq w rest (ret q) [q]); [|exact Hlt].
    apply wp_ret. split; [exact Hb|]. split; [exact Hq|].
    intros s Hs. apply list_elem_of_singleton in Hs. subst s. constructor.
  - intros c w' [Hg' Hcov].
    split; [exact (good_trans _ _ _ _ _ _ (good_evolves _ _ _ _ _ Hg) Hg')|].
    exact Hcov.
Qed.

Lemma remove_callback_sub cb l cb' :
  cb' ∈ simpy.remove_callback cb l -> cb' ∈ l.
Proof.
  induction l as [|x l IH]; simpl; [tauto|].
  destruct (decide (cb = x)).
  - intros H. apply list_elem_of_further. exact H.
  - intros H. apply elem_of_cons in H as [->|H].
    + apply list_elem_of_here.
    + apply list_elem_of_further. exact (IH H).
Qed.

Lemma count_remove_le cb l cb' :
  (count cb' (simpy.remove_callback cb l) <= count cb' l)%nat.
Proof.
  induction l as [|x l IH]; cbn [simpy.remove_callback]; [lia|].
  destruct (decide (cb = x)).
  - rewrite count_cons. lia.
  - rewrite !count_cons. lia.
Qed.

Lemma count_remove_ne cb l cb' :
  cb' <> cb -> count cb' (simpy.remove_callback cb l) = count cb' l.
Proof.
  intros Hne. induction l as [|x l IH]; cbn [simpy.remove_callback]; [reflexivity|].
  destruct (decide (cb = x)) as [<-|Hx].
  - rewrite count_cons, decide_False by congruence. reflexivity.
  - rewrite !count_cons, IH. reflexivity.
Qed.

Lemma remove_check_callbacks_ok pd a gq : forall depth (c : ref) w,
  Coh (mk pd a w) w -> waiting gq w -> is_triggered (events w) c ->
  wp (simpy.remove_check_callbacks depth c) (fun _ w' => good pd a gq w w') w.
Proof.
  induction depth as [|depth IH]; intros c w HC Hq Hc; simpl.
  { apply wp_ret. apply good_refl; assumption. }
  apply wp_bind, wp_get_event. intros e He.
  destruct (kind e) as [| | | |evs n|] eqn:Hk; try apply wp_raise.
  assert (Hb : good pd a gq w w) by (apply good_refl; assumption).
  apply (wp_for_each _ (fun w' => good pd a gq w w')); [|exact Hb].
  intros ev w1 Hev Hg1.
  pose proof (good_evolves _ _ _ _ _ Hg1) as Hev1.
  pose proof (evolves_triggered _ _ c Hev1 Hc) as Hc1.
  destruct (Hev1 c e He) as (e1 & He1 & Hk1 & _). rewrite Hk in Hk1.
  destruct Hk1 as [n1 Hk1].
  apply wp_bind, wp_get_event. intros x Hx.
  apply wp_bind.
  apply (wp_mono _ (fun _ w' => good pd a gq w w')).
  - destruct (callbacks x) as [cbs|] eqn:Hcbs; [|apply wp_ret; exact Hg1].
    apply wp_put_event.
    assert (Hcbl : cbl x = cbs) by exact (cbl_of_Some _ _ Hcbs).
    apply (good_put_cbs pd a gq w w1 ev x _ Hg1 Hx).
    + congruence.
    + apply Forall_forall. intros cb Hin. apply remove_callback_sub in Hin.
      rewrite <- Hcbl in Hin.
      exact (proj1 (Forall_forall _ _)
               (fresh_lookup _ w1 ev x (good_coh _ _ _ _ _ Hg1) Hx) cb Hin).
    + intros c0 Hin. apply remove_callback_sub in Hin. rewrite <- Hcbl in Hin.
      exact (coh_build _ _ (good_coh _ _ _ _ _ Hg1) ev x c0 Hx Hin).
    + intros p Hin. left. apply remove_callback_sub in Hin. rewrite Hcbl.
      exact Hin.
    + intros p _. rewrite Hcbl. apply count_remove_le.
    + intros c0 ec evs0 k0 _ Hc0 _ Ht0. rewrite Hcbl. apply count_remove_ne.
      intros [= ->]. destruct Hc1 as (e1' & He1' & Ht1).
      unfold ref in *. congruence.
  - intros u w2 Hg2.
    destruct (kind x) as [| | | |evs' n'|]; try (apply wp_ret; exact Hg2).
    pose proof (good_evolves _ _ _ _ _ Hg2) as Hev2.
    destruct (Hev2 c e He) as (e2 & He2 & Hk2 & _). rewrite Hk in Hk2.
    destruct Hk2 as [n2 Hk2].
    pose proof (evolves_triggered _ _ c Hev2 Hc) as (e2' & He2' & Ht2).
    assert (e2' = e2) as -> by (unfold ref in *; congruence).
    eapply wp_mono.
    + apply (IH ev w2 (good_coh _ _ _ _ _ Hg2) (good_waiting _ _ _ _ _ Hg2)).
      exact (coh_cond _ _ (good_coh _ _ _ _ _ Hg2) c e2 evs n2 He2 Hk2 Ht2 ev Hev).
    + intros u' w3 Hg3. exact (good_trans _ _ _ _ _ _ Hev2 Hg3).
Qed.

Lemma build_value_ok rest a gq w0 w (c : ref) :
  good (Condition_build_value c :: rest) a gq w0 w ->
  wp (simpy.build_value c) (fun _ w' => good rest a gq w0 w') w.
Proof.
  intros Hg. unfold simpy.build_value.
  assert (Hc : is_triggered (events w) c).
  { apply (coh_built _ _ (good_coh _ _ _ _ _ Hg)). apply list_elem_of_here. }
  assert (Hg' : good rest a gq w0 w).
  { apply (good_drop _ _ _ _ _ _ Hg). discriminate. }
  eapply wp_mono.
  - exact (remove_check_callbacks_ok rest a gq (S c) c w (good_coh _ _ _ _ _ Hg')
             (good_waiting _ _ _ _ _ Hg') Hc).
  - intros u w' Hw'. exact (good_trans _ _ _ _ _ _ (good_evolves _ _ _ _ _ Hg') Hw').
Qed.

(** *** The generators of the station *)

Definition sent_ok (pd : list Callback) (p : ref) (w w' : World) (sent : Sent)
    : Prop :=
  good pd (Some (p, requests_of (fst sent))) None w w'
  /\ (forall reqs, past_joint (fst sent) = Some reqs ->
        forall rq, rq ∈ reqs -> is_triggered (events w') (snd rq))
  /\ (forall ev reqs, snd sent = Some ev -> is_joint (fst sent) = Some reqs ->
        forall rq, rq ∈ reqs -> covers (events w') ev (snd rq)).

Lemma wp_get_point name (Q : Point -> World -> Prop) w :
  (forall pt, Q pt w) -> wp (get_point name) Q w.
Proof.
  intros H pt w'. unfold get_point.
  destruct (points w !! name) as [pt0|]; [|discriminate].
  intros E. inversion E; subst. apply H.
Qed.

Lemma set_point_state_ok pd a gq w0 w position name :
  good pd a gq w0 w ->
  wp (set_point_state position name) (fun _ w' => good pd a gq w0 w') w.
Proof.
  intros Hg. unfold set_point_state. apply wp_bind, wp_get_point. intros pt.
  apply wp_modify. apply (good_same pd a gq w0 w); try reflexivity; [exact Hg|].
  exact (good_queue _ _ _ _ _ Hg).
Qed.

Lemma exits_ok pd p w0 : forall (l : list (ref * ref)) w,
  good pd (Some (p, l)) None w0 w ->
  wp (for_each (fun rq => simpy.Request_exit (fst rq) (snd rq)) l)
     (fun _ w' => good pd (Some (p, [])) None w0 w') w.
Proof.
  induction l as [|[r q] l IH]; intros w Hg; simpl.
  - apply wp_ret. exact Hg.
  - destruct (good_active _ _ _ _ _ _ Hg) as [_ [Hnd _]].
    simpl in Hnd. apply NoDup_cons in Hnd as [Hq Hnd].
    apply wp_bind. eapply wp_mono.
    + apply (Request_exit_ok pd p ((r, q) :: l) l w0 w r q Hg).
      * apply list_elem_of_here.
      * exact Hnd.
      * intros x Hx. apply list_elem_of_further. exact Hx.
      * exact Hq.
    + intros u w1 Hg1. exact (IH w1 Hg1).
Qed.

Lemma leave_points_ok pd p w0 w reqs :
  good pd (Some (p, reqs)) None w0 w ->
  wp (leave_points reqs) (fun sent w' => sent_ok pd p w0 w' sent) w.
Proof.
  intros Hg. unfold leave_points.
  destruct (good_active _ _ _ _ _ _ Hg) as [_ Hown].
  assert (Hg' : good pd (Some (p, rev reqs)) None w0 w).
  { apply (good_own pd p reqs _ None w0 w Hg).
    apply (owned_sub _ _ _ _ _ Hown).
    - rewrite map_rev.
      rewrite <- Permutation_rev. exact (owned_nodup _ _ _ _ Hown).
    - intros x Hx. apply list_elem_of_In. apply list_elem_of_In, in_rev in Hx.
      exact Hx. }
  apply wp_bind. eapply wp_mono; [exact (exits_ok pd p w0 (rev reqs) w Hg')|].
  intros u w1 Hg1. apply wp_ret. split; [exact Hg1|].
  split; simpl; discriminate.
Qed.

Lemma enter_track_ok pd p w0 w path tid dir reqs i :
  good pd (Some (p, reqs)) None w0 w ->
  (forall rq, rq ∈ reqs -> is_triggered (events w0) (snd rq)) ->
  wp (enter_track path tid dir reqs i) (fun sent w' => sent_ok pd p w0 w' sent) w.
Proof.
  intros Hg Ht. unfold enter_track.
  destruct (path_tracks path !! i) as [[[track name] duration]|];
    [|exact (leave_points_ok pd p w0 w reqs Hg)].
  apply wp_bind. eapply wp_mono; [exact (request_ok pd p reqs None w0 w track Hg)|].
  intros track_req w1 Hg1. apply wp_ret. split; [exact Hg1|].
  split; simpl; [|discriminate].
  intros reqs' [= <-] rq Hrq.
  exact (evolves_triggered _ _ _ (good_evolves _ _ _ _ _ Hg1) (Ht rq Hrq)).
Qed.

Lemma requests_ok pd p w0 : forall names own w,
  good pd (Some (p, own)) None w0 w ->
  wp (simpy.map_m (fun name =>
        pt <- get_point name ;;
        q <- simpy.request (resource pt) ;;
        ret (resource pt, q)) names)
     (fun reqs w' => good pd (Some (p, rev reqs ++ own)) None w0 w') w.
Proof.
  induction names as [|name names IH]; intros own w Hg; simpl.
  - apply wp_ret. exact Hg.
  - apply wp_bind, wp_bind, wp_get_point. intros pt.
    apply wp_bind. eapply wp_mono;
      [exact (request_ok pd p own None w0 w (resource pt) Hg)|].
    intros q w1 Hg1. apply wp_ret.
    apply wp_bind. eapply wp_mono; [exact (IH _ w1 Hg1)|].
    intros reqs w2 Hg2. apply wp_ret. simpl. rewrite <- app_assoc. exact Hg2.
Qed.

Lemma run_script_ok pd p w0 : forall script w,
  good pd (Some (p, [])) None w0 w ->
  wp (run_script script) (fun sent w' => sent_ok pd p w0 w' sent) w.
Proof.
  induction script as [|[t|d] script IH]; intros w Hg; simpl.
  - apply wp_ret. split; [exact Hg|]. split; simpl; discriminate.
  - apply wp_bind. eapply wp_mono.
    + apply (process_ok pd _ None w0 w _ Hg); reflexivity.
    + intros pr w1 Hg1. exact (IH w1 Hg1).
  - apply wp_bind. eapply wp_mono; [exact (timeout_ok pd _ None w0 w d Hg)|].
    intros ev w1 Hg1. apply wp_ret. split; [exact Hg1|]. split; simpl; discriminate.
Qed.

Lemma send_ok pd p g w :
  good pd (Some (p, requests_of g)) None w w ->
  frame (events w) p g ->
  (forall reqs, is_joint g = Some reqs ->
     forall rq, rq ∈ reqs -> is_triggered (events w) (snd rq)) ->
  wp (send g) (fun sent w' => sent_ok pd p w w' sent) w.
Proof.
  intros Hg Hp Hj.
  assert (Hpast : forall reqs, past_joint g = Some reqs ->
            forall rq, rq ∈ reqs -> is_triggered (events w) (snd rq)).
  { intros reqs. exact (coh_past _ _ (good_coh _ _ _ _ _ Hg) p g reqs Hp). }
  destruct g as [t|t|path tid dir|path tid dir reqs|path tid dir reqs i track track_req
                |path tid dir reqs i track track_req|script|]; simpl in Hg |- *.
  - (* train_process_start *)
    apply wp_bind. eapply wp_mono; [exact (log_event_ok _ _ _ _ _ _ _ _ _ Hg)|].
    intros u w1 Hg1.
    destruct (path_function (route_decision t)) as [path|].
    + apply wp_bind. eapply wp_mono.
      { apply (process_ok pd _ None w w1 _ Hg1); reflexivity. }
      intros pr w2 Hg2. apply wp_ret. split; [exact Hg2|].
      split; simpl; discriminate.
    + apply wp_bind. eapply wp_mono; [exact (log_event_ok _ _ _ _ _ _ _ _ _ Hg1)|].
      intros u' w2 Hg2. apply wp_ret. split; [exact Hg2|].
      split; simpl; discriminate.
  - (* train_process_journey *)
    apply wp_bind. eapply wp_mono; [exact (log_event_ok _ _ _ _ _ _ _ _ _ Hg)|].
    intros u w1 Hg1. apply wp_ret. split; [exact Hg1|].
    split; simpl; discriminate.
  - (* path_start *)
    apply wp_bind. eapply wp_mono; [exact (requests_ok pd p w (path_points path) [] w Hg)|].
    intros reqs w1 Hg1. cbv beta in Hg1. rewrite app_nil_r in Hg1.
    destruct (good_active _ _ _ _ _ _ Hg1) as [_ Hown].
    assert (Hown' : owned (events w1) (resources w1) p reqs).
    { apply (owned_sub _ _ _ _ _ Hown).
      - pose proof (owned_nodup _ _ _ _ Hown) as Hnd. rewrite map_rev in Hnd.
        rewrite <- Permutation_rev in Hnd. exact Hnd.
      - intros x Hx. apply list_elem_of_In. apply -> in_rev.
        apply list_elem_of_In. exact Hx. }
    assert (Hg2 : good pd (Some (p, reqs)) None w w1).
    { exact (good_own pd p _ reqs None w w1 Hg1 Hown'). }
    assert (Hlt : forall s, s ∈ map snd reqs -> (s < length (events w1))%nat).
    { intros s Hs. apply list_elem_of_fmap in Hs as ([r q] & -> & Hin).
      destruct (owned_req _ _ _ _ Hown' r q Hin) as (e & He & _).
      exact (lookup_lt_Some _ _ _ He). }
    destruct reqs as [|[r q] rest]; [apply wp_raise|].
    apply wp_bind. eapply wp_mono.
    { apply (and_events_ok pd _ None w w1 q (map snd rest) Hg2).
      - apply Hlt. apply list_elem_of_here.
      - intros b Hb. apply Hlt. apply list_elem_of_further. exact Hb. }
    intros c w2 [Hg3 Hcov]. apply wp_ret. split; [exact Hg3|].
    split; simpl; [discriminate|].
    intros ev reqs' [= <-] [= <-] rq Hrq. apply Hcov.
    change (q :: map snd rest) with (map snd ((r, q) :: rest)).
    apply list_elem_of_fmap. exists rq. split; [reflexivity|exact Hrq].
  - (* path_joint *)
    apply wp_bind.
    apply (wp_mono _ (fun _ w' => good pd (Some (p, reqs)) None w w')).
    { apply (wp_for_each _ (fun w' => good pd (Some (p, reqs)) None w w'));
        [|exact Hg].
      intros name w1 _ Hg1. exact (set_point_state_ok _ _ _ _ _ _ _ Hg1). }
    intros u w1 Hg1.
    apply wp_bind. eapply wp_mono; [exact (log_event_ok _ _ _ _ _ _ _ _ _ Hg1)|].
    intros u' w2 Hg2.
    exact (enter_track_ok pd p w w2 path tid dir reqs 0 Hg2 (Hj reqs eq_refl)).
  - (* path_enter *)
    destruct (path_tracks path !! i) as [[[track' name] duration]|];
      [|apply wp_raise].
    apply wp_bind. eapply wp_mono; [exact (log_event_ok _ _ _ _ _ _ _ _ _ Hg)|].
    intros u w1 Hg1. apply wp_bind, wp_gets.
    apply wp_bind. eapply wp_mono; [exact (timeout_ok _ _ _ _ _ _ Hg1)|].
    intros t w2 Hg2. apply wp_ret. split; [exact Hg2|].
    split; simpl; [|discriminate].
    intros reqs' [= <-] rq Hrq.
    exact (evolves_triggered _ _ _ (good_evolves _ _ _ _ _ Hg2)
             (Hpast reqs eq_refl rq Hrq)).
  - (* path_dwell *)
    destruct (good_active _ _ _ _ _ _ Hg) as [_ [Hnd _]].
    simpl in Hnd. apply NoDup_cons in Hnd as [Hq Hnd].
    apply wp_bind. eapply wp_mono.
    { apply (Request_exit_ok pd p _ reqs w w track track_req Hg).
      - apply list_elem_of_here.
      - exact Hnd.
      - intros x Hx. apply list_elem_of_further. exact Hx.
      - exact Hq. }
    intros u w1 Hg1.
    exact (enter_track_ok pd p w w1 path tid dir reqs (S i) Hg1 (Hpast reqs eq_refl)).
  - (* test_runner *)
    exact (run_script_ok pd p w script w Hg).
  - apply wp_raise.
Qed.

(** *** The event loop *)

Definition steady (pd : list Callback) (a : option (ref * list (ref * ref)))
    (w : World) : Prop :=
  Coh (mk pd a w) w /\ waiting None w.

Lemma good_steady pd a w0 w : good pd a None w0 w -> steady pd a w.
Proof. intros [HC Hq _]. split; assumption. Qed.

Lemma steady_good pd a w : steady pd a w -> good pd a None w w.
Proof. intros [HC Hq]. apply good_refl; assumption. Qed.

(** [Process._resume] stores the frame at which the generator is suspended. *)
Lemma Coh_put_generator c w (p : ref) e own g g1 :
  Coh c w ->
  events w !! p = Some e -> kind e = Process g ->
  active c = Some (p, own) ->
  (forall reqs, past_joint g1 = Some reqs ->
     forall rq, rq ∈ reqs -> is_triggered (events w) (snd rq)) ->
  Coh c (set_events
           (<[p := {| callbacks := callbacks e; triggered := triggered e;
                      kind := Process g1 |}]> (events w)) w).
Proof.
  intros HC Hp Hk Ha Hpast.
  apply (Coh_put c c w p e _ HC eq_refl eq_refl Hp);
    cbn [callbacks triggered kind].
  - tauto.
  - rewrite Hk. simpl. eauto.
  - exact (coh_processed _ _ HC p e Hp).
  - apply Forall_app. split; [exact (fresh_pend c w HC)|].
    exact (fresh_lookup c w p e HC Hp).
  - intros r pr _ Ht. left. exact Ht.
  - intros g' [= <-]. right. split; [exists own; exact Ha|exact Hpast].
  - intros evs k _ Ht. left. exact Ht.
  - intros cb Hin. left. exact Hin.
  - intros c0 Hin. exact (coh_build _ _ HC p e c0 Hp Hin).
  - intros q Hin. left. exact Hin.
  - intros q. left. unfold cbl at 1. cbn [callbacks]. fold (cbl e). lia.
  - intros c0 ec evs k Hlt Hc0 Hkc Ht. split.
    + exists k. split; [|split; [reflexivity|]].
      * intros ->. unfold ref in *. congruence.
      * unfold cbl at 1. cbn [callbacks]. fold (cbl e). lia.
    + intros Hin. right. apply cbl_Some in Hin as (cbs & Hcbs & Hin).
      exists cbs. split; assumption.
Qed.

Definition resume_body (p : ref) (again : Sim unit) : Sim unit :=
  e <- simpy.get_event p ;;
  match kind e with
  | Process g =>
      sent <- send g ;;
      Environment.set_generator p (fst sent) ;;;
      match snd sent with
      | None =>
          e' <- simpy.get_event p ;;
          simpy.put_event p {| callbacks := callbacks e'; triggered := true;
                               kind := kind e' |} ;;;
          simpy.schedule p simpy.NORMAL 0
      | Some ev =>
          target <- simpy.get_event ev ;;
          match callbacks target with
          | Some _ => simpy.append_callback ev (Process_resume p)
          | None => again
          end
      end
  | _ => raise
  end.

Lemma resume_loop_unfold rounds p :
  Environment.resume_loop rounds p
  = resume_body p match rounds with
                  | O => raise
                  | S rounds' => Environment.resume_loop rounds' p
                  end.
Proof. destruct rounds; reflexivity. Qed.

Definition resumable (pd : list Callback) (p : ref) (g : Gen) (w : World) : Prop :=
  steady pd (Some (p, requests_of g)) w
  /\ frame (events w) p g
  /\ forall reqs, is_joint g = Some reqs ->
       forall rq, rq ∈ reqs -> is_triggered (events w) (snd rq).

Lemma resume_body_ok pd p again g w :
  resumable pd p g w ->
  (forall g1 w1, resumable pd p g1 w1 ->
     wp again (fun _ w' => steady pd None w') w1) ->
  wp (resume_body p again) (fun _ w' => steady pd None w') w.
Proof.
  intros (Hs & Hp & Hj) Hagain. unfold resume_body.
  apply wp_bind, wp_get_event. intros e He.
  destruct Hp as (e0 & He0 & Hk0).
  assert (e0 = e) as -> by (unfold ref in *; congruence).
  rewrite Hk0.
  assert (Hp : frame (events w) p g) by (exists e; split; assumption).
  apply wp_bind. eapply wp_mono.
  { exact (send_ok pd p g w (steady_good _ _ _ Hs) Hp Hj). }
  intros [g1 yielded] w1 ([HC1 Hq1 Hev1] & Hpast1 & Hcov1). cbn [fst snd] in *.
  (* the new frame is stored *)
  unfold Environment.set_generator.
  apply wp_bind, wp_bind, wp_get_event. intros e1 He1.
  destruct (evolves_frame _ _ p g Hev1 Hp) as (e1' & He1' & Hk1).
  assert (e1' = e1) as -> by (unfold ref in *; congruence).
  apply wp_put_event.
  set (e2 := {| callbacks := callbacks e1; triggered := triggered e1;
                kind := Process g1 |}).
  set (w2 := set_events (<[p := e2]> (events w1)) w1).
  assert (HC2 : Coh (mk pd (Some (p, requests_of g1)) w2) w2).
  { unfold w2. rewrite mk_put.
    exact (Coh_put_generator _ w1 p e1 _ g g1 HC1 He1 Hk1 eq_refl Hpast1). }
  assert (Hlt : (p < length (events w1))%nat) by exact (lookup_lt_Some _ _ _ He1).
  assert (He2 : events w2 !! p = Some e2).
  { apply list_lookup_insert_eq. exact Hlt. }
  assert (Hp2 : frame (events w2) p g1) by (exists e2; split; [exact He2|reflexivity]).
  assert (Hkl : kind_like (kind e1) (kind e2)) by (rewrite Hk1; simpl; eauto).
  assert (Hcov2 : forall ev reqs, yielded = Some ev -> is_joint g1 = Some reqs ->
            forall rq, rq ∈ reqs -> covers (events w2) ev (snd rq)).
  { intros ev reqs Hy Hjg rq Hrq.
    exact (put_covers (events w1) p e1 e2 He1 Hkl _ _ (Hcov1 ev reqs Hy Hjg rq Hrq)). }
  assert (Hq2 : waiting None w2) by exact Hq1.
  destruct yielded as [ev|].
  - (* the generator has yielded [ev] *)
    apply wp_bind, wp_get_event. intros target Htarget.
    destruct (callbacks target) as [cbs|] eqn:Hcbs.
    + (* the process waits for [ev] *)
      pose proof (coh_running _ _ HC2 p _ eq_refl) as Hocc. cbn [pend mk] in Hocc.
      assert (HC3 : Coh (mk pd None w2) w2).
      { exact (Coh_deactivate pd _ w2 p g1 HC2 Hp2). }
      unfold simpy.append_callback. apply wp_bind, wp_get_event.
      intros target' Htarget'.
      assert (target' = target) as -> by (unfold ref in *; congruence).
      rewrite Hcbs. apply wp_put_event.
      assert (Hcbl : cbl target = cbs) by exact (cbl_of_Some _ _ Hcbs).
      assert (Hnone : count (Process_resume p) cbs = 0%nat).
      { pose proof (occ_lookup (Process_resume p) pd _ _ _ Htarget) as H.
        rewrite Hcbl in H. lia. }
      split; [|exact Hq2]. rewrite mk_put.
      apply (Coh_put_cbs _ w2 ev target _ HC3 Htarget).
      * congruence.
      * apply Forall_app. split.
        -- rewrite <- Hcbl. exact (fresh_lookup _ w2 ev target HC3 Htarget).
        -- constructor; [|constructor]. simpl.
           exact (lookup_lt_Some _ _ _ He2).
      * intros c0 Hin. apply elem_of_app in Hin as [Hin|Hin].
        -- rewrite <- Hcbl in Hin. exact (coh_build _ _ HC3 ev target c0 Htarget Hin).
        -- apply list_elem_of_singleton in Hin. discriminate.
      * intros q Hin. apply elem_of_app in Hin as [Hin|Hin].
        -- left. rewrite Hcbl. exact Hin.
        -- apply list_elem_of_singleton in Hin. injection Hin as ->. right.
           split; [exact Hocc|]. split.
           { rewrite count_snoc, Hnone, decide_True by reflexivity. reflexivity. }
           split; [discriminate|].
           intros g' reqs Hg' Hjg rq Hrq.
           rewrite (frame_inj _ _ _ _ Hg' Hp2) in Hjg.
           exact (Hcov2 ev reqs eq_refl Hjg rq Hrq).
      * intros q Hin. rewrite count_snoc, Hcbl.
        destruct (decide (Process_resume p = Process_resume q)) as [[= ->]|Hne];
          [|lia].
        rewrite Hcbl in Hin. apply count_in in Hin. lia.
      * intros c0 ec evs k _ _ _ _.
        rewrite count_snoc, Hcbl, decide_False by discriminate. lia.
    + (* [ev] has been processed already: the generator is resumed at once *)
      apply (Hagain g1 w2). split; [split; assumption|]. split; [exact Hp2|].
      intros reqs Hjg rq Hrq.
      apply (covers_triggered _ w2 ev _ HC2 (Hcov2 ev reqs eq_refl Hjg rq Hrq)).
      exists target. split; [exact Htarget|].
      exact (coh_processed _ _ HC2 ev target Htarget Hcbs).
  - (* the generator has returned *)
    apply wp_bind, wp_get_event. intros e2' He2'.
    assert (e2' = e2) as -> by (unfold ref in *; congruence).
    apply wp_bind, wp_put_event.
    set (e3 := {| callbacks := callbacks e2; triggered := true; kind := kind e2 |}).
    set (w3 := set_events (<[p := e3]> (events w2)) w2).
    assert (HC3 : Coh (mk pd (Some (p, requests_of g1)) w3) w3).
    { unfold w3. rewrite mk_put.
      apply (Coh_put_trigger _ w2 p e2 e3 HC2 He2); try reflexivity; discriminate. }
    assert (He3 : events w3 !! p = Some e3).
    { apply list_lookup_insert_eq. exact (lookup_lt_Some _ _ _ He2). }
    assert (Hp3 : frame (events w3) p g1) by (exists e3; split; [exact He3|reflexivity]).
    unfold simpy.schedule. apply wp_modify. split; [|exact Hq2].
    apply (Coh_same _ w3 _ (Coh_deactivate pd _ w3 p g1 HC3 Hp3)); try reflexivity.
    cbn [queue set_queue]. intros x Hx. apply elem_of_heappush in Hx as [->|Hx].
    + exists e3. split; [exact He3|reflexivity].
    + exact (coh_queue _ _ HC3 x Hx).
Qed.

Lemma resume_loop_ok pd p : forall rounds g w,
  resumable pd p g w ->
  wp (Environment.resume_loop rounds p) (fun _ w' => steady pd None w') w.
Proof.
  induction rounds as [|rounds IH]; intros g w Hr; rewrite resume_loop_unfold.
  - apply (resume_body_ok pd p _ g w Hr). intros g1 w1 _. apply wp_raise.
  - apply (resume_body_ok pd p _ g w Hr). intros g1 w1 Hr1. exact (IH g1 w1 Hr1).
Qed.

Lemma steady_active_proc pd w ap :
  steady pd None w -> steady pd None (set_active_proc ap w).
Proof.
  intros [HC Hq]. split; [|exact Hq].
  apply (Coh_world _ w (set_active_proc ap w) HC eq_refl).
  - discriminate.
  - exact (coh_queue _ _ HC).
  - exact (coh_put_queue _ _ HC).
  - intros p own Ho _. exact Ho.
Qed.

Lemma resume_ok rest w (p : ref) :
  steady (Process_resume p :: rest) None w ->
  wp (Environment.resume p) (fun _ w' => steady rest None w') w.
Proof.
  intros Hs. unfold Environment.resume. apply wp_bind, wp_modify.
  destruct (steady_active_proc _ w (Some p) Hs) as [HC Hq].
  set (w1 := set_active_proc (Some p) w) in *.
  apply wp_bind, wp_get_event. intros e He.
  destruct (kind e) as [| | | | |g] eqn:Hk; try apply wp_raise.
  assert (Hp : frame (events w1) p g) by (exists e; split; assumption).
  assert (Hocc : occ (Process_resume p) rest (events w1) = 0%nat).
  { pose proof (coh_once _ _ HC p) as H. cbn [pend mk] in H.
    rewrite occ_cons, decide_True in H by reflexivity. lia. }
  assert (HC1 : Coh (mk rest None w1) w1).
  { apply (Coh_drop _ rest None _ w1 HC). discriminate. }
  apply wp_bind. eapply wp_mono.
  - apply (resume_loop_ok rest p _ g w1). split; [|split; [exact Hp|]].
    + split; [|exact Hq].
      exact (Coh_activate rest _ w1 p g HC1 eq_refl Hp Hocc).
    + intros reqs Hj. apply (coh_woken _ _ HC p g reqs); [|exact Hp|exact Hj].
      apply list_elem_of_here.
  - intros u w2 Hs2. apply wp_modify. exact (steady_active_proc _ w2 None Hs2).
Qed.

Lemma call_ok cb rest w :
  steady (cb :: rest) None w ->
  wp (Environment.call cb) (fun _ w' => steady rest None w') w.
Proof.
  intros Hs. destruct cb as [p|c|c|r|r]; simpl.
  - exact (resume_ok rest w p Hs).
  - eapply wp_mono; [exact (check_ok rest None None w w c (steady_good _ _ _ Hs))|].
    intros u w' Hg. exact (good_steady _ _ _ _ Hg).
  - eapply wp_mono;
      [exact (build_value_ok rest None None w w c (steady_good _ _ _ Hs))|].
    intros u w' Hg. exact (good_steady _ _ _ _ Hg).
  - assert (Hg : good rest None None w w).
    { apply (good_drop _ _ _ _ _ _ (steady_good _ _ _ Hs)). discriminate. }
    eapply wp_mono; [exact (trigger_get_ok rest None w w r Hg)|].
    intros u w' Hg'. exact (good_steady _ _ _ _ Hg').
  - assert (Hg : good rest None None w w).
    { apply (good_drop _ _ _ _ _ _ (steady_good _ _ _ Hs)). discriminate. }
    eapply wp_mono; [exact (trigger_put_ok rest None None w w r Hg)|].
    intros u w' Hg'. exact (good_steady _ _ _ _ Hg').
Qed.

Lemma calls_ok : forall cbs w,
  steady cbs None w ->
  wp (for_each Environment.call cbs) (fun _ w' => steady [] None w') w.
Proof.
  induction cbs as [|cb cbs IH]; intros w Hs; simpl.
  - apply wp_ret. exact Hs.
  - apply wp_bind. eapply wp_mono; [exact (call_ok cb cbs w Hs)|].
    intros u w1 Hs1. exact (IH w1 Hs1).
Qed.

Lemma step_ok w :
  steady [] None w -> wp Environment.step (fun _ w' => steady [] None w') w.
Proof.
  intros [HC Hq]. unfold Environment.step. apply wp_bind, wp_gets.
  destruct (queue w) as [|[[[t prio] i] ev] q'] eqn:Hqu; [apply wp_raise|].
  apply wp_bind, wp_gets. apply wp_bind, wp_modify. apply wp_bind, wp_modify.
  set (w1 := set_now t (set_queue q' (eid w) w)).
  assert (Hev : is_triggered (events w) ev).
  { apply (coh_queue _ _ HC (t, prio, i, ev)). rewrite Hqu. apply list_elem_of_here. }
  assert (HC1 : Coh (mk [] None w1) w1).
  { apply (Coh_same _ w w1 HC); try reflexivity.
    cbn. intros x Hx. apply (coh_queue _ _ HC). rewrite Hqu.
    apply list_elem_of_further. exact Hx. }
  apply wp_bind, wp_get_event. intros e He.
  destruct (callbacks e) as [cbs|] eqn:Hcbs; [|apply wp_raise].
  assert (Hcbl : cbl e = cbs) by exact (cbl_of_Some _ _ Hcbs).
  assert (Ht : triggered e = true).
  { destruct Hev as (e' & He' & Ht). cbn in He. unfold ref in *. congruence. }
  apply wp_bind, wp_put_event. apply calls_ok. split; [|exact Hq].
  rewrite mk_put.
  apply (Coh_put (mk [] None w1) (mk cbs None w1) w1 ev e _ HC1 eq_refl eq_refl He);
    cbn [callbacks triggered kind pend mk cbl default from_option id].
  - tauto.
  - apply kind_like_refl.
  - intros _. exact Ht.
  - rewrite app_nil_r, <- Hcbl. exact (fresh_lookup _ w1 ev e HC1 He).
  - intros r pr _ _. left. exact Ht.
  - intros g Hg. left. exact Hg.
  - intros evs k _ _. left. exact Ht.
  - intros cb Hin. right. rewrite Hcbl. split; assumption.
  - intros c0 Hin. inversion Hin.
  - intros p Hin. inversion Hin.
  - intros p. left. rewrite Hcbl. unfold count at 2 3. simpl. lia.
  - intros c0 ec evs k _ Hc0 Hkc _. split.
    + exists k. split; [|split; [reflexivity|]].
      * intros ->. subst w1. cbn in He, Hc0. unfold ref in *. congruence.
      * rewrite Hcbl. unfold count at 2 3. simpl. lia.
    + intros _. left. exact Ht.
Qed.

(** *** Every world that the driver can reach *)

Lemma steady_StationSimulation g : steady [] None (StationSimulation g).
Proof.
  assert (Hnil : forall (x : ref) (e : Event), ([] : list Event) !! x = Some e -> False).
  { intros x e H. rewrite lookup_nil in H. discriminate. }
  split.
  - constructor; cbn [mk pend active bound StationSimulation events resources
                      queue active_proc length].
    + lia.
    + discriminate.
    + intros x e H. destruct (Hnil x e H).
    + intros a H. inversion H.
    + constructor.
    + intros p g0 (e & H & _). destruct (Hnil p e H).
    + discriminate.
    + intros r x q Hr Hq. apply list_elem_of_lookup_2 in Hr.
      apply elem_of_replicate in Hr as [-> _]. inversion Hq.
    + intros p g0 reqs (e & H & _). destruct (Hnil p e H).
    + intros c0 e evs k H. destruct (Hnil c0 e H).
    + intros x e cbs p g0 reqs H. destruct (Hnil x e H).
    + intros p g0 reqs H. inversion H.
    + intros p. cbn. lia.
    + discriminate.
    + intros c0 e evs k H. lia.
    + intros x e c0 H. destruct (Hnil x e H).
    + intros c0 H. inversion H.
  - intros r x Hr. cbn [StationSimulation resources] in Hr.
    apply list_elem_of_lookup_2 in Hr.
    apply elem_of_replicate in Hr as [-> _]. reflexivity.
Qed.

Lemma steady_apply_op op w w' :
  steady [] None w -> apply_op op w = Some w' -> steady [] None w'.
Proof.
  intros Hs H. destruct op as [t|script| |g]; unfold apply_op in H.
  - destruct (simpy.process (train_process_start t) w) as [[p w1]|] eqn:E;
      [|discriminate].
    injection H as <-. apply (good_steady _ _ w).
    exact (process_ok [] None None w w (train_process_start t)
             (steady_good _ _ _ Hs) eq_refl eq_refl eq_refl p w1 E).
  - destruct (simpy.process (test_runner script) w) as [[p w1]|] eqn:E;
      [|discriminate].
    injection H as <-. apply (good_steady _ _ w).
    exact (process_ok [] None None w w (test_runner script)
             (steady_good _ _ _ Hs) eq_refl eq_refl eq_refl p w1 E).
  - destruct (Environment.step w) as [[u w1]|] eqn:E; [|discriminate].
    injection H as <-. exact (step_ok w Hs u w1 E).
  - injection H as <-. destruct Hs as [HC Hq]. split; [|exact Hq].
    apply (Coh_same _ w (set_globals g w) HC); try reflexivity.
    exact (coh_queue _ _ HC).
Qed.

Lemma steady_exec ops : forall w w',
  steady [] None w -> exec ops w = Some w' -> steady [] None w'.
Proof.
  induction ops as [|op ops IH]; intros w w' Hs H; simpl in H.
  - injection H as <-. exact Hs.
  - destruct (apply_op op w) as [w1|] eqn:E; [|discriminate].
    exact (IH w1 w' (steady_apply_op op w w1 Hs E) H).
Qed.

Lemma in_use_held w r q : in_use (resources w) r q -> held w (r, q) = true.
Proof.
  intros (x & Hx & Hq). unfold held. cbn [fst snd]. rewrite Hx.
  apply existsb_exists. exists q. split; [|apply Nat.eqb_refl].
  apply list_elem_of_In. exact Hq.
Qed.

(** * More of the code

    ** The action table, the reward and the naive rule *)



Lemma action_items_agree :
  train_env.action_to_route = list_to_map app.action_items.
Proof. reflexivity. Qed.

Lemma action_to_route_Some (a : Z) (name : string) :
  train_env.action_to_route !! a = Some name <-> (a, name) ∈ app.action_items.
Proof.
  unfold train_env.action_to_route, app.action_items. split.
  - intros H.
    repeat (apply lookup_insert_Some in H as [[<- <-]|[_ H]];
            [set_solver|]).
    rewrite lookup_empty in H. discriminate.
  - intros H. repeat (apply elem_of_cons in H as [H|H];
                      [injection H as -> ->; reflexivity|]).
    inversion H.
Qed.

Lemma path_function_Some (name : string) (p : Path) :
  path_function (Some name) = Some p
  <-> (name, p) ∈ [("UP_MAIN", path_up_main); ("UP_PLATFORM", path_up_platform);
                   ("DOWN_MAIN", path_down_main);
                   ("DOWN_PLATFORM", path_down_platform);
                   ("DOWN_SIDING", path_down_siding)].
Proof.
  unfold path_function, path_map. split.
  - intros H.
    repeat (apply lookup_insert_Some in H as [[<- <-]|[_ H]];
            [set_solver|]).
    rewrite lookup_empty in H. discriminate.
  - intros H. repeat (apply elem_of_cons in H as [H|H];
                      [injection H as -> ->; reflexivity|]).
    inversion H.
Qed.

Ltac cases_in H :=
  apply list_elem_of_In in H; simpl in H;
  repeat match goal with
         | H' : _ \/ _ |- _ => destruct H' as [H'|H']
         | H' : False |- _ => destruct H'
         end.

(** X1. The actions of the environment and the routes of the station agree.
    [action_to_route] is the table 0..4 of [train_env.py]; a route name has a
    path in [path_map] exactly when one of the actions 0..4 stands for it; and
    no two actions stand for the same route. *)
Theorem actions_and_routes_agree (a : Z) (name : string) :
  (train_env.action_to_route !! a = Some name <-> (a, name) ∈ app.action_items)
  /\ ((exists p, path_function (Some name) = Some p)
      <-> exists b, 0 <= b <= 4 /\ train_env.action_to_route !! b = Some name)
  /\ (forall b, train_env.action_to_route !! a = Some name ->
        train_env.action_to_route !! b = Some name -> a = b).
Proof.
  split; [apply action_to_route_Some|]. split; [split|].
  - intros [p Hp]. apply path_function_Some in Hp. cases_in Hp;
      injection Hp as <- _.
    + exists 0. split; [lia|reflexivity].
    + exists 1. split; [lia|reflexivity].
    + exists 2. split; [lia|reflexivity].
    + exists 3. split; [lia|reflexivity].
    + exists 4. split; [lia|reflexivity].
  - intros (b & _ & Hb). apply action_to_route_Some in Hb. cases_in Hb;
      injection Hb as _ <-; eexists; reflexivity.
  - intros b Ha Hb. apply action_to_route_Some in Ha, Hb.
    cases_in Ha; injection Ha as <- <-; cases_in Hb;
      first [discriminate | injection Hb as <-; reflexivity].
Qed.

Lemma route_in_spec (route : option string) (l : list string) :
  train_env.route_in route l = true <-> exists s, route = Some s /\ s ∈ l.
Proof.
  unfold train_env.route_in. destruct route as [s|].
  - rewrite existsb_exists. split.
    + intros (x & Hx & E). apply String.eqb_eq in E. subst x.
      exists s. split; [reflexivity|apply list_elem_of_In; exact Hx].
    + intros (x & [= <-] & Hx). exists s.
      split; [apply list_elem_of_In; exact Hx|apply String.eqb_refl].
  - split; [discriminate|]. intros (s & E & _). discriminate.
Qed.

Definition valid_route (direction : string) (route : option string) : Prop :=
  (direction = "north" /\ (route = Some "UP_MAIN" \/ route = Some "UP_PLATFORM"))
  \/ (direction = "south"
      /\ (route = Some "DOWN_MAIN" \/ route = Some "DOWN_PLATFORM"
          \/ route = Some "DOWN_SIDING")).

Definition main_line (route : option string) : Prop :=
  route = Some "UP_MAIN" \/ route = Some "DOWN_MAIN".

Lemma compute_reward_cases row route :
  (valid_route (train_env.row_direction row) route
   /\ train_env.row_priority row = "high" /\ main_line route
   /\ train_env.compute_reward row route = 3)
  \/ (valid_route (train_env.row_direction row) route
      /\ ~ (train_env.row_priority row = "high" /\ main_line route)
      /\ train_env.compute_reward row route = 1)
  \/ (~ valid_route (train_env.row_direction row) route
      /\ train_env.compute_reward row route = -5).
Proof.
  unfold train_env.compute_reward, valid_route, main_line.
  destruct (String.eqb_spec (train_env.row_direction row) "north") as [Hn|Hn];
    destruct (String.eqb_spec (train_env.row_direction row) "south") as [Hs|Hs];
    try (rewrite Hn in Hs; discriminate);
    destruct (String.eqb_spec (train_env.row_priority row) "high") as [Hp|Hp];
    (destruct route as [s|]; [|right; right; split; [|reflexivity];
       intros [[_ [H|H]]|[_ [H|[H|H]]]]; discriminate]);
    unfold train_env.route_in, existsb;
    destruct (String.eqb_spec s "UP_MAIN") as [->|H1];
    try (cbn; intuition (try congruence; try discriminate); fail);
    destruct (String.eqb_spec s "UP_PLATFORM") as [->|H2];
    try (cbn; intuition (try congruence; try discriminate); fail);
    destruct (String.eqb_spec s "DOWN_MAIN") as [->|H3];
    try (cbn; intuition (try congruence; try discriminate); fail);
    destruct (String.eqb_spec s "DOWN_PLATFORM") as [->|H4];
    try (cbn; intuition (try congruence; try discriminate); fail);
    destruct (String.eqb_spec s "DOWN_SIDING") as [->|H5];
    try (cbn; intuition (try congruence; try discriminate); fail).
Qed.

(** X2. The reward of a step takes one of three values.  It is 3 exactly when
    the route lies in the direction of the train, the train has high priority
    and the route is a main line; 1 exactly when the route lies in the
    direction of the train without both of these; and -5 exactly when the
    route does not lie in the direction of the train (a missing route, an
    unknown name, or a direction that is neither north nor south). *)
Theorem reward_table (row : train_env.Row) (route : option string) :
  let r := train_env.compute_reward row route in
  (r = 3 <-> valid_route (train_env.row_direction row) route
             /\ train_env.row_priority row = "high" /\ main_line route)
  /\ (r = 1 <-> valid_route (train_env.row_direction row) route
                /\ ~ (train_env.row_priority row = "high" /\ main_line route))
  /\ (r = -5 <-> ~ valid_route (train_env.row_direction row) route).
Proof.
  cbv zeta.
  destruct (compute_reward_cases row route)
    as [(Hv & Hp & Hm & ->)|[(Hv & Hn & ->)|(Hn & ->)]];
    repeat split; try tauto; try discriminate; intros; tauto.
Qed.

(** X4. The naive rule always finds its action: the list comprehension of
    line 94 is never empty, the action is one of 0..3 (never the siding), and
    it stands for the route the rule has chosen.  For a north or south train
    the reward of that route is 3 when the priority is high and 1 otherwise;
    a train whose direction is neither is sent down a DOWN route and the
    reward is -5. *)
Theorem naive_rule_picks_a_route_of_the_direction (row : train_env.Row) :
  exists a,
    app.naive_action (app.naive_route row) = Some a
    /\ 0 <= a <= 3
    /\ train_env.action_to_route !! a = Some (app.naive_route row)
    /\ (train_env.row_direction row = "north"
        \/ train_env.row_direction row = "south" ->
        train_env.compute_reward row (Some (app.naive_route row))
        = if String.eqb (train_env.row_priority row) "high" then 3 else 1)
    /\ (train_env.row_direction row <> "north" ->
        train_env.row_direction row <> "south" ->
        train_env.compute_reward row (Some (app.naive_route row)) = -5).
Proof.
  unfold app.naive_route, train_env.compute_reward.
  destruct (String.eqb_spec (train_env.row_direction row) "north") as [Hn|Hn];
    destruct (String.eqb_spec (train_env.row_direction row) "south") as [Hs|Hs];
    try (rewrite Hn in Hs; discriminate);
    destruct (String.eqb_spec (train_env.row_priority row) "high") as [Hp|Hp];
    eexists; (split; [cbv; reflexivity|]); (split; [lia|]);
    (split; [reflexivity|]); split; intros; try reflexivity; try tauto;
    try contradiction.
Qed.



(** ** What a step returns *)

(** X3. Whenever [step] returns, the schedule has lost its first row (an
    empty one stays empty), the observation is that of the rows that are
    left, [done] is set exactly when none is left, [truncated] is not set,
    and the observation is a pair of entries that are 0 or 1, as the
    observation space declares. *)
Theorem observation_describes_the_next_train
    (fuel : nat) (action : train_env.Action) (e e' : train_env.StationTrainEnv)
    (r : train_env.StepResult) :
  train_env.step fuel action e = Some (r, e') ->
  train_env.schedule e' = tail (train_env.schedule e)
  /\ train_env.observation r = train_env._get_observation (train_env.schedule e')
  /\ (train_env.done r = true <-> train_env.schedule e' = [])
  /\ train_env.truncated r = false
  /\ exists priority direction,
       train_env.observation r = [priority; direction]
       /\ (priority = 0 \/ priority = 1) /\ (direction = 0 \/ direction = 1).
Proof.
  intros H.
  destruct (step_cases _ _ _ _ _ H)
    as (key & _ & [(Hs & -> & ->)|(row & rest & route & w & Hs & _ & _ & -> & ->)]).
  - rewrite Hs. cbn.
    repeat split; try reflexivity.
    exists 0, 0. split; [reflexivity|]. split; left; reflexivity.
  - rewrite Hs. cbn [train_env.schedule train_env.observation
                     train_env.done train_env.truncated tail].
    split; [reflexivity|]. split; [reflexivity|].
    split; [destruct rest; split; try reflexivity; discriminate|].
    split; [reflexivity|].
    destruct rest as [|next rest]; cbn [train_env._get_observation].
    + exists 0, 0. split; [reflexivity|]. split; left; reflexivity.
    + eexists _, _. split; [reflexivity|].
      split; [destruct (String.eqb _ "high")|destruct (String.eqb _ "south")];
        tauto.
Qed.


Definition demo_rows : list train_env.Row :=
  [ {| train_env.row_train_id := "N1"; train_env.row_direction := "north";
       train_env.row_priority := "high" |};
    {| train_env.row_train_id := "S1"; train_env.row_direction := "south";
       train_env.row_priority := "low" |} ].

Definition demo_env : train_env.StationTrainEnv :=
  snd (train_env.reset demo_rows initial_globals).

Definition demo_step : train_env.StepResult * train_env.StationTrainEnv :=
  default ({| train_env.observation := []; train_env.reward := 0;
              train_env.done := false; train_env.truncated := false;
              train_env.info := [] |}, demo_env)
    (train_env.step 40 (train_env.py_int 0) demo_env).

Lemma observation_describes_the_next_train_witness :
  train_env.schedule (snd demo_step) = tail (train_env.schedule demo_env)
  /\ train_env.observation (fst demo_step)
     = train_env._get_observation (train_env.schedule (snd demo_step))
  /\ (train_env.done (fst demo_step) = true
      <-> train_env.schedule (snd demo_step) = [])
  /\ train_env.truncated (fst demo_step) = false
  /\ exists priority direction,
       train_env.observation (fst demo_step) = [priority; direction]
       /\ (priority = 0 \/ priority = 1) /\ (direction = 0 \/ direction = 1).
Proof.
  apply (observation_describes_the_next_train 40 (train_env.py_int 0)
           demo_env (snd demo_step) (fst demo_step)).
  vm_compute. reflexivity.
Defined.


(** ** Routes exclude each other *)

Lemma past_joint_requests g reqs rq :
  past_joint g = Some reqs -> rq ∈ reqs -> rq ∈ requests_of g.
Proof.
  intros Hpast Hrq. destruct g; simpl in Hpast; try discriminate;
    injection Hpast as <-; simpl; apply list_elem_of_further; exact Hrq.
Qed.

(** X5. Two routes that share a point are never set at the same time.  In
    every world the driver can reach (any trains, scripts, steps and
    timings), if two path processes are both beyond their joint wait, where
    the points are written and [points_set] is logged, then no point request
    of the one is for the resource of a point request of the other: they
    have no point in common. *)
Theorem routes_with_a_common_point_exclude_each_other
    (g : Globals) (ops : list DriverOp) (w : World)
    (p1 p2 : ref) (e1 e2 : Event) (g1 g2 : Gen)
    (reqs1 reqs2 : list (ref * ref)) (rq1 rq2 : ref * ref) :
  exec ops (StationSimulation g) = Some w ->
  events w !! p1 = Some e1 -> kind e1 = Process g1 ->
  past_joint g1 = Some reqs1 -> rq1 ∈ reqs1 ->
  events w !! p2 = Some e2 -> kind e2 = Process g2 ->
  past_joint g2 = Some reqs2 -> rq2 ∈ reqs2 ->
  p1 <> p2 ->
  fst rq1 <> fst rq2.
Proof.
  intros Hexec He1 Hk1 Hpast1 Hrq1 He2 Hk2 Hpast2 Hrq2 Hne Hr. apply Hne.
  destruct (steady_exec ops _ w (steady_StationSimulation g) Hexec) as [HC _].
  pose proof (Inv_exec _ _ _ (Inv_StationSimulation g) Hexec) as HI.
  assert (Hp1 : frame (events w) p1 g1) by (exists e1; split; assumption).
  assert (Hp2 : frame (events w) p2 g2) by (exists e2; split; assumption).
  destruct rq1 as [r q1], rq2 as [r' q2]. simpl in Hr. subst r'.
  assert (Huse : forall p gen reqs q, frame (events w) p gen ->
            past_joint gen = Some reqs -> (r, q) ∈ reqs ->
            in_use (resources w) r q
            /\ exists e, events w !! q = Some e /\ kind e = Request r (Some p)).
  { intros p gen reqs q Hp Hpast Hrq.
    destruct (coh_past _ _ HC p gen reqs Hp Hpast _ Hrq) as (eq & Heq & Ht).
    assert (Hown : owned (events w) (resources w) p (requests_of gen)).
    { apply (coh_frames _ _ HC p gen Hp). discriminate. }
    destruct (owned_req _ _ _ _ Hown r q (past_joint_requests _ _ _ Hpast Hrq))
      as (e' & He' & Hk' & Hu).
    split; [|exists e'; split; assumption].
    apply Hu. cbn [snd] in Heq. unfold ref in *. congruence. }
  destruct (Huse p1 g1 reqs1 q1 Hp1 Hpast1 Hrq1) as [(x1 & Hx1 & Hu1) (a1 & Ha1 & Hka1)].
  destruct (Huse p2 g2 reqs2 q2 Hp2 Hpast2 Hrq2) as [(x2 & Hx2 & Hu2) (a2 & Ha2 & Hka2)].
  assert (x2 = x1) as -> by (unfold ref in *; congruence).
  destruct (proj1 (Forall_lookup _ _) (inv_resources _ HI) r x1 Hx1) as [_ Hlen _].
  assert (q1 = q2) as ->.
  { destruct (users x1) as [|u [|u' us]]; simpl in Hlen; [inversion Hu1| |lia].
    apply list_elem_of_singleton in Hu1, Hu2. congruence. }
  unfold ref in *. congruence.
Qed.

(** A north train on UP_MAIN and a south train on DOWN_SIDING, both on their
    first section. *)
Definition crossing_ops : list DriverOp :=
  [ submit {| train_id := "N1"; direction := "north"; priority := "high";
              route_decision := Some "UP_MAIN" |};
    submit {| train_id := "S1"; direction := "south"; priority := "low";
              route_decision := Some "DOWN_SIDING" |} ]
  ++ replicate 14 env_step.

Definition crossing_world : World :=
  default (StationSimulation initial_globals)
    (exec crossing_ops (StationSimulation initial_globals)).

Definition crossing_event (p : ref) : Event :=
  default {| callbacks := None; triggered := false; kind := Initialize |}
    (events crossing_world !! p).

Lemma routes_with_a_common_point_exclude_each_other_witness :
  fst (8%nat, 8%nat) <> fst (10%nat, 11%nat).
Proof.
  apply (routes_with_a_common_point_exclude_each_other initial_globals
           crossing_ops crossing_world 4%nat 6%nat
           (crossing_event 4%nat) (crossing_event 6%nat)
           (path_dwell path_up_main "N1" "north" [(8, 8); (9, 9)]%nat 0
              line2_up_main_approach 16%nat)
           (path_dwell path_down_siding "S1" "south"
              [(10, 11); (11, 12); (14, 13)]%nat 0
              line3_down_main_approach 18%nat)
           [(8, 8); (9, 9)]%nat [(10, 11); (11, 12); (14, 13)]%nat
           (8%nat, 8%nat) (10%nat, 11%nat)).
  - vm_compute. reflexivity.
  - vm_compute. reflexivity.
  - vm_compute. reflexivity.
  - reflexivity.
  - apply list_elem_of_here.
  - vm_compute. reflexivity.
  - vm_compute. reflexivity.
  - reflexivity.
  - apply list_elem_of_here.
  - lia.
Defined.

(** ** Episodes are runs of the driver *)


Lemma run_exec fuel : forall w w',
  Environment.run fuel w = Some (tt, w') ->
  exists n, exec (replicate n env_step) w = Some w'.
Proof.
  induction fuel as [|fuel IH]; intros w w' H; cbn [Environment.run] in H;
    unfold bind, gets in H; destruct (queue w) as [|a q] eqn:Hq.
  - injection H as <-. exists 0%nat. reflexivity.
  - discriminate.
  - injection H as <-. exists 0%nat. reflexivity.
  - destruct (Environment.step w) as [[[] w1]|] eqn:E; [|discriminate].
    destruct (IH _ _ H) as (n & Hn). exists (S n).
    cbn [replicate exec apply_op]. rewrite E. exact Hn.
Qed.

Lemma exec_app ops1 : forall ops2 w w1,
  exec ops1 w = Some w1 -> exec (ops1 ++ ops2) w = exec ops2 w1.
Proof.
  induction ops1 as [|op ops1 IH]; intros ops2 w w1 H; cbn [exec app] in *.
  - injection H as <-. reflexivity.
  - destruct (apply_op op w) as [w0|]; [|discriminate]. exact (IH _ _ _ H).
Qed.

Lemma step_exec fuel action e r e' :
  train_env.step fuel action e = Some (r, e') ->
  exists ops, exec ops (train_env.world e) = Some (train_env.world e').
Proof.
  intros H.
  destruct (step_cases _ _ _ _ _ H)
    as (key & _ & [(_ & _ & ->)|(row & rest & route & w' & _ & _ & Hd & _ & ->)]).
  - exists []. reflexivity.
  - unfold dispatch, bind in Hd.
    destruct (simpy.process _ (train_env.world e)) as [[p w1]|] eqn:Ep;
      [|discriminate].
    destruct (Environment.run fuel w1) as [[[] w2]|] eqn:Er; [|discriminate].
    injection Hd as <-. cbn [train_env.world].
    destruct (run_exec _ _ _ Er) as (n & Hn).
    eexists (submit _ :: replicate n env_step). cbn [exec apply_op].
    rewrite Ep. exact Hn.
Qed.

Lemma step_schedule fuel action e r e' :
  train_env.step fuel action e = Some (r, e') ->
  train_env.schedule e' = tail (train_env.schedule e).
Proof.
  intros H.
  destruct (step_cases _ _ _ _ _ H)
    as (key & _ & [(Hs & _ & ->)|(row & rest & route & w' & Hs & _ & _ & _ & ->)]).
  - rewrite Hs. reflexivity.
  - rewrite Hs. reflexivity.
Qed.

Lemma steps_exec fuel actions : forall e e',
  steps fuel actions e = Some e' ->
  queue (train_env.world e) = [] ->
  (exists ops, exec ops (train_env.world e) = Some (train_env.world e'))
  /\ queue (train_env.world e') = []
  /\ train_env.schedule e' = drop (length actions) (train_env.schedule e).
Proof.
  induction actions as [|a actions IH]; intros e e' H Hq; cbn [steps] in H.
  - injection H as <-. split; [exists []; reflexivity|]. split; [exact Hq|].
    reflexivity.
  - destruct (train_env.step fuel a e) as [[r e1]|] eqn:E; [|discriminate].
    destruct (step_exec _ _ _ _ _ E) as (ops1 & H1).
    pose proof (step_leaves_queue_empty _ _ _ _ _ Hq E) as Hq1.
    destruct (IH _ _ H Hq1) as ((ops2 & H2) & Hq2 & Hs2).
    split; [exists (ops1 ++ ops2); rewrite (exec_app _ _ _ _ H1); exact H2|].
    split; [exact Hq2|]. rewrite Hs2, (step_schedule _ _ _ _ _ E).
    cbn [length]. destruct (train_env.schedule e); [|reflexivity].
    cbn [tail]. rewrite !drop_nil. reflexivity.
Qed.

(** X11. What holds of every run of the driver holds during training and
    in the web application.  After [reset] and any number of calls of
    [step] that return, with whatever actions and fuel, the world of the
    environment is one the driver reaches from a new station by submitting
    trains and stepping the event loop; the schedule is the rows without as
    many of its first ones as there were calls; nothing is left in the queue;
    the times of the log never decrease; and no resource has two users. *)
Theorem episodes_are_driver_runs
    (rows : list train_env.Row) (g : Globals) (fuel : nat)
    (actions : list train_env.Action) (e : train_env.StationTrainEnv) :
  steps fuel actions (snd (train_env.reset rows g)) = Some e ->
  (exists ops, exec ops (StationSimulation g) = Some (train_env.world e))
  /\ train_env.schedule e = drop (length actions) rows
  /\ queue (train_env.world e) = []
  /\ StronglySorted (fun a b => time a <= time b) (event_log (train_env.world e))
  /\ Forall (fun x => (length (users x) <= 1)%nat) (resources (train_env.world e)).
Proof.
  intros H. destruct (steps_exec _ _ _ _ H eq_refl) as ((ops & Hops) & Hq & Hs).
  cbn [train_env.reset snd train_env.world train_env.schedule] in Hops, Hs.
  pose proof (Inv_exec _ _ _ (Inv_StationSimulation g) Hops) as HI.
  split; [exists ops; exact Hops|]. split; [exact Hs|]. split; [exact Hq|]. split.
  - exact (inv_log_sorted _ HI).
  - eapply Forall_impl; [exact (inv_resources _ HI)|]. intros x [_ Hu _]. exact Hu.
Qed.

Definition demo_actions : list train_env.Action :=
  [train_env.py_int 1; train_env.np_ndarray [train_env.py_int 9];
   train_env.py_float (SpecFloat.S754_zero true)].

Definition demo_end : train_env.StationTrainEnv :=
  default demo_env (steps 40 demo_actions demo_env).

Lemma episodes_are_driver_runs_witness :
  (exists ops, exec ops (StationSimulation initial_globals)
               = Some (train_env.world demo_end))
  /\ train_env.schedule demo_end = drop (length demo_actions) demo_rows
  /\ queue (train_env.world demo_end) = []
  /\ StronglySorted (fun a b => time a <= time b)
       (event_log (train_env.world demo_end))
  /\ Forall (fun x => (length (users x) <= 1)%nat)
       (resources (train_env.world demo_end)).
Proof.
  apply (episodes_are_driver_runs demo_rows initial_globals 40 demo_actions
           demo_end).
  vm_compute. reflexivity.
Defined.

(** ** What the kernel leaves alone

    A property of the world is stable when it survives what the kernel does
    to a world: queueing, activating a process, writing a resource, appending
    to the log, writing an event without changing its class, and allocating
    an event that is no process or a process whose generator is [fresh].
    [entry] says which entries the log may gain. *)

Record stable (P : World -> Prop) (fresh : Gen -> Prop)
    (entry : LogEntry -> Prop) : Prop := {
  st_queue : forall w q n, P w -> P (set_queue q n w);
  st_active : forall w a, P w -> P (set_active_proc a w);
  st_resources : forall w rs, P w -> P (set_resources rs w);
  st_log : forall w e, P w -> entry e ->
    P (set_event_log (event_log w ++ [e]) w);
  st_put : forall w (x : ref) e e', P w -> events w !! x = Some e ->
    kind_same (kind e) (kind e') ->
    P (set_events (<[x := e']> (events w)) w);
  st_new : forall w e, P w -> (forall g, kind e = Process g -> fresh g) ->
    P (set_events (events w ++ [e]) w)
}.

Lemma wp_conj {A} (m : Sim A) (Q1 Q2 : A -> World -> Prop) w :
  wp m Q1 w -> wp m Q2 w -> wp m (fun a w' => Q1 a w' /\ Q2 a w') w.
Proof. intros H1 H2 a w' E. split; [exact (H1 a w' E)|exact (H2 a w' E)]. Qed.

Lemma wp_map_m {A B} (f : A -> Sim B) (I : World -> Prop) xs :
  (forall x w, x ∈ xs -> I w -> wp (f x) (fun _ w' => I w') w) ->
  forall w, I w -> wp (simpy.map_m f xs) (fun _ w' => I w') w.
Proof.
  induction xs as [|x xs IH]; intros Hf w HI; cbn [simpy.map_m].
  - apply wp_ret. exact HI.
  - apply wp_bind. eapply wp_mono; [apply Hf; [left|exact HI]|].
    intros y w1 H1. apply wp_bind. eapply wp_mono.
    + apply IH; [|exact H1]. intros z w2 Hz. apply Hf. right. exact Hz.
    + intros ys w2 H2. apply wp_ret. exact H2.
Qed.

Lemma wp_get_point_lookup name (Q : Point -> World -> Prop) w :
  (forall pt, points w !! name = Some pt -> Q pt w) -> wp (get_point name) Q w.
Proof.
  intros H pt w'. unfold get_point.
  destruct (points w !! name) as [pt0|] eqn:E; [|discriminate].
  intros E'. inversion E'; subst. exact (H pt eq_refl).
Qed.

Section kernel.

Variable P : World -> Prop.
Variable fresh : Gen -> Prop.
Variable entry : LogEntry -> Prop.
Hypothesis HS : stable P fresh entry.

(** [m] keeps the property. *)
Definition keeps {A} (m : Sim A) : Prop :=
  forall w, P w -> wp m (fun _ w' => P w') w.

Ltac next L :=
  apply wp_bind; eapply wp_mono;
  [apply L; try eassumption|intros ? ? ?; cbv beta in *].

Lemma plain_kind (k : Kind) : (forall g, k <> Process g) ->
  forall g, k = Process g -> fresh g.
Proof. intros H g E. destruct (H g E). Qed.

Lemma keeps_schedule ev prio delay : keeps (simpy.schedule ev prio delay).
Proof. intros w HP. apply wp_modify. apply (st_queue _ _ _ HS). exact HP. Qed.

Lemma keeps_append_callback ev cb : keeps (simpy.append_callback ev cb).
Proof.
  intros w HP. unfold simpy.append_callback. apply wp_bind, wp_get_event.
  intros e He. destruct (callbacks e); [|apply wp_raise]. apply wp_put_event.
  apply (st_put _ _ _ HS w ev e); [exact HP|exact He|apply kind_same_refl].
Qed.

Lemma keeps_succeed ev : keeps (simpy.succeed ev).
Proof.
  intros w HP. unfold simpy.succeed. apply wp_bind, wp_get_event.
  intros e He. destruct (triggered e); [apply wp_raise|].
  apply wp_bind, wp_put_event. apply keeps_schedule.
  apply (st_put _ _ _ HS w ev e); [exact HP|exact He|apply kind_same_refl].
Qed.

Lemma keeps_timeout delay : keeps (simpy.timeout delay).
Proof.
  intros w HP. unfold simpy.timeout. destruct (delay <? 0); [apply wp_raise|].
  apply wp_bind, wp_new_event. next keeps_schedule.
  - apply (st_new _ _ _ HS); [exact HP|]. apply plain_kind. discriminate.
  - apply wp_ret. assumption.
Qed.

Lemma keeps_process g : fresh g -> keeps (simpy.process g).
Proof.
  intros Hg w HP. unfold simpy.process.
  apply wp_bind, wp_new_event, wp_bind, wp_new_event. next keeps_schedule.
  - apply (st_new _ _ _ HS); [|apply plain_kind; discriminate].
    apply (st_new _ _ _ HS); [exact HP|]. intros g' [= <-]. exact Hg.
  - apply wp_ret. assumption.
Qed.

Lemma keeps_Resource_do_put r ev : keeps (simpy.Resource_do_put r ev).
Proof.
  intros w HP. unfold simpy.Resource_do_put. apply wp_bind, wp_get_resource.
  intros x Hx. apply wp_bind, wp_gets.
  destruct (length (users x) <? capacity x)%nat; [|apply wp_ret; exact HP].
  apply wp_bind, wp_put_resource. apply keeps_succeed.
  apply (st_resources _ _ _ HS). exact HP.
Qed.

Lemma keeps_Resource_do_get r ev : keeps (simpy.Resource_do_get r ev).
Proof.
  intros w HP. unfold simpy.Resource_do_get. apply wp_bind, wp_get_event.
  intros e He. destruct (kind e); try apply wp_raise.
  apply wp_bind, wp_get_resource. intros x Hx. apply wp_bind, wp_gets.
  apply wp_bind.
  apply (wp_mono _ (fun _ w' => P w')); [|intros ? ? ?; apply keeps_succeed; assumption].
  destruct (simpy.list_remove _ _); [|apply wp_ret; exact HP].
  apply wp_put_resource. apply (st_resources _ _ _ HS). exact HP.
Qed.

Lemma keeps_trigger_put r : keeps (simpy.trigger_put r).
Proof.
  intros w HP. unfold simpy.trigger_put. apply wp_bind, wp_get_resource.
  intros x Hx. destruct (put_queue x) as [|head rest]; [apply wp_ret; exact HP|].
  next keeps_Resource_do_put. apply wp_bind, wp_get_event. intros e He.
  destruct (triggered e); [|apply wp_ret; assumption].
  apply wp_bind, wp_get_resource. intros x' Hx'. apply wp_put_resource.
  apply (st_resources _ _ _ HS). assumption.
Qed.

Lemma keeps_trigger_get r : keeps (simpy.trigger_get r).
Proof.
  intros w HP. unfold simpy.trigger_get. apply wp_bind, wp_get_resource.
  intros x Hx. destruct (get_queue x) as [|head rest]; [apply wp_ret; exact HP|].
  next keeps_Resource_do_get. apply wp_bind, wp_get_event. intros e He.
  destruct (triggered e); [|apply wp_ret; assumption].
  apply wp_bind, wp_get_resource. intros x' Hx'. apply wp_put_resource.
  apply (st_resources _ _ _ HS). assumption.
Qed.

Lemma keeps_request r : keeps (simpy.request r).
Proof.
  intros w HP. unfold simpy.request. apply wp_bind, wp_gets.
  apply wp_bind, wp_new_event. apply wp_bind, wp_get_resource. intros x Hx.
  apply wp_bind, wp_put_resource. next keeps_append_callback.
  - apply (st_resources _ _ _ HS). apply (st_new _ _ _ HS); [exact HP|].
    apply plain_kind. discriminate.
  - next keeps_trigger_put. apply wp_ret. assumption.
Qed.

Lemma keeps_release r req : keeps (simpy.release r req).
Proof.
  intros w HP. unfold simpy.release.
  apply wp_bind, wp_new_event. apply wp_bind, wp_get_resource. intros x Hx.
  apply wp_bind, wp_put_resource. next keeps_append_callback.
  - apply (st_resources _ _ _ HS). apply (st_new _ _ _ HS); [exact HP|].
    apply plain_kind. discriminate.
  - next keeps_trigger_get. apply wp_ret. assumption.
Qed.

Lemma keeps_Request_exit r req : keeps (simpy.Request_exit r req).
Proof.
  intros w HP. unfold simpy.Request_exit. apply wp_bind, wp_get_event.
  intros e He. apply wp_bind.
  apply (wp_mono _ (fun _ w' => P w')).
  - destruct (triggered e); [apply wp_ret; exact HP|].
    apply wp_bind, wp_get_resource. intros x Hx.
    destruct (simpy.list_remove _ _); [|apply wp_raise].
    apply wp_put_resource. apply (st_resources _ _ _ HS). exact HP.
  - intros ? ? ?. next keeps_release. apply wp_ret. assumption.
Qed.

Lemma keeps_check c : keeps (simpy.check c).
Proof.
  intros w HP. unfold simpy.check. apply wp_bind, wp_get_event. intros e He.
  destruct (triggered e); [apply wp_ret; exact HP|].
  destruct (kind e) as [| | | |evs n|] eqn:Hk; try apply wp_raise.
  apply wp_bind, wp_put_event.
  assert (HP' : P (set_events (<[c := {| callbacks := callbacks e; triggered := false;
                                         kind := Condition evs (S n) |}]> (events w)) w)).
  { apply (st_put _ _ _ HS w c e); [exact HP|exact He|]. rewrite Hk. simpl. eauto. }
  destruct (length evs =? S n)%nat; [apply keeps_succeed|apply wp_ret]; exact HP'.
Qed.

Lemma keeps_for_each {A} (f : A -> Sim unit) xs :
  (forall x, keeps (f x)) -> keeps (for_each f xs).
Proof.
  intros Hf w HP. apply (wp_for_each f P); [|exact HP].
  intros x w1 _ H1. apply Hf. exact H1.
Qed.

Lemma keeps_all_of evs : keeps (simpy.all_of evs).
Proof.
  intros w HP. unfold simpy.all_of. apply wp_bind, wp_new_event.
  set (c := length (events w)).
  assert (HP' : P (set_events (events w ++ [{| callbacks := Some []; triggered := false;
                                               kind := Condition evs 0 |}]) w)).
  { apply (st_new _ _ _ HS); [exact HP|]. apply plain_kind. discriminate. }
  apply wp_bind. apply (wp_mono _ (fun _ w' => P w'));
    [|intros ? ? ?; apply wp_ret; assumption].
  destruct (length evs =? 0)%nat; [apply keeps_succeed; exact HP'|].
  apply wp_bind. eapply wp_mono.
  - apply (keeps_for_each _ evs); [|exact HP']. intros ev w1 H1.
    apply wp_bind, wp_get_event. intros e He.
    destruct (callbacks e); [apply keeps_append_callback|apply keeps_check];
      exact H1.
  - intros ? ? ?. apply keeps_append_callback. assumption.
Qed.

Lemma keeps_and_events_fold rest : forall (acc : Sim ref),
  keeps acc ->
  keeps (fold_left (fun acc b => c <- acc ;; simpy.all_of [c; b]) rest acc).
Proof.
  induction rest as [|b rest IH]; intros acc Hacc; cbn [fold_left]; [exact Hacc|].
  apply IH. intros w HP. next Hacc. apply keeps_all_of. assumption.
Qed.

Lemma keeps_and_events a rest : keeps (simpy.and_events a rest).
Proof.
  unfold simpy.and_events. apply keeps_and_events_fold.
  intros w HP. apply wp_ret. exact HP.
Qed.

Lemma keeps_remove_check_callbacks depth : forall c,
  keeps (simpy.remove_check_callbacks depth c).
Proof.
  induction depth as [|depth IH]; intros c w HP; cbn [simpy.remove_check_callbacks].
  - apply wp_ret. exact HP.
  - apply wp_bind, wp_get_event. intros e He.
    destruct (kind e) as [| | | |evs n|]; try apply wp_raise.
    apply (keeps_for_each _ evs); [|exact HP]. intros ev w1 H1.
    apply wp_bind, wp_get_event. intros x Hx. apply wp_bind.
    apply (wp_mono _ (fun _ w' => P w')).
    + destruct (callbacks x); [|apply wp_ret; exact H1].
      apply wp_put_event.
      apply (st_put _ _ _ HS w1 ev x); [exact H1|exact Hx|apply kind_same_refl].
    + intros ? ? ?. destruct (kind x); try (apply wp_ret; assumption).
      apply IH. assumption.
Qed.

Lemma keeps_build_value c : keeps (simpy.build_value c).
Proof. apply keeps_remove_check_callbacks. Qed.

Lemma keeps_log_event tid dir ty d :
  (forall t, entry {| time := t; log_train_id := tid; log_direction := dir;
                      event := ty; details := d |}) ->
  keeps (log_event tid dir ty d).
Proof.
  intros He w HP. apply wp_modify. apply (st_log _ _ _ HS); [exact HP|apply He].
Qed.

End kernel.

(** A property is inert when, beyond that, it does not depend on the events
    at all and survives a change of position of a point. *)
Record inert (P : World -> Prop) : Prop := {
  in_queue : forall w q n, P w -> P (set_queue q n w);
  in_active : forall w a, P w -> P (set_active_proc a w);
  in_resources : forall w rs, P w -> P (set_resources rs w);
  in_log : forall w e, P w -> P (set_event_log (event_log w ++ [e]) w);
  in_events : forall w es, P w -> P (set_events es w);
  in_points : forall w name pt position, P w -> points w !! name = Some pt ->
    P (set_points (<[name := {| resource := resource pt; state := position |}]>
                     (points w)) w)
}.

Lemma inert_stable P : inert P -> stable P (fun _ => True) (fun _ => True).
Proof.
  intros [H1 H2 H3 H4 H5 H6]. constructor; try assumption.
  - intros w e HP _. apply H4. exact HP.
  - intros w x e e' HP _ _. apply H5. exact HP.
  - intros w e HP _. apply H5. exact HP.
Qed.

Section station.

Variable P : World -> Prop.
Hypothesis HI : inert P.

Let HS : stable P (fun _ => True) (fun _ => True) := inert_stable P HI.

Ltac next L :=
  apply wp_bind; eapply wp_mono;
  [apply L; try eassumption|intros ? ? ?; cbv beta in *].

Lemma keeps_set_point_state position name :
  keeps P (set_point_state position name).
Proof.
  intros w HP. unfold set_point_state. apply wp_bind, wp_get_point_lookup.
  intros pt Hpt. apply wp_modify. apply (in_points _ HI); assumption.
Qed.

Lemma keeps_leave_points reqs : keeps P (leave_points reqs).
Proof.
  intros w HP. unfold leave_points. apply wp_bind. eapply wp_mono.
  - apply (keeps_for_each P); [|exact HP]. intros rq.
    apply (keeps_Request_exit P _ _ HS).
  - intros ? ? ?. apply wp_ret. assumption.
Qed.

Lemma keeps_enter_track p tid dir reqs i : keeps P (enter_track p tid dir reqs i).
Proof.
  intros w HP. unfold enter_track.
  destruct (path_tracks p !! i) as [[[track name] duration]|];
    [|apply keeps_leave_points; exact HP].
  next (keeps_request P _ _ HS). apply wp_ret. assumption.
Qed.

Lemma keeps_run_script script : keeps P (run_script script).
Proof.
  induction script as [|[t|d] rest IH]; intros w HP; cbn [run_script].
  - apply wp_ret. exact HP.
  - apply wp_bind. eapply wp_mono; [apply (keeps_process P _ _ HS); [exact I|exact HP]|].
    intros ? ? ?. apply IH. assumption.
  - next (keeps_timeout P _ _ HS). apply wp_ret. assumption.
Qed.

Lemma keeps_send g : keeps P (send g).
Proof.
  intros w HP.
  destruct g as [t|t|p tid dir|p tid dir reqs|p tid dir reqs i track tr
                |p tid dir reqs i track tr|script|]; cbn [send].
  - next (keeps_log_event P _ _ HS); [exact (fun _ => I)|].
    destruct (path_function (route_decision t)).
    + apply wp_bind. eapply wp_mono;
        [apply (keeps_process P _ _ HS); [exact I|eassumption]|].
      intros ? ? ?. apply wp_ret. assumption.
    + next (keeps_log_event P _ _ HS); [exact (fun _ => I)|]. apply wp_ret. assumption.
  - next (keeps_log_event P _ _ HS); [exact (fun _ => I)|]. apply wp_ret. assumption.
  - apply wp_bind. eapply wp_mono.
    + apply (wp_map_m _ P); [|exact HP]. intros name w1 _ H1.
      apply wp_bind, wp_get_point. intros pt.
      next (keeps_request P _ _ HS). apply wp_ret. assumption.
    + intros reqs w1 H1. destruct reqs as [|[r q] rest]; [apply wp_raise|].
      next (keeps_and_events P _ _ HS). apply wp_ret. assumption.
  - apply wp_bind. eapply wp_mono.
    + apply (keeps_for_each P); [|exact HP]. intros name.
      apply keeps_set_point_state.
    + intros ? ? ?. next (keeps_log_event P _ _ HS); [exact (fun _ => I)|].
      apply keeps_enter_track. assumption.
  - destruct (path_tracks p !! i) as [[[track0 name] duration]|]; [|apply wp_raise].
    next (keeps_log_event P _ _ HS); [exact (fun _ => I)|]. apply wp_bind, wp_gets.
    next (keeps_timeout P _ _ HS). apply wp_ret. assumption.
  - next (keeps_Request_exit P _ _ HS). apply keeps_enter_track. assumption.
  - apply keeps_run_script. exact HP.
  - apply wp_raise.
Qed.

Lemma keeps_resume_loop rounds : forall p,
  keeps P (Environment.resume_loop rounds p).
Proof.
  induction rounds as [|rounds IH]; intros p w HP; rewrite resume_loop_unfold;
    unfold resume_body.
  all: apply wp_bind, wp_get_event; intros e He.
  all: destruct (kind e); try apply wp_raise.
  all: next keeps_send.
  all: unfold Environment.set_generator.
  all: apply wp_bind, wp_bind, wp_get_event; intros e1 He1.
  all: apply wp_put_event.
  all: match goal with H : P ?w1 |- context [set_events ?es ?w1] =>
         pose proof (in_events _ HI w1 es H) as HP2 end.
  all: destruct (snd a) as [ev|].
  all: try (apply wp_bind, wp_get_event; intros e2 He2;
            apply wp_bind, wp_put_event; apply (keeps_schedule P _ _ HS);
            apply (in_events _ HI); exact HP2).
  all: apply wp_bind, wp_get_event; intros target Ht.
  all: destruct (callbacks target);
    [apply (keeps_append_callback P _ _ HS); exact HP2|].
  - apply wp_raise.
  - apply IH. exact HP2.
Qed.

Lemma keeps_resume p : keeps P (Environment.resume p).
Proof.
  intros w HP. unfold Environment.resume. apply wp_bind, wp_modify.
  apply wp_bind, wp_get_event. intros e He.
  destruct (kind e); try apply wp_raise.
  apply wp_bind. eapply wp_mono.
  - apply keeps_resume_loop. apply (in_active _ HI). exact HP.
  - intros ? ? ?. apply wp_modify. apply (in_active _ HI). assumption.
Qed.

Lemma keeps_call cb : keeps P (Environment.call cb).
Proof.
  intros w HP. destruct cb; cbn [Environment.call].
  - apply keeps_resume. exact HP.
  - apply (keeps_check P _ _ HS). exact HP.
  - apply (keeps_build_value P _ _ HS). exact HP.
  - apply (keeps_trigger_get P _ _ HS). exact HP.
  - apply (keeps_trigger_put P _ _ HS). exact HP.
Qed.

(** [Environment.step] after it has popped its entry and set the clock. *)
Definition process_event (ev : ref) : Sim unit :=
  e <- simpy.get_event ev ;;
  match callbacks e with
  | Some cbs =>
      simpy.put_event ev {| callbacks := None; triggered := triggered e;
                            kind := kind e |} ;;;
      for_each Environment.call cbs
  | None => raise
  end.

Lemma keeps_process_event ev : keeps P (process_event ev).
Proof.
  intros w HP. unfold process_event. apply wp_bind, wp_get_event. intros e He.
  destruct (callbacks e) as [cbs|]; [|apply wp_raise].
  apply wp_bind, wp_put_event. apply (keeps_for_each P).
  - intros cb. apply keeps_call.
  - apply (in_events _ HI). exact HP.
Qed.

End station.

Lemma step_pops w u w' :
  Environment.step w = Some (u, w') ->
  exists t prio i ev q,
    queue w = (t, prio, i, ev) :: q
    /\ process_event ev (set_now t (set_queue q (eid w) w)) = Some (u, w').
Proof.
  unfold Environment.step. intros H.
  apply bind_Some in H as (q0 & w1 & H1 & H). inversion H1; subst; clear H1.
  destruct (queue w1) as [|[[[t p] i] ev] q'] eqn:E; [discriminate|].
  apply bind_Some in H as (n & w2 & H1 & H). inversion H1; subst; clear H1.
  apply bind_Some in H as ([] & w3 & H1 & H). inversion H1; subst; clear H1.
  apply bind_Some in H as ([] & w4 & H1 & H). inversion H1; subst; clear H1.
  exists t, p, i, ev, q'. split; [reflexivity|exact H].
Qed.

Lemma inert_now t : inert (fun w => now w = t).
Proof. constructor; intros; assumption. Qed.

Lemma inert_globals g : inert (fun w => globals w = g).
Proof. constructor; intros; assumption. Qed.

Lemma inert_log l : inert (fun w => l `prefix_of` event_log w).
Proof.
  constructor; intros; try assumption.
  cbn [event_log set_event_log]. apply prefix_app_r. assumption.
Qed.

Lemma inert_point_resources (m : gmap string ref) :
  inert (fun w => resource <$> points w = m).
Proof.
  constructor; intros; try assumption.
  cbn [points set_points]. rewrite fmap_insert. cbn [resource].
  subst m. apply insert_id. rewrite lookup_fmap, H0. reflexivity.
Qed.

(** What an operation of the driver does to an inert property. *)
Lemma apply_op_keeps P op w w' :
  inert P ->
  (forall w t, P w -> P (set_now t w)) ->
  (forall g, op = set_timing g -> P (set_globals g w)) ->
  apply_op op w = Some w' -> P w -> P w'.
Proof.
  intros HI Hnow Hset H HP.
  destruct op as [t|script| |g]; cbn [apply_op] in H.
  - destruct (simpy.process _ w) as [[p w1]|] eqn:E; [|discriminate].
    injection H as <-.
    exact (keeps_process P _ _ (inert_stable P HI) _ I w HP p w1 E).
  - destruct (simpy.process _ w) as [[p w1]|] eqn:E; [|discriminate].
    injection H as <-.
    exact (keeps_process P _ _ (inert_stable P HI) _ I w HP p w1 E).
  - destruct (Environment.step w) as [[u w1]|] eqn:E; [|discriminate].
    injection H as <-.
    destruct (step_pops _ _ _ E) as (t & prio & i & ev & q & Hq & Hev).
    refine (keeps_process_event P HI ev _ _ u w1 Hev).
    apply Hnow. apply (in_queue _ HI). exact HP.
  - injection H as <-. exact (Hset g eq_refl).
Qed.

Lemma exec_keeps P ops : forall w w',
  inert P ->
  (forall w t, P w -> P (set_now t w)) ->
  Forall (fun op => forall g, op = set_timing g ->
                    forall w, P w -> P (set_globals g w)) ops ->
  exec ops w = Some w' -> P w -> P w'.
Proof.
  induction ops as [|op ops IH]; intros w w' HI Hnow Hset H HP; cbn [exec] in H.
  - injection H as <-. exact HP.
  - destruct (apply_op op w) as [w1|] eqn:E; [|discriminate].
    apply Forall_cons in Hset as [Hop Hset].
    apply (IH w1 w' HI Hnow Hset H).
    apply (apply_op_keeps P op w w1 HI Hnow); [|exact E|exact HP].
    intros g Hg. exact (Hop g Hg w HP).
Qed.

Lemma apply_op_clock op w w' :
  Inv w -> apply_op op w = Some w' -> now w <= now w'.
Proof.
  intros HInv H. destruct op as [t|script| |g]; cbn [apply_op] in H.
  - destruct (simpy.process _ w) as [[p w1]|] eqn:E; [|discriminate].
    injection H as <-.
    pose proof (keeps_process _ _ _ (inert_stable _ (inert_now (now w))) _ I w
                  eq_refl p w1 E) as Hn.
    cbv beta in Hn. lia.
  - destruct (simpy.process _ w) as [[p w1]|] eqn:E; [|discriminate].
    injection H as <-.
    pose proof (keeps_process _ _ _ (inert_stable _ (inert_now (now w))) _ I w
                  eq_refl p w1 E) as Hn.
    cbv beta in Hn. lia.
  - destruct (Environment.step w) as [[u w1]|] eqn:E; [|discriminate].
    injection H as <-.
    destruct (step_pops _ _ _ E) as (t & prio & i & ev & q & Hq & Hev).
    pose proof (keeps_process_event _ (inert_now t) ev
                  (set_now t (set_queue q (eid w) w)) eq_refl u w1 Hev) as Hn.
    cbv beta in Hn. rewrite Hn.
    pose proof (inv_queue _ HInv) as HF. rewrite Hq in HF.
    apply Forall_cons in HF as [[Ht _] _]. exact Ht.
  - injection H as <-. reflexivity.
Qed.

Lemma exec_clock ops : forall w w',
  Inv w -> exec ops w = Some w' -> now w <= now w'.
Proof.
  induction ops as [|op ops IH]; intros w w' HInv H; cbn [exec] in H.
  - injection H as <-. lia.
  - destruct (apply_op op w) as [w1|] eqn:E; [|discriminate].
    pose proof (apply_op_clock op w w1 HInv E).
    pose proof (IH w1 w' (Inv_apply_op _ _ _ HInv E) H). lia.
Qed.

(** X12. What the simulation never does.  From any world the driver has
    reached, whatever it does next (submitting trains, starting scripts,
    stepping the event loop, assigning the timing globals), the clock never
    runs backwards, the log only grows at its end (no entry is removed or
    rewritten), every point keeps the resource it was built with, and the
    timing globals change only when the driver assigns them. *)
Theorem the_simulation_only_moves_forward
    (g : Globals) (ops ops' : list DriverOp) (w w' : World) :
  exec ops (StationSimulation g) = Some w ->
  exec ops' w = Some w' ->
  now w <= now w'
  /\ event_log w `prefix_of` event_log w'
  /\ resource <$> points w' = resource <$> initial_points
  /\ (Forall (fun op => forall g', op <> set_timing g') ops' ->
      globals w' = globals w).
Proof.
  intros H H'.
  pose proof (Inv_exec _ _ _ (Inv_StationSimulation g) H) as HInv.
  split; [exact (exec_clock ops' w w' HInv H')|]. split; [|split].
  - apply (exec_keeps (fun w0 => event_log w `prefix_of` event_log w0) ops' w w');
      try assumption; try reflexivity.
    + apply inert_log.
    + intros w0 t Hw0. exact Hw0.
    + apply Forall_forall. intros op _ g0 _ w0 Hw0. exact Hw0.
  - apply (exec_keeps (fun w0 => resource <$> points w0 = resource <$> initial_points)
             (ops ++ ops') (StationSimulation g) w').
    + apply inert_point_resources.
    + intros w0 t Hw0. exact Hw0.
    + apply Forall_forall. intros op _ g0 _ w0 Hw0. exact Hw0.
    + rewrite (exec_app _ _ _ _ H). exact H'.
    + reflexivity.
  - intros Hno.
    apply (exec_keeps (fun w0 => globals w0 = globals w) ops' w w');
      try assumption; try reflexivity.
    + apply inert_globals.
    + intros w0 t Hw0. exact Hw0.
    + eapply Forall_impl; [exact Hno|]. intros op Hop g0 Hg0.
      destruct (Hop g0 Hg0).
Qed.

(** The run of [test_runner] after thirty operations of the driver. *)
Definition test_midway : World :=
  default (StationSimulation initial_globals)
    (exec (take 30 test_ops) (StationSimulation initial_globals)).

Lemma the_simulation_only_moves_forward_witness :
  now test_midway <= now test_world
  /\ event_log test_midway `prefix_of` event_log test_world
  /\ resource <$> points test_world = resource <$> initial_points
  /\ (Forall (fun op => forall g', op <> set_timing g') (drop 30 test_ops) ->
      globals test_world = globals test_midway).
Proof.
  apply (the_simulation_only_moves_forward initial_globals (take 30 test_ops)
           (drop 30 test_ops) test_midway test_world).
  - vm_compute. reflexivity.
  - vm_compute. reflexivity.
Defined.

(** Dispatching a train does not touch the timing globals. *)
Lemma dispatch_globals t fuel w w' :
  dispatch t fuel w = Some (tt, w') -> globals w' = globals w.
Proof.
  unfold dispatch. intros H. apply bind_Some in H as (p & w1 & Hp & Hrun).
  pose proof (keeps_process _ _ _ (inert_stable _ (inert_globals (globals w)))
                _ I w eq_refl p w1 Hp) as H1. cbv beta in H1.
  destruct (run_exec _ _ _ Hrun) as (n & Hn).
  rewrite <- H1.
  apply (exec_keeps (fun w0 => globals w0 = globals w1) (replicate n env_step) w1 w');
    try assumption; try reflexivity.
  - apply inert_globals.
  - intros w0 t0 Hw0. exact Hw0.
  - apply Forall_forall. intros op Hop g Hg.
    apply elem_of_replicate in Hop as [-> _]. discriminate.
Qed.

(** ** A journey does not depend on what the station has been through

    The kernel names an event by its index in the heap, stamps queue entries
    with a running number, and reads the clock.  What it does in a world is
    what it does in a smaller world, with the references moved by the length
    of a prefix of the heap that nothing refers to, the running numbers moved
    by a constant, and the times moved by a constant. *)

Section relocation.

Variable pre : list Event.
Variable eid0 : nat.
Variable t0 : Z.
Variable log0 : list LogEntry.

Definition sh (x : ref) : ref := (length pre + x)%nat.

Definition sh_cb (cb : Callback) : Callback :=
  match cb with
  | Process_resume p => Process_resume (sh p)
  | Condition_check c => Condition_check (sh c)
  | Condition_build_value c => Condition_build_value (sh c)
  | BaseResource_trigger_get r => BaseResource_trigger_get r
  | BaseResource_trigger_put r => BaseResource_trigger_put r
  end.

Definition sh_rq (rq : ref * ref) : ref * ref := (fst rq, sh (snd rq)).

Definition sh_gen (g : Gen) : Gen :=
  match g with
  | path_joint p tid dir reqs => path_joint p tid dir (map sh_rq reqs)
  | path_enter p tid dir reqs i track track_req =>
      path_enter p tid dir (map sh_rq reqs) i track (sh track_req)
  | path_dwell p tid dir reqs i track track_req =>
      path_dwell p tid dir (map sh_rq reqs) i track (sh track_req)
  | _ => g
  end.

Definition sh_kind (k : Kind) : Kind :=
  match k with
  | Initialize => Initialize
  | Timeout => Timeout
  | Request r proc => Request r (sh <$> proc)
  | Release r req => Release r (sh req)
  | Condition evs n => Condition (map sh evs) n
  | Process g => Process (sh_gen g)
  end.

Definition sh_event (e : Event) : Event :=
  {| callbacks := map sh_cb <$> callbacks e; triggered := triggered e;
     kind := sh_kind (kind e) |}.

Definition sh_entry (a : QueueEntry) : QueueEntry :=
  (qtime a + t0, qprio a, (eid0 + qeid a)%nat, sh (snd a)).

Definition sh_log (e : LogEntry) : LogEntry :=
  {| time := time e + t0; log_train_id := log_train_id e;
     log_direction := log_direction e; event := event e;
     details := details e |}.

(** The history of a resource is never read. *)
Record rel_resource (xs xb : Resource) : Prop := {
  rr_capacity : capacity xb = capacity xs;
  rr_users : users xb = map sh (users xs);
  rr_put_queue : put_queue xb = map sh (put_queue xs);
  rr_get_queue : get_queue xb = map sh (get_queue xs)
}.

(** A condition is made of events that were there before it. *)
Definition looks_back (w : World) : Prop :=
  forall (c : ref) e evs m, events w !! c = Some e -> kind e = Condition evs m ->
    forall s, s ∈ evs -> (s < c)%nat.

(** The position of a point is written and never read. *)
Record moved (ws wb : World) : Prop := {
  rel_now : now wb = now ws + t0;
  rel_queue : queue wb = map sh_entry (queue ws);
  rel_eid : eid wb = (eid0 + eid ws)%nat;
  rel_active : active_proc wb = sh <$> active_proc ws;
  rel_events : events wb = pre ++ map sh_event (events ws);
  rel_resources : Forall2 rel_resource (resources ws) (resources wb);
  rel_log : event_log wb = log0 ++ map sh_log (event_log ws);
  rel_points : forall name,
    resource <$> (points wb !! name) = resource <$> (points ws !! name);
  rel_globals : globals wb = globals ws;
  rel_wf : looks_back ws
}.

(** Whatever the small world does, the large one does likewise. *)
Definition simw {A B} (RA : A -> B -> World -> Prop) (ms : Sim A) (mb : Sim B)
    (ws wb : World) : Prop :=
  moved ws wb ->
  forall a ws', ms ws = Some (a, ws') ->
    exists b wb', mb wb = Some (b, wb') /\ RA a b ws' /\ moved ws' wb'
                  /\ (length (events ws) <= length (events ws'))%nat.

Lemma simw_bind {A B A' B'} (RA : A -> B -> World -> Prop)
    (RB : A' -> B' -> World -> Prop) ms mb fs fb ws wb :
  simw RA ms mb ws wb ->
  (forall a b ws1 wb1, RA a b ws1 ->
     (length (events ws) <= length (events ws1))%nat ->
     simw RB (fs a) (fb b) ws1 wb1) ->
  simw RB (bind ms fs) (bind mb fb) ws wb.
Proof.
  intros Hm Hf Hrel a' ws' H. apply bind_Some in H as (a & ws1 & H1 & H2).
  destruct (Hm Hrel a ws1 H1) as (b & wb1 & Hb & Ha & Hrel1 & Hlen1).
  destruct (Hf a b ws1 wb1 Ha Hlen1 Hrel1 a' ws' H2) as (b' & wb' & Hb' & HR & Hrel' & Hlen').
  exists b', wb'. split; [|split; [exact HR|split; [exact Hrel'|lia]]].
  unfold bind. rewrite Hb. exact Hb'.
Qed.

Lemma simw_mono {A B} (RA RA' : A -> B -> World -> Prop) ms mb ws wb :
  simw RA ms mb ws wb ->
  (forall a b ws', RA a b ws' ->
     (length (events ws) <= length (events ws'))%nat -> RA' a b ws') ->
  simw RA' ms mb ws wb.
Proof.
  intros Hm HR Hrel a ws' H.
  destruct (Hm Hrel a ws' H) as (b & wb' & Hb & Ha & Hrel' & Hlen).
  exists b, wb'. split; [exact Hb|]. split; [exact (HR a b ws' Ha Hlen)|].
  split; assumption.
Qed.

Lemma simw_ret {A B} (RA : A -> B -> World -> Prop) (a : A) (b : B) ws wb :
  RA a b ws -> simw RA (ret a) (ret b) ws wb.
Proof.
  intros HR Hrel a' ws' H. unfold ret in H. inversion H; subst.
  exists b, wb. split; [reflexivity|]. split; [exact HR|]. split; [exact Hrel|lia].
Qed.

Lemma simw_raise {A B} (RA : A -> B -> World -> Prop) (mb : Sim B) ws wb :
  simw RA raise mb ws wb.
Proof. intros _ a ws' H. discriminate. Qed.

(** A step that needs the relation of the two worlds. *)
Lemma simw_rel {A B} (RA : A -> B -> World -> Prop) ms mb ws wb :
  (moved ws wb -> simw RA ms mb ws wb) -> simw RA ms mb ws wb.
Proof. intros H Hrel. exact (H Hrel Hrel). Qed.

(** *** Moving references commutes with the operations on lists *)

Lemma sh_inj x y : sh x = sh y -> x = y.
Proof. unfold sh. lia. Qed.

Lemma sh_cb_inj a b : sh_cb a = sh_cb b -> a = b.
Proof.
  destruct a, b; simpl; intros H; try discriminate; injection H as H;
    try (apply sh_inj in H); congruence.
Qed.

Lemma lookup_sh (es : list Event) (x : ref) :
  (pre ++ map sh_event es) !! sh x = sh_event <$> (es !! x).
Proof. unfold sh. rewrite lookup_app_r by lia. rewrite Nat.add_comm, Nat.add_sub. apply list_lookup_fmap. Qed.

Lemma insert_sh (es : list Event) (x : ref) e :
  <[sh x := sh_event e]> (pre ++ map sh_event es)
  = pre ++ map sh_event (<[x := e]> es).
Proof.
  unfold sh. rewrite insert_app_r. f_equal. symmetry. apply list_fmap_insert.
Qed.

Lemma length_sh (es : list Event) :
  length (pre ++ map sh_event es) = sh (length es).
Proof. unfold sh. rewrite length_app, length_map. reflexivity. Qed.

Lemma entry_lt_sh a b :
  simpy.entry_lt (sh_entry a) (sh_entry b) = simpy.entry_lt a b.
Proof.
  destruct a as [[[ta pa] ia] ea], b as [[[tb pb] ib] eb].
  unfold sh_entry, simpy.entry_lt, qtime, qprio, qeid. cbn [fst snd].
  replace (ta + t0 <? tb + t0) with (ta <? tb)
    by (destruct (Z.ltb_spec ta tb), (Z.ltb_spec (ta + t0) (tb + t0)); lia).
  replace (ta + t0 =? tb + t0) with (ta =? tb)
    by (destruct (Z.eqb_spec ta tb), (Z.eqb_spec (ta + t0) (tb + t0)); lia).
  replace (eid0 + ia <? eid0 + ib)%nat with (ia <? ib)%nat
    by (destruct (Nat.ltb_spec ia ib), (Nat.ltb_spec (eid0 + ia) (eid0 + ib)); lia).
  reflexivity.
Qed.

Lemma heappush_sh a q :
  simpy.heappush (sh_entry a) (map sh_entry q) = map sh_entry (simpy.heappush a q).
Proof.
  induction q as [|x q IH]; cbn [map simpy.heappush]; [reflexivity|].
  rewrite entry_lt_sh. destruct (simpy.entry_lt a x); cbn [map]; [reflexivity|].
  rewrite IH. reflexivity.
Qed.

Lemma list_remove_sh x l :
  simpy.list_remove (sh x) (map sh l) = map sh <$> simpy.list_remove x l.
Proof.
  induction l as [|y l IH]; simpl; [reflexivity|].
  replace (sh x =? sh y)%nat with (x =? y)%nat
    by (unfold sh; destruct (Nat.eqb_spec x y),
          (Nat.eqb_spec (length pre + x) (length pre + y)); lia).
  destruct (x =? y)%nat; [reflexivity|].
  rewrite IH. destruct (simpy.list_remove x l); reflexivity.
Qed.

Lemma remove_callback_sh cb l :
  simpy.remove_callback (sh_cb cb) (map sh_cb l)
  = map sh_cb (simpy.remove_callback cb l).
Proof.
  induction l as [|x l IH]; simpl; [reflexivity|].
  destruct (decide (cb = x)) as [->|Hne].
  - rewrite decide_True by reflexivity. reflexivity.
  - rewrite decide_False by (intros H; apply sh_cb_inj in H; contradiction).
    simpl. rewrite IH. reflexivity.
Qed.

(** *** The primitive operations *)

Lemma simw_gets {A B} (RA : A -> B -> World -> Prop) (f : World -> A)
    (f' : World -> B) ws wb :
  (moved ws wb -> RA (f ws) (f' wb) ws) -> simw RA (gets f) (gets f') ws wb.
Proof.
  intros HR Hrel a ws' H. unfold gets in H. inversion H; subst.
  exists (f' wb), wb. split; [reflexivity|]. split; [exact (HR Hrel)|].
  split; [exact Hrel|lia].
Qed.

Lemma simw_modify (f f' : World -> World) ws wb :
  (moved ws wb ->
   moved (f ws) (f' wb) /\ (length (events ws) <= length (events (f ws)))%nat) ->
  simw (fun _ _ _ => True) (modify f) (modify f') ws wb.
Proof.
  intros HR Hrel a ws' H. unfold modify in H. inversion H; subst.
  destruct (HR Hrel) as [Hrel' Hlen].
  exists tt, (f' wb). split; [reflexivity|]. split; [exact I|]. split; assumption.
Qed.

Lemma simw_get_event (x : ref) ws wb :
  simw (fun e e' ws' => e' = sh_event e /\ ws' = ws /\ events ws !! x = Some e)
       (simpy.get_event x) (simpy.get_event (sh x)) ws wb.
Proof.
  intros Hrel e ws' H. unfold simpy.get_event in *.
  destruct (events ws !! x) as [e0|] eqn:E; [|discriminate].
  inversion H; subst. exists (sh_event e), wb.
  rewrite (rel_events _ _ Hrel), lookup_sh, E. split; [reflexivity|].
  split; [auto|]. split; [exact Hrel|lia].
Qed.

Definition wf_kind (k : Kind) (x : nat) : Prop :=
  forall evs m, k = Condition evs m -> forall s, s ∈ evs -> (s < x)%nat.

Lemma wf_insert ws (x : ref) e :
  looks_back ws -> wf_kind (kind e) x -> looks_back (set_events (<[x := e]> (events ws)) ws).
Proof.
  intros Hwf Hk c ec evs m Hc. cbn [events set_events] in Hc.
  destruct (decide (c = x)) as [->|Hne].
  - destruct (decide (x < length (events ws))%nat) as [Hlt|Hge].
    + rewrite list_lookup_insert_eq in Hc by exact Hlt. injection Hc as <-.
      exact (Hk evs m).
    + rewrite list_insert_ge in Hc by lia. exact (Hwf x ec evs m Hc).
  - rewrite list_lookup_insert_ne in Hc by congruence. exact (Hwf c ec evs m Hc).
Qed.

Lemma simw_put_event (x : ref) e ws wb :
  wf_kind (kind e) x ->
  simw (fun _ _ _ => True) (simpy.put_event x e)
       (simpy.put_event (sh x) (sh_event e)) ws wb.
Proof.
  intros Hk. apply simw_modify. intros [H1 H2 H3 H4 H5 H6 H7 H8 H9 H10]. split.
  - constructor; cbn [now queue eid active_proc events resources event_log
                      points globals set_events]; try assumption.
    + rewrite H5. apply insert_sh.
    + exact (wf_insert ws x e H10 Hk).
  - cbn [events set_events]. rewrite length_insert. lia.
Qed.

Lemma wf_app ws e :
  looks_back ws -> wf_kind (kind e) (length (events ws)) ->
  looks_back (set_events (events ws ++ [e]) ws).
Proof.
  intros Hwf Hk c ec evs m Hc. cbn [events set_events] in Hc.
  apply lookup_app_Some in Hc as [Hc|[Hge Hc]].
  - exact (Hwf c ec evs m Hc).
  - apply list_lookup_singleton_Some in Hc as [Hc <-].
    assert (c = length (events ws)) as -> by lia. exact (Hk evs m).
Qed.

Lemma simw_new_event e ws wb :
  wf_kind (kind e) (length (events ws)) ->
  simw (fun x y ws' => y = sh x /\ x = length (events ws)
                       /\ events ws' = events ws ++ [e])
       (simpy.new_event e) (simpy.new_event (sh_event e)) ws wb.
Proof.
  intros Hk Hrel x ws' H. unfold simpy.new_event in *. inversion H; subst.
  destruct Hrel as [H1 H2 H3 H4 H5 H6 H7 H8 H9 H10].
  eexists _, _. split; [reflexivity|]. split; [|split].
  - rewrite H5, length_sh. auto.
  - constructor; cbn [now queue eid active_proc events resources event_log
                      points globals set_events]; try assumption.
    + rewrite H5, map_app, app_assoc. reflexivity.
    + exact (wf_app ws e H10 Hk).
  - cbn [events set_events]. rewrite length_app. lia.
Qed.

Lemma simw_schedule (ev : ref) prio delay ws wb :
  simw (fun _ _ _ => True) (simpy.schedule ev prio delay)
       (simpy.schedule (sh ev) prio delay) ws wb.
Proof.
  apply simw_modify. intros [H1 H2 H3 H4 H5 H6 H7 H8 H9 H10]. split; [|cbn; lia].
  constructor; cbn [now queue eid active_proc events resources event_log
                    points globals set_queue]; try assumption.
  - rewrite H2, <- heappush_sh. f_equal. unfold sh_entry, qtime, qprio, qeid.
    cbn [fst snd]. rewrite H1, H3. f_equal. f_equal. f_equal. lia.
  - rewrite H3. lia.
Qed.

Lemma simw_get_resource (r : ref) ws wb :
  simw (fun x y ws' => rel_resource x y /\ ws' = ws /\ resources ws !! r = Some x)
       (simpy.get_resource r) (simpy.get_resource r) ws wb.
Proof.
  intros Hrel x ws' H. unfold simpy.get_resource in *.
  destruct (resources ws !! r) as [x0|] eqn:E; [|discriminate].
  inversion H; subst.
  destruct (Forall2_lookup_l _ _ _ _ _ (rel_resources _ _ Hrel) E) as (y & Hy & Hxy).
  exists y, wb. unfold ref in *. rewrite Hy. split; [reflexivity|].
  split; [auto|]. split; [exact Hrel|lia].
Qed.

Lemma simw_put_resource (r : ref) x y ws wb :
  rel_resource x y ->
  simw (fun _ _ _ => True) (simpy.put_resource r x) (simpy.put_resource r y) ws wb.
Proof.
  intros Hxy. apply simw_modify. intros [H1 H2 H3 H4 H5 H6 H7 H8 H9 H10].
  split; [|cbn; lia].
  constructor; cbn [now queue eid active_proc events resources event_log
                    points globals set_resources]; try assumption.
  apply Forall2_insert; assumption.
Qed.

(** *** The kernel *)

Definition Runit : unit -> unit -> World -> Prop := fun _ _ _ => True.

Definition Rref : ref -> ref -> World -> Prop :=
  fun x y ws' => y = sh x /\ (x < length (events ws'))%nat.

Definition kind_events (k : Kind) : list ref :=
  match k with
  | Condition evs _ => evs
  | _ => []
  end.

Lemma wf_kind_events k x :
  wf_kind k x <-> forall s, s ∈ kind_events k -> (s < x)%nat.
Proof.
  split.
  - intros H s Hs. destruct k; simpl in Hs; try (inversion Hs; fail).
    exact (H _ _ eq_refl s Hs).
  - intros H evs m -> s Hs. exact (H s Hs).
Qed.

Lemma wf_kind_sub k k' x :
  wf_kind k x -> kind_events k' = kind_events k -> wf_kind k' x.
Proof.
  intros H E. apply wf_kind_events. rewrite E. apply wf_kind_events. exact H.
Qed.

(** The event at [x] is replaced by one with the same sub-events. *)
Lemma simw_put_like (x : ref) e e1 ws wb :
  events ws !! x = Some e -> kind_events (kind e1) = kind_events (kind e) ->
  simw Runit (simpy.put_event x e1) (simpy.put_event (sh x) (sh_event e1)) ws wb.
Proof.
  intros He Hk. apply simw_rel. intros Hrel. apply simw_put_event.
  apply (wf_kind_sub (kind e)); [|exact Hk].
  intros evs m. exact (rel_wf _ _ Hrel x e evs m He).
Qed.

Lemma simw_append_callback (ev : ref) cb ws wb :
  simw Runit (simpy.append_callback ev cb)
       (simpy.append_callback (sh ev) (sh_cb cb)) ws wb.
Proof.
  unfold simpy.append_callback.
  eapply simw_bind; [apply simw_get_event|].
  intros e e' ws1 wb1 (-> & -> & He) _. cbn [sh_event callbacks triggered kind].
  destruct (callbacks e) as [cbs|]; cbn [fmap option_fmap option_map];
    [|apply simw_raise].
  match goal with |- simw _ _ (simpy.put_event _ ?b) _ _ =>
    replace b with (sh_event {| callbacks := Some (cbs ++ [cb]);
                                triggered := triggered e; kind := kind e |})
      by (unfold sh_event; cbn; rewrite map_app; reflexivity) end.
  apply (simw_put_like ev e); [exact He|reflexivity].
Qed.

Lemma simw_succeed (ev : ref) ws wb :
  simw Runit (simpy.succeed ev) (simpy.succeed (sh ev)) ws wb.
Proof.
  unfold simpy.succeed.
  eapply simw_bind; [apply simw_get_event|].
  intros e e' ws1 wb1 (-> & -> & He) _. cbn [sh_event callbacks triggered kind].
  destruct (triggered e); [apply simw_raise|].
  eapply simw_bind.
  - exact (simw_put_like ev e {| callbacks := callbacks e; triggered := true;
                                 kind := kind e |} ws wb1 He eq_refl).
  - intros _ _ ws2 wb2 _ _. apply simw_schedule.
Qed.

Lemma Rref_new e ws (x y : ref) ws1 :
  y = sh x /\ x = length (events ws) /\ events ws1 = events ws ++ [e] ->
  Rref x y ws1.
Proof.
  intros (-> & -> & E). split; [reflexivity|]. rewrite E, length_app. simpl. lia.
Qed.

Lemma wf_kind_plain k x : kind_events k = [] -> wf_kind k x.
Proof. intros E evs m -> s Hs. simpl in E. subst evs. inversion Hs. Qed.

Lemma simw_timeout delay ws wb :
  simw Rref (simpy.timeout delay) (simpy.timeout delay) ws wb.
Proof.
  unfold simpy.timeout. destruct (delay <? 0); [apply simw_raise|].
  eapply simw_bind.
  - apply simw_new_event, wf_kind_plain. reflexivity.
  - intros x y ws1 wb1 Hx _. pose proof (Rref_new _ _ _ _ _ Hx) as [-> Hlt].
    eapply simw_bind; [apply simw_schedule|].
    intros _ _ ws2 wb2 _ Hlen. apply simw_ret. split; [reflexivity|lia].
Qed.

Lemma simw_process g ws wb :
  simw Rref (simpy.process g) (simpy.process (sh_gen g)) ws wb.
Proof.
  unfold simpy.process.
  eapply simw_bind.
  - apply (simw_new_event {| callbacks := Some []; triggered := false;
                             kind := Process g |}), wf_kind_plain. reflexivity.
  - intros p p' ws1 wb1 Hp _. pose proof (Rref_new _ _ _ _ _ Hp) as [-> Hlt].
    eapply simw_bind.
    + apply (simw_new_event {| callbacks := Some [Process_resume p];
                               triggered := true; kind := Initialize |}),
        wf_kind_plain. reflexivity.
    + intros i i' ws2 wb2 Hi Hlen2. pose proof (Rref_new _ _ _ _ _ Hi) as [-> Hlt2].
      eapply simw_bind; [apply simw_schedule|].
      intros _ _ ws3 wb3 _ Hlen3. apply simw_ret. split; [reflexivity|lia].
Qed.

Lemma simw_gets_any {A B} (f : World -> A) (f' : World -> B) ws wb :
  simw (fun _ _ _ => True) (gets f) (gets f') ws wb.
Proof. apply simw_gets. trivial. Qed.

Lemma tail_map {A B} (f : A -> B) (l : list A) : tail (map f l) = map f (tail l).
Proof. destruct l; reflexivity. Qed.

Lemma simw_Resource_do_put (r ev : ref) ws wb :
  simw Runit (simpy.Resource_do_put r ev) (simpy.Resource_do_put r (sh ev)) ws wb.
Proof.
  unfold simpy.Resource_do_put.
  eapply simw_bind; [apply simw_get_resource|].
  intros x y ws1 wb1 ([Hc Hu Hp Hg] & -> & Hx) _.
  eapply simw_bind; [apply simw_gets_any|].
  intros tn tn' ws2 wb2 _ _.
  replace (length (users y) <? capacity y)%nat
    with (length (users x) <? capacity x)%nat
    by (rewrite Hc, Hu, length_map; reflexivity).
  destruct (length (users x) <? capacity x)%nat; [|apply simw_ret; exact I].
  eapply simw_bind.
  - apply simw_put_resource. constructor; cbn [capacity users put_queue get_queue];
      try assumption. rewrite Hu, map_app. reflexivity.
  - intros _ _ ws3 wb3 _ _. apply simw_succeed.
Qed.

Lemma simw_Resource_do_get (r ev : ref) ws wb :
  simw Runit (simpy.Resource_do_get r ev) (simpy.Resource_do_get r (sh ev)) ws wb.
Proof.
  unfold simpy.Resource_do_get.
  eapply simw_bind; [apply simw_get_event|].
  intros e e' ws1 wb1 (-> & -> & He) _. cbn [sh_event kind].
  destruct (kind e) as [| | |r' req| |]; cbn [sh_kind]; try apply simw_raise.
  eapply simw_bind; [apply simw_get_resource|].
  intros x y ws2 wb2 ([Hc Hu Hp Hg] & -> & Hx) _.
  eapply simw_bind; [apply simw_gets_any|].
  intros tn tn' ws3 wb3 _ _.
  eapply simw_bind.
  - rewrite Hu, list_remove_sh.
    destruct (simpy.list_remove req (users x)) as [us|]; cbn [fmap option_fmap option_map].
    + apply simw_put_resource. constructor; cbn [capacity users put_queue get_queue];
        try assumption. reflexivity.
    + apply simw_ret. exact I.
  - intros _ _ ws4 wb4 _ _. apply simw_succeed.
Qed.

Lemma simw_trigger_put (r : ref) ws wb :
  simw Runit (simpy.trigger_put r) (simpy.trigger_put r) ws wb.
Proof.
  unfold simpy.trigger_put.
  eapply simw_bind; [apply simw_get_resource|].
  intros x y ws1 wb1 ([Hc Hu Hp Hg] & -> & Hx) _. rewrite Hp.
  destruct (put_queue x) as [|head rest]; cbn [map]; [apply simw_ret; exact I|].
  eapply simw_bind; [apply simw_Resource_do_put|].
  intros _ _ ws2 wb2 _ _.
  eapply simw_bind; [apply simw_get_event|].
  intros e e' ws3 wb3 (-> & -> & He) _. cbn [sh_event triggered].
  destruct (triggered e); [|apply simw_ret; exact I].
  eapply simw_bind; [apply simw_get_resource|].
  intros x' y' ws4 wb4 ([Hc' Hu' Hp' Hg'] & -> & Hx') _.
  apply simw_put_resource. constructor; cbn [capacity users put_queue get_queue];
    try assumption. rewrite Hp'. apply tail_map.
Qed.

Lemma simw_trigger_get (r : ref) ws wb :
  simw Runit (simpy.trigger_get r) (simpy.trigger_get r) ws wb.
Proof.
  unfold simpy.trigger_get.
  eapply simw_bind; [apply simw_get_resource|].
  intros x y ws1 wb1 ([Hc Hu Hp Hg] & -> & Hx) _. rewrite Hg.
  destruct (get_queue x) as [|head rest]; cbn [map]; [apply simw_ret; exact I|].
  eapply simw_bind; [apply simw_Resource_do_get|].
  intros _ _ ws2 wb2 _ _.
  eapply simw_bind; [apply simw_get_event|].
  intros e e' ws3 wb3 (-> & -> & He) _. cbn [sh_event triggered].
  destruct (triggered e); [|apply simw_ret; exact I].
  eapply simw_bind; [apply simw_get_resource|].
  intros x' y' ws4 wb4 ([Hc' Hu' Hp' Hg'] & -> & Hx') _.
  apply simw_put_resource. constructor; cbn [capacity users put_queue get_queue];
    try assumption. rewrite Hg'. apply tail_map.
Qed.

Lemma simw_request (r : ref) ws wb :
  simw Rref (simpy.request r) (simpy.request r) ws wb.
Proof.
  unfold simpy.request.
  eapply simw_bind.
  { apply (simw_gets (fun a b _ => b = sh <$> a)). intros Hrel.
    exact (rel_active _ _ Hrel). }
  intros proc proc' ws1 wb1 -> _.
  eapply simw_bind.
  { apply (simw_new_event {| callbacks := Some []; triggered := false;
                             kind := Request r proc |}), wf_kind_plain.
    reflexivity. }
  intros ev ev' ws2 wb2 Hev _. pose proof (Rref_new _ _ _ _ _ Hev) as [-> Hlt].
  eapply simw_bind; [apply simw_get_resource|].
  intros x y ws3 wb3 ([Hc Hu Hp Hg] & -> & Hx) _.
  eapply simw_bind.
  { apply simw_put_resource. constructor; cbn [capacity users put_queue get_queue];
      try assumption. rewrite Hp, map_app. reflexivity. }
  intros _ _ ws4 wb4 _ Hlen4.
  eapply simw_bind.
  { exact (simw_append_callback ev (BaseResource_trigger_get r) ws4 wb4). }
  intros _ _ ws5 wb5 _ Hlen5.
  eapply simw_bind; [apply simw_trigger_put|].
  intros _ _ ws6 wb6 _ Hlen6. apply simw_ret. split; [reflexivity|lia].
Qed.

Lemma simw_release (r req : ref) ws wb :
  simw Rref (simpy.release r req) (simpy.release r (sh req)) ws wb.
Proof.
  unfold simpy.release.
  eapply simw_bind.
  { apply (simw_new_event {| callbacks := Some []; triggered := false;
                             kind := Release r req |}), wf_kind_plain.
    reflexivity. }
  intros ev ev' ws2 wb2 Hev _. pose proof (Rref_new _ _ _ _ _ Hev) as [-> Hlt].
  eapply simw_bind; [apply simw_get_resource|].
  intros x y ws3 wb3 ([Hc Hu Hp Hg] & -> & Hx) _.
  eapply simw_bind.
  { apply simw_put_resource. constructor; cbn [capacity users put_queue get_queue];
      try assumption. rewrite Hg, map_app. reflexivity. }
  intros _ _ ws4 wb4 _ Hlen4.
  eapply simw_bind.
  { exact (simw_append_callback ev (BaseResource_trigger_put r) ws4 wb4). }
  intros _ _ ws5 wb5 _ Hlen5.
  eapply simw_bind; [apply simw_trigger_get|].
  intros _ _ ws6 wb6 _ Hlen6. apply simw_ret. split; [reflexivity|lia].
Qed.

Lemma simw_Request_exit (r req : ref) ws wb :
  simw Runit (simpy.Request_exit r req) (simpy.Request_exit r (sh req)) ws wb.
Proof.
  unfold simpy.Request_exit.
  eapply simw_bind; [apply simw_get_event|].
  intros e e' ws1 wb1 (-> & -> & He) _. cbn [sh_event triggered].
  eapply simw_bind.
  { instantiate (1 := Runit).
    destruct (triggered e); [apply simw_ret; exact I|].
    eapply simw_bind; [apply simw_get_resource|].
    intros x y ws2 wb2 ([Hc Hu Hp Hg] & -> & Hx) _.
    rewrite Hp, list_remove_sh.
    destruct (simpy.list_remove req (put_queue x)) as [q|];
      cbn [fmap option_fmap option_map]; [|apply simw_raise].
    apply simw_put_resource. constructor; cbn [capacity users put_queue get_queue];
      try assumption. reflexivity. }
  intros _ _ ws3 wb3 _ _.
  eapply simw_bind; [apply simw_release|].
  intros _ _ ws4 wb4 _ _. apply simw_ret. exact I.
Qed.

Lemma simw_check (c : ref) ws wb :
  simw Runit (simpy.check c) (simpy.check (sh c)) ws wb.
Proof.
  unfold simpy.check.
  eapply simw_bind; [apply simw_get_event|].
  intros e e' ws1 wb1 (-> & -> & He) _. cbn [sh_event callbacks triggered kind].
  destruct (triggered e); [apply simw_ret; exact I|].
  destruct (kind e) as [| | | |evs m|] eqn:Hk; cbn [sh_kind]; try apply simw_raise.
  eapply simw_bind.
  { match goal with |- simw _ _ (simpy.put_event _ ?b) _ _ =>
      change b with (sh_event {| callbacks := callbacks e; triggered := false;
                                 kind := Condition evs (S m) |}) end.
    apply (simw_put_like c e); [exact He|]. rewrite Hk. reflexivity. }
  intros _ _ ws2 wb2 _ _. rewrite length_map.
  destruct (length evs =? S m)%nat; [apply simw_succeed|apply simw_ret; exact I].
Qed.

Lemma simw_for_each {A B} (sA : A -> B) (f : A -> Sim unit) (f' : B -> Sim unit)
    (xs : list A) :
  (forall x ws wb, x ∈ xs -> simw Runit (f x) (f' (sA x)) ws wb) ->
  forall ws wb, simw Runit (for_each f xs) (for_each f' (map sA xs)) ws wb.
Proof.
  induction xs as [|x xs IH]; intros Hf ws wb; cbn [for_each map].
  - apply simw_ret. exact I.
  - eapply simw_bind; [apply Hf; left|].
    intros _ _ ws1 wb1 _ _. apply IH. intros y ws2 wb2 Hy. apply Hf. right. exact Hy.
Qed.

Lemma simw_for_each_same {A} (f f' : A -> Sim unit) (xs : list A) :
  (forall x ws wb, simw Runit (f x) (f' x) ws wb) ->
  forall ws wb, simw Runit (for_each f xs) (for_each f' xs) ws wb.
Proof.
  intros Hf ws wb. rewrite <- (map_id xs) at 2.
  apply (simw_for_each id). intros x ws1 wb1 _. apply Hf.
Qed.

Lemma simw_all_of (evs : list ref) ws wb :
  (forall s, s ∈ evs -> (s < length (events ws))%nat) ->
  simw Rref (simpy.all_of evs) (simpy.all_of (map sh evs)) ws wb.
Proof.
  intros Hevs. unfold simpy.all_of.
  eapply simw_bind.
  { apply (simw_new_event {| callbacks := Some []; triggered := false;
                             kind := Condition evs 0 |}).
    intros evs' m [= <- <-]. exact Hevs. }
  intros c c' ws1 wb1 Hc _. pose proof (Rref_new _ _ _ _ _ Hc) as [-> Hlt].
  eapply simw_bind.
  { instantiate (1 := Runit). rewrite length_map.
    destruct (length evs =? 0)%nat; [apply simw_succeed|].
    eapply simw_bind.
    - apply (simw_for_each sh). intros ev ws2 wb2 _.
      eapply simw_bind; [apply simw_get_event|].
      intros e e' ws3 wb3 (-> & -> & He) _. cbn [sh_event callbacks].
      destruct (callbacks e); cbn [fmap option_fmap option_map].
      + exact (simw_append_callback ev (Condition_check c) ws2 wb3).
      + apply simw_check.
    - intros _ _ ws2 wb2 _ _.
      exact (simw_append_callback c (Condition_build_value c) ws2 wb2). }
  intros _ _ ws2 wb2 _ Hlen. apply simw_ret. split; [reflexivity|lia].
Qed.

Lemma simw_and_events_fold (rest : list ref) :
  forall (acc acc' : Sim ref) ws wb,
  (forall b, b ∈ rest -> (b < length (events ws))%nat) ->
  simw Rref acc acc' ws wb ->
  simw Rref (fold_left (fun acc b => c <- acc ;; simpy.all_of [c; b]) rest acc)
       (fold_left (fun acc b => c <- acc ;; simpy.all_of [c; b]) (map sh rest) acc')
       ws wb.
Proof.
  induction rest as [|b rest IH]; intros acc acc' ws wb Hrest Hacc; cbn [fold_left map].
  - exact Hacc.
  - apply IH; [intros b' Hb'; apply Hrest; right; exact Hb'|].
    eapply simw_bind; [exact Hacc|].
    intros c c' ws1 wb1 [-> Hc] Hlen.
    apply (simw_all_of [c; b]). intros s Hs.
    apply elem_of_cons in Hs as [->|Hs]; [exact Hc|].
    apply list_elem_of_singleton in Hs as ->.
    specialize (Hrest b (list_elem_of_here _ _)). lia.
Qed.

Lemma simw_and_events (a : ref) (rest : list ref) ws wb :
  (a < length (events ws))%nat ->
  (forall b, b ∈ rest -> (b < length (events ws))%nat) ->
  simw Rref (simpy.and_events a rest) (simpy.and_events (sh a) (map sh rest)) ws wb.
Proof.
  intros Ha Hrest. unfold simpy.and_events.
  apply simw_and_events_fold; [exact Hrest|].
  apply simw_ret. split; [reflexivity|exact Ha].
Qed.

Lemma sh_lt x y : (x < y)%nat -> (sh x < sh y)%nat.
Proof. unfold sh. lia. Qed.

(** The depth given to [_remove_check_callbacks] only has to be enough. *)
Lemma simw_remove_check_callbacks (d : nat) :
  forall (d' : nat) (c : ref) ws wb, (c < d)%nat -> (sh c < d')%nat ->
  simw Runit (simpy.remove_check_callbacks d c)
       (simpy.remove_check_callbacks d' (sh c)) ws wb.
Proof.
  induction d as [|d IH]; intros d' c ws wb Hd Hd'; [lia|].
  destruct d' as [|d']; [lia|]. cbn [simpy.remove_check_callbacks].
  apply simw_rel. intros Hrel.
  eapply simw_bind; [apply simw_get_event|].
  intros e e' ws1 wb1 (-> & -> & He) _. cbn [sh_event kind].
  destruct (kind e) as [| | | |evs m|] eqn:Hk; cbn [sh_kind]; try apply simw_raise.
  apply (simw_for_each sh). intros ev ws2 wb2 Hev.
  pose proof (rel_wf _ _ Hrel c e evs m He Hk ev Hev) as Hlt.
  eapply simw_bind; [apply simw_get_event|].
  intros x x' ws3 wb3 (-> & -> & Hx) _. cbn [sh_event callbacks triggered kind].
  eapply simw_bind.
  { instantiate (1 := Runit).
    destruct (callbacks x) as [cbs|]; cbn [fmap option_fmap option_map];
      [|apply simw_ret; exact I].
    match goal with |- simw _ _ (simpy.put_event _ ?b) _ _ =>
      replace b with (sh_event {| callbacks := Some (simpy.remove_callback
                                                       (Condition_check c) cbs);
                                  triggered := triggered x; kind := kind x |})
        by (unfold sh_event; cbn [callbacks triggered kind fmap option_fmap option_map];
            rewrite <- remove_callback_sh; reflexivity) end.
    apply (simw_put_like ev x); [exact Hx|reflexivity]. }
  intros _ _ ws4 wb4 _ _.
  destruct (kind x); cbn [sh_kind]; try (apply simw_ret; exact I).
  apply IH; [lia|]. pose proof (sh_lt _ _ Hlt). lia.
Qed.

Lemma simw_build_value (c : ref) ws wb :
  simw Runit (simpy.build_value c) (simpy.build_value (sh c)) ws wb.
Proof.
  unfold simpy.build_value. apply simw_remove_check_callbacks; lia.
Qed.

(** *** The station *)

Lemma simw_log_event tid dir ty d ws wb :
  simw Runit (log_event tid dir ty d) (log_event tid dir ty d) ws wb.
Proof.
  apply simw_modify. intros [H1 H2 H3 H4 H5 H6 H7 H8 H9 H10]. split; [|cbn; lia].
  constructor; cbn [now queue eid active_proc events resources event_log
                    points globals set_event_log]; try assumption.
  rewrite H7, map_app, app_assoc, H1. reflexivity.
Qed.

Lemma simw_get_point name ws wb :
  simw (fun p p' _ => resource p' = resource p) (get_point name) (get_point name)
       ws wb.
Proof.
  intros Hrel p ws' H. unfold get_point in *.
  pose proof (rel_points _ _ Hrel name) as Hp.
  destruct (points ws !! name) as [p0|]; [|discriminate]. inversion H; subst.
  destruct (points wb !! name) as [p'|]; [|discriminate].
  injection Hp as Hp. exists p', wb. split; [reflexivity|].
  split; [exact Hp|]. split; [exact Hrel|lia].
Qed.

Lemma simw_set_point_state position name ws wb :
  simw Runit (set_point_state position name) (set_point_state position name) ws wb.
Proof.
  unfold set_point_state.
  eapply simw_bind; [apply simw_get_point|].
  intros p p' ws1 wb1 Hp _.
  apply simw_modify. intros [H1 H2 H3 H4 H5 H6 H7 H8 H9 H10]. split; [|cbn; lia].
  constructor; cbn [now queue eid active_proc events resources event_log
                    points globals set_points]; try assumption.
  intros name0. destruct (decide (name = name0)) as [->|Hne].
  - rewrite !lookup_insert_eq. cbn. rewrite Hp. reflexivity.
  - rewrite !lookup_insert_ne by exact Hne. apply H8.
Qed.

Definition Rreqs : list (ref * ref) -> list (ref * ref) -> World -> Prop :=
  fun l l' ws' => l' = map sh_rq l
                  /\ forall rq, rq ∈ l -> (snd rq < length (events ws'))%nat.

Lemma simw_point_requests (names : list string) :
  forall ws wb,
  simw Rreqs
    (simpy.map_m (fun name => pt <- get_point name ;;
                              q <- simpy.request (resource pt) ;;
                              ret (resource pt, q)) names)
    (simpy.map_m (fun name => pt <- get_point name ;;
                              q <- simpy.request (resource pt) ;;
                              ret (resource pt, q)) names) ws wb.
Proof.
  induction names as [|name names IH]; intros ws wb; cbn [simpy.map_m].
  - apply simw_ret. split; [reflexivity|]. intros rq Hrq. inversion Hrq.
  - eapply simw_bind.
    { instantiate (1 := fun a b ws' => b = sh_rq a
                                       /\ (snd a < length (events ws'))%nat).
      eapply simw_bind; [apply simw_get_point|].
      intros p p' ws1 wb1 Hp _. rewrite Hp.
      eapply simw_bind; [apply simw_request|].
      intros q q' ws2 wb2 [-> Hq] _. apply simw_ret. split; [reflexivity|exact Hq]. }
    intros y y' ws1 wb1 [-> Hy] _.
    eapply simw_bind; [apply IH|].
    intros ys ys' ws2 wb2 [-> Hys] Hlen. apply simw_ret. split; [reflexivity|].
    intros rq Hrq. apply elem_of_cons in Hrq as [->|Hrq]; [unfold ref in *; lia|exact (Hys rq Hrq)].
Qed.

Definition Rsent : Sent -> Sent -> World -> Prop :=
  fun s s' _ => s' = (sh_gen (fst s), sh <$> snd s).

Lemma simw_leave_points reqs ws wb :
  simw Rsent (leave_points reqs) (leave_points (map sh_rq reqs)) ws wb.
Proof.
  unfold leave_points. rewrite <- map_rev.
  eapply simw_bind.
  - apply (simw_for_each sh_rq). intros rq ws1 wb1 _.
    exact (simw_Request_exit (fst rq) (snd rq) ws1 wb1).
  - intros _ _ ws1 wb1 _ _. apply simw_ret. reflexivity.
Qed.

Lemma simw_enter_track p tid dir reqs i ws wb :
  simw Rsent (enter_track p tid dir reqs i)
       (enter_track p tid dir (map sh_rq reqs) i) ws wb.
Proof.
  unfold enter_track.
  destruct (path_tracks p !! i) as [[[track name] duration]|];
    [|apply simw_leave_points].
  eapply simw_bind; [apply simw_request|].
  intros q q' ws1 wb1 [-> Hq] _. apply simw_ret. reflexivity.
Qed.

Lemma simw_run_script (script : list DriverStep) :
  forall ws wb, simw Rsent (run_script script) (run_script script) ws wb.
Proof.
  induction script as [|[t|d] rest IH]; intros ws wb; cbn [run_script].
  - apply simw_ret. reflexivity.
  - eapply simw_bind; [exact (simw_process (train_process_start t) ws wb)|].
    intros _ _ ws1 wb1 _ _. apply IH.
  - eapply simw_bind; [apply simw_timeout|].
    intros ev ev' ws1 wb1 [-> _] _. apply simw_ret. reflexivity.
Qed.

Lemma map_snd_sh_rq (l : list (ref * ref)) : map snd (map sh_rq l) = map sh (map snd l).
Proof. rewrite !map_map. reflexivity. Qed.

Lemma simw_send g ws wb :
  simw Rsent (send g) (send (sh_gen g)) ws wb.
Proof.
  destruct g as [t|t|p tid dir|p tid dir reqs|p tid dir reqs i track tr
                |p tid dir reqs i track tr|script|]; cbn [send sh_gen].
  - eapply simw_bind; [apply simw_log_event|]. intros _ _ ws1 wb1 _ _.
    destruct (path_function (route_decision t)) as [p|].
    + eapply simw_bind;
        [exact (simw_process (path_start p (train_id t) (direction t)) ws1 wb1)|].
      intros pr pr' ws2 wb2 [-> _] _. apply simw_ret. reflexivity.
    + eapply simw_bind; [apply simw_log_event|]. intros _ _ ws2 wb2 _ _.
      apply simw_ret. reflexivity.
  - eapply simw_bind; [apply simw_log_event|]. intros _ _ ws1 wb1 _ _.
    apply simw_ret. reflexivity.
  - eapply simw_bind; [apply simw_point_requests|].
    intros reqs reqs' ws1 wb1 [-> Hreqs] _.
    destruct reqs as [|[r q] rest]; cbn [map]; [apply simw_raise|].
    unfold sh_rq at 1. cbn [fst snd]. rewrite map_snd_sh_rq.
    eapply simw_bind.
    + apply simw_and_events.
      * exact (Hreqs (r, q) (list_elem_of_here _ _)).
      * intros b Hb. apply list_elem_of_fmap in Hb as (rq & -> & Hrq).
        apply Hreqs. right. exact Hrq.
    + intros c c' ws2 wb2 [-> _] _. apply simw_ret. reflexivity.
  - eapply simw_bind; [apply simw_for_each_same; intros; apply simw_set_point_state|].
    intros _ _ ws1 wb1 _ _.
    eapply simw_bind; [apply simw_log_event|]. intros _ _ ws2 wb2 _ _.
    apply simw_enter_track.
  - destruct (path_tracks p !! i) as [[[track0 name] duration]|]; [|apply simw_raise].
    eapply simw_bind; [apply simw_log_event|]. intros _ _ ws1 wb1 _ _.
    eapply simw_bind.
    { apply (simw_gets (fun a b _ => b = a)). intros Hrel. exact (rel_globals _ _ Hrel). }
    intros g g' ws2 wb2 -> _.
    eapply simw_bind; [apply simw_timeout|].
    intros ev ev' ws3 wb3 [-> _] _. apply simw_ret. reflexivity.
  - eapply simw_bind; [apply simw_Request_exit|]. intros _ _ ws1 wb1 _ _.
    apply simw_enter_track.
  - eapply simw_mono; [apply simw_run_script|]. intros a b ws' H _. exact H.
  - apply simw_raise.
Qed.

(** *** The event loop *)

Lemma simw_set_generator (p : ref) g ws wb :
  simw Runit (Environment.set_generator p g)
       (Environment.set_generator (sh p) (sh_gen g)) ws wb.
Proof.
  unfold Environment.set_generator.
  eapply simw_bind; [apply simw_get_event|].
  intros e e' ws1 wb1 (-> & -> & He) _. cbn [sh_event callbacks triggered].
  apply (simw_put_event p {| callbacks := callbacks e; triggered := triggered e;
                             kind := Process g |}), wf_kind_plain.
  reflexivity.
Qed.

Lemma simw_resume_loop (rounds : nat) :
  forall (p : ref) ws wb,
  simw Runit (Environment.resume_loop rounds p)
       (Environment.resume_loop rounds (sh p)) ws wb.
Proof.
  induction rounds as [|rounds IH]; intros p ws wb; cbn [Environment.resume_loop].
  all: eapply simw_bind; [apply simw_get_event|].
  all: intros e e' ws1 wb1 (-> & -> & He) _; cbn [sh_event kind].
  all: destruct (kind e) as [| | | | |g]; cbn [sh_kind]; try apply simw_raise.
  all: eapply simw_bind; [apply simw_send|].
  all: intros [g1 ev] sent' ws2 wb2 Hs _; unfold Rsent in Hs; subst sent';
    cbn [fst snd].
  all: eapply simw_bind; [apply simw_set_generator|].
  all: intros _ _ ws3 wb3 _ _.
  all: destruct ev as [ev|]; cbn [fmap option_fmap option_map].
  all: try (eapply simw_bind; [apply simw_get_event|];
            intros e1 e1' ws4 wb4 (-> & -> & He1) _;
            cbn [sh_event callbacks triggered kind];
            eapply simw_bind;
            [apply (simw_put_like p e1); [exact He1|reflexivity]|];
            intros _ _ ws5 wb5 _ _; apply simw_schedule).
  all: eapply simw_bind; [apply simw_get_event|].
  all: intros tg tg' ws4 wb4 (-> & -> & Htg) _; cbn [sh_event callbacks].
  all: destruct (callbacks tg); cbn [fmap option_fmap option_map].
  all: try exact (simw_append_callback ev (Process_resume p) ws3 wb4).
  - apply simw_raise.
  - apply IH.
Qed.

Lemma yields_left_sh g : yields_left (sh_gen g) = yields_left g.
Proof. destruct g; reflexivity. Qed.

Lemma simw_set_active_proc (p : option ref) ws wb :
  simw Runit (modify (set_active_proc p)) (modify (set_active_proc (sh <$> p))) ws wb.
Proof.
  apply simw_modify. intros [H1 H2 H3 H4 H5 H6 H7 H8 H9 H10]. split; [|cbn; lia].
  constructor; cbn [now queue eid active_proc events resources event_log
                    points globals set_active_proc]; try assumption.
  reflexivity.
Qed.

Lemma simw_resume (p : ref) ws wb :
  simw Runit (Environment.resume p) (Environment.resume (sh p)) ws wb.
Proof.
  unfold Environment.resume.
  eapply simw_bind; [exact (simw_set_active_proc (Some p) ws wb)|].
  intros _ _ ws1 wb1 _ _.
  eapply simw_bind; [apply simw_get_event|].
  intros e e' ws2 wb2 (-> & -> & He) _. cbn [sh_event kind].
  destruct (kind e) as [| | | | |g]; cbn [sh_kind]; try apply simw_raise.
  rewrite yields_left_sh.
  eapply simw_bind; [apply simw_resume_loop|].
  intros _ _ ws3 wb3 _ _. exact (simw_set_active_proc None ws3 wb3).
Qed.

Lemma simw_call (cb : Callback) ws wb :
  simw Runit (Environment.call cb) (Environment.call (sh_cb cb)) ws wb.
Proof.
  destruct cb; cbn [Environment.call sh_cb].
  - apply simw_resume.
  - apply simw_check.
  - apply simw_build_value.
  - apply simw_trigger_get.
  - apply simw_trigger_put.
Qed.

Lemma simw_step ws wb :
  simw Runit Environment.step Environment.step ws wb.
Proof.
  unfold Environment.step.
  eapply simw_bind.
  { apply (simw_gets (fun a b _ => b = map sh_entry a)). intros Hrel.
    exact (rel_queue _ _ Hrel). }
  intros q q0 ws1 wb1 -> _.
  destruct q as [|[[[t pr] n0] ev] q']; cbn [map]; [apply simw_raise|].
  unfold sh_entry at 1, qtime, qprio, qeid. cbn [fst snd].
  eapply simw_bind.
  { apply (simw_gets (fun a b _ => b = (eid0 + a)%nat)). intros Hrel.
    exact (rel_eid _ _ Hrel). }
  intros n n' ws2 wb2 -> _.
  eapply simw_bind.
  { apply simw_modify. intros [H1 H2 H3 H4 H5 H6 H7 H8 H9 H10]. split; [|cbn; lia].
    constructor; cbn [now queue eid active_proc events resources event_log
                      points globals set_queue]; try assumption; reflexivity. }
  intros _ _ ws3 wb3 _ _.
  eapply simw_bind.
  { apply simw_modify. intros [H1 H2 H3 H4 H5 H6 H7 H8 H9 H10]. split; [|cbn; lia].
    constructor; cbn [now queue eid active_proc events resources event_log
                      points globals set_now]; try assumption; reflexivity. }
  intros _ _ ws4 wb4 _ _.
  eapply simw_bind; [apply simw_get_event|].
  intros e e' ws5 wb5 (-> & -> & He) _. cbn [sh_event callbacks triggered kind].
  destruct (callbacks e) as [cbs|]; cbn [fmap option_fmap option_map];
    [|apply simw_raise].
  eapply simw_bind.
  { apply (simw_put_like ev e {| callbacks := None; triggered := triggered e;
                                 kind := kind e |}); [exact He|reflexivity]. }
  intros _ _ ws6 wb6 _ _.
  apply (simw_for_each sh_cb). intros cb ws7 wb7 _. apply simw_call.
Qed.

Lemma simw_run (fuel : nat) :
  forall ws wb, simw Runit (Environment.run fuel) (Environment.run fuel) ws wb.
Proof.
  induction fuel as [|fuel IH]; intros ws wb; cbn [Environment.run].
  all: eapply simw_bind;
    [apply (simw_gets (fun a b _ => b = map sh_entry a)); intros Hrel;
     exact (rel_queue _ _ Hrel)|].
  all: intros q q0 ws1 wb1 -> _.
  all: destruct q as [|a q']; cbn [map]; [apply simw_ret; exact I|].
  - apply simw_raise.
  - eapply simw_bind; [apply simw_step|]. intros _ _ ws2 wb2 _ _. apply IH.
Qed.

Lemma simw_dispatch t fuel ws wb :
  simw Runit (dispatch t fuel) (dispatch t fuel) ws wb.
Proof.
  unfold dispatch.
  eapply simw_bind; [exact (simw_process (train_process_start t) ws wb)|].
  intros _ _ ws1 wb1 _ _. apply simw_run.
Qed.

End relocation.

(** ** A station at rest *)

(** A resource that nobody holds or waits for. *)
Definition idle (x : Resource) : Prop :=
  capacity x = 1%nat /\ users x = [] /\ put_queue x = [] /\ get_queue x = [].

(** A station between two journeys: nothing is scheduled, no process is
    running, the fifteen resources are idle and the points name the resources
    they were built with. *)
Definition at_rest (w : World) : Prop :=
  queue w = [] /\ active_proc w = None
  /\ length (resources w) = 15%nat /\ Forall idle (resources w)
  /\ resource <$> points w = resource <$> initial_points.

Lemma at_rest_StationSimulation g : at_rest (StationSimulation g).
Proof.
  repeat split; try reflexivity.
  cbn [resources StationSimulation]. apply Forall_replicate. repeat split.
Qed.

Lemma idle_rel pre y : idle y -> rel_resource pre new_resource y.
Proof.
  intros (Hc & Hu & Hp & Hg). constructor; cbn; assumption.
Qed.

Lemma Forall2_replicate_l {A B} (R : A -> B -> Prop) (a : A) (l : list B) :
  Forall (R a) l -> Forall2 R (replicate (length l) a) l.
Proof. induction 1; cbn; constructor; assumption. Qed.

Lemma rel_at_rest w :
  at_rest w ->
  moved (events w) (eid w) (now w) (event_log w) (StationSimulation (globals w)) w.
Proof.
  intros (Hq & Ha & Hl & Hr & Hp).
  constructor; cbn [now queue eid active_proc events resources event_log points
                    globals StationSimulation map fmap option_fmap option_map].
  - lia.
  - exact Hq.
  - lia.
  - exact Ha.
  - rewrite app_nil_r. reflexivity.
  - rewrite <- Hl. apply Forall2_replicate_l.
    eapply Forall_impl; [exact Hr|]. intros y Hy. exact (idle_rel _ _ Hy).
  - rewrite app_nil_r. reflexivity.
  - intros name. rewrite <- !lookup_fmap, Hp. reflexivity.
  - reflexivity.
  - intros c e evs m Hc. cbn [events StationSimulation] in Hc.
    rewrite lookup_nil in Hc. discriminate.
Qed.

Lemma idle_of_rel pre x y : idle x -> rel_resource pre x y -> idle y.
Proof.
  intros (Hc & Hu & Hp & Hg) [H1 H2 H3 H4].
  rewrite Hc in H1. rewrite Hu in H2. rewrite Hp in H3. rewrite Hg in H4.
  repeat split; assumption.
Qed.

Lemma at_rest_rel pre eid0 t0 log0 ws wb :
  moved pre eid0 t0 log0 ws wb -> at_rest ws -> at_rest wb.
Proof.
  intros [H1 H2 H3 H4 H5 H6 H7 H8 H9 H10] (Hq & Ha & Hl & Hr & Hp).
  repeat split.
  - rewrite H2, Hq. reflexivity.
  - rewrite H4, Ha. reflexivity.
  - rewrite <- (Forall2_length _ _ _ H6). exact Hl.
  - clear Hl. induction H6 as [|x y xs ys Hxy H6 IH]; [constructor|].
    apply Forall_cons in Hr as [Hx Hr]. constructor; [|exact (IH Hr)].
    exact (idle_of_rel _ _ _ Hx Hxy).
  - rewrite <- Hp. apply map_eq. intros name. rewrite !lookup_fmap. apply H8.
Qed.

(** The entry [e], logged [d] later. *)
Definition later (d : Z) (e : LogEntry) : LogEntry := sh_log d e.

(** Whatever a dispatch does on a new station, it does in a station at
    rest: the world it ends in is the one of the new station, moved. *)
Lemma dispatch_moved (w : World) (t : Train) (fuel : nat) (w0 : World) :
  at_rest w ->
  dispatch t fuel (StationSimulation (globals w)) = Some (tt, w0) ->
  exists w',
    dispatch t fuel w = Some (tt, w')
    /\ moved (events w) (eid w) (now w) (event_log w) w0 w'.
Proof.
  intros Hrest H0. pose proof (rel_at_rest w Hrest) as Hrel.
  destruct (simw_dispatch _ _ _ _ t fuel _ _ Hrel tt w0 H0)
    as ([] & w' & Hw' & _ & Hrel' & _).
  exists w'. split; [exact Hw'|exact Hrel'].
Qed.

(** X6. A journey does not depend on what the station has been through.  If
    dispatching a train on a newly built station with the same timing globals
    returns (for whatever train, route, timings and fuel), then dispatching it
    in any station at rest returns as well, and the world it ends in is the
    one of the new station moved in time: the log has grown by the entries of
    the new station's log with the clock of the station added to their times,
    the clock has advanced by the time the journey takes on the new station,
    the timing globals are untouched, and the station is at rest again if the
    new one is. *)
Theorem journey_is_history_independent (w : World) (t : Train) (fuel : nat)
    (w0 : World) :
  at_rest w ->
  dispatch t fuel (StationSimulation (globals w)) = Some (tt, w0) ->
  exists w',
    dispatch t fuel w = Some (tt, w')
    /\ event_log w' = event_log w ++ map (later (now w)) (event_log w0)
    /\ now w' = now w + now w0
    /\ globals w' = globals w
    /\ (at_rest w0 -> at_rest w').
Proof.
  intros Hrest H0.
  destruct (dispatch_moved w t fuel w0 Hrest H0) as (w' & Hw' & Hrel).
  exists w'. split; [exact Hw'|].
  split; [exact (rel_log _ _ _ _ _ _ Hrel)|].
  split; [rewrite (rel_now _ _ _ _ _ _ Hrel); lia|].
  split; [exact (dispatch_globals _ _ _ _ Hw')|].
  exact (at_rest_rel _ _ _ _ _ _ Hrel).
Qed.

(** ** One journey after another *)

(** The [enter_track] entries of a train that is never held up. *)
Fixpoint track_log (g : Globals) (tid dir : string)
    (tracks : list (ref * string * TimeName)) (start : Z) : list LogEntry :=
  match tracks with
  | [] => []
  | (_, name, duration) :: rest =>
      {| time := start; log_train_id := tid; log_direction := dir;
         event := "enter_track"; details := track_details name |}
      :: track_log g tid dir rest (start + read_time g duration)
  end.

(** What a train that has the station to itself writes to the log. *)
Definition journey_log (g : Globals) (t : Train) (start : Z) : list LogEntry :=
  match path_function (route_decision t) with
  | Some p =>
      spawned t start
      :: {| time := start; log_train_id := train_id t;
            log_direction := direction t; event := "points_set";
            details := points_details (path_points p) (path_state p) |}
      :: track_log g (train_id t) (direction t) (path_tracks p) start
      ++ [finished t (start + journey_time g p)]
  | None => [spawned t start; finished t start]
  end.

(** The time such a journey takes. *)
Definition journey_duration (g : Globals) (route : option string) : Z :=
  match path_function route with
  | Some p => journey_time g p
  | None => 0
  end.

(** The timings of the module and what [app.py] makes of them with its
    multiplier 2.0. *)
Definition shipped_timings : list Globals :=
  [initial_globals; app._apply_speed_multiplier app.scaled_by_2 initial_globals].

Definition rest_summary (w : World) :=
  (queue w, active_proc w,
   map (fun x => (capacity x, users x, put_queue x, get_queue x)) (resources w),
   resource <$> points w).

Definition journey_outcome (g : Globals) (tid dir prio r : string) :=
  option_map
    (fun aw => (event_log (snd aw), now (snd aw), globals (snd aw),
                rest_summary (snd aw)))
    (dispatch {| train_id := tid; direction := dir; priority := prio;
                 route_decision := Some r |} 40 (StationSimulation g)).

Lemma new_station_journeys tid dir prio :
  Forall (fun g => Forall (fun r =>
      journey_outcome g tid dir prio r
      = Some (journey_log g {| train_id := tid; direction := dir;
                               priority := prio; route_decision := Some r |} 0,
              journey_duration g (Some r), g,
              rest_summary (StationSimulation g)))
    route_names) shipped_timings.
Proof. enumerate. Qed.

Lemma map_replicate_inv {A B} (f : A -> B) (l : list A) : forall n b,
  map f l = replicate n b -> length l = n /\ Forall (fun x => f x = b) l.
Proof.
  induction l as [|x l IH]; intros [|n] b H; try discriminate.
  - split; [reflexivity|constructor].
  - cbn in H. injection H as Hx Hl. destruct (IH _ _ Hl) as [Hn HF].
    split; [cbn; rewrite Hn; reflexivity|constructor; assumption].
Qed.

Lemma rest_summary_at_rest g w :
  rest_summary w = rest_summary (StationSimulation g) -> at_rest w.
Proof.
  unfold rest_summary. intros H. injection H as Hq Ha Hr Hp.
  cbn [queue active_proc resources points StationSimulation] in *.
  apply (map_replicate_inv _ _ 15%nat (1%nat, [], [], [])) in Hr as [Hl HF].
  repeat split; try assumption.
  eapply Forall_impl; [exact HF|]. intros x Hx. injection Hx as H1 H2 H3 H4.
  repeat split; assumption.
Qed.

Lemma track_log_later d g tid dir tracks : forall start,
  map (later d) (track_log g tid dir tracks start)
  = track_log g tid dir tracks (start + d).
Proof.
  induction tracks as [|[[r name] duration] rest IH]; intros start; cbn [track_log map];
    [reflexivity|].
  rewrite IH. unfold later, sh_log at 1. cbn [time log_train_id log_direction event details].
  do 2 f_equal. lia.
Qed.

Lemma journey_log_later d g t start :
  map (later d) (journey_log g t start) = journey_log g t (start + d).
Proof.
  unfold journey_log. destruct (path_function (route_decision t)) as [p|].
  - cbn [map]. rewrite map_app, track_log_later. cbn [map].
    unfold later, sh_log, spawned, finished.
    cbn [time log_train_id log_direction event details].
    do 4 f_equal. f_equal. lia.
  - reflexivity.
Qed.



(** The train that [step] submits for a row and a route. *)
Definition train_of (row : train_env.Row) (route : option string) : Train :=
  {| train_id := train_env.row_train_id row;
     direction := train_env.row_direction row;
     priority := train_env.row_priority row;
     route_decision := route |}.

(** The log of an episode in which [choose] gives every row its route and
    every train has the station to itself. *)
Fixpoint episode_log (g : Globals) (choose : train_env.Row -> option string)
    (rows : list train_env.Row) (start : Z) : list LogEntry :=
  match rows with
  | [] => []
  | row :: rest =>
      journey_log g (train_of row (choose row)) start
      ++ episode_log g choose rest (start + journey_duration g (choose row))
  end.

Lemma journey_outcome_Some g tid dir prio r l n g' s :
  journey_outcome g tid dir prio r = Some (l, n, g', s) ->
  exists w0,
    dispatch {| train_id := tid; direction := dir; priority := prio;
                route_decision := Some r |} 40 (StationSimulation g)
    = Some (tt, w0)
    /\ event_log w0 = l /\ now w0 = n /\ globals w0 = g' /\ rest_summary w0 = s.
Proof.
  unfold journey_outcome.
  generalize (dispatch {| train_id := tid; direction := dir; priority := prio;
                          route_decision := Some r |} 40 (StationSimulation g)).
  intros [[[] w0]|] H; [|discriminate]. cbn [option_map snd] in H.
  injection H as H1 H2 H3 H4. exists w0. repeat split; assumption.
Qed.

Lemma dispatch_known_route (w : World) (t : Train) (r : string) (extra : nat) :
  at_rest w -> globals w ∈ shipped_timings ->
  route_decision t = Some r -> r ∈ route_names ->
  exists w',
    dispatch t (40 + extra) w = Some (tt, w')
    /\ event_log w' = event_log w ++ journey_log (globals w) t (now w)
    /\ now w' = now w + journey_duration (globals w) (route_decision t)
    /\ globals w' = globals w /\ at_rest w'.
Proof.
  intros Hrest Hg Hr Hin. destruct t as [tid dir prio route]. cbn in Hr. subst route.
  pose proof (new_station_journeys tid dir prio) as H.
  rewrite Forall_forall in H. specialize (H _ Hg).
  rewrite Forall_forall in H. specialize (H _ Hin).
  apply journey_outcome_Some in H as (w0 & E & Hlog & Hnow & Hgl & Hsum).
  destruct (dispatch_moved w _ 40 w0 Hrest E) as (w' & Hw' & Hrel).
  exists w'. split; [apply (dispatch_more_fuel _ 40); [exact Hw'|lia]|].
  split; [rewrite (rel_log _ _ _ _ _ _ Hrel), Hlog; unfold later;
          rewrite journey_log_later; reflexivity|].
  split; [rewrite (rel_now _ _ _ _ _ _ Hrel), Hnow; cbn [route_decision]; lia|].
  split; [exact (dispatch_globals _ _ _ _ Hw')|].
  apply (at_rest_rel _ _ _ _ _ _ Hrel). exact (rest_summary_at_rest _ _ Hsum).
Qed.

Lemma dispatch_unknown_route_rest t w extra :
  path_function (route_decision t) = None ->
  at_rest w ->
  exists w',
    dispatch t (2 + extra) w = Some (tt, w')
    /\ event_log w' = event_log w ++ [spawned t (now w); finished t (now w)]
    /\ now w' = now w /\ globals w' = globals w /\ at_rest w'.
Proof.
  intros H (Hq & Ha & Hl & Hr & Hp).
  destruct w as [t0 q n ap es rs lg ps gl]. simpl in Hq. subst q.
  cbn [active_proc resources points] in Ha, Hl, Hr, Hp.
  unfold dispatch, bind. rewrite process_eq. norm_world.
  cbn [simpy.heappush Nat.add].
  erewrite run_step by reflexivity.
  erewrite step_pop;
    [|reflexivity|norm_world; apply lookup_app_1|reflexivity].
  norm_world. rewrite insert_app_1.
  cbn [for_each Environment.call bind callbacks triggered kind].
  unfold bind at 1.
  erewrite (resume_unknown_route t _ (length es));
    [|exact H|norm_world; apply lookup_app_0].
  norm_world. rewrite insert_app_0. cbn [simpy.heappush ret].
  erewrite run_step by reflexivity.
  erewrite step_pop;
    [|reflexivity|norm_world; apply lookup_app_0|reflexivity].
  norm_world. rewrite insert_app_0.
  cbn [for_each Environment.call bind callbacks triggered kind ret].
  rewrite run_done by reflexivity.
  eexists. split; [reflexivity|]. norm_world.
  rewrite !Z.add_0_r. repeat split; try reflexivity; assumption.
Qed.

Lemma path_function_route_names route p :
  path_function route = Some p -> exists r, route = Some r /\ r ∈ route_names.
Proof.
  destruct route as [r|]; [|discriminate]. intros H. exists r. split; [reflexivity|].
  apply path_function_Some in H. unfold route_names.
  cases_in H; set_solver.
Qed.

(** A train that has the station to itself, whatever its route. *)
Lemma dispatch_at_rest (w : World) (t : Train) (extra : nat) :
  at_rest w -> globals w ∈ shipped_timings ->
  exists w',
    dispatch t (40 + extra) w = Some (tt, w')
    /\ event_log w' = event_log w ++ journey_log (globals w) t (now w)
    /\ now w' = now w + journey_duration (globals w) (route_decision t)
    /\ globals w' = globals w /\ at_rest w'.
Proof.
  intros Hrest Hg.
  destruct (path_function (route_decision t)) as [p|] eqn:E.
  - destruct (path_function_route_names _ _ E) as (r & Hr & Hin).
    exact (dispatch_known_route w t r extra Hrest Hg Hr Hin).
  - destruct (dispatch_unknown_route_rest t w (38 + extra) E Hrest)
      as (w' & Hw' & Hl & Hn & Hg' & Hr').
    exists w'. split; [exact Hw'|]. unfold journey_log, journey_duration. rewrite E.
    split; [exact Hl|]. split; [lia|]. split; assumption.
Qed.


(** The station after the first train of [demo_rows] has run UP_MAIN. *)
Definition rested_world : World := train_env.world (snd demo_step).

Definition second_train : Train :=
  {| train_id := "S1"; direction := "south"; priority := "low";
     route_decision := Some "DOWN_SIDING" |}.

Definition second_alone : World :=
  default (StationSimulation initial_globals)
    (snd <$> dispatch second_train 40 (StationSimulation initial_globals)).

Lemma journey_is_history_independent_witness :
  exists w',
    dispatch second_train 40 rested_world = Some (tt, w')
    /\ event_log w'
       = event_log rested_world ++ map (later (now rested_world)) (event_log second_alone)
    /\ now w' = now rested_world + now second_alone
    /\ globals w' = globals rested_world
    /\ (at_rest second_alone -> at_rest w').
Proof.
  apply (journey_is_history_independent rested_world second_train 40 second_alone).
  - apply (rest_summary_at_rest initial_globals). vm_compute. reflexivity.
  - vm_compute. reflexivity.
Defined.

(** X7. A train that has the station to itself runs its whole route.  In a
    station at rest, under the timings of the module or these halved as
    [app.py] does, dispatching a train of whatever name, direction and
    priority on one of the five routes ends within forty steps of the event
    loop.  The log has grown by [spawned], [points_set] with the points and
    the position of the route, one [enter_track] per section, each at the
    sum of the dwell times of the sections before it, and [finished] at the
    sum of all of them, all counted from the clock of the station.  The
    clock has advanced by that sum, the timings are as they were, and the
    station is at rest again. *)
Theorem a_train_alone_runs_its_whole_route
    (w : World) (t : Train) (r : string) (p : Path) (extra : nat) :
  at_rest w -> globals w ∈ shipped_timings ->
  route_decision t = Some r -> path_function (Some r) = Some p ->
  exists w',
    dispatch t (40 + extra) w = Some (tt, w')
    /\ event_log w'
       = event_log w
         ++ spawned t (now w)
            :: {| time := now w; log_train_id := train_id t;
                  log_direction := direction t; event := "points_set";
                  details := points_details (path_points p) (path_state p) |}
            :: track_log (globals w) (train_id t) (direction t) (path_tracks p)
                 (now w)
            ++ [finished t (now w + journey_time (globals w) p)]
    /\ now w' = now w + journey_time (globals w) p
    /\ globals w' = globals w /\ at_rest w'.
Proof.
  intros Hrest Hg Hr Hp.
  destruct (dispatch_at_rest w t extra Hrest Hg) as (w' & Hw' & Hl & Hn & Hg' & Hr').
  unfold journey_log, journey_duration in Hl, Hn. rewrite Hr, Hp in Hl, Hn.
  exists w'. repeat (split; [assumption|]). exact Hr'.
Qed.

Lemma a_train_alone_runs_its_whole_route_witness :
  exists w',
    dispatch second_train (40 + 0) rested_world = Some (tt, w')
    /\ event_log w'
       = event_log rested_world
         ++ spawned second_train (now rested_world)
            :: {| time := now rested_world; log_train_id := train_id second_train;
                  log_direction := direction second_train; event := "points_set";
                  details := points_details (path_points path_down_siding)
                               (path_state path_down_siding) |}
            :: track_log (globals rested_world) (train_id second_train)
                 (direction second_train) (path_tracks path_down_siding)
                 (now rested_world)
            ++ [finished second_train
                  (now rested_world
                   + journey_time (globals rested_world) path_down_siding)]
    /\ now w' = now rested_world + journey_time (globals rested_world) path_down_siding
    /\ globals w' = globals rested_world /\ at_rest w'.
Proof.
  apply (a_train_alone_runs_its_whole_route rested_world second_train
           "DOWN_SIDING" path_down_siding 0).
  - apply (rest_summary_at_rest initial_globals). vm_compute. reflexivity.
  - replace (globals rested_world) with initial_globals
      by (vm_compute; reflexivity).
    apply list_elem_of_here.
  - reflexivity.
  - reflexivity.
Defined.

(** [step] on a schedule that is not empty is the dispatch of its first
    row, with the route decided on for the action. *)
Lemma step_dispatch fuel action (e : train_env.StationTrainEnv) row rest route w' :
  train_env.schedule e = row :: rest ->
  train_env.decision action = Some route ->
  dispatch (train_of row route) fuel (train_env.world e) = Some (tt, w') ->
  train_env.step fuel action e
  = Some ({| train_env.observation := train_env._get_observation rest;
             train_env.reward := train_env.compute_reward row route;
             train_env.done := match rest with [] => true | _ => false end;
             train_env.truncated := false; train_env.info := [] |},
          {| train_env.schedule := rest; train_env.world := w' |}).
Proof.
  intros Hs Hd Hw'. unfold train_env.step. unfold train_env.decision in Hd.
  destruct (train_env.item_of_array action) as [key|]; [|discriminate].
  rewrite Hs, Hd. unfold dispatch, train_of in Hw'. rewrite Hw'. reflexivity.
Qed.

(** X8. [step] on a station at rest.  With the shipped timings and a
    schedule that is not empty, [step] raises for an action it cannot decide
    a route for (an array whose size is not one, an action that cannot be
    hashed) and returns for every other action, in or out of 0..4: it
    submits the first row with the route of the action (none when the action
    is equal to none of 0..4), the journey of that train is run to its end as
    in X7, the row is taken off the schedule, the reward is the one computed
    from the row and the route, and the station is at rest again, so that the
    next [step] finds it as this one did. *)
Theorem step_runs_the_next_train (e : train_env.StationTrainEnv)
    (row : train_env.Row) (rest : list train_env.Row)
    (action : train_env.Action) (extra : nat) :
  at_rest (train_env.world e) ->
  globals (train_env.world e) ∈ shipped_timings ->
  train_env.schedule e = row :: rest ->
  let w := train_env.world e in
  match train_env.decision action with
  | None => forall fuel, train_env.step fuel action e = None
  | Some route =>
      exists w',
        train_env.step (40 + extra) action e
        = Some ({| train_env.observation := train_env._get_observation rest;
                   train_env.reward := train_env.compute_reward row route;
                   train_env.done := match rest with [] => true | _ => false end;
                   train_env.truncated := false; train_env.info := [] |},
                {| train_env.schedule := rest; train_env.world := w' |})
        /\ event_log w'
           = event_log w ++ journey_log (globals w) (train_of row route) (now w)
        /\ now w' = now w + journey_duration (globals w) route
        /\ globals w' = globals w /\ at_rest w'
  end.
Proof.
  intros Hrest Hg Hs w.
  destruct (train_env.decision action) as [route|] eqn:Hd.
  - destruct (dispatch_at_rest w (train_of row route) extra Hrest Hg)
      as (w' & Hw' & Hl & Hn & Hg' & Hr').
    exists w'. split; [exact (step_dispatch _ action e row rest route w' Hs Hd Hw')|].
    split; [exact Hl|split; [exact Hn|split; [exact Hg'|exact Hr']]].
  - intros fuel. exact (step_raises fuel action e row rest Hs Hd).
Qed.

Lemma step_runs_the_next_train_witness :
  let row := {| train_env.row_train_id := "N1"; train_env.row_direction := "north";
                train_env.row_priority := "high" |} in
  let rest := [ {| train_env.row_train_id := "S1";
                   train_env.row_direction := "south";
                   train_env.row_priority := "low" |} ] in
  let action := train_env.np_ndarray [train_env.py_bool true] in
  let w := train_env.world demo_env in
  match train_env.decision action with
  | None => forall fuel, train_env.step fuel action demo_env = None
  | Some route =>
      exists w',
        train_env.step (40 + 0) action demo_env
        = Some ({| train_env.observation := train_env._get_observation rest;
                   train_env.reward := train_env.compute_reward row route;
                   train_env.done := match rest with [] => true | _ => false end;
                   train_env.truncated := false; train_env.info := [] |},
                {| train_env.schedule := rest; train_env.world := w' |})
        /\ event_log w'
           = event_log w ++ journey_log (globals w) (train_of row route) (now w)
        /\ now w' = now w + journey_duration (globals w) route
        /\ globals w' = globals w /\ at_rest w'
  end.
Proof.
  apply (step_runs_the_next_train demo_env
           {| train_env.row_train_id := "N1"; train_env.row_direction := "north";
              train_env.row_priority := "high" |}
           [ {| train_env.row_train_id := "S1";
                train_env.row_direction := "south";
                train_env.row_priority := "low" |} ]
           (train_env.np_ndarray [train_env.py_bool true]) 0).
  - apply at_rest_StationSimulation.
  - apply list_elem_of_here.
  - reflexivity.
Defined.

Lemma naive_action_route (row : train_env.Row) :
  exists a, app.naive_action (app.naive_route row) = Some a
            /\ train_env.action_to_route !! a = Some (app.naive_route row).
Proof.
  unfold app.naive_route.
  destruct (String.eqb (train_env.row_direction row) "north");
    destruct (String.eqb (train_env.row_priority row) "high");
    eexists; split; reflexivity.
Qed.

(** The route decided on for the answer of the model to the observation of
    a row; no route when [step] raises on that answer. *)
Definition ai_choice (predict : list Z -> train_env.Action) (row : train_env.Row)
    : option string :=
  default None (train_env.decision (predict (train_env._get_observation [row]))).

Definition naive_choice (row : train_env.Row) : option string :=
  Some (app.naive_route row).

Lemma ai_loop_at_rest predict fuel (rows : list train_env.Row) :
  forall rounds env,
  (forall obs, train_env.decision (predict obs) <> None) ->
  (40 <= fuel)%nat -> (1 <= rounds)%nat -> (length rows <= rounds)%nat ->
  train_env.schedule env = rows ->
  at_rest (train_env.world env) ->
  globals (train_env.world env) ∈ shipped_timings ->
  exists env',
    app.ai_loop predict fuel rounds (train_env._get_observation rows) env = Some env'
    /\ event_log (train_env.world env')
       = event_log (train_env.world env)
         ++ episode_log (globals (train_env.world env)) (ai_choice predict) rows
              (now (train_env.world env)).
Proof.
  induction rows as [|row rest IH]; intros rounds env Hacc Hf H1 Hlen Hs Hrest Hg;
    (destruct rounds as [|rounds]; [lia|]); cbn [app.ai_loop].
  - exists env.
    destruct (train_env.decision (predict (train_env._get_observation [])))
      as [route|] eqn:Hd; [|destruct (Hacc _ Hd)].
    unfold train_env.decision in Hd. unfold train_env.step.
    destruct (train_env.item_of_array _) as [key|]; [|discriminate].
    rewrite Hs. cbn [train_env.done].
    split; [reflexivity|]. cbn [episode_log]. rewrite app_nil_r. reflexivity.
  - destruct (train_env.decision
                (predict (train_env._get_observation (row :: rest))))
      as [route|] eqn:Hd; [|destruct (Hacc _ Hd)].
    assert (Hc : ai_choice predict row = route).
    { unfold ai_choice.
      change (train_env._get_observation [row])
        with (train_env._get_observation (row :: rest)).
      rewrite Hd. reflexivity. }
    destruct (dispatch_at_rest (train_env.world env) (train_of row route)
                (fuel - 40) Hrest Hg) as (w' & Hw' & Hl & Hn & Hg' & Hr').
    replace (40 + (fuel - 40))%nat with fuel in Hw' by lia.
    pose proof (step_dispatch fuel _ env row rest route w' Hs Hd Hw') as Hstep.
    unfold train_of in Hn at 1. cbn [route_decision] in Hn.
    rewrite Hstep. cbn [train_env.done train_env.observation].
    cbn [episode_log]. rewrite Hc.
    clear Hstep. destruct rest as [|row' rest'].
    + eexists. split; [reflexivity|]. cbn [train_env.world episode_log].
      rewrite app_nil_r. exact Hl.
    + cbn [length] in Hlen.
      destruct (IH rounds {| train_env.schedule := row' :: rest';
                             train_env.world := w' |})
        as (env' & Hloop & Hlog); try assumption; try (cbn [length] in *; lia).
      * reflexivity.
      * cbn [train_env.world]. rewrite Hg'. exact Hg.
      * exists env'. split; [exact Hloop|]. rewrite Hlog.
        cbn [train_env.world]. rewrite Hl, Hg', Hn, <- app_assoc. reflexivity.
Qed.

Lemma naive_loop_at_rest fuel (rows : list train_env.Row) :
  forall rounds env,
  (40 <= fuel)%nat -> (length rows <= rounds)%nat ->
  train_env.schedule env = rows ->
  at_rest (train_env.world env) ->
  globals (train_env.world env) ∈ shipped_timings ->
  exists env',
    app.naive_loop fuel rounds env = Some env'
    /\ event_log (train_env.world env')
       = event_log (train_env.world env)
         ++ episode_log (globals (train_env.world env)) naive_choice rows
              (now (train_env.world env)).
Proof.
  induction rows as [|row rest IH]; intros rounds env Hf Hlen Hs Hrest Hg.
  - exists env. destruct rounds; cbn [app.naive_loop]; rewrite Hs;
      (split; [reflexivity|]); cbn [episode_log]; rewrite app_nil_r; reflexivity.
  - destruct rounds as [|rounds]; [cbn in Hlen; lia|]. cbn [app.naive_loop]. rewrite Hs.
    destruct (naive_action_route row) as (a & Ha & Hroute). rewrite Ha.
    assert (Hd : train_env.decision (train_env.py_int a)
                 = Some (Some (app.naive_route row))).
    { unfold train_env.decision, train_env.action_to_route_get.
      cbn [train_env.item_of_array train_env.hashable train_env.as_integer].
      rewrite Hroute. reflexivity. }
    destruct (dispatch_at_rest (train_env.world env)
                (train_of row (Some (app.naive_route row)))
                (fuel - 40) Hrest Hg) as (w' & Hw' & Hl & Hn & Hg' & Hr').
    replace (40 + (fuel - 40))%nat with fuel in Hw' by lia.
    pose proof (step_dispatch fuel _ env row rest _ w' Hs Hd Hw') as Hstep.
    unfold train_of in Hn at 1. cbn [route_decision] in Hn.
    rewrite Hstep.
    cbn [length] in Hlen.
    destruct (IH rounds {| train_env.schedule := rest; train_env.world := w' |})
      as (env' & Hloop & Hlog); try assumption; try lia.
    + reflexivity.
    + cbn [train_env.world]. rewrite Hg'. exact Hg.
    + exists env'. split; [exact Hloop|]. rewrite Hlog.
      cbn [train_env.world episode_log]. fold (naive_choice row).
      rewrite Hl, Hg', Hn, <- app_assoc. reflexivity.
Qed.

Lemma restore_after_apply scaled g :
  app._restore_original_times (app._backup_original_times g)
    (app._apply_speed_multiplier scaled g) = g.
Proof. destruct g. reflexivity. Qed.


(** X9. The episode of [get_ai_sim_data] ends for every model.  Whatever
    [predict] answers (any function of the observation, with actions in or
    out of range, as long as they are actions [step] decides a route for, as
    the integers and the arrays of one integer of a DQN are), when the
    multiplier turns the timing globals into the shipped ones, the loop
    [while not done] ends after one [step] per row (one [step] when there is
    no row), no [step] raises, and the events returned are, row after row,
    the journey of X7 for the row with the route of the action chosen for its
    observation, each journey starting when the one before has ended.  The
    timing globals are afterwards what they were before the call. *)
Theorem ai_episode_runs_every_train_alone
    (predict : list Z -> train_env.Action) (scaled : Z -> Z) (g : Globals)
    (rows : list train_env.Row) (fuel rounds : nat) :
  (forall obs, train_env.decision (predict obs) <> None) ->
  app._apply_speed_multiplier scaled g ∈ shipped_timings ->
  (40 <= fuel)%nat -> (1 <= rounds)%nat -> (length rows <= rounds)%nat ->
  app.get_ai_sim_data predict scaled rows fuel rounds g
  = (Some (episode_log (app._apply_speed_multiplier scaled g)
             (ai_choice predict) rows 0), g).
Proof.
  intros Hacc Hg Hf H1 Hlen. unfold app.get_ai_sim_data, train_env.reset.
  rewrite restore_after_apply.
  destruct (ai_loop_at_rest predict fuel rows rounds
              {| train_env.schedule := rows;
                 train_env.world :=
                   StationSimulation (app._apply_speed_multiplier scaled g) |}
              Hacc Hf H1 Hlen eq_refl (at_rest_StationSimulation _) Hg)
    as (env' & Hloop & Hlog).
  rewrite Hloop, Hlog. reflexivity.
Qed.

Lemma ai_episode_runs_every_train_alone_witness :
  app.get_ai_sim_data (fun _ => train_env.np_ndarray [train_env.py_int 4])
    app.scaled_by_2 demo_rows 40 2 initial_globals
  = (Some (episode_log (app._apply_speed_multiplier app.scaled_by_2 initial_globals)
             (ai_choice (fun _ => train_env.np_ndarray [train_env.py_int 4]))
             demo_rows 0),
     initial_globals).
Proof.
  apply (ai_episode_runs_every_train_alone
           (fun _ => train_env.np_ndarray [train_env.py_int 4])
           app.scaled_by_2 initial_globals demo_rows 40 2).
  - discriminate.
  - apply list_elem_of_further, list_elem_of_here.
  - lia.
  - lia.
  - simpl. lia.
Defined.

(** X10. The episode of [get_naive_sim_data] ends for every schedule.  When
    the multiplier turns the timing globals into the shipped ones, the loop
    [while not env.schedule.empty] ends after one [step] per row, the list
    comprehension of line 94 and [step] never raise, and the events returned
    are, row after row, the journey of X7 for the row with the route of the
    naive rule, each journey starting when the one before has ended.  The
    timing globals are afterwards what they were before the call. *)
Theorem naive_episode_runs_every_train_alone
    (scaled : Z -> Z) (g : Globals) (rows : list train_env.Row)
    (fuel rounds : nat) :
  app._apply_speed_multiplier scaled g ∈ shipped_timings ->
  (40 <= fuel)%nat -> (length rows <= rounds)%nat ->
  app.get_naive_sim_data scaled rows fuel rounds g
  = (Some (episode_log (app._apply_speed_multiplier scaled g)
             naive_choice rows 0), g).
Proof.
  intros Hg Hf Hlen. unfold app.get_naive_sim_data, train_env.reset.
  rewrite restore_after_apply.
  destruct (naive_loop_at_rest fuel rows rounds
              {| train_env.schedule := rows;
                 train_env.world :=
                   StationSimulation (app._apply_speed_multiplier scaled g) |}
              Hf Hlen eq_refl (at_rest_StationSimulation _) Hg)
    as (env' & Hloop & Hlog).
  rewrite Hloop, Hlog. reflexivity.
Qed.

Lemma naive_episode_runs_every_train_alone_witness :
  app.get_naive_sim_data app.scaled_by_2 demo_rows 40 2 initial_globals
  = (Some (episode_log (app._apply_speed_multiplier app.scaled_by_2 initial_globals)
             naive_choice demo_rows 0),
     initial_globals).
Proof.
  apply (naive_episode_runs_every_train_alone app.scaled_by_2 initial_globals
           demo_rows 40 2).
  - apply list_elem_of_further, list_elem_of_here.
  - lia.
  - simpl. lia.
Defined.

(** ** The points stay as the route has set them *)

(** The resource of a point, as [__init__] builds it. *)
Definition point_ref (name : string) : option ref :=
  resource <$> (initial_points !! name).

Definition known_paths : list Path :=
  [path_up_main; path_up_platform; path_down_main; path_down_platform;
   path_down_siding].

(** The path a generator is running, and the point requests it has made. *)
Definition gen_path (g : Gen) : option Path :=
  match g with
  | path_start p _ _ => Some p
  | path_joint p _ _ _ => Some p
  | path_enter p _ _ _ _ _ _ => Some p
  | path_dwell p _ _ _ _ _ _ => Some p
  | _ => None
  end.

Definition gen_reqs (g : Gen) : option (list (ref * ref)) :=
  match g with
  | path_joint _ _ _ reqs => Some reqs
  | path_enter _ _ _ reqs _ _ _ => Some reqs
  | path_dwell _ _ _ reqs _ _ _ => Some reqs
  | _ => None
  end.

(** A path beyond its joint wait: the train is on its route. *)
Definition on_route (g : Gen) : option Path :=
  match g with
  | path_enter p _ _ _ _ _ _ => Some p
  | path_dwell p _ _ _ _ _ _ => Some p
  | _ => None
  end.

(** The requests are those of the points of the path, in order. *)
Definition requests_match (names : list string) (reqs : list (ref * ref)) : Prop :=
  Forall2 (fun name rq => point_ref name = Some (fst rq)) names reqs.

Definition known (g : Gen) : Prop :=
  forall p, gen_path g = Some p ->
    p ∈ known_paths
    /\ forall reqs, gen_reqs g = Some reqs -> requests_match (path_points p) reqs.

(** Every point of the path is in the position of the path. *)
Definition set_for (ps : gmap string Point) (p : Path) : Prop :=
  forall name, name ∈ path_points p ->
    state <$> (ps !! name) = Some (path_state p).

Definition position (s : string) : Prop := s = "normal" \/ s = "reverse".

(** The entries the station writes: the four event types, each with its
    details; [points_set] with the points and the position of one of the
    five paths, [enter_track] with the name of one of their sections. *)
Definition entry_ok (e : LogEntry) : Prop :=
  (event e = "spawned" /\ exists r, details e = route_details r)
  \/ (event e = "points_set"
      /\ exists p, p ∈ known_paths
                   /\ details e = points_details (path_points p) (path_state p))
  \/ (event e = "enter_track"
      /\ exists p s, p ∈ known_paths /\ s ∈ path_tracks p
                     /\ details e = track_details (snd (fst s)))
  \/ (event e = "finished" /\ details e = no_details).

Record locked (w : World) : Prop := {
  lk_res : resource <$> points w = resource <$> initial_points;
  lk_states : forall name pt, points w !! name = Some pt -> position (state pt);
  lk_known : forall p g, frame (events w) p g -> known g;
  lk_lock : forall p g path, frame (events w) p g -> on_route g = Some path ->
    set_for (points w) path;
  lk_log : Forall entry_ok (event_log w)
}.

Definition newcomer (g : Gen) : Prop := known g /\ on_route g = None.

Lemma kind_same_process k k' g :
  kind_same k k' -> k' = Process g -> k = Process g.
Proof.
  destruct k; simpl; try (intros -> E; exact E).
  intros [n ->] E. discriminate.
Qed.

Lemma frame_put_same es (x : ref) e e' p g :
  es !! x = Some e -> kind_same (kind e) (kind e') ->
  frame (<[x := e']> es) p g -> frame es p g.
Proof.
  intros Hx Hk (e0 & He0 & Hg). destruct (decide (p = x)) as [->|Hne].
  - rewrite list_lookup_insert_eq in He0 by exact (lookup_lt_Some _ _ _ Hx).
    injection He0 as <-. exists e. split; [exact Hx|].
    exact (kind_same_process _ _ _ Hk Hg).
  - rewrite list_lookup_insert_ne in He0 by congruence.
    exists e0. split; assumption.
Qed.

Lemma frame_app es e p g :
  frame (es ++ [e]) p g -> frame es p g \/ kind e = Process g.
Proof.
  intros (e0 & He0 & Hg). apply lookup_app_Some in He0 as [He0|[_ He0]].
  - left. exists e0. split; assumption.
  - right. apply list_lookup_singleton_Some in He0 as [_ <-]. exact Hg.
Qed.

Lemma stable_locked : stable locked newcomer entry_ok.
Proof.
  constructor.
  - intros w q n [H1 H2 H3 H4 H5]. constructor; assumption.
  - intros w a [H1 H2 H3 H4 H5]. constructor; assumption.
  - intros w rs [H1 H2 H3 H4 H5]. constructor; assumption.
  - intros w e [H1 H2 H3 H4 H5] He.
    constructor; cbn [points events event_log set_event_log]; try assumption.
    apply Forall_app. split; [exact H5|]. constructor; [exact He|constructor].
  - intros w x e e' [H1 H2 H3 H4 H5] Hx Hk.
    constructor; cbn [points events set_events]; try assumption.
    + intros p g Hp. exact (H3 p g (frame_put_same _ _ _ _ _ _ Hx Hk Hp)).
    + intros p g path Hp. exact (H4 p g path (frame_put_same _ _ _ _ _ _ Hx Hk Hp)).
  - intros w e [H1 H2 H3 H4 H5] Hnew.
    constructor; cbn [points events set_events]; try assumption.
    + intros p g Hp. apply frame_app in Hp as [Hp|Hp]; [exact (H3 p g Hp)|].
      exact (proj1 (Hnew g Hp)).
    + intros p g path Hp Hon. apply frame_app in Hp as [Hp|Hp];
        [exact (H4 p g path Hp Hon)|].
      destruct (Hnew g Hp) as [_ Hno]. congruence.
Qed.

(** The kernel does not write the points. *)
Lemma stable_points (ps : gmap string Point) :
  stable (fun w => points w = ps) (fun _ => True) (fun _ => True).
Proof. constructor; intros; assumption. Qed.

Lemma stable_and P Q f f' en en' :
  stable P f en -> stable Q f' en' ->
  stable (fun w => P w /\ Q w) (fun g => f g /\ f' g) (fun e => en e /\ en' e).
Proof.
  intros [H1 H2 H3 H4 H5 H6] [K1 K2 K3 K4 K5 K6]. constructor.
  - intros w q n [HP HQ]. split; [apply H1|apply K1]; assumption.
  - intros w a [HP HQ]. split; [apply H2|apply K2]; assumption.
  - intros w rs [HP HQ]. split; [apply H3|apply K3]; assumption.
  - intros w e [HP HQ] [He He']. split; [apply H4|apply K4]; assumption.
  - intros w x e e' [HP HQ] Hx Hk. split; [apply (H5 w x e)|apply (K5 w x e)];
      assumption.
  - intros w e [HP HQ] Hnew. split; [apply H6|apply K6]; try assumption.
    + intros g Hg. exact (proj1 (Hnew g Hg)).
    + intros g Hg. exact (proj2 (Hnew g Hg)).
Qed.

(** The property carried through a generator: the points are locked and are
    the given ones. *)
Definition locked_at (ps : gmap string Point) (w : World) : Prop :=
  locked w /\ points w = ps.

Lemma stable_locked_at ps :
  stable (locked_at ps) (fun g => newcomer g /\ True) (fun e => entry_ok e /\ True).
Proof. exact (stable_and _ _ _ _ _ _ stable_locked (stable_points ps)). Qed.

Lemma known_position p : p ∈ known_paths -> position (path_state p).
Proof.
  intros H. unfold known_paths in H.
  repeat (apply elem_of_cons in H as [->|H]; [cbv; tauto|]). inversion H.
Qed.

Lemma point_ref_lookup w name pt :
  locked w -> points w !! name = Some pt -> point_ref name = Some (resource pt).
Proof.
  intros HL Hpt. unfold point_ref. rewrite <- lookup_fmap, <- (lk_res _ HL).
  rewrite lookup_fmap, Hpt. reflexivity.
Qed.

Ltac next L :=
  apply wp_bind; eapply wp_mono;
  [apply L; try eassumption|intros ? ? ?; cbv beta in *].

Lemma point_requests_locked ps (names : list string) : forall w,
  locked_at ps w ->
  wp (simpy.map_m (fun name => pt <- get_point name ;;
                               q <- simpy.request (resource pt) ;;
                               ret (resource pt, q)) names)
     (fun reqs w' => locked_at ps w' /\ requests_match names reqs) w.
Proof.
  induction names as [|name names IH]; intros w HL; cbn [simpy.map_m].
  - apply wp_ret. split; [exact HL|constructor].
  - apply wp_bind, wp_bind, wp_get_point_lookup. intros pt Hpt.
    pose proof (point_ref_lookup w name pt (proj1 HL) Hpt) as Href.
    apply wp_bind. eapply wp_mono;
      [exact (keeps_request _ _ _ (stable_locked_at ps) _ w HL)|].
    intros q w1 HL1. apply wp_ret. apply wp_bind. eapply wp_mono; [exact (IH w1 HL1)|].
    intros reqs w2 [HL2 Hm]. apply wp_ret. split; [exact HL2|].
    constructor; [exact Href|exact Hm].
Qed.

(** No train on its route has one of the points of [names]. *)
Definition unshared (es : list Event) (names : list string) : Prop :=
  forall p1 g1 path1 name, frame es p1 g1 -> on_route g1 = Some path1 ->
    name ∈ names -> name ∈ path_points path1 -> False.

Lemma write_locked pos name w :
  position pos -> locked w -> unshared (events w) [name] ->
  wp (set_point_state pos name)
     (fun _ w' => locked w' /\ events w' = events w
                  /\ state <$> (points w' !! name) = Some pos
                  /\ forall n, state <$> (points w !! n) = Some pos ->
                       state <$> (points w' !! n) = Some pos) w.
Proof.
  intros Hpos [H1 H2 H3 H4 H5] Hun. unfold set_point_state.
  apply wp_bind, wp_get_point_lookup. intros pt Hpt. apply wp_modify.
  cbn [points events set_points]. split; [|split; [reflexivity|split]].
  - constructor; cbn [points events event_log set_points]; [| | | |exact H5].
    + rewrite fmap_insert. cbn [resource]. rewrite <- H1. apply insert_id.
      rewrite lookup_fmap, Hpt. reflexivity.
    + intros n pt' Hn. destruct (decide (name = n)) as [->|Hne].
      * rewrite lookup_insert_eq in Hn. injection Hn as <-. exact Hpos.
      * rewrite lookup_insert_ne in Hn by exact Hne. exact (H2 n pt' Hn).
    + exact H3.
    + intros p g path Hp Hon n Hn. destruct (decide (name = n)) as [->|Hne].
      * destruct (Hun p g path n Hp Hon (list_elem_of_here _ _) Hn).
      * rewrite lookup_insert_ne by exact Hne. exact (H4 p g path Hp Hon n Hn).
  - rewrite lookup_insert_eq. reflexivity.
  - intros n Hn. destruct (decide (name = n)) as [->|Hne].
    + rewrite lookup_insert_eq. reflexivity.
    + rewrite lookup_insert_ne by exact Hne. exact Hn.
Qed.

Lemma writes_locked pos es (names : list string) :
  position pos -> unshared es names ->
  forall w, locked w -> events w = es ->
  wp (for_each (set_point_state pos) names)
     (fun _ w' => locked w' /\ events w' = es
                  /\ (forall n, n ∈ names -> state <$> (points w' !! n) = Some pos)
                  /\ forall n, state <$> (points w !! n) = Some pos ->
                       state <$> (points w' !! n) = Some pos) w.
Proof.
  intros Hpos. induction names as [|name names IH]; intros Hun w HL He;
    cbn [for_each].
  - apply wp_ret. split; [exact HL|]. split; [exact He|].
    split; [intros n Hn; inversion Hn|tauto].
  - apply wp_bind. eapply wp_mono.
    + apply (write_locked pos name w Hpos HL). rewrite He.
      intros p1 g1 path1 n Hp Hon Hn Hin. apply list_elem_of_singleton in Hn as ->.
      exact (Hun p1 g1 path1 name Hp Hon (list_elem_of_here _ _) Hin).
    + intros u w1 (HL1 & He1 & Hname & Hkeep).
      eapply wp_mono.
      * apply (IH); [|exact HL1|congruence].
        intros p1 g1 path1 n Hp Hon Hn Hin.
        exact (Hun p1 g1 path1 n Hp Hon (list_elem_of_further _ _ _ Hn) Hin).
      * intros u' w2 (HL2 & He2 & Hnames & Hkeep2).
        split; [exact HL2|]. split; [exact He2|]. split.
        -- intros n Hn. apply elem_of_cons in Hn as [->|Hn];
             [exact (Hkeep2 _ Hname)|exact (Hnames n Hn)].
        -- intros n Hn. exact (Hkeep2 n (Hkeep n Hn)).
Qed.

(** What [send] hands back goes with the points as they are. *)
Definition sent_locked (sent : Sent) (w' : World) : Prop :=
  locked w' /\ known (fst sent)
  /\ forall path, on_route (fst sent) = Some path -> set_for (points w') path.

Lemma known_exhausted : known exhausted.
Proof. intros p H. discriminate. Qed.

Lemma leave_points_locked ps reqs w :
  locked_at ps w -> wp (leave_points reqs) sent_locked w.
Proof.
  intros HL. unfold leave_points. apply wp_bind. eapply wp_mono.
  - apply (keeps_for_each (locked_at ps)); [|exact HL]. intros rq.
    apply (keeps_Request_exit _ _ _ (stable_locked_at ps)).
  - intros u w1 [HL1 _]. apply wp_ret. split; [exact HL1|].
    split; [exact known_exhausted|discriminate].
Qed.

Lemma enter_track_locked ps path tid dir reqs i w :
  locked_at ps w -> path ∈ known_paths -> requests_match (path_points path) reqs ->
  set_for ps path ->
  wp (enter_track path tid dir reqs i) sent_locked w.
Proof.
  intros HL Hpath Hm Hset. unfold enter_track.
  destruct (path_tracks path !! i) as [[[track name] duration]|];
    [|exact (leave_points_locked ps reqs w HL)].
  apply wp_bind. eapply wp_mono;
    [exact (keeps_request _ _ _ (stable_locked_at ps) _ w HL)|].
  intros q w1 [HL1 Hps]. apply wp_ret. split; [exact HL1|]. split.
  - intros p [= <-]. split; [exact Hpath|]. intros reqs' [= <-]. exact Hm.
  - intros p [= <-]. cbn [fst]. rewrite Hps. exact Hset.
Qed.

Lemma known_start t : newcomer (train_process_start t) /\ True.
Proof. split; [|exact I]. split; [|reflexivity]. intros p H. discriminate. Qed.

Lemma run_script_locked ps script : forall w,
  locked_at ps w -> wp (run_script script) sent_locked w.
Proof.
  induction script as [|[t|d] rest IH]; intros w HL; cbn [run_script].
  - apply wp_ret. split; [exact (proj1 HL)|].
    split; [exact known_exhausted|discriminate].
  - apply wp_bind. eapply wp_mono.
    + exact (keeps_process _ _ _ (stable_locked_at ps) _ (known_start t) w HL).
    + intros pr w1 HL1. exact (IH w1 HL1).
  - apply wp_bind. eapply wp_mono;
      [exact (keeps_timeout _ _ _ (stable_locked_at ps) _ w HL)|].
    intros ev w1 [HL1 _]. apply wp_ret. split; [exact HL1|].
    split; [|discriminate]. intros p H. discriminate.
Qed.

Lemma path_function_known route p :
  path_function route = Some p -> p ∈ known_paths.
Proof.
  destruct route as [r|]; [|discriminate]. intros H.
  apply path_function_Some in H. unfold known_paths.
  cases_in H; injection H as _ <-; set_solver.
Qed.

Lemma entry_spawned tid dir r t :
  entry_ok {| time := t; log_train_id := tid; log_direction := dir;
              event := "spawned"; details := route_details r |} /\ True.
Proof. split; [|exact I]. left. split; [reflexivity|]. exists r. reflexivity. Qed.

Lemma entry_finished tid dir t :
  entry_ok {| time := t; log_train_id := tid; log_direction := dir;
              event := "finished"; details := no_details |} /\ True.
Proof. split; [|exact I]. right. right. right. split; reflexivity. Qed.

Lemma entry_points_set tid dir p t :
  p ∈ known_paths ->
  entry_ok {| time := t; log_train_id := tid; log_direction := dir;
              event := "points_set";
              details := points_details (path_points p) (path_state p) |} /\ True.
Proof.
  intros Hp. split; [|exact I]. right. left. split; [reflexivity|].
  exists p. split; [exact Hp|reflexivity].
Qed.

Lemma entry_enter_track tid dir p (i : nat) track name duration t :
  p ∈ known_paths -> path_tracks p !! i = Some (track, name, duration) ->
  entry_ok {| time := t; log_train_id := tid; log_direction := dir;
              event := "enter_track"; details := track_details name |} /\ True.
Proof.
  intros Hp Hi. split; [|exact I]. right. right. left. split; [reflexivity|].
  exists p, (track, name, duration). split; [exact Hp|].
  split; [exact (list_elem_of_lookup_2 _ _ _ Hi)|reflexivity].
Qed.

Lemma send_locked p g w :
  locked w -> frame (events w) p g ->
  (forall path, is_joint g <> None -> gen_path g = Some path ->
     unshared (events w) (path_points path)) ->
  wp (send g) sent_locked w.
Proof.
  intros HL Hp Hun.
  pose proof (lk_known _ HL p g Hp) as Hk.
  assert (HLa : locked_at (points w) w) by (split; [exact HL|reflexivity]).
  destruct g as [t|t|path tid dir|path tid dir reqs|path tid dir reqs i track tr
                |path tid dir reqs i track tr|script|]; cbn [send].
  - (* train_process_start *)
    apply wp_bind. eapply wp_mono;
      [exact (keeps_log_event _ _ _ (stable_locked_at _) _ _ _ _
                (entry_spawned _ _ _) w HLa)|].
    intros u w1 HL1.
    destruct (path_function (route_decision t)) as [path|] eqn:E.
    + apply wp_bind. eapply wp_mono.
      * apply (keeps_process _ _ _ (stable_locked_at (points w))); [|exact HL1].
        split; [|exact I]. split; [|reflexivity].
        intros p0 [= <-]. split; [exact (path_function_known _ _ E)|].
        intros reqs H. discriminate.
      * intros pr w2 [HL2 _]. apply wp_ret. split; [exact HL2|].
        split; [|discriminate]. intros p0 H. discriminate.
    + apply wp_bind. eapply wp_mono;
        [exact (keeps_log_event _ _ _ (stable_locked_at _) _ _ _ _
                  (entry_finished _ _) w1 HL1)|].
      intros u' w2 [HL2 _]. apply wp_ret. split; [exact HL2|].
      split; [exact known_exhausted|discriminate].
  - (* train_process_journey *)
    apply wp_bind. eapply wp_mono;
      [exact (keeps_log_event _ _ _ (stable_locked_at _) _ _ _ _
                (entry_finished _ _) w HLa)|].
    intros u w1 [HL1 _]. apply wp_ret. split; [exact HL1|].
    split; [exact known_exhausted|discriminate].
  - (* path_start *)
    destruct (Hk path eq_refl) as [Hpath _].
    apply wp_bind. eapply wp_mono;
      [exact (point_requests_locked (points w) (path_points path) w HLa)|].
    intros reqs w1 [HL1 Hm]. destruct reqs as [|[r q] rest]; [apply wp_raise|].
    apply wp_bind. eapply wp_mono;
      [exact (keeps_and_events _ _ _ (stable_locked_at _) _ _ w1 HL1)|].
    intros c w2 [HL2 _]. apply wp_ret. split; [exact HL2|]. split; [|discriminate].
    intros p0 [= <-]. split; [exact Hpath|]. intros reqs' [= <-]. exact Hm.
  - (* path_joint *)
    destruct (Hk path eq_refl) as [Hpath Hm]. specialize (Hm reqs eq_refl).
    apply wp_bind. eapply wp_mono.
    { apply (writes_locked (path_state path) (events w) (path_points path)
               (known_position _ Hpath)); [|exact HL|reflexivity].
      apply (Hun path); [discriminate|reflexivity]. }
    intros u w1 (HL1 & He1 & Hset & _).
    assert (HLa1 : locked_at (points w1) w1) by (split; [exact HL1|reflexivity]).
    apply wp_bind. eapply wp_mono;
      [exact (keeps_log_event _ _ _ (stable_locked_at _) _ _ _ _
                (fun t => entry_points_set _ _ path t Hpath) w1 HLa1)|].
    intros u' w2 HL2.
    exact (enter_track_locked (points w1) path tid dir reqs 0 w2 HL2 Hpath Hm Hset).
  - (* path_enter *)
    destruct (Hk path eq_refl) as [Hpath Hm]. specialize (Hm reqs eq_refl).
    pose proof (lk_lock _ HL p _ path Hp eq_refl) as Hset.
    destruct (path_tracks path !! i) as [[[track0 name] duration]|] eqn:Ei;
      [|apply wp_raise].
    apply wp_bind. eapply wp_mono;
      [exact (keeps_log_event _ _ _ (stable_locked_at _) _ _ _ _
                (fun t => entry_enter_track _ _ path i track0 name duration t
                            Hpath Ei) w HLa)|].
    intros u w1 HL1. apply wp_bind, wp_gets.
    apply wp_bind. eapply wp_mono;
      [exact (keeps_timeout _ _ _ (stable_locked_at _) _ w1 HL1)|].
    intros ev w2 [HL2 Hps]. apply wp_ret. split; [exact HL2|]. split.
    + intros p0 [= <-]. split; [exact Hpath|]. intros reqs' [= <-]. exact Hm.
    + intros p0 [= <-]. cbn [fst]. rewrite Hps. exact Hset.
  - (* path_dwell *)
    destruct (Hk path eq_refl) as [Hpath Hm]. specialize (Hm reqs eq_refl).
    pose proof (lk_lock _ HL p _ path Hp eq_refl) as Hset.
    apply wp_bind. eapply wp_mono;
      [exact (keeps_Request_exit _ _ _ (stable_locked_at _) _ _ w HLa)|].
    intros u w1 HL1.
    exact (enter_track_locked (points w) path tid dir reqs (S i) w1 HL1 Hpath Hm Hset).
  - (* test_runner *)
    exact (run_script_locked (points w) script w HLa).
  - apply wp_raise.
Qed.

Lemma requests_match_elem names reqs name :
  requests_match names reqs -> name ∈ names ->
  exists rq, rq ∈ reqs /\ point_ref name = Some (fst rq).
Proof.
  intros Hm Hn. apply list_elem_of_lookup in Hn as [i Hi].
  destruct (Forall2_lookup_l _ _ _ _ _ Hm Hi) as (rq & Hrq & H).
  exists rq. split; [exact (list_elem_of_lookup_2 _ _ _ Hrq)|exact H].
Qed.

Lemma on_route_past g path :
  on_route g = Some path ->
  gen_path g = Some path /\ exists reqs, past_joint g = Some reqs
                                         /\ gen_reqs g = Some reqs.
Proof.
  destruct g; simpl; try discriminate; intros [= <-];
    (split; [reflexivity|eexists; split; reflexivity]).
Qed.

(** A path that is about to write its points holds them all, and a train on
    its route holds its own: they have no point in common. *)
Lemma joint_unshared pd p g w reqs path :
  Coh (mk pd (Some (p, requests_of g)) w) w -> Inv w -> locked w ->
  frame (events w) p g -> is_joint g = Some reqs ->
  (forall rq, rq ∈ reqs -> is_triggered (events w) (snd rq)) ->
  gen_path g = Some path ->
  unshared (events w) (path_points path).
Proof.
  intros HC HInv HL Hp Hj Htrig Hpath p1 g1 path1 name Hp1 Hon Hn Hn1.
  assert (Hne : p1 <> p).
  { intros ->. rewrite (frame_inj _ _ _ _ Hp1 Hp) in Hon.
    destruct g; simpl in Hj, Hon; discriminate. }
  destruct (lk_known _ HL p g Hp path Hpath) as [_ Hm].
  assert (Hreqs : gen_reqs g = Some reqs /\ requests_of g = reqs).
  { destruct g; simpl in Hj; try discriminate. injection Hj as <-.
    split; reflexivity. }
  destruct Hreqs as [Hgr Hro]. specialize (Hm reqs Hgr).
  destruct (requests_match_elem _ _ name Hm Hn) as ([r q] & Hrq & Hr).
  destruct (on_route_past g1 path1 Hon) as (Hpath1 & reqs1 & Hpast1 & Hgr1).
  destruct (lk_known _ HL p1 g1 Hp1 path1 Hpath1) as [_ Hm1].
  specialize (Hm1 reqs1 Hgr1).
  destruct (requests_match_elem _ _ name Hm1 Hn1) as ([r1 q1] & Hrq1 & Hr1).
  cbn [fst] in Hr, Hr1. assert (r1 = r) as -> by congruence.
  (* the train on its route *)
  destruct (coh_past _ _ HC p1 g1 reqs1 Hp1 Hpast1 _ Hrq1) as (eq1 & Heq1 & Ht1).
  assert (Hown1 : owned (events w) (resources w) p1 (requests_of g1)).
  { apply (coh_frames _ _ HC p1 g1 Hp1). cbn [active mk]. intros own [= E _].
    exact (Hne (eq_sym E)). }
  destruct (owned_req _ _ _ _ Hown1 r q1 (past_joint_requests _ _ _ Hpast1 Hrq1))
    as (e1 & He1 & Hk1 & Hu1).
  cbn [snd] in Heq1.
  assert (Huse1 : in_use (resources w) r q1).
  { apply Hu1. unfold ref in *. congruence. }
  (* the path that writes *)
  pose proof (coh_own _ _ HC p (requests_of g) eq_refl) as Hown. rewrite Hro in Hown.
  destruct (owned_req _ _ _ _ Hown r q Hrq) as (e0 & He0 & Hk0 & Hu0).
  destruct (Htrig _ Hrq) as (eq0 & Heq0 & Ht0). cbn [snd] in Heq0.
  assert (Huse0 : in_use (resources w) r q).
  { apply Hu0. unfold ref in *. congruence. }
  destruct Huse1 as (x1 & Hx1 & Hq1). destruct Huse0 as (x0 & Hx0 & Hq0).
  assert (x0 = x1) as -> by (unfold ref in *; congruence).
  destruct (proj1 (Forall_lookup _ _) (inv_resources _ HInv) r x1 Hx1) as [_ Hlen _].
  assert (q1 = q) as ->.
  { destruct (users x1) as [|u [|u' us]]; simpl in Hlen; [inversion Hq1| |lia].
    apply list_elem_of_singleton in Hq1, Hq0. congruence. }
  apply Hne. unfold ref in *. congruence.
Qed.

Lemma locked_put_generator w (p : ref) e g1 :
  locked w -> events w !! p = Some e -> known g1 ->
  (forall path, on_route g1 = Some path -> set_for (points w) path) ->
  locked (set_events (<[p := {| callbacks := callbacks e; triggered := triggered e;
                                kind := Process g1 |}]> (events w)) w).
Proof.
  intros [H1 H2 H3 H4 H5] He Hk Hset.
  assert (Hfr : forall p0 g0,
            frame (<[p := {| callbacks := callbacks e; triggered := triggered e;
                             kind := Process g1 |}]> (events w)) p0 g0 ->
            g0 = g1 \/ frame (events w) p0 g0).
  { intros p0 g0 (e0 & He0 & Hg0). destruct (decide (p0 = p)) as [->|Hne].
    - rewrite list_lookup_insert_eq in He0 by exact (lookup_lt_Some _ _ _ He).
      injection He0 as <-. cbn in Hg0. left. congruence.
    - rewrite list_lookup_insert_ne in He0 by congruence.
      right. exists e0. split; assumption. }
  constructor; cbn [points events set_events]; try assumption.
  - intros p0 g0 Hp0. destruct (Hfr p0 g0 Hp0) as [->|Hold];
      [exact Hk|exact (H3 p0 g0 Hold)].
  - intros p0 g0 path Hp0 Hon. destruct (Hfr p0 g0 Hp0) as [->|Hold];
      [exact (Hset path Hon)|exact (H4 p0 g0 path Hold Hon)].
Qed.

Lemma resume_body_locked pd p again g w :
  resumable pd p g w -> Inv w -> locked w ->
  (forall g1 w1, resumable pd p g1 w1 -> Inv w1 -> locked w1 ->
     wp again (fun _ w' => locked w') w1) ->
  wp (resume_body p again) (fun _ w' => locked w') w.
Proof.
  intros (Hs & Hp & Hj) HInv HL Hagain. unfold resume_body.
  apply wp_bind, wp_get_event. intros e He.
  destruct Hp as (e0 & He0 & Hk0).
  assert (e0 = e) as -> by (unfold ref in *; congruence).
  rewrite Hk0.
  assert (Hp : frame (events w) p g) by (exists e; split; assumption).
  apply wp_bind. eapply wp_mono.
  { apply wp_conj; [apply wp_conj|].
    - exact (send_ok pd p g w (steady_good _ _ _ Hs) Hp Hj).
    - exact (fun a w' E => pres_send g w a w' HInv E).
    - apply (send_locked p g w HL Hp). intros path Hjoint Hpath.
      destruct (is_joint g) as [reqs|] eqn:Hjg; [|congruence].
      exact (joint_unshared pd p g w reqs path (proj1 Hs) HInv HL Hp Hjg
               (Hj reqs eq_refl) Hpath). }
  intros [g1 yielded] w1 ((([HC1 Hq1 Hev1] & Hpast1 & Hcov1) & HInv1)
                          & HL1 & Hkn1 & Hset1).
  cbn [fst snd] in *.
  unfold Environment.set_generator.
  apply wp_bind, wp_bind, wp_get_event. intros e1 He1.
  destruct (evolves_frame _ _ p g Hev1 Hp) as (e1' & He1' & Hk1).
  assert (e1' = e1) as -> by (unfold ref in *; congruence).
  apply wp_put_event.
  set (e2 := {| callbacks := callbacks e1; triggered := triggered e1;
                kind := Process g1 |}).
  set (w2 := set_events (<[p := e2]> (events w1)) w1).
  assert (HL2 : locked w2) by exact (locked_put_generator w1 p e1 g1 HL1 He1 Hkn1 Hset1).
  assert (HInv2 : Inv w2) by exact (pres_put_event p e2 w1 tt w2 HInv1 eq_refl).
  assert (Hlt : (p < length (events w1))%nat) by exact (lookup_lt_Some _ _ _ He1).
  assert (He2 : events w2 !! p = Some e2).
  { apply list_lookup_insert_eq. exact Hlt. }
  destruct yielded as [ev|].
  - apply wp_bind, wp_get_event. intros target Htarget.
    destruct (callbacks target) as [cbs|] eqn:Hcbs.
    + exact (keeps_append_callback _ _ _ stable_locked ev _ w2 HL2).
    + (* the generator is resumed at once *)
      assert (HC2 : Coh (mk pd (Some (p, requests_of g1)) w2) w2).
      { unfold w2. rewrite mk_put.
        exact (Coh_put_generator _ w1 p e1 _ g g1 HC1 He1 Hk1 eq_refl Hpast1). }
      assert (Hp2 : frame (events w2) p g1)
        by (exists e2; split; [exact He2|reflexivity]).
      assert (Hkl : kind_like (kind e1) (kind e2)) by (rewrite Hk1; simpl; eauto).
      apply (Hagain g1 w2); [|exact HInv2|exact HL2].
      split; [split; [exact HC2|exact Hq1]|]. split; [exact Hp2|].
      intros reqs Hjg rq Hrq.
      apply (covers_triggered _ w2 ev _ HC2).
      * exact (put_covers (events w1) p e1 e2 He1 Hkl _ _
                 (Hcov1 ev reqs eq_refl Hjg rq Hrq)).
      * exists target. split; [exact Htarget|].
        exact (coh_processed _ _ HC2 ev target Htarget Hcbs).
  - apply wp_bind, wp_get_event. intros e2' He2'.
    apply wp_bind, wp_put_event. apply (keeps_schedule _ _ _ stable_locked).
    apply (st_put _ _ _ stable_locked w2 p e2'); [exact HL2|exact He2'|].
    apply kind_same_refl.
Qed.

Lemma resume_loop_locked pd p : forall rounds g w,
  resumable pd p g w -> Inv w -> locked w ->
  wp (Environment.resume_loop rounds p) (fun _ w' => locked w') w.
Proof.
  induction rounds as [|rounds IH]; intros g w Hr HInv HL; rewrite resume_loop_unfold.
  - apply (resume_body_locked pd p _ g w Hr HInv HL). intros g1 w1 _ _ _.
    apply wp_raise.
  - apply (resume_body_locked pd p _ g w Hr HInv HL). intros g1 w1 Hr1 HInv1 HL1.
    exact (IH g1 w1 Hr1 HInv1 HL1).
Qed.

Lemma resume_locked rest w (p : ref) :
  steady (Process_resume p :: rest) None w -> Inv w -> locked w ->
  wp (Environment.resume p) (fun _ w' => locked w') w.
Proof.
  intros Hs HInv HL. unfold Environment.resume. apply wp_bind, wp_modify.
  destruct (steady_active_proc _ w (Some p) Hs) as [HC Hq].
  set (w1 := set_active_proc (Some p) w) in *.
  assert (HL1 : locked w1) by exact (st_active _ _ _ stable_locked w (Some p) HL).
  assert (HInv1 : Inv w1)
    by exact (pres_set_active_proc (Some p) w tt w1 HInv eq_refl).
  apply wp_bind, wp_get_event. intros e He.
  destruct (kind e) as [| | | | |g] eqn:Hk; try apply wp_raise.
  assert (Hp : frame (events w1) p g) by (exists e; split; assumption).
  assert (Hocc : occ (Process_resume p) rest (events w1) = 0%nat).
  { pose proof (coh_once _ _ HC p) as H. cbn [pend mk] in H.
    rewrite occ_cons, decide_True in H by reflexivity. lia. }
  assert (HC1 : Coh (mk rest None w1) w1).
  { apply (Coh_drop _ rest None _ w1 HC). discriminate. }
  apply wp_bind. eapply wp_mono.
  - apply (resume_loop_locked rest p _ g w1); [|exact HInv1|exact HL1].
    split; [|split; [exact Hp|]].
    + split; [|exact Hq].
      exact (Coh_activate rest _ w1 p g HC1 eq_refl Hp Hocc).
    + intros reqs Hj. apply (coh_woken _ _ HC p g reqs); [|exact Hp|exact Hj].
      apply list_elem_of_here.
  - intros u w2 HL2. apply wp_modify.
    exact (st_active _ _ _ stable_locked w2 None HL2).
Qed.

Lemma call_locked cb rest w :
  steady (cb :: rest) None w -> Inv w -> locked w ->
  wp (Environment.call cb) (fun _ w' => locked w') w.
Proof.
  intros Hs HInv HL. destruct cb as [p|c|c|r|r]; cbn [Environment.call].
  - exact (resume_locked rest w p Hs HInv HL).
  - exact (keeps_check _ _ _ stable_locked c w HL).
  - exact (keeps_build_value _ _ _ stable_locked c w HL).
  - exact (keeps_trigger_get _ _ _ stable_locked r w HL).
  - exact (keeps_trigger_put _ _ _ stable_locked r w HL).
Qed.

Lemma calls_locked : forall cbs w,
  steady cbs None w -> Inv w -> locked w ->
  wp (for_each Environment.call cbs) (fun _ w' => locked w') w.
Proof.
  induction cbs as [|cb cbs IH]; intros w Hs HInv HL; cbn [for_each].
  - apply wp_ret. exact HL.
  - apply wp_bind. eapply wp_mono.
    + apply wp_conj; [apply wp_conj|].
      * exact (call_ok cb cbs w Hs).
      * exact (fun a w' E => pres_call cb w a w' HInv E).
      * exact (call_locked cb cbs w Hs HInv HL).
    + intros u w1 ((Hs1 & HInv1) & HL1). exact (IH w1 Hs1 HInv1 HL1).
Qed.

(** The callbacks that [Environment.step] detaches are about to be called. *)
Lemma step_detaches w t prio i ev q e cbs :
  steady [] None w -> queue w = (t, prio, i, ev) :: q ->
  events (set_now t (set_queue q (eid w) w)) !! ev = Some e ->
  callbacks e = Some cbs ->
  steady cbs None
    (set_events (<[ev := {| callbacks := None; triggered := triggered e;
                            kind := kind e |}]>
                   (events (set_now t (set_queue q (eid w) w))))
       (set_now t (set_queue q (eid w) w))).
Proof.
  intros [HC Hq] Hqu He Hcbs.
  set (w1 := set_now t (set_queue q (eid w) w)) in *.
  assert (Hev : is_triggered (events w) ev).
  { apply (coh_queue _ _ HC (t, prio, i, ev)). rewrite Hqu. apply list_elem_of_here. }
  assert (HC1 : Coh (mk [] None w1) w1).
  { apply (Coh_same _ w w1 HC); try reflexivity.
    cbn. intros x Hx. apply (coh_queue _ _ HC). rewrite Hqu.
    apply list_elem_of_further. exact Hx. }
  assert (Hcbl : cbl e = cbs) by exact (cbl_of_Some _ _ Hcbs).
  assert (Ht : triggered e = true).
  { destruct Hev as (e' & He' & Ht). cbn in He. unfold ref in *. congruence. }
  split; [|exact Hq].
  rewrite mk_put.
  apply (Coh_put (mk [] None w1) (mk cbs None w1) w1 ev e _ HC1 eq_refl eq_refl He);
    cbn [callbacks triggered kind pend mk cbl default from_option id].
  - tauto.
  - apply kind_like_refl.
  - intros _. exact Ht.
  - rewrite app_nil_r, <- Hcbl. exact (fresh_lookup _ w1 ev e HC1 He).
  - intros r pr _ _. left. exact Ht.
  - intros g Hg. left. exact Hg.
  - intros evs k _ _. left. exact Ht.
  - intros cb Hin. right. rewrite Hcbl. split; assumption.
  - intros c0 Hin. inversion Hin.
  - intros p Hin. inversion Hin.
  - intros p. left. rewrite Hcbl. unfold count at 2 3. simpl. lia.
  - intros c0 ec evs k _ Hc0 Hkc _. split.
    + exists k. split; [|split; [reflexivity|]].
      * intros ->. subst w1. cbn in He, Hc0. unfold ref in *. congruence.
      * rewrite Hcbl. unfold count at 2 3. simpl. lia.
    + intros _. left. exact Ht.
Qed.

Lemma step_locked w u w' :
  steady [] None w -> Inv w -> locked w ->
  Environment.step w = Some (u, w') -> locked w'.
Proof.
  intros Hs HInv HL H.
  destruct (step_pops _ _ _ H) as (t & prio & i & ev & q & Hq & Hev).
  unfold process_event in Hev.
  set (w1 := set_now t (set_queue q (eid w) w)) in *.
  apply bind_Some in Hev as (e & w1' & H1 & Hev).
  unfold simpy.get_event in H1.
  destruct (events w1 !! ev) as [e'|] eqn:He; [|discriminate].
  injection H1 as -> <-.
  destruct (callbacks e) as [cbs|] eqn:Hcbs; [|discriminate].
  apply bind_Some in Hev as ([] & w2 & H2 & Hev).
  unfold simpy.put_event, modify in H2. injection H2 as <-.
  refine (calls_locked cbs _ _ _ _ u w' Hev).
  - exact (step_detaches w t prio i ev q e cbs Hs Hq He Hcbs).
  - apply (pres_put_event ev _ w1 tt _ (Inv_pop _ _ _ _ _ _ HInv Hq) eq_refl).
  - apply (st_put _ _ _ stable_locked w1 ev e); [|exact He|apply kind_same_refl].
    destruct HL as [H1 H2 H3 H4 H5]. constructor; assumption.
Qed.

Lemma locked_StationSimulation g : locked (StationSimulation g).
Proof.
  constructor; cbn [points events event_log StationSimulation].
  - reflexivity.
  - intros name pt H. unfold initial_points in H.
    repeat (apply lookup_insert_Some in H as [[_ <-]|[_ H]]; [left; reflexivity|]).
    rewrite lookup_empty in H. discriminate.
  - intros p g0 (e & He & _). rewrite lookup_nil in He. discriminate.
  - intros p g0 path (e & He & _). rewrite lookup_nil in He. discriminate.
  - constructor.
Qed.

Lemma apply_op_locked op w w' :
  steady [] None w -> Inv w -> locked w -> apply_op op w = Some w' -> locked w'.
Proof.
  intros Hs HInv HL H. destruct op as [t|script| |g]; cbn [apply_op] in H.
  - destruct (simpy.process _ w) as [[p w1]|] eqn:E; [|discriminate].
    injection H as <-.
    refine (keeps_process _ _ _ stable_locked _ _ w HL p w1 E).
    split; [|reflexivity]. intros p0 H0. discriminate.
  - destruct (simpy.process _ w) as [[p w1]|] eqn:E; [|discriminate].
    injection H as <-.
    refine (keeps_process _ _ _ stable_locked _ _ w HL p w1 E).
    split; [|reflexivity]. intros p0 H0. discriminate.
  - destruct (Environment.step w) as [[u w1]|] eqn:E; [|discriminate].
    injection H as <-. exact (step_locked w u w1 Hs HInv HL E).
  - injection H as <-. destruct HL as [H1 H2 H3 H4 H5]. constructor; assumption.
Qed.

Lemma exec_locked ops : forall w w',
  steady [] None w -> Inv w -> locked w -> exec ops w = Some w' -> locked w'.
Proof.
  induction ops as [|op ops IH]; intros w w' Hs HInv HL H; cbn [exec] in H.
  - injection H as <-. exact HL.
  - destruct (apply_op op w) as [w1|] eqn:E; [|discriminate].
    exact (IH w1 w' (steady_apply_op op w w1 Hs E) (Inv_apply_op _ _ _ HInv E)
             (apply_op_locked op w w1 Hs HInv HL E) H).
Qed.

(** X13. The points do not move under a train.  In every world the driver
    can reach (any trains, scripts, steps and timings), a path process that
    is beyond its joint wait, from [points_set] until it ends, runs one of
    the five paths of the station, and every point of that path is in the
    position the path has written, normal or reverse: no other train has
    changed it.  And every point of the station is normal or reverse. *)
Theorem points_stay_set_under_a_train
    (g : Globals) (ops : list DriverOp) (w : World) (p : ref) (e : Event)
    (gen : Gen) (path : Path) :
  exec ops (StationSimulation g) = Some w ->
  events w !! p = Some e -> kind e = Process gen ->
  on_route gen = Some path ->
  path ∈ known_paths
  /\ (forall name, name ∈ path_points path ->
        exists pt, points w !! name = Some pt /\ state pt = path_state path)
  /\ (forall name pt, points w !! name = Some pt -> position (state pt)).
Proof.
  intros Hexec He Hk Hon.
  pose proof (exec_locked ops _ w (steady_StationSimulation g)
                (Inv_StationSimulation g) (locked_StationSimulation g) Hexec) as HL.
  assert (Hp : frame (events w) p gen) by (exists e; split; assumption).
  destruct (on_route_past gen path Hon) as (Hpath & _).
  split; [exact (proj1 (lk_known _ HL p gen Hp path Hpath))|]. split.
  - intros name Hn. pose proof (lk_lock _ HL p gen path Hp Hon name Hn) as Hs.
    destruct (points w !! name) as [pt|]; [|discriminate].
    exists pt. split; [reflexivity|]. cbn in Hs. congruence.
  - exact (lk_states _ HL).
Qed.

Lemma points_stay_set_under_a_train_witness :
  path_down_siding ∈ known_paths
  /\ (forall name, name ∈ path_points path_down_siding ->
        exists pt, points crossing_world !! name = Some pt
                   /\ state pt = path_state path_down_siding)
  /\ (forall name pt, points crossing_world !! name = Some pt ->
        position (state pt)).
Proof.
  apply (points_stay_set_under_a_train initial_globals crossing_ops
           crossing_world 6%nat (crossing_event 6%nat)
           (path_dwell path_down_siding "S1" "south"
              [(10, 11); (11, 12); (14, 13)]%nat 0
              line3_down_main_approach 18%nat)
           path_down_siding).
  - vm_compute. reflexivity.
  - vm_compute. reflexivity.
  - vm_compute. reflexivity.
  - reflexivity.
Defined.

(** ** One train a direction *)

(** Two of the five paths that have a section in common have a point in
    common. *)
Definition share_track (p1 p2 : Path) : bool :=
  existsb (fun s1 => existsb (fun s2 => Nat.eqb (fst (fst s1)) (fst (fst s2)))
                       (path_tracks p2)) (path_tracks p1).

Definition share_point (p1 p2 : Path) : bool :=
  existsb (fun n1 => existsb (String.eqb n1) (path_points p2)) (path_points p1).

Lemma share_track_point p1 p2 :
  p1 ∈ known_paths -> p2 ∈ known_paths ->
  share_track p1 p2 = true -> share_point p1 p2 = true.
Proof.
  unfold known_paths. intros H1 H2.
  repeat (apply elem_of_cons in H1 as [->|H1]);
    try (inversion H1; fail);
    repeat (apply elem_of_cons in H2 as [->|H2]);
    try (inversion H2; fail); vm_compute; intros H; try exact H; reflexivity.
Qed.

Lemma share_point_spec p1 p2 :
  share_point p1 p2 = true ->
  exists name, name ∈ path_points p1 /\ name ∈ path_points p2.
Proof.
  unfold share_point. intros H. apply existsb_exists in H as (n1 & H1 & H).
  apply existsb_exists in H as (n2 & H2 & E). apply String.eqb_eq in E. subst n2.
  exists n1. split; apply list_elem_of_In; assumption.
Qed.

Lemma share_track_spec p1 p2 s1 s2 :
  s1 ∈ path_tracks p1 -> s2 ∈ path_tracks p2 -> fst (fst s1) = fst (fst s2) ->
  share_track p1 p2 = true.
Proof.
  intros H1 H2 E. unfold share_track. apply existsb_exists. exists s1.
  split; [apply list_elem_of_In; exact H1|]. apply existsb_exists. exists s2.
  split; [apply list_elem_of_In; exact H2|]. apply Nat.eqb_eq. exact E.
Qed.

(** A request of a path beyond its joint wait is among the users of its
    resource. *)
Lemma past_joint_in_use c w p g reqs r q :
  Coh c w -> (forall own, active c <> Some (p, own)) ->
  frame (events w) p g -> past_joint g = Some reqs -> (r, q) ∈ reqs ->
  in_use (resources w) r q
  /\ exists e, events w !! q = Some e /\ kind e = Request r (Some p).
Proof.
  intros HC Hna Hp Hpast Hrq.
  destruct (coh_past _ _ HC p g reqs Hp Hpast _ Hrq) as (eq & Heq & Ht).
  pose proof (coh_frames _ _ HC p g Hp Hna) as Hown.
  destruct (owned_req _ _ _ _ Hown r q (past_joint_requests _ _ _ Hpast Hrq))
    as (e' & He' & Hk' & Hu).
  split; [|exists e'; split; assumption].
  apply Hu. cbn [snd] in Heq. unfold ref in *. congruence.
Qed.

Lemma on_route_exclusive w p1 p2 g1 g2 path1 path2 name :
  steady [] None w -> Inv w -> locked w ->
  frame (events w) p1 g1 -> on_route g1 = Some path1 ->
  frame (events w) p2 g2 -> on_route g2 = Some path2 ->
  name ∈ path_points path1 -> name ∈ path_points path2 ->
  p1 = p2.
Proof.
  intros [HC _] HInv HL Hp1 Hon1 Hp2 Hon2 Hn1 Hn2.
  destruct (on_route_past g1 path1 Hon1) as (Hpath1 & reqs1 & Hpast1 & Hgr1).
  destruct (on_route_past g2 path2 Hon2) as (Hpath2 & reqs2 & Hpast2 & Hgr2).
  destruct (lk_known _ HL p1 g1 Hp1 path1 Hpath1) as [_ Hm1].
  destruct (lk_known _ HL p2 g2 Hp2 path2 Hpath2) as [_ Hm2].
  destruct (requests_match_elem _ _ name (Hm1 reqs1 Hgr1) Hn1) as ([r q1] & Hrq1 & Hr1).
  destruct (requests_match_elem _ _ name (Hm2 reqs2 Hgr2) Hn2) as ([r' q2] & Hrq2 & Hr2).
  cbn [fst] in Hr1, Hr2. assert (r' = r) as -> by congruence.
  destruct (past_joint_in_use _ w p1 g1 reqs1 r q1 HC) as [(x1 & Hx1 & Hu1) (a1 & Ha1 & Hka1)];
    try assumption; [discriminate|].
  destruct (past_joint_in_use _ w p2 g2 reqs2 r q2 HC) as [(x2 & Hx2 & Hu2) (a2 & Ha2 & Hka2)];
    try assumption; [discriminate|].
  assert (x2 = x1) as -> by (unfold ref in *; congruence).
  destruct (proj1 (Forall_lookup _ _) (inv_resources _ HInv) r x1 Hx1) as [_ Hlen _].
  assert (q1 = q2) as ->.
  { destruct (users x1) as [|u [|u' us]]; simpl in Hlen; [inversion Hu1| |lia].
    apply list_elem_of_singleton in Hu1, Hu2. congruence. }
  unfold ref in *. congruence.
Qed.

(** X14. One train a direction.  In every world the driver can reach, two
    different path processes that are both beyond their joint wait run
    paths with no point in common and no track section in common: the
    sections a train still has before it are free of any other train that
    has set its points.  Since the two UP paths share P1 and P2 and the
    three DOWN paths share P3 and P4, at most one train a direction is on
    its route. *)
Theorem trains_on_route_have_separate_routes
    (g : Globals) (ops : list DriverOp) (w : World)
    (p1 p2 : ref) (e1 e2 : Event) (g1 g2 : Gen) (path1 path2 : Path) :
  exec ops (StationSimulation g) = Some w ->
  events w !! p1 = Some e1 -> kind e1 = Process g1 -> on_route g1 = Some path1 ->
  events w !! p2 = Some e2 -> kind e2 = Process g2 -> on_route g2 = Some path2 ->
  p1 <> p2 ->
  (forall name, name ∈ path_points path1 -> name ∉ path_points path2)
  /\ (forall s1 s2, s1 ∈ path_tracks path1 -> s2 ∈ path_tracks path2 ->
        fst (fst s1) <> fst (fst s2))
  /\ (path1 ∈ [path_up_main; path_up_platform]
      <-> path2 ∈ [path_down_main; path_down_platform; path_down_siding]).
Proof.
  intros Hexec He1 Hk1 Hon1 He2 Hk2 Hon2 Hne.
  pose proof (steady_exec ops _ w (steady_StationSimulation g) Hexec) as Hs.
  pose proof (Inv_exec _ _ _ (Inv_StationSimulation g) Hexec) as HInv.
  pose proof (exec_locked ops _ w (steady_StationSimulation g)
                (Inv_StationSimulation g) (locked_StationSimulation g) Hexec) as HL.
  assert (Hp1 : frame (events w) p1 g1) by (exists e1; split; assumption).
  assert (Hp2 : frame (events w) p2 g2) by (exists e2; split; assumption).
  assert (Hpts : forall name, name ∈ path_points path1 -> name ∉ path_points path2).
  { intros name H1 H2. apply Hne.
    exact (on_route_exclusive w p1 p2 g1 g2 path1 path2 name Hs HInv HL
             Hp1 Hon1 Hp2 Hon2 H1 H2). }
  destruct (on_route_past g1 path1 Hon1) as (Hpath1 & _).
  destruct (on_route_past g2 path2 Hon2) as (Hpath2 & _).
  destruct (lk_known _ HL p1 g1 Hp1 path1 Hpath1) as [Hk1' _].
  destruct (lk_known _ HL p2 g2 Hp2 path2 Hpath2) as [Hk2' _].
  assert (Hno : share_point path1 path2 = false).
  { destruct (share_point path1 path2) eqn:E; [|reflexivity].
    destruct (share_point_spec _ _ E) as (name & H1 & H2).
    destruct (Hpts name H1 H2). }
  split; [exact Hpts|]. split.
  - intros s1 s2 H1 H2 E.
    pose proof (share_track_point _ _ Hk1' Hk2' (share_track_spec _ _ _ _ H1 H2 E)).
    congruence.
  - clear -Hk1' Hk2' Hno. unfold known_paths in *.
    repeat (apply elem_of_cons in Hk1' as [->|Hk1']);
      try (inversion Hk1'; fail);
      repeat (apply elem_of_cons in Hk2' as [->|Hk2']);
      try (inversion Hk2'; fail);
      try (vm_compute in Hno; discriminate);
      (split; intros H;
       first [ solve [repeat first [apply list_elem_of_here
                                   |apply list_elem_of_further]]
             | exfalso;
               repeat (apply elem_of_cons in H as [H|H];
                       [cbv in H; discriminate H|]);
               inversion H ]).
Qed.

Lemma trains_on_route_have_separate_routes_witness :
  (forall name, name ∈ path_points path_up_main ->
     name ∉ path_points path_down_siding)
  /\ (forall s1 s2, s1 ∈ path_tracks path_up_main ->
        s2 ∈ path_tracks path_down_siding -> fst (fst s1) <> fst (fst s2))
  /\ (path_up_main ∈ [path_up_main; path_up_platform]
      <-> path_down_siding
          ∈ [path_down_main; path_down_platform; path_down_siding]).
Proof.
  apply (trains_on_route_have_separate_routes initial_globals crossing_ops
           crossing_world 4%nat 6%nat (crossing_event 4%nat) (crossing_event 6%nat)
           (path_dwell path_up_main "N1" "north" [(8, 8); (9, 9)]%nat 0
              line2_up_main_approach 16%nat)
           (path_dwell path_down_siding "S1" "south"
              [(10, 11); (11, 12); (14, 13)]%nat 0
              line3_down_main_approach 18%nat)).
  - vm_compute. reflexivity.
  - vm_compute. reflexivity.
  - vm_compute. reflexivity.
  - reflexivity.
  - vm_compute. reflexivity.
  - vm_compute. reflexivity.
  - reflexivity.
  - lia.
Defined.

(** ** The points of a route are held together

    What joint acquisition guarantees once it is over, in every world. *)

(** C1, amended. Each point of the set is requested on its own and is
    granted as soon as it is free, so a waiting train can hold a strict part
    of its set.  But whatever the driver does (any trains, any scripts, any
    number of steps, any timings), a path that has passed its joint wait,
    written the positions and logged [points_set] runs one of the five paths
    of the station and holds every point of the set of that path, and does so
    until it ends: point by point, in the order of the set, the requests of
    its frame are requests of this process for the resource of the point, and
    each of them is the one user of that resource. *)
Theorem points_set_only_with_all_points_held
    (g : Globals) (ops : list DriverOp) (w : World) (p : ref) (e : Event)
    (gen : Gen) (path : Path) (reqs : list (ref * ref)) :
  exec ops (StationSimulation g) = Some w ->
  events w !! p = Some e -> kind e = Process gen ->
  on_route gen = Some path -> past_joint gen = Some reqs ->
  path ∈ known_paths
  /\ Forall2 (fun name rq =>
       exists pt request x,
         points w !! name = Some pt /\ resource pt = fst rq
         /\ events w !! snd rq = Some request
         /\ kind request = Request (fst rq) (Some p)
         /\ resources w !! fst rq = Some x /\ users x = [snd rq]
         /\ held w rq = true)
       (path_points path) reqs.
Proof.
  intros Hexec He Hk Hon Hpast.
  pose proof (steady_exec ops _ w (steady_StationSimulation g) Hexec) as [HC _].
  pose proof (Inv_exec _ _ _ (Inv_StationSimulation g) Hexec) as HI.
  pose proof (exec_locked ops _ w (steady_StationSimulation g)
                (Inv_StationSimulation g) (locked_StationSimulation g) Hexec) as HL.
  assert (Hp : frame (events w) p gen) by (exists e; split; assumption).
  destruct (on_route_past gen path Hon) as (Hpath & reqs' & Hpast' & Hreqs).
  assert (reqs' = reqs) as -> by congruence.
  destruct (lk_known _ HL p gen Hp path Hpath) as [Hin Hmatch].
  split; [exact Hin|].
  specialize (Hmatch reqs Hreqs).
  assert (Hown : owned (events w) (resources w) p (requests_of gen)).
  { apply (coh_frames _ _ HC p gen Hp). discriminate. }
  assert (Hsub : forall rq, rq ∈ reqs -> rq ∈ requests_of gen).
  { intros rq Hrq. destruct gen; simpl in Hpast; try discriminate;
      injection Hpast as <-; simpl; apply list_elem_of_further; exact Hrq. }
  apply Forall2_same_length_lookup in Hmatch as [Hlen Hmatch].
  apply Forall2_same_length_lookup. split; [exact Hlen|].
  intros i name [r q] Hname Hi. pose proof (Hmatch i name (r, q) Hname Hi) as Href.
  assert (Hrq : (r, q) ∈ reqs) by exact (list_elem_of_lookup_2 _ _ _ Hi).
  cbn [fst snd] in *.
  assert (Hpt : exists pt, points w !! name = Some pt /\ resource pt = r).
  { unfold point_ref in Href.
    rewrite <- lookup_fmap, <- (lk_res _ HL), lookup_fmap in Href.
    destruct (points w !! name) as [pt|]; [|discriminate].
    exists pt. split; [reflexivity|]. cbn in Href. congruence. }
  destruct Hpt as (pt & Hpt & Hr).
  destruct (owned_req _ _ _ _ Hown r q (Hsub _ Hrq)) as (rqe & Hrqe & Hkind & Huse).
  pose proof (coh_past _ _ HC p gen reqs Hp Hpast (r, q) Hrq) as (rqe' & Hrqe' & Ht).
  cbn [snd] in Hrqe'. assert (rqe' = rqe) as -> by (unfold ref in *; congruence).
  destruct (Huse Ht) as (x & Hx & Hq).
  destruct (proj1 (Forall_lookup _ _) (inv_resources _ HI) r x Hx) as [_ Hu _].
  exists pt, rqe, x. repeat split; try assumption.
  - destruct (users x) as [|u [|u' us]]; [inversion Hq| |simpl in Hu; lia].
    apply list_elem_of_singleton in Hq. congruence.
  - apply in_use_held. exists x. split; assumption.
Qed.

Lemma points_set_only_with_all_points_held_witness :
  path_down_siding ∈ known_paths
  /\ Forall2 (fun name rq =>
       exists pt request x,
         points crossing_world !! name = Some pt /\ resource pt = fst rq
         /\ events crossing_world !! snd rq = Some request
         /\ kind request = Request (fst rq) (Some 6%nat)
         /\ resources crossing_world !! fst rq = Some x /\ users x = [snd rq]
         /\ held crossing_world rq = true)
       (path_points path_down_siding) [(10, 11); (11, 12); (14, 13)]%nat.
Proof.
  apply (points_set_only_with_all_points_held initial_globals crossing_ops
           crossing_world 6%nat (crossing_event 6%nat)
           (path_dwell path_down_siding "S1" "south"
              [(10, 11); (11, 12); (14, 13)]%nat 0
              line3_down_main_approach 18%nat)).
  - vm_compute. reflexivity.
  - vm_compute. reflexivity.
  - vm_compute. reflexivity.
  - reflexivity.
  - reflexivity.
Defined.

(** ** Every grant is given back

    A request uses a resource or waits for it only while the process that
    made it is inside the [with] block of the request: when the block is
    left, [Request.__exit__] has taken the request out of the users (or out
    of the queue), and nothing else puts it back. *)

(** The requests that use a resource or wait for it. *)
Definition booked (x : Resource) : list ref := users x ++ put_queue x.

(** The process [p] is inside the [with] blocks of the requests [own]: the
    running process with the requests it has made and not given back, or a
    suspended one with the requests of its frame. *)
Definition inside (a : option (ref * list (ref * ref))) (es : list Event)
    (p : ref) (own : list (ref * ref)) : Prop :=
  a = Some (p, own)
  \/ ((forall o, a <> Some (p, o))
      /\ exists g, frame es p g /\ own = requests_of g).

Definition accounted_for (rs : list Resource)
    (a : option (ref * list (ref * ref))) (es : list Event) : Prop :=
  forall (r : ref) x q, rs !! r = Some x -> q ∈ booked x ->
    (q < length es)%nat /\ exists p own, inside a es p own /\ (r, q) ∈ own.

Definition once (rs : list Resource) : Prop :=
  forall (r : ref) x, rs !! r = Some x -> NoDup (booked x).

Definition accounted (a : option (ref * list (ref * ref))) (w : World) : Prop :=
  once (resources w) /\ accounted_for (resources w) a (events w).

Lemma inside_put a es (x : ref) e e' p own :
  es !! x = Some e -> kind_same (kind e) (kind e') ->
  inside a es p own -> inside a (<[x := e']> es) p own.
Proof.
  intros He Hk [H|(Hn & g & (e0 & He0 & Hg0) & Hown)]; [left; exact H|right].
  split; [exact Hn|]. exists g. split; [|exact Hown].
  destruct (decide (p = x)) as [->|Hne].
  - exists e'. split; [apply list_lookup_insert_eq; exact (lookup_lt_Some _ _ _ He)|].
    assert (e0 = e) as -> by congruence. rewrite Hg0 in Hk. exact Hk.
  - exists e0. split; [|exact Hg0]. rewrite list_lookup_insert_ne by congruence.
    exact He0.
Qed.

Lemma inside_app a es e p own : inside a es p own -> inside a (es ++ [e]) p own.
Proof.
  intros [H|(Hn & g & (e0 & He0 & Hg0) & Hown)]; [left; exact H|right].
  split; [exact Hn|]. exists g. split; [|exact Hown].
  exists e0. split; [|exact Hg0]. apply lookup_app_l_Some. exact He0.
Qed.

Lemma stable_accounted_for rs a :
  stable (fun w => accounted_for rs a (events w)) (fun _ => True) (fun _ => True).
Proof.
  constructor; try (intros; assumption).
  - intros w x e e' H He Hk r y q Hr Hq. cbn [events set_events].
    destruct (H r y q Hr Hq) as (Hlt & p & own & Hin & Hown).
    split; [rewrite length_insert; exact Hlt|].
    exists p, own. split; [|exact Hown]. exact (inside_put _ _ _ _ _ _ _ He Hk Hin).
  - intros w e H _ r y q Hr Hq. cbn [events set_events].
    destruct (H r y q Hr Hq) as (Hlt & p & own & Hin & Hown).
    split; [rewrite length_app; lia|].
    exists p, own. split; [|exact Hown]. exact (inside_app _ _ _ _ _ Hin).
Qed.

(** *** Operations that leave the resources alone *)

Definition spares {A} (m : Sim A) : Prop :=
  forall w a w', m w = Some (a, w') -> resources w' = resources w.

Lemma spares_ret {A} (a : A) : spares (ret a).
Proof. intros w b w' H. inversion H; subst. reflexivity. Qed.

Lemma spares_raise {A} : spares (@raise A).
Proof. intros w b w' H. discriminate. Qed.

Lemma spares_gets {A} (f : World -> A) : spares (gets f).
Proof. intros w b w' H. inversion H; subst. reflexivity. Qed.

Lemma spares_bind {A B} (m : Sim A) (k : A -> Sim B) :
  spares m -> (forall a, spares (k a)) -> spares (bind m k).
Proof.
  intros Hm Hk w b w' H. apply bind_Some in H as (a & w1 & H1 & H2).
  rewrite (Hk a w1 b w' H2). exact (Hm w a w1 H1).
Qed.

Lemma spares_for_each {A} (f : A -> Sim unit) xs :
  (forall x, spares (f x)) -> spares (for_each f xs).
Proof.
  intros Hf. induction xs as [|x xs IH]; simpl.
  - apply spares_ret.
  - apply spares_bind; [apply Hf|intros _; exact IH].
Qed.

Lemma spares_modify (f : World -> World) :
  (forall w, resources (f w) = resources w) -> spares (modify f).
Proof. intros Hf w [] w' H. inversion H; subst. apply Hf. Qed.

Lemma spares_new_event e : spares (simpy.new_event e).
Proof. intros w a w' H. inversion H; subst. reflexivity. Qed.

Lemma spares_get_event ev : spares (simpy.get_event ev).
Proof.
  intros w a w' H. unfold simpy.get_event in H.
  destruct (events w !! ev); inversion H; subst. reflexivity.
Qed.

Lemma spares_get_point name : spares (get_point name).
Proof.
  intros w a w' H. unfold get_point in H.
  destruct (points w !! name); inversion H; subst. reflexivity.
Qed.

Create HintDb spares.
#[local] Hint Resolve spares_new_event spares_get_event spares_get_point : spares.

Ltac spares_tac :=
  repeat match goal with
    | |- spares (ret _) => apply spares_ret
    | |- spares raise => apply spares_raise
    | |- spares (gets _) => apply spares_gets
    | |- spares (modify _) => apply spares_modify; intros ?; reflexivity
    | |- spares (bind _ _) => apply spares_bind; [|intros ?]
    | |- spares (for_each _ _) => apply spares_for_each; intros ?
    | |- spares (match ?x with _ => _ end) => destruct x
    | |- spares (if ?x then _ else _) => destruct x
    | |- spares _ => solve [auto with spares]
    end.

Lemma spares_put_event ev e : spares (simpy.put_event ev e).
Proof. unfold simpy.put_event. spares_tac. Qed.

Lemma spares_schedule ev prio delay : spares (simpy.schedule ev prio delay).
Proof. unfold simpy.schedule. spares_tac. Qed.

Lemma spares_log_event tid dir ev d : spares (log_event tid dir ev d).
Proof. unfold log_event. spares_tac. Qed.

#[local] Hint Resolve spares_put_event spares_schedule spares_log_event : spares.

Lemma spares_append_callback ev cb : spares (simpy.append_callback ev cb).
Proof. unfold simpy.append_callback. spares_tac. Qed.

Lemma spares_succeed ev : spares (simpy.succeed ev).
Proof. unfold simpy.succeed. spares_tac. Qed.

#[local] Hint Resolve spares_append_callback spares_succeed : spares.

Lemma spares_timeout delay : spares (simpy.timeout delay).
Proof. unfold simpy.timeout. spares_tac. Qed.

Lemma spares_process g : spares (simpy.process g).
Proof. unfold simpy.process. spares_tac. Qed.

Lemma spares_check c : spares (simpy.check c).
Proof. unfold simpy.check. spares_tac. Qed.

#[local] Hint Resolve spares_timeout spares_process spares_check : spares.

Lemma spares_all_of evs : spares (simpy.all_of evs).
Proof. unfold simpy.all_of. spares_tac. Qed.

#[local] Hint Resolve spares_all_of : spares.

Lemma spares_and_events a rest : spares (simpy.and_events a rest).
Proof.
  unfold simpy.and_events.
  assert (H : forall acc, spares acc ->
            spares (fold_left (fun acc b => c <- acc ;; simpy.all_of [c; b]) rest acc)).
  { induction rest as [|b rest IH]; intros acc Hacc; simpl; [exact Hacc|].
    apply IH. spares_tac. }
  apply H, spares_ret.
Qed.

Lemma spares_remove_check_callbacks depth :
  forall c, spares (simpy.remove_check_callbacks depth c).
Proof.
  induction depth as [|depth IH]; intros c; simpl; spares_tac; apply IH.
Qed.

Lemma spares_build_value c : spares (simpy.build_value c).
Proof. apply spares_remove_check_callbacks. Qed.

Lemma spares_set_point_state position name : spares (set_point_state position name).
Proof. unfold set_point_state. spares_tac. Qed.

#[local] Hint Resolve spares_and_events spares_build_value
  spares_set_point_state : spares.

(** An operation that leaves the resources alone and writes events as the
    kernel does keeps the account. *)
Lemma accounted_quiet {A} (m : Sim A) a w :
  spares m ->
  (forall rs, keeps (fun w' => accounted_for rs a (events w')) m) ->
  accounted a w -> wp m (fun _ w' => accounted a w') w.
Proof.
  intros Hs Hk [Ho Ha] b w' E. unfold accounted. rewrite (Hs w b w' E).
  split; [exact Ho|]. exact (Hk (resources w) w Ha b w' E).
Qed.

(** *** Requesting and releasing *)

Lemma once_insert rs (r : ref) x' :
  once rs -> NoDup (booked x') -> once (<[r := x']> rs).
Proof.
  intros Ho Hx r0 y Hy. destruct (decide (r0 = r)) as [->|Hne].
  - destruct (lookup_lt_is_Some_2 rs r) as [x Hlk].
    { apply lookup_lt_Some in Hy. rewrite length_insert in Hy. exact Hy. }
    rewrite list_lookup_insert_eq in Hy by exact (lookup_lt_Some _ _ _ Hlk).
    injection Hy as <-. exact Hx.
  - rewrite list_lookup_insert_ne in Hy by congruence. exact (Ho r0 y Hy).
Qed.

Lemma accounted_for_insert rs a es (r : ref) x x' :
  accounted_for rs a es -> rs !! r = Some x ->
  (forall q, q ∈ booked x' -> q ∈ booked x) ->
  accounted_for (<[r := x']> rs) a es.
Proof.
  intros Ha Hx Hsub r0 y q Hy Hq. destruct (decide (r0 = r)) as [->|Hne].
  - rewrite list_lookup_insert_eq in Hy by exact (lookup_lt_Some _ _ _ Hx).
    injection Hy as <-. exact (Ha r x q Hx (Hsub q Hq)).
  - rewrite list_lookup_insert_ne in Hy by congruence. exact (Ha r0 y q Hy Hq).
Qed.

Lemma succeed_triggers ev w :
  wp (simpy.succeed ev) (fun _ w' => is_triggered (events w') ev) w.
Proof.
  unfold simpy.succeed. apply wp_bind, wp_get_event. intros e He.
  destruct (triggered e); [apply wp_raise|].
  apply wp_bind, wp_put_event. unfold simpy.schedule. apply wp_modify.
  cbn [events set_events set_queue]. eexists. split.
  - apply list_lookup_insert_eq. exact (lookup_lt_Some _ _ _ He).
  - reflexivity.
Qed.

(** A step in the middle of an operation on a resource: the events move on,
    the resources stay. *)
Lemma quiet_step {A} (m : Sim A) rs0 a rs w :
  spares m ->
  keeps (fun w' => accounted_for rs0 a (events w')) m ->
  accounted_for rs0 a (events w) -> resources w = rs ->
  wp m (fun _ w' => accounted_for rs0 a (events w') /\ resources w' = rs) w.
Proof.
  intros Hs Hk Ha Hr b w' E. split; [exact (Hk w Ha b w' E)|].
  rewrite (Hs w b w' E). exact Hr.
Qed.

Lemma accounted_trigger_put a r w :
  accounted a w -> wp (simpy.trigger_put r) (fun _ w' => accounted a w') w.
Proof.
  intros [Ho Ha]. unfold simpy.trigger_put.
  apply wp_bind, wp_get_resource. intros x Hx.
  destruct (put_queue x) as [|head rest] eqn:Hpq;
    [apply wp_ret; split; assumption|].
  assert (Hnd : NoDup (booked x)) by exact (Ho r x Hx).
  unfold booked in Hnd. rewrite Hpq in Hnd.
  apply wp_bind. unfold simpy.Resource_do_put.
  apply wp_bind, wp_get_resource. intros x0 Hx0.
  assert (x0 = x) as -> by congruence.
  apply wp_bind, wp_gets.
  destruct (length (users x) <? capacity x)%nat.
  - apply wp_bind, wp_put_resource.
    set (x1 := {| capacity := capacity x; users := users x ++ [head];
                  put_queue := put_queue x; get_queue := get_queue x;
                  history := history x ++ [Granted head (now w)] |}).
    set (w1 := set_resources (<[r := x1]> (resources w)) w).
    eapply wp_mono.
    { apply wp_conj.
      - apply (quiet_step _ (resources w) a (resources w1) w1);
          [exact (spares_succeed head)| |exact Ha|reflexivity].
        exact (keeps_succeed _ _ _ (stable_accounted_for (resources w) a) head).
      - apply succeed_triggers. }
    intros u w2 ((Ha2 & Hr2) & (e2 & He2 & Ht2)). cbv beta.
    apply wp_bind, wp_get_event. intros e He.
    assert (e = e2) as -> by congruence. rewrite Ht2.
    apply wp_bind, wp_get_resource. intros x' Hx'.
    assert (Hx1 : x' = x1).
    { rewrite Hr2 in Hx'. unfold w1 in Hx'. cbn [resources set_resources] in Hx'.
      rewrite list_lookup_insert_eq in Hx' by exact (lookup_lt_Some _ _ _ Hx).
      congruence. }
    subst x'. apply wp_put_resource. unfold accounted.
    cbn [resources set_resources events]. rewrite Hr2. unfold w1.
    cbn [resources set_resources]. rewrite list_insert_insert_eq.
    split.
    + apply once_insert; [exact Ho|]. unfold booked. cbn [users put_queue x1].
      rewrite Hpq. cbn [tail]. rewrite <- app_assoc. exact Hnd.
    + apply (accounted_for_insert _ _ _ r x); [exact Ha2|exact Hx|].
      unfold booked. cbn [users put_queue x1]. rewrite Hpq. cbn [tail].
      intros q. rewrite <- app_assoc. tauto.
  - apply wp_ret. apply wp_bind, wp_get_event. intros e He.
    destruct (triggered e); [|apply wp_ret; split; assumption].
    apply wp_bind, wp_get_resource. intros x' Hx'.
    assert (x' = x) as -> by congruence.
    apply wp_put_resource. unfold accounted. cbn [resources set_resources events].
    split.
    + apply once_insert; [exact Ho|]. unfold booked. cbn [users put_queue].
      rewrite Hpq. cbn [tail]. rewrite NoDup_app in Hnd |- *.
      destruct Hnd as (H1 & H2 & H3). apply NoDup_cons in H3 as [_ H3].
      repeat split; [exact H1| |exact H3].
      intros q Hq Hq'. apply (H2 q Hq). apply list_elem_of_further. exact Hq'.
    + apply (accounted_for_insert _ _ _ r x); [exact Ha|exact Hx|].
      unfold booked. cbn [users put_queue]. rewrite Hpq. cbn [tail].
      intros q Hq. apply elem_of_app in Hq as [Hq|Hq]; apply elem_of_app;
        [left; exact Hq|right; apply list_elem_of_further; exact Hq].
Qed.

Lemma inside_more p own rq es p0 own0 :
  inside (Some (p, own)) es p0 own0 ->
  exists own1, inside (Some (p, rq :: own)) es p0 own1
               /\ forall y, y ∈ own0 -> y ∈ own1.
Proof.
  intros [H|(Hn & g & Hg & Hown)].
  - injection H as <- <-. exists (rq :: own). split; [left; reflexivity|].
    intros y Hy. apply list_elem_of_further. exact Hy.
  - exists own0. split; [|tauto]. right. split.
    + intros o [= -> _]. exact (Hn own eq_refl).
    + exists g. split; assumption.
Qed.

Lemma accounted_request p own r w :
  accounted (Some (p, own)) w ->
  wp (simpy.request r)
     (fun ev w' => accounted (Some (p, (r, ev) :: own)) w') w.
Proof.
  intros [Ho Ha]. unfold simpy.request. apply wp_bind, wp_gets.
  apply wp_bind, wp_new_event.
  set (ev := length (events w)).
  set (e := {| callbacks := Some []; triggered := false;
               kind := Request r (active_proc w) |}).
  apply wp_bind, wp_get_resource. intros x Hx. cbn [resources set_events] in Hx.
  apply wp_bind, wp_put_resource.
  set (x1 := {| capacity := capacity x; users := users x;
                put_queue := put_queue x ++ [ev]; get_queue := get_queue x;
                history := history x |}).
  set (w2 := set_resources (<[r := x1]> (resources (set_events (events w ++ [e]) w)))
               (set_events (events w ++ [e]) w)).
  assert (H2 : accounted (Some (p, (r, ev) :: own)) w2).
  { unfold accounted, w2. cbn [resources set_resources set_events events]. split.
    - apply once_insert; [exact Ho|]. unfold booked. cbn [users put_queue x1].
      rewrite app_assoc. apply NoDup_app. split; [exact (Ho r x Hx)|].
      split; [|apply NoDup_singleton].
      intros q Hq Hq'. apply list_elem_of_singleton in Hq'. subst q.
      destruct (Ha r x ev Hx Hq) as [Hlt _]. unfold ev in Hlt. lia.
    - intros r0 y q Hy Hq.
      assert (Hold : forall r1 y1, resources w !! r1 = Some y1 -> q ∈ booked y1 ->
                (q < length (events w ++ [e]))%nat
                /\ exists p0 own0, inside (Some (p, (r, ev) :: own))
                                     (events w ++ [e]) p0 own0
                                   /\ (r1, q) ∈ own0).
      { intros r1 y1 Hy1 Hq1. destruct (Ha r1 y1 q Hy1 Hq1) as (Hlt & p0 & own0 & Hin & Hown).
        split; [rewrite length_app; lia|].
        destruct (inside_more p own (r, ev) _ _ _ Hin) as (own1 & Hin1 & Hsub).
        exists p0, own1. split; [exact (inside_app _ _ _ _ _ Hin1)|exact (Hsub _ Hown)]. }
      destruct (decide (r0 = r)) as [->|Hne].
      + rewrite list_lookup_insert_eq in Hy by exact (lookup_lt_Some _ _ _ Hx).
        injection Hy as <-. unfold booked in Hq. cbn [users put_queue x1] in Hq.
        rewrite app_assoc in Hq. apply elem_of_app in Hq as [Hq|Hq].
        * exact (Hold r x Hx Hq).
        * apply list_elem_of_singleton in Hq. subst q.
          split; [rewrite length_app; cbn; unfold ev; lia|].
          exists p, ((r, ev) :: own). split; [left; reflexivity|apply list_elem_of_here].
      + rewrite list_lookup_insert_ne in Hy by congruence. exact (Hold r0 y Hy Hq). }
  apply wp_bind. eapply wp_mono.
  { apply (accounted_quiet _ (Some (p, (r, ev) :: own)) w2
             (spares_append_callback _ _)); [|exact H2].
    intros rs. exact (keeps_append_callback _ _ _ (stable_accounted_for rs _) _ _). }
  intros u w3 H3. apply wp_bind. eapply wp_mono;
    [exact (accounted_trigger_put _ r w3 H3)|].
  intros u' w4 H4. apply wp_ret. exact H4.
Qed.

Lemma list_remove_None x l : simpy.list_remove x l = None -> x ∉ l.
Proof.
  induction l as [|z l IH]; simpl; intros H Hin; [inversion Hin|].
  destruct (Nat.eqb_spec x z) as [->|Hne]; [discriminate|].
  destruct (simpy.list_remove x l); [discriminate|].
  apply elem_of_cons in Hin as [->|Hin]; [congruence|exact (IH eq_refl Hin)].
Qed.

Lemma list_remove_NoDup x l l' :
  NoDup l -> simpy.list_remove x l = Some l' -> (x ∉ l') /\ NoDup l'.
Proof.
  revert l'. induction l as [|z l IH]; simpl; intros l' Hnd H; [discriminate|].
  apply NoDup_cons in Hnd as [Hz Hnd].
  destruct (Nat.eqb_spec x z) as [->|Hne].
  - injection H as <-. split; assumption.
  - destruct (simpy.list_remove x l) as [r|] eqn:E; [|discriminate].
    injection H as <-. destruct (IH r Hnd eq_refl) as [H1 H2]. split.
    + intros Hin. apply elem_of_cons in Hin as [->|Hin]; [congruence|exact (H1 Hin)].
    + apply NoDup_cons. split; [|exact H2].
      intros Hin. exact (Hz (list_remove_sub _ _ _ E _ Hin)).
Qed.

Lemma quiet_keeps {A} (m : Sim A) (P : World -> Prop) rs w :
  spares m -> (forall w0, P w0 -> wp m (fun _ w' => P w') w0) ->
  P w -> resources w = rs ->
  wp m (fun _ w' => P w' /\ resources w' = rs) w.
Proof.
  intros Hs Hk HP Hr b w' E. split; [exact (Hk w HP b w' E)|].
  rewrite (Hs w b w' E). exact Hr.
Qed.

Definition releases (ev r req : ref) (w : World) : Prop :=
  exists e, events w !! ev = Some e /\ kind e = Release r req.

Lemma stable_releases ev r req :
  stable (releases ev r req) (fun _ => True) (fun _ => True).
Proof.
  constructor; try (intros; assumption).
  - intros w x e e' (e0 & He0 & Hk0) He Hk. unfold releases. cbn [events set_events].
    destruct (decide (ev = x)) as [->|Hne].
    + exists e'. split; [apply list_lookup_insert_eq; exact (lookup_lt_Some _ _ _ He)|].
      assert (e0 = e) as -> by congruence. rewrite Hk0 in Hk. exact Hk.
    + exists e0. split; [|exact Hk0]. rewrite list_lookup_insert_ne by congruence.
      exact He0.
  - intros w e (e0 & He0 & Hk0) _. unfold releases. exists e0. split; [|exact Hk0].
    cbn [events set_events]. apply lookup_app_l_Some. exact He0.
Qed.

(** What [Request.__exit__] does to the resources: the request is neither a
    user of its resource nor waiting for it any longer, and nothing else has
    changed hands. *)
Lemma Request_exit_effect r req w :
  once (resources w) -> waiting None w ->
  (forall e, events w !! req = Some e -> triggered e = true ->
     in_use (resources w) r req) ->
  wp (simpy.Request_exit r req)
     (fun _ w' => exists x xf,
        resources w !! r = Some x
        /\ resources w' = <[r := xf]> (resources w)
        /\ NoDup (booked xf)
        /\ forall q, q ∈ booked xf -> q ∈ booked x /\ q <> req) w.
Proof.
  intros Ho Hwait Huse. unfold simpy.Request_exit.
  apply wp_bind, wp_get_event. intros e He.
  apply wp_bind.
  apply (wp_mono _ (fun _ w1 =>
           exists x x1, resources w !! r = Some x
             /\ resources w1 = <[r := x1]> (resources w)
             /\ users x1 = users x /\ get_queue x1 = []
             /\ NoDup (booked x1) /\ (req ∉ put_queue x1)
             /\ forall q, q ∈ put_queue x1 -> q ∈ put_queue x)).
  { destruct (triggered e) eqn:Ht.
    - apply wp_ret. destruct (Huse e He Ht) as (x & Hx & Hq).
      exists x, x. split; [exact Hx|]. split; [symmetry; apply list_insert_id; exact Hx|].
      split; [reflexivity|]. split; [exact (Hwait r x Hx)|].
      pose proof (Ho r x Hx) as Hnd. split; [exact Hnd|]. split; [|tauto].
      unfold booked in Hnd. apply NoDup_app in Hnd as (_ & Hnd & _). exact (Hnd req Hq).
    - apply wp_bind, wp_get_resource. intros x Hx.
      destruct (simpy.list_remove req (put_queue x)) as [q'|] eqn:Hrm; [|apply wp_raise].
      apply wp_put_resource. cbn [resources set_resources].
      pose proof (Ho r x Hx) as Hnd. unfold booked in Hnd.
      apply NoDup_app in Hnd as (Hu & Hdis & Hp).
      destruct (list_remove_NoDup _ _ _ Hp Hrm) as [Hnin Hq'].
      eexists x, _. split; [exact Hx|]. split; [reflexivity|].
      cbn [users get_queue put_queue booked]. unfold booked. cbn [users put_queue].
      split; [reflexivity|]. split; [exact (Hwait r x Hx)|].
      split; [|split; [exact Hnin|exact (list_remove_sub _ _ _ Hrm)]].
      apply NoDup_app. split; [exact Hu|]. split; [|exact Hq'].
      intros y Hy Hy'. exact (Hdis y Hy (list_remove_sub _ _ _ Hrm y Hy')). }
  intros u w1 (x & x1 & Hx & Hr1 & Hus1 & Hgq1 & Hnd1 & Hnin1 & Hsub1). cbv beta.
  assert (Hlt : (r < length (resources w))%nat) by exact (lookup_lt_Some _ _ _ Hx).
  (* the release *)
  apply wp_bind. unfold simpy.release. apply wp_bind, wp_new_event.
  set (ev := length (events w1)).
  set (w2 := set_events (events w1 ++ [{| callbacks := Some []; triggered := false;
                                          kind := Release r req |}]) w1).
  apply wp_bind, wp_get_resource. intros x1' Hx1'.
  assert (x1' = x1) as ->.
  { cbn [resources w2 set_events] in Hx1'. rewrite Hr1 in Hx1'.
    rewrite list_lookup_insert_eq in Hx1' by exact Hlt. congruence. }
  apply wp_bind, wp_put_resource.
  set (x2 := {| capacity := capacity x1; users := users x1;
                put_queue := put_queue x1; get_queue := get_queue x1 ++ [ev];
                history := history x1 |}).
  set (w3 := set_resources (<[r := x2]> (resources w2)) w2).
  assert (Hr3 : resources w3 = <[r := x2]> (resources w)).
  { unfold w3, w2. cbn [resources set_resources set_events]. rewrite Hr1.
    apply list_insert_insert_eq. }
  assert (Hrel3 : releases ev r req w3).
  { exists {| callbacks := Some []; triggered := false; kind := Release r req |}.
    split; [|reflexivity]. unfold w3, w2. cbn [events set_resources set_events].
    unfold ev. apply list_lookup_middle. reflexivity. }
  apply wp_bind. eapply wp_mono.
  { apply (quiet_keeps _ (releases ev r req) (<[r := x2]> (resources w)) w3
             (spares_append_callback _ _));
      [|exact Hrel3|exact Hr3].
    exact (keeps_append_callback _ _ _ (stable_releases ev r req) _ _). }
  intros u1 w4 (Hrel4 & Hr4). cbv beta.
  apply wp_bind. unfold simpy.trigger_get.
  apply wp_bind, wp_get_resource. intros x2' Hx2'.
  assert (x2' = x2) as ->.
  { rewrite Hr4, list_lookup_insert_eq in Hx2' by exact Hlt. congruence. }
  cbn [get_queue x2]. rewrite Hgq1. cbn [app].
  apply wp_bind. unfold simpy.Resource_do_get.
  apply wp_bind, wp_get_event. intros eev Heev.
  destruct Hrel4 as (eev' & Heev' & Hkev).
  assert (eev' = eev) as -> by congruence. rewrite Hkev.
  apply wp_bind, wp_get_resource. intros x2' Hx2''.
  assert (x2' = x2) as ->.
  { rewrite Hr4, list_lookup_insert_eq in Hx2'' by exact Hlt. congruence. }
  apply wp_bind, wp_gets. apply wp_bind.
  (* the resource after [_do_get] *)
  apply (wp_mono _ (fun _ w5 =>
           exists x3, resources w5 = <[r := x3]> (resources w)
             /\ put_queue x3 = put_queue x1
             /\ (req ∉ users x3) /\ NoDup (users x3)
             /\ forall q, q ∈ users x3 -> q ∈ users x)).
  { unfold booked in Hnd1. apply NoDup_app in Hnd1 as (Hu1 & _ & _).
    cbn [users x2].
    destruct (simpy.list_remove req (users x1)) as [us|] eqn:Hrm.
    - apply wp_put_resource. cbn [resources set_resources]. rewrite Hr4.
      eexists. split; [apply list_insert_insert_eq|]. cbn [put_queue users x2].
      split; [reflexivity|].
      destruct (list_remove_NoDup _ _ _ Hu1 Hrm) as [H1 H2].
      split; [exact H1|]. split; [exact H2|].
      intros q Hq. rewrite <- Hus1. exact (list_remove_sub _ _ _ Hrm q Hq).
    - apply wp_ret. exists x2. split; [exact Hr4|]. cbn [put_queue users x2].
      split; [reflexivity|]. split; [exact (list_remove_None _ _ Hrm)|].
      split; [exact Hu1|]. intros q Hq. rewrite <- Hus1. exact Hq. }
  intros u2 w5 (x3 & Hr5 & Hpq3 & Hnin3 & Hnd3 & Hsub3). cbv beta.
  assert (Hfinal : forall xf, users xf = users x3 -> put_queue xf = put_queue x3 ->
            NoDup (booked xf)
            /\ forall q, q ∈ booked xf -> q ∈ booked x /\ q <> req).
  { intros xf Hu Hp. unfold booked. rewrite Hu, Hp, Hpq3. split.
    - apply NoDup_app. split; [exact Hnd3|].
      unfold booked in Hnd1. apply NoDup_app in Hnd1 as (_ & Hdis & Hp1).
      split; [|exact Hp1]. intros q Hq. apply Hdis. rewrite Hus1. exact (Hsub3 q Hq).
    - intros q Hq. apply elem_of_app in Hq as [Hq|Hq].
      + split; [apply elem_of_app; left; exact (Hsub3 q Hq)|]. congruence.
      + split; [apply elem_of_app; right; exact (Hsub1 q Hq)|]. congruence. }
  eapply wp_mono.
  { apply (quiet_keeps _ (fun _ => True) (<[r := x3]> (resources w)) w5
             (spares_succeed ev));
      [|exact I|exact Hr5].
    intros w0 _ b w' _. exact I. }
  intros u3 w6 (_ & Hr6). cbv beta.
  apply wp_bind, wp_get_event. intros e6 He6.
  destruct (triggered e6).
  - apply wp_bind, wp_get_resource. intros x3' Hx3'.
    assert (x3' = x3) as ->.
    { rewrite Hr6, list_lookup_insert_eq in Hx3' by exact Hlt. congruence. }
    apply wp_put_resource. apply wp_ret. apply wp_ret.
    cbn [resources set_resources]. rewrite Hr6.
    eexists x, _. split; [exact Hx|]. split; [apply list_insert_insert_eq|].
    apply Hfinal; reflexivity.
  - apply wp_ret. apply wp_ret. apply wp_ret.
    exists x, x3. split; [exact Hx|]. split; [exact Hr6|]. apply Hfinal; reflexivity.
Qed.

Lemma inside_less p own own' es p0 own0 :
  inside (Some (p, own)) es p0 own0 ->
  (p0 = p /\ own0 = own /\ inside (Some (p, own')) es p own')
  \/ (p0 <> p /\ inside (Some (p, own')) es p0 own0).
Proof.
  intros [H|(Hn & g & Hg & Hown)].
  - injection H as <- <-. left. split; [reflexivity|]. split; [reflexivity|].
    left. reflexivity.
  - right. assert (Hne : p0 <> p) by (intros ->; exact (Hn own eq_refl)).
    split; [exact Hne|]. right. split; [intros o [= E _]; congruence|].
    exists g. split; assumption.
Qed.

Lemma accounted_Request_exit pd p own own' w0 w r req :
  accounted (Some (p, own)) w ->
  good pd (Some (p, own)) None w0 w ->
  (r, req) ∈ own ->
  (forall y, y ∈ own -> y <> (r, req) -> y ∈ own') ->
  wp (simpy.Request_exit r req) (fun _ w' => accounted (Some (p, own')) w') w.
Proof.
  intros [Ho Ha] Hg Hin Hsub.
  eapply wp_mono.
  { apply wp_conj.
    - apply (Request_exit_effect r req w Ho (good_waiting _ _ _ _ _ Hg)).
      intros e He Ht. destruct (good_active _ _ _ _ _ _ Hg) as [_ Hown].
      destruct (owned_req _ _ _ _ Hown r req Hin) as (e' & He' & _ & Hu).
      apply Hu. unfold ref in *. congruence.
    - exact (keeps_Request_exit _ _ _ (stable_accounted_for (resources w) _)
               r req w Ha). }
  intros u w' ((x & xf & Hx & Hr & Hnd & Hq) & Ha'). cbv beta in Ha'.
  unfold accounted. rewrite Hr. split; [exact (once_insert _ _ _ Ho Hnd)|].
  intros r0 y q Hy Hqy.
  assert (Hold : exists y0, resources w !! r0 = Some y0 /\ q ∈ booked y0
                            /\ (r0, q) <> (r, req)).
  { destruct (decide (r0 = r)) as [->|Hne].
    - rewrite list_lookup_insert_eq in Hy by exact (lookup_lt_Some _ _ _ Hx).
      injection Hy as <-. destruct (Hq q Hqy) as [H1 H2].
      exists x. split; [exact Hx|]. split; [exact H1|]. congruence.
    - rewrite list_lookup_insert_ne in Hy by congruence.
      exists y. split; [exact Hy|]. split; [exact Hqy|]. congruence. }
  destruct Hold as (y0 & Hy0 & Hq0 & Hne).
  destruct (Ha' r0 y0 q Hy0 Hq0) as (Hlt & p0 & own0 & Hins & Hown).
  split; [exact Hlt|].
  destruct (inside_less p own own' _ _ _ Hins) as [(-> & -> & H)|(_ & H)].
  - exists p, own'. split; [exact H|]. exact (Hsub _ Hown Hne).
  - exists p0, own0. split; [exact H|exact Hown].
Qed.

Lemma accounted_own p own own' w :
  accounted (Some (p, own)) w -> (forall y, y ∈ own -> y ∈ own') ->
  accounted (Some (p, own')) w.
Proof.
  intros [Ho Ha] Hsub. split; [exact Ho|].
  intros r y q Hy Hq. destruct (Ha r y q Hy Hq) as (Hlt & p0 & own0 & Hins & Hown).
  split; [exact Hlt|].
  destruct (inside_less p own own' _ _ _ Hins) as [(-> & -> & H)|(_ & H)].
  - exists p, own'. split; [exact H|exact (Hsub _ Hown)].
  - exists p0, own0. split; [exact H|exact Hown].
Qed.

(** *** The generators of the station *)

Lemma accounted_exits pd p w0 : forall (l : list (ref * ref)) w,
  accounted (Some (p, l)) w -> good pd (Some (p, l)) None w0 w ->
  wp (for_each (fun rq => simpy.Request_exit (fst rq) (snd rq)) l)
     (fun _ w' => accounted (Some (p, [])) w') w.
Proof.
  induction l as [|[r q] l IH]; intros w Ha Hg; simpl.
  - apply wp_ret. exact Ha.
  - destruct (good_active _ _ _ _ _ _ Hg) as [_ [Hnd _]].
    simpl in Hnd. apply NoDup_cons in Hnd as [Hq Hnd].
    apply wp_bind. eapply wp_mono.
    + apply wp_conj.
      * apply (Request_exit_ok pd p ((r, q) :: l) l w0 w r q Hg).
        -- apply list_elem_of_here.
        -- exact Hnd.
        -- intros x Hx. apply list_elem_of_further. exact Hx.
        -- exact Hq.
      * apply (accounted_Request_exit pd p ((r, q) :: l) l w0 w r q Ha Hg).
        -- apply list_elem_of_here.
        -- intros y Hy Hne. apply elem_of_cons in Hy as [->|Hy]; [congruence|exact Hy].
    + intros u w1 [Hg1 Ha1]. exact (IH w1 Ha1 Hg1).
Qed.

Lemma accounted_leave_points pd p w0 w reqs :
  accounted (Some (p, reqs)) w -> good pd (Some (p, reqs)) None w0 w ->
  wp (leave_points reqs)
     (fun sent w' => accounted (Some (p, requests_of (fst sent))) w') w.
Proof.
  intros Ha Hg. unfold leave_points.
  destruct (good_active _ _ _ _ _ _ Hg) as [_ Hown].
  assert (Hg' : good pd (Some (p, rev reqs)) None w0 w).
  { apply (good_own pd p reqs _ None w0 w Hg).
    apply (owned_sub _ _ _ _ _ Hown).
    - rewrite map_rev.
      rewrite <- Permutation_rev. exact (owned_nodup _ _ _ _ Hown).
    - intros x Hx. apply list_elem_of_In. apply list_elem_of_In, in_rev in Hx.
      exact Hx. }
  assert (Ha' : accounted (Some (p, rev reqs)) w).
  { apply (accounted_own p reqs _ w Ha). intros y Hy.
    apply list_elem_of_In, in_rev. rewrite rev_involutive.
    apply list_elem_of_In. exact Hy. }
  apply wp_bind. eapply wp_mono; [exact (accounted_exits pd p w0 (rev reqs) w Ha' Hg')|].
  intros u w1 Ha1. apply wp_ret. exact Ha1.
Qed.

Lemma accounted_enter_track pd p w0 w path tid dir reqs i :
  accounted (Some (p, reqs)) w -> good pd (Some (p, reqs)) None w0 w ->
  wp (enter_track path tid dir reqs i)
     (fun sent w' => accounted (Some (p, requests_of (fst sent))) w') w.
Proof.
  intros Ha Hg. unfold enter_track.
  destruct (path_tracks path !! i) as [[[track name] duration]|];
    [|exact (accounted_leave_points pd p w0 w reqs Ha Hg)].
  apply wp_bind. eapply wp_mono; [exact (accounted_request p reqs track w Ha)|].
  intros track_req w1 Ha1. apply wp_ret. exact Ha1.
Qed.

Lemma accounted_requests p : forall names own w,
  accounted (Some (p, own)) w ->
  wp (simpy.map_m (fun name =>
        pt <- get_point name ;;
        q <- simpy.request (resource pt) ;;
        ret (resource pt, q)) names)
     (fun reqs w' => accounted (Some (p, rev reqs ++ own)) w') w.
Proof.
  induction names as [|name names IH]; intros own w Ha; simpl.
  - apply wp_ret. exact Ha.
  - apply wp_bind, wp_bind, wp_get_point. intros pt.
    apply wp_bind. eapply wp_mono;
      [exact (accounted_request p own (resource pt) w Ha)|].
    intros q w1 Ha1. apply wp_ret.
    apply wp_bind. eapply wp_mono; [exact (IH _ w1 Ha1)|].
    intros reqs w2 Ha2. apply wp_ret. simpl. rewrite <- app_assoc. exact Ha2.
Qed.

Lemma accounted_log_event a tid dir ty d w :
  accounted a w -> wp (log_event tid dir ty d) (fun _ w' => accounted a w') w.
Proof.
  intros Ha. apply (accounted_quiet _ _ _ (spares_log_event _ _ _ _)); [|exact Ha].
  intros rs. apply (keeps_log_event _ _ _ (stable_accounted_for rs a)).
  intros t. exact I.
Qed.

Lemma accounted_timeout a delay w :
  accounted a w -> wp (simpy.timeout delay) (fun _ w' => accounted a w') w.
Proof.
  intros Ha. apply (accounted_quiet _ _ _ (spares_timeout _)); [|exact Ha].
  intros rs. exact (keeps_timeout _ _ _ (stable_accounted_for rs a) _).
Qed.

Lemma accounted_process a g w :
  accounted a w -> wp (simpy.process g) (fun _ w' => accounted a w') w.
Proof.
  intros Ha. apply (accounted_quiet _ _ _ (spares_process _)); [|exact Ha].
  intros rs. exact (keeps_process _ _ _ (stable_accounted_for rs a) _ I).
Qed.

Lemma accounted_and_events a q rest w :
  accounted a w -> wp (simpy.and_events q rest) (fun _ w' => accounted a w') w.
Proof.
  intros Ha. apply (accounted_quiet _ _ _ (spares_and_events _ _)); [|exact Ha].
  intros rs. exact (keeps_and_events _ _ _ (stable_accounted_for rs a) _ _).
Qed.

Lemma accounted_set_point_state a position name w :
  accounted a w ->
  wp (set_point_state position name) (fun _ w' => accounted a w') w.
Proof.
  intros Ha. unfold set_point_state. apply wp_bind, wp_get_point. intros pt.
  apply wp_modify. exact Ha.
Qed.

Lemma accounted_run_script p : forall script w,
  accounted (Some (p, [])) w ->
  wp (run_script script)
     (fun sent w' => accounted (Some (p, requests_of (fst sent))) w') w.
Proof.
  induction script as [|[t|d] script IH]; intros w Ha; simpl.
  - apply wp_ret. exact Ha.
  - apply wp_bind. eapply wp_mono; [exact (accounted_process _ _ w Ha)|].
    intros pr w1 Ha1. exact (IH w1 Ha1).
  - apply wp_bind. eapply wp_mono; [exact (accounted_timeout _ d w Ha)|].
    intros ev w1 Ha1. apply wp_ret. exact Ha1.
Qed.

Lemma accounted_send pd p g w :
  accounted (Some (p, requests_of g)) w ->
  good pd (Some (p, requests_of g)) None w w ->
  wp (send g)
     (fun sent w' => accounted (Some (p, requests_of (fst sent))) w') w.
Proof.
  intros Ha Hg.
  destruct g as [t|t|path tid dir|path tid dir reqs|path tid dir reqs i track track_req
                |path tid dir reqs i track track_req|script|];
    cbn [send requests_of] in Ha, Hg |- *.
  - (* train_process_start *)
    apply wp_bind. eapply wp_mono; [exact (accounted_log_event _ _ _ _ _ w Ha)|].
    intros u w1 Ha1.
    destruct (path_function (route_decision t)) as [path|].
    + apply wp_bind. eapply wp_mono; [exact (accounted_process _ _ w1 Ha1)|].
      intros pr w2 Ha2. apply wp_ret. exact Ha2.
    + apply wp_bind. eapply wp_mono; [exact (accounted_log_event _ _ _ _ _ w1 Ha1)|].
      intros u' w2 Ha2. apply wp_ret. exact Ha2.
  - (* train_process_journey *)
    apply wp_bind. eapply wp_mono; [exact (accounted_log_event _ _ _ _ _ w Ha)|].
    intros u w1 Ha1. apply wp_ret. exact Ha1.
  - (* path_start *)
    apply wp_bind. eapply wp_mono;
      [exact (accounted_requests p (path_points path) [] w Ha)|].
    intros reqs w1 Ha1. cbv beta in Ha1. rewrite app_nil_r in Ha1.
    destruct reqs as [|[r q] rest]; [apply wp_raise|].
    apply wp_bind. eapply wp_mono; [exact (accounted_and_events _ _ _ w1 Ha1)|].
    intros c w2 Ha2. apply wp_ret. cbn [fst requests_of].
    apply (accounted_own p _ _ w2 Ha2). intros y Hy.
    apply list_elem_of_In, in_rev. apply list_elem_of_In. exact Hy.
  - (* path_joint *)
    apply wp_bind.
    apply (wp_mono _ (fun _ w' => good pd (Some (p, reqs)) None w w'
                                  /\ accounted (Some (p, reqs)) w')).
    { apply (wp_for_each _ (fun w' => good pd (Some (p, reqs)) None w w'
                                      /\ accounted (Some (p, reqs)) w'));
        [|split; assumption].
      intros name w1 _ [Hg1 Ha1]. apply wp_conj.
      - exact (set_point_state_ok _ _ _ _ _ _ _ Hg1).
      - exact (accounted_set_point_state _ _ _ w1 Ha1). }
    intros u w1 [Hg1 Ha1].
    apply wp_bind. eapply wp_mono.
    { apply wp_conj.
      - exact (log_event_ok _ _ _ _ _ _ _ _ _ Hg1).
      - exact (accounted_log_event _ _ _ _ _ w1 Ha1). }
    intros u' w2 [Hg2 Ha2].
    exact (accounted_enter_track pd p w w2 path tid dir reqs 0 Ha2 Hg2).
  - (* path_enter *)
    destruct (path_tracks path !! i) as [[[track' name] duration]|];
      [|apply wp_raise].
    apply wp_bind. eapply wp_mono; [exact (accounted_log_event _ _ _ _ _ w Ha)|].
    intros u w1 Ha1. apply wp_bind, wp_gets.
    apply wp_bind. eapply wp_mono; [exact (accounted_timeout _ _ w1 Ha1)|].
    intros t w2 Ha2. apply wp_ret. exact Ha2.
  - (* path_dwell *)
    destruct (good_active _ _ _ _ _ _ Hg) as [_ [Hnd _]].
    simpl in Hnd. apply NoDup_cons in Hnd as [Hq Hnd].
    apply wp_bind. eapply wp_mono.
    { apply wp_conj.
      - apply (Request_exit_ok pd p _ reqs w w track track_req Hg).
        + apply list_elem_of_here.
        + exact Hnd.
        + intros x Hx. apply list_elem_of_further. exact Hx.
        + exact Hq.
      - apply (accounted_Request_exit pd p _ reqs w w track track_req Ha Hg).
        + apply list_elem_of_here.
        + intros y Hy Hne. apply elem_of_cons in Hy as [->|Hy]; [congruence|exact Hy]. }
    intros u w1 [Hg1 Ha1].
    exact (accounted_enter_track pd p w w1 path tid dir reqs (S i) Ha1 Hg1).
  - (* test_runner *)
    exact (accounted_run_script p script w Ha).
  - apply wp_raise.
Qed.

(** *** The event loop *)

Lemma accounted_activate p g w :
  accounted None w -> frame (events w) p g ->
  accounted (Some (p, requests_of g)) w.
Proof.
  intros [Ho Ha] Hp. split; [exact Ho|].
  intros r y q Hy Hq. destruct (Ha r y q Hy Hq) as (Hlt & p0 & own0 & Hins & Hown).
  split; [exact Hlt|].
  destruct Hins as [H|(_ & g0 & Hg0 & ->)]; [discriminate|].
  destruct (decide (p0 = p)) as [->|Hne].
  - rewrite (frame_inj _ _ _ _ Hg0 Hp) in Hown.
    exists p, (requests_of g). split; [left; reflexivity|exact Hown].
  - exists p0, (requests_of g0). split; [|exact Hown]. right.
    split; [intros o [= E _]; congruence|]. exists g0. split; [exact Hg0|reflexivity].
Qed.

Lemma accounted_deactivate p g w :
  accounted (Some (p, requests_of g)) w -> frame (events w) p g ->
  accounted None w.
Proof.
  intros [Ho Ha] Hp. split; [exact Ho|].
  intros r y q Hy Hq. destruct (Ha r y q Hy Hq) as (Hlt & p0 & own0 & Hins & Hown).
  split; [exact Hlt|].
  destruct Hins as [H|(_ & g0 & Hg0 & ->)].
  - injection H as <- <-. exists p, (requests_of g). split; [|exact Hown].
    right. split; [discriminate|]. exists g. split; [exact Hp|reflexivity].
  - exists p0, (requests_of g0). split; [|exact Hown]. right.
    split; [discriminate|]. exists g0. split; [exact Hg0|reflexivity].
Qed.

(** The running process stores its frame. *)
Lemma accounted_put_generator p own w e e' :
  accounted (Some (p, own)) w -> events w !! p = Some e ->
  accounted (Some (p, own)) (set_events (<[p := e']> (events w)) w).
Proof.
  intros [Ho Ha] He. split; [exact Ho|]. cbn [resources events set_events].
  intros r y q Hy Hq. destruct (Ha r y q Hy Hq) as (Hlt & p0 & own0 & Hins & Hown).
  split; [rewrite length_insert; exact Hlt|].
  exists p0, own0. split; [|exact Hown].
  destruct Hins as [H|(Hn & g0 & (e0 & He0 & Hk0) & ->)]; [left; exact H|right].
  split; [exact Hn|]. exists g0. split; [|reflexivity].
  exists e0. split; [|exact Hk0].
  rewrite list_lookup_insert_ne; [exact He0|].
  intros <-. exact (Hn own eq_refl).
Qed.

Lemma accounted_put a w (x : ref) e e' :
  accounted a w -> events w !! x = Some e -> kind_same (kind e) (kind e') ->
  accounted a (set_events (<[x := e']> (events w)) w).
Proof.
  intros [Ho Ha] He Hk. split; [exact Ho|].
  exact (st_put _ _ _ (stable_accounted_for (resources w) a) w x e e' Ha He Hk).
Qed.

Lemma accounted_resume_body pd p again g w :
  resumable pd p g w -> accounted (Some (p, requests_of g)) w ->
  (forall g1 w1, resumable pd p g1 w1 ->
     accounted (Some (p, requests_of g1)) w1 ->
     wp again (fun _ w' => accounted None w') w1) ->
  wp (resume_body p again) (fun _ w' => accounted None w') w.
Proof.
  intros (Hs & Hp & Hj) Ha Hagain. unfold resume_body.
  apply wp_bind, wp_get_event. intros e He.
  destruct Hp as (e0 & He0 & Hk0).
  assert (e0 = e) as -> by (unfold ref in *; congruence).
  rewrite Hk0.
  assert (Hp : frame (events w) p g) by (exists e; split; assumption).
  apply wp_bind. eapply wp_mono.
  { apply wp_conj.
    - exact (send_ok pd p g w (steady_good _ _ _ Hs) Hp Hj).
    - exact (accounted_send pd p g w Ha (steady_good _ _ _ Hs)). }
  intros [g1 yielded] w1 (([HC1 Hq1 Hev1] & Hpast1 & Hcov1) & Ha1).
  cbn [fst snd] in *.
  unfold Environment.set_generator.
  apply wp_bind, wp_bind, wp_get_event. intros e1 He1.
  destruct (evolves_frame _ _ p g Hev1 Hp) as (e1' & He1' & Hk1).
  assert (e1' = e1) as -> by (unfold ref in *; congruence).
  apply wp_put_event.
  set (e2 := {| callbacks := callbacks e1; triggered := triggered e1;
                kind := Process g1 |}).
  set (w2 := set_events (<[p := e2]> (events w1)) w1).
  assert (Ha2 : accounted (Some (p, requests_of g1)) w2)
    by exact (accounted_put_generator p _ w1 e1 e2 Ha1 He1).
  assert (Hlt : (p < length (events w1))%nat) by exact (lookup_lt_Some _ _ _ He1).
  assert (He2 : events w2 !! p = Some e2).
  { apply list_lookup_insert_eq. exact Hlt. }
  assert (Hp2 : frame (events w2) p g1)
    by (exists e2; split; [exact He2|reflexivity]).
  assert (Ha2' : accounted None w2) by exact (accounted_deactivate p g1 w2 Ha2 Hp2).
  destruct yielded as [ev|].
  - apply wp_bind, wp_get_event. intros target Htarget.
    destruct (callbacks target) as [cbs|] eqn:Hcbs.
    + apply (accounted_quiet _ _ _ (spares_append_callback _ _)); [|exact Ha2'].
      intros rs. exact (keeps_append_callback _ _ _ (stable_accounted_for rs _) _ _).
    + (* the generator is resumed at once *)
      assert (HC2 : Coh (mk pd (Some (p, requests_of g1)) w2) w2).
      { unfold w2. rewrite mk_put.
        exact (Coh_put_generator _ w1 p e1 _ g g1 HC1 He1 Hk1 eq_refl Hpast1). }
      assert (Hkl : kind_like (kind e1) (kind e2)) by (rewrite Hk1; simpl; eauto).
      apply (Hagain g1 w2); [|exact Ha2].
      split; [split; [exact HC2|exact Hq1]|]. split; [exact Hp2|].
      intros reqs Hjg rq Hrq.
      apply (covers_triggered _ w2 ev _ HC2).
      * exact (put_covers (events w1) p e1 e2 He1 Hkl _ _
                 (Hcov1 ev reqs eq_refl Hjg rq Hrq)).
      * exists target. split; [exact Htarget|].
        exact (coh_processed _ _ HC2 ev target Htarget Hcbs).
  - apply wp_bind, wp_get_event. intros e2' He2'.
    apply wp_bind, wp_put_event. unfold simpy.schedule. apply wp_modify.
    exact (accounted_put None w2 p e2'
             {| callbacks := callbacks e2'; triggered := true; kind := kind e2' |}
             Ha2' He2' (kind_same_refl _)).
Qed.

Lemma accounted_resume_loop pd p : forall rounds g w,
  resumable pd p g w -> accounted (Some (p, requests_of g)) w ->
  wp (Environment.resume_loop rounds p) (fun _ w' => accounted None w') w.
Proof.
  induction rounds as [|rounds IH]; intros g w Hr Ha; rewrite resume_loop_unfold.
  - apply (accounted_resume_body pd p _ g w Hr Ha). intros g1 w1 _ _.
    apply wp_raise.
  - apply (accounted_resume_body pd p _ g w Hr Ha). intros g1 w1 Hr1 Ha1.
    exact (IH g1 w1 Hr1 Ha1).
Qed.

Lemma accounted_resume rest w (p : ref) :
  steady (Process_resume p :: rest) None w -> accounted None w ->
  wp (Environment.resume p) (fun _ w' => accounted None w') w.
Proof.
  intros Hs Ha. unfold Environment.resume. apply wp_bind, wp_modify.
  destruct (steady_active_proc _ w (Some p) Hs) as [HC Hq].
  set (w1 := set_active_proc (Some p) w) in *.
  assert (Ha1 : accounted None w1) by exact Ha.
  apply wp_bind, wp_get_event. intros e He.
  destruct (kind e) as [| | | | |g] eqn:Hk; try apply wp_raise.
  assert (Hp : frame (events w1) p g) by (exists e; split; assumption).
  assert (Hocc : occ (Process_resume p) rest (events w1) = 0%nat).
  { pose proof (coh_once _ _ HC p) as H. cbn [pend mk] in H.
    rewrite occ_cons, decide_True in H by reflexivity. lia. }
  assert (HC1 : Coh (mk rest None w1) w1).
  { apply (Coh_drop _ rest None _ w1 HC). discriminate. }
  apply wp_bind. eapply wp_mono.
  - apply (accounted_resume_loop rest p _ g w1);
      [|exact (accounted_activate p g w1 Ha1 Hp)].
    split; [|split; [exact Hp|]].
    + split; [|exact Hq].
      exact (Coh_activate rest _ w1 p g HC1 eq_refl Hp Hocc).
    + intros reqs Hj. apply (coh_woken _ _ HC p g reqs); [|exact Hp|exact Hj].
      apply list_elem_of_here.
  - intros u w2 Ha2. apply wp_modify. exact Ha2.
Qed.

Lemma accounted_call cb rest w :
  steady (cb :: rest) None w -> accounted None w ->
  wp (Environment.call cb) (fun _ w' => accounted None w') w.
Proof.
  intros Hs Ha. destruct cb as [p|c|c|r|r]; cbn [Environment.call].
  - exact (accounted_resume rest w p Hs Ha).
  - apply (accounted_quiet _ _ _ (spares_check _)); [|exact Ha].
    intros rs. exact (keeps_check _ _ _ (stable_accounted_for rs _) _).
  - apply (accounted_quiet _ _ _ (spares_build_value _)); [|exact Ha].
    intros rs. exact (keeps_build_value _ _ _ (stable_accounted_for rs _) _).
  - (* no release is waiting *)
    unfold simpy.trigger_get. apply wp_bind, wp_get_resource. intros x Hx.
    rewrite (proj2 Hs r x Hx). apply wp_ret. exact Ha.
  - exact (accounted_trigger_put None r w Ha).
Qed.

Lemma accounted_calls : forall cbs w,
  steady cbs None w -> accounted None w ->
  wp (for_each Environment.call cbs) (fun _ w' => accounted None w') w.
Proof.
  induction cbs as [|cb cbs IH]; intros w Hs Ha; cbn [for_each].
  - apply wp_ret. exact Ha.
  - apply wp_bind. eapply wp_mono.
    + apply wp_conj.
      * exact (call_ok cb cbs w Hs).
      * exact (accounted_call cb cbs w Hs Ha).
    + intros u w1 [Hs1 Ha1]. exact (IH w1 Hs1 Ha1).
Qed.

Lemma accounted_step w u w' :
  steady [] None w -> accounted None w ->
  Environment.step w = Some (u, w') -> accounted None w'.
Proof.
  intros Hs Ha H.
  destruct (step_pops _ _ _ H) as (t & prio & i & ev & q & Hq & Hev).
  unfold process_event in Hev.
  set (w1 := set_now t (set_queue q (eid w) w)) in *.
  apply bind_Some in Hev as (e & w1' & H1 & Hev).
  unfold simpy.get_event in H1.
  destruct (events w1 !! ev) as [e'|] eqn:He; [|discriminate].
  injection H1 as -> <-.
  destruct (callbacks e) as [cbs|] eqn:Hcbs; [|discriminate].
  apply bind_Some in Hev as ([] & w2 & H2 & Hev).
  unfold simpy.put_event, modify in H2. injection H2 as <-.
  refine (accounted_calls cbs _ _ _ u w' Hev).
  - exact (step_detaches w t prio i ev q e cbs Hs Hq He Hcbs).
  - apply (accounted_put None w1 ev e); [exact Ha|exact He|apply kind_same_refl].
Qed.

Lemma accounted_StationSimulation g : accounted None (StationSimulation g).
Proof.
  split.
  - intros r x Hx. cbn [resources StationSimulation] in Hx.
    apply list_elem_of_lookup_2, elem_of_replicate in Hx as [-> _]. constructor.
  - intros r x q Hx Hq. cbn [resources StationSimulation] in Hx.
    apply list_elem_of_lookup_2, elem_of_replicate in Hx as [-> _]. inversion Hq.
Qed.

Lemma accounted_apply_op op w w' :
  steady [] None w -> accounted None w -> apply_op op w = Some w' ->
  accounted None w'.
Proof.
  intros Hs Ha H. destruct op as [t|script| |g]; cbn [apply_op] in H.
  - destruct (simpy.process _ w) as [[p w1]|] eqn:E; [|discriminate].
    injection H as <-. exact (accounted_process _ _ w Ha p w1 E).
  - destruct (simpy.process _ w) as [[p w1]|] eqn:E; [|discriminate].
    injection H as <-. exact (accounted_process _ _ w Ha p w1 E).
  - destruct (Environment.step w) as [[u w1]|] eqn:E; [|discriminate].
    injection H as <-. exact (accounted_step w u w1 Hs Ha E).
  - injection H as <-. exact Ha.
Qed.

Lemma accounted_exec ops : forall w w',
  steady [] None w -> accounted None w -> exec ops w = Some w' ->
  accounted None w'.
Proof.
  induction ops as [|op ops IH]; intros w w' Hs Ha H; cbn [exec] in H.
  - injection H as <-. exact Ha.
  - destruct (apply_op op w) as [w1|] eqn:E; [|discriminate].
    exact (IH w1 w' (steady_apply_op op w w1 Hs E)
             (accounted_apply_op op w w1 Hs Ha E) H).
Qed.

(** C2. In every world the driver can bring about, there are fifteen
    resources (the eight track sections and the seven points), each of them
    has at most one user, and its history consists of grants each followed by
    the release of the same request, with one more grant at the end exactly
    for its present user: no request is released twice, nothing is released
    that was not granted, and no grant is made while another is outstanding.
    The grant that is open belongs to a process that is inside the [with]
    block of the request: the frame at which that process is suspended has
    the request among those it has made and not given back.  So a grant is
    matched by its release as soon as the process has left the block, and
    when no process is inside a block for the resource, the resource is free
    and every grant in its history is followed by its release. *)
Theorem resources_have_one_holder (g : Globals) (ops : list DriverOp) (w : World)
    (r : ref) :
  exec ops (StationSimulation g) = Some w ->
  (r < 15)%nat ->
  exists x, resources w !! r = Some x
    /\ (length (users x) <= 1)%nat
    /\ paired (users x) (history x)
    /\ (forall q, q ∈ users x ->
          exists p e gen request,
            events w !! p = Some e /\ kind e = Process gen
            /\ (r, q) ∈ requests_of gen
            /\ events w !! q = Some request
            /\ kind request = Request r (Some p))
    /\ ((forall p e gen, events w !! p = Some e -> kind e = Process gen ->
           r ∉ map fst (requests_of gen)) ->
        users x = []
        /\ exists closed, history x = flat_map grant_release closed).
Proof.
  intros H Hr.
  pose proof (Inv_exec _ _ _ (Inv_StationSimulation g) H) as HI.
  pose proof (steady_exec ops _ w (steady_StationSimulation g) H) as Hs.
  pose proof (accounted_exec ops _ w (steady_StationSimulation g)
                (accounted_StationSimulation g) H) as [_ Ha].
  destruct (lookup_lt_is_Some_2 (resources w) r) as [x Hx].
  { rewrite (inv_count _ HI). exact Hr. }
  exists x. split; [exact Hx|].
  destruct (proj1 (Forall_lookup _ _) (inv_resources _ HI) r x Hx) as [_ Hu Hp].
  split; [exact Hu|]. split; [exact Hp|].
  assert (Hown : forall q, q ∈ users x ->
            exists p e gen request,
              events w !! p = Some e /\ kind e = Process gen
              /\ (r, q) ∈ requests_of gen
              /\ events w !! q = Some request
              /\ kind request = Request r (Some p)).
  { intros q Hq.
    destruct (Ha r x q Hx) as (_ & p & own & Hins & Hin).
    { apply elem_of_app. left. exact Hq. }
    destruct Hins as [Habs|(_ & gen & (e & He & Hk) & ->)]; [discriminate|].
    assert (Hfr : frame (events w) p gen) by (exists e; split; assumption).
    pose proof (coh_frames _ _ (proj1 Hs) p gen Hfr) as Howned.
    destruct (owned_req _ _ _ _ (Howned ltac:(discriminate)) r q Hin)
      as (request & Hrq & Hkr & _).
    exists p, e, gen, request. repeat split; assumption. }
  split; [exact Hown|].
  intros Hnone.
  assert (Hnil : users x = []).
  { destruct (users x) as [|q us] eqn:E; [reflexivity|]. exfalso.
    destruct (Hown q) as (p & e & gen & _ & He & Hk & Hin & _);
      [apply list_elem_of_here|].
    apply (Hnone p e gen He Hk). apply list_elem_of_fmap.
    exists (r, q). split; [reflexivity|exact Hin]. }
  split; [exact Hnil|].
  destruct Hp as (closed & open & Hh & Ho). rewrite Hnil in Ho.
  inversion Ho; subst. exists closed. rewrite app_nil_r in Hh. exact Hh.
Qed.

Lemma resources_have_one_holder_witness :
  exists x, resources crossing_world !! line3_down_main_approach = Some x
    /\ (length (users x) <= 1)%nat
    /\ paired (users x) (history x)
    /\ (forall q, q ∈ users x ->
          exists p e gen request,
            events crossing_world !! p = Some e /\ kind e = Process gen
            /\ (line3_down_main_approach, q) ∈ requests_of gen
            /\ events crossing_world !! q = Some request
            /\ kind request = Request line3_down_main_approach (Some p))
    /\ ((forall p e gen, events crossing_world !! p = Some e ->
           kind e = Process gen ->
           line3_down_main_approach ∉ map fst (requests_of gen)) ->
        users x = []
        /\ exists closed, history x = flat_map grant_release closed).
Proof.
  apply (resources_have_one_holder initial_globals crossing_ops crossing_world
           line3_down_main_approach).
  - vm_compute. reflexivity.
  - unfold line3_down_main_approach. lia.
Defined.

(** ** Replaying a script, and the order of resolution *)

(** *** What a callback does to the event queue

    Between two pops the queue only gains entries: the clock stands still,
    every entry stays queued, and a new entry has a sequence number that had
    not been given out and a time that is not in the past. *)
Record grown (w w' : World) : Prop := {
  gr_now : now w' = now w;
  gr_eid : (eid w <= eid w')%nat;
  gr_keep : forall x, x ∈ queue w -> x ∈ queue w';
  gr_new : forall x, x ∈ queue w' ->
    x ∈ queue w \/ ((eid w <= qeid x < eid w')%nat /\ now w <= qtime x)
}.

Definition grows {A} (m : Sim A) : Prop :=
  forall w a w', m w = Some (a, w') -> grown w w'.

Lemma grown_refl w : grown w w.
Proof. constructor; [reflexivity|lia|tauto|tauto]. Qed.

Lemma grown_trans w1 w2 w3 : grown w1 w2 -> grown w2 w3 -> grown w1 w3.
Proof.
  intros [Hn He Hk Hw] [Hn' He' Hk' Hw']. constructor.
  - congruence.
  - lia.
  - intros x Hx. exact (Hk' x (Hk x Hx)).
  - intros x Hx. destruct (Hw' x Hx) as [H|[H1 H2]].
    + destruct (Hw x H) as [H0|[H1 H2]]; [left; exact H0|right; split; lia].
    + right. split; [lia|]. rewrite <- Hn. exact H2.
Qed.

(** A change that leaves the clock, the queue and the counter alone. *)
Lemma grown_same w w' :
  now w' = now w -> queue w' = queue w -> eid w' = eid w -> grown w w'.
Proof.
  intros Hn Hq He. constructor; [exact Hn|lia| |]; rewrite Hq; tauto.
Qed.

Lemma grows_ret {A} (a : A) : grows (ret a).
Proof. intros w b w' H. inversion H; subst. apply grown_refl. Qed.

Lemma grows_raise {A} : grows (@raise A).
Proof. intros w b w' H. discriminate. Qed.

Lemma grows_gets {A} (f : World -> A) : grows (gets f).
Proof. intros w b w' H. inversion H; subst. apply grown_refl. Qed.

Lemma grows_bind {A B} (m : Sim A) (k : A -> Sim B) :
  grows m -> (forall a, grows (k a)) -> grows (bind m k).
Proof.
  intros Hm Hk w b w' H.
  apply bind_Some in H as (a & w1 & H1 & H2).
  exact (grown_trans _ _ _ (Hm w a w1 H1) (Hk a w1 b w' H2)).
Qed.

Lemma grows_for_each {A} (f : A -> Sim unit) xs :
  (forall x, grows (f x)) -> grows (for_each f xs).
Proof.
  intros Hf. induction xs as [|x xs IH]; simpl.
  - apply grows_ret.
  - apply grows_bind; [apply Hf|intros _; exact IH].
Qed.

Lemma grows_map_m {A B} (f : A -> Sim B) xs :
  (forall x, grows (f x)) -> grows (simpy.map_m f xs).
Proof.
  intros Hf. induction xs as [|x xs IH]; simpl.
  - apply grows_ret.
  - apply grows_bind; [apply Hf|intros y].
    apply grows_bind; [exact IH|intros ys; apply grows_ret].
Qed.

Lemma grows_modify (f : World -> World) :
  (forall w, now (f w) = now w /\ queue (f w) = queue w /\ eid (f w) = eid w) ->
  grows (modify f).
Proof.
  intros Hf w [] w' H. inversion H; subst.
  destruct (Hf w) as (H1 & H2 & H3). exact (grown_same _ _ H1 H2 H3).
Qed.

Lemma grows_new_event e : grows (simpy.new_event e).
Proof. intros w a w' H. inversion H; subst. apply grown_same; reflexivity. Qed.

Lemma grows_get_event ev : grows (simpy.get_event ev).
Proof.
  intros w a w' H. unfold simpy.get_event in H.
  destruct (events w !! ev); inversion H; subst. apply grown_refl.
Qed.

Lemma grows_get_resource r : grows (simpy.get_resource r).
Proof.
  intros w a w' H. unfold simpy.get_resource in H.
  destruct (resources w !! r); inversion H; subst. apply grown_refl.
Qed.

Lemma grows_get_point name : grows (get_point name).
Proof.
  intros w a w' H. unfold get_point in H.
  destruct (points w !! name); inversion H; subst. apply grown_refl.
Qed.

Lemma heappush_elem a e q : a = e \/ a ∈ q -> a ∈ simpy.heappush e q.
Proof.
  induction q as [|x q IH]; simpl.
  - intros [->|H]; [apply list_elem_of_here|inversion H].
  - destruct (simpy.entry_lt e x).
    + intros [->|H]; [apply list_elem_of_here|apply list_elem_of_further; exact H].
    + intros [->|H].
      * apply list_elem_of_further, IH. left. reflexivity.
      * apply elem_of_cons in H as [->|H]; [apply list_elem_of_here|].
        apply list_elem_of_further, IH. right. exact H.
Qed.

Lemma grows_schedule ev prio delay : 0 <= delay -> grows (simpy.schedule ev prio delay).
Proof.
  intros Hd w [] w' H. inversion H; subst; clear H.
  constructor; cbn [now queue eid set_queue].
  - reflexivity.
  - lia.
  - intros x Hx. apply heappush_elem. right. exact Hx.
  - intros x Hx. apply elem_of_heappush in Hx as [->|Hx]; [right|left; exact Hx].
    unfold qeid, qtime. cbn. split; lia.
Qed.

Create HintDb grows.
#[local] Hint Resolve grows_new_event grows_get_event grows_get_resource
  grows_get_point : grows.

Ltac grows_tac :=
  repeat match goal with
    | |- grows (ret _) => apply grows_ret
    | |- grows raise => apply grows_raise
    | |- grows (gets _) => apply grows_gets
    | |- grows (modify _) => apply grows_modify; intros ?; repeat split
    | |- grows (simpy.schedule _ _ _) => apply grows_schedule; lia
    | |- grows (bind _ _) => apply grows_bind; [|intros ?]
    | |- grows (for_each _ _) => apply grows_for_each; intros ?
    | |- grows (simpy.map_m _ _) => apply grows_map_m; intros ?
    | |- grows (match ?x with _ => _ end) => destruct x
    | |- grows (if ?x then _ else _) => destruct x eqn:?
    | |- grows _ => solve [auto with grows]
    end.

Lemma grows_put_event ev e : grows (simpy.put_event ev e).
Proof. unfold simpy.put_event. grows_tac. Qed.

Lemma grows_put_resource r x : grows (simpy.put_resource r x).
Proof. unfold simpy.put_resource. grows_tac. Qed.

Lemma grows_log_event tid dir ev d : grows (log_event tid dir ev d).
Proof. unfold log_event. grows_tac. Qed.

#[local] Hint Resolve grows_put_event grows_put_resource grows_log_event : grows.

Lemma grows_append_callback ev cb : grows (simpy.append_callback ev cb).
Proof. unfold simpy.append_callback. grows_tac. Qed.

Lemma grows_succeed ev : grows (simpy.succeed ev).
Proof. unfold simpy.succeed. grows_tac. Qed.

Lemma grows_timeout delay : grows (simpy.timeout delay).
Proof.
  unfold simpy.timeout. destruct (Z.ltb_spec delay 0); [apply grows_raise|].
  grows_tac.
Qed.

Lemma grows_process g : grows (simpy.process g).
Proof. unfold simpy.process. grows_tac. Qed.

#[local] Hint Resolve grows_append_callback grows_succeed grows_timeout
  grows_process : grows.

Lemma grows_Resource_do_put r ev : grows (simpy.Resource_do_put r ev).
Proof. unfold simpy.Resource_do_put. grows_tac. Qed.

Lemma grows_Resource_do_get r ev : grows (simpy.Resource_do_get r ev).
Proof. unfold simpy.Resource_do_get. grows_tac. Qed.

#[local] Hint Resolve grows_Resource_do_put grows_Resource_do_get : grows.

Lemma grows_trigger_put r : grows (simpy.trigger_put r).
Proof. unfold simpy.trigger_put. grows_tac. Qed.

Lemma grows_trigger_get r : grows (simpy.trigger_get r).
Proof. unfold simpy.trigger_get. grows_tac. Qed.

#[local] Hint Resolve grows_trigger_put grows_trigger_get : grows.

Lemma grows_request r : grows (simpy.request r).
Proof. unfold simpy.request. grows_tac. Qed.

Lemma grows_release r req : grows (simpy.release r req).
Proof. unfold simpy.release. grows_tac. Qed.

#[local] Hint Resolve grows_request grows_release : grows.

Lemma grows_Request_exit r req : grows (simpy.Request_exit r req).
Proof. unfold simpy.Request_exit. grows_tac. Qed.

Lemma grows_check c : grows (simpy.check c).
Proof. unfold simpy.check. grows_tac. Qed.

#[local] Hint Resolve grows_Request_exit grows_check : grows.

Lemma grows_all_of evs : grows (simpy.all_of evs).
Proof. unfold simpy.all_of. grows_tac. Qed.

#[local] Hint Resolve grows_all_of : grows.

Lemma grows_and_events a rest : grows (simpy.and_events a rest).
Proof.
  unfold simpy.and_events.
  assert (H : forall acc, grows acc ->
            grows (fold_left (fun acc b => c <- acc ;; simpy.all_of [c; b]) rest acc)).
  { induction rest as [|b rest IH]; intros acc Hacc; simpl; [exact Hacc|].
    apply IH. grows_tac. }
  apply H, grows_ret.
Qed.

Lemma grows_remove_check_callbacks depth :
  forall c, grows (simpy.remove_check_callbacks depth c).
Proof.
  induction depth as [|depth IH]; intros c; simpl; grows_tac; apply IH.
Qed.

Lemma grows_build_value c : grows (simpy.build_value c).
Proof. apply grows_remove_check_callbacks. Qed.

#[local] Hint Resolve grows_and_events grows_build_value : grows.

Lemma grows_set_point_state position name : grows (set_point_state position name).
Proof. unfold set_point_state. grows_tac. Qed.

#[local] Hint Resolve grows_set_point_state : grows.

Lemma grows_leave_points reqs : grows (leave_points reqs).
Proof. unfold leave_points. grows_tac. Qed.

#[local] Hint Resolve grows_leave_points : grows.

Lemma grows_enter_track p tid dir reqs i : grows (enter_track p tid dir reqs i).
Proof. unfold enter_track. grows_tac. Qed.

Lemma grows_run_script script : grows (run_script script).
Proof.
  induction script as [|[t|d] script IH]; simpl; grows_tac.
Qed.

#[local] Hint Resolve grows_enter_track grows_run_script : grows.

Lemma grows_send g : grows (send g).
Proof. destruct g; simpl; grows_tac. Qed.

#[local] Hint Resolve grows_send : grows.

Lemma grows_resume_loop rounds : forall p, grows (Environment.resume_loop rounds p).
Proof.
  induction rounds as [|rounds IH]; intros p; simpl;
    unfold Environment.set_generator; grows_tac.
Qed.

Lemma grows_resume p : grows (Environment.resume p).
Proof.
  unfold Environment.resume. grows_tac; apply grows_resume_loop.
Qed.

#[local] Hint Resolve grows_resume : grows.

Lemma grows_call cb : grows (Environment.call cb).
Proof. destruct cb; simpl; grows_tac. Qed.

#[local] Hint Resolve grows_call : grows.

Lemma grows_process_event ev : grows (process_event ev).
Proof. unfold process_event. grows_tac. Qed.

(** One step of the event loop resolves the least entry of the queue. *)
Lemma step_resolves_least w u w' :
  Inv w -> Environment.step w = Some (u, w') ->
  exists a q,
    queue w = a :: q
    /\ Forall (before a) q
    /\ now w' = qtime a
    /\ (a ∉ queue w')
    /\ (forall b, b ∈ q -> b ∈ queue w')
    /\ (forall c, c ∈ queue w' ->
          (c ∈ q) \/ (qtime a <= qtime c
                      /\ forall b, b ∈ queue w -> (qeid b < qeid c)%nat)).
Proof.
  intros HI H. destruct (step_pops _ _ _ H) as (t & prio & i & ev & q & Hq & Hp).
  pose proof (grows_process_event ev _ _ _ Hp) as [Hn He Hk Hw].
  cbn [now queue eid set_now set_queue] in Hn, He, Hk, Hw.
  pose proof (inv_sorted _ HI) as Hs. pose proof (inv_queue _ HI) as Hb.
  rewrite Hq in Hs, Hb. apply StronglySorted_inv in Hs as [Hs Hhd].
  apply Forall_cons in Hb as [[_ Hi] Hb]. unfold qeid in Hi. cbn in Hi.
  exists (t, prio, i, ev), q. split; [exact Hq|]. split; [exact Hhd|].
  split; [exact Hn|]. split; [|split; [exact Hk|]].
  - intros Hin. destruct (Hw _ Hin) as [Hin'|[Hlt _]].
    + rewrite Forall_forall in Hhd. specialize (Hhd _ Hin').
      apply before_spec in Hhd. lia.
    + unfold qeid in Hlt. cbn in Hlt. lia.
  - intros c Hc. destruct (Hw c Hc) as [Hin|[Hlt Ht]]; [left; exact Hin|right].
    split; [exact Ht|]. intros b Hb'. rewrite Hq in Hb'.
    apply elem_of_cons in Hb' as [->|Hb'].
    + unfold qeid at 1. cbn. lia.
    + rewrite Forall_forall in Hb. destruct (Hb _ Hb') as [_ Hb2]. lia.
Qed.

(** Whatever a script does on a new station, it does in a station at rest:
    the world it ends in is the one of the new station, moved. *)
Lemma play_moved (w : World) (script : list DriverStep) (fuel : nat)
    (w0 : World) :
  at_rest w ->
  play script fuel (globals w) = Some w0 ->
  exists w',
    play_on script fuel w = Some w'
    /\ moved (events w) (eid w) (now w) (event_log w) w0 w'.
Proof.
  intros Hrest H0. pose proof (rel_at_rest w Hrest) as Hrel.
  unfold play in H0. unfold play_on.
  destruct ((_ <- simpy.process (test_runner script) ;; Environment.run fuel)
              (StationSimulation (globals w))) as [[[] w1]|] eqn:E; [|discriminate].
  injection H0 as ->.
  assert (Hsim : simw (events w) (eid w) (now w) (event_log w)
                   (Runit) 
                   (_ <- simpy.process (test_runner script) ;; Environment.run fuel)
                   (_ <- simpy.process (test_runner script) ;; Environment.run fuel)
                   (StationSimulation (globals w)) w).
  { eapply simw_bind;
      [exact (simw_process _ _ _ _ (test_runner script) _ _)|].
    intros _ _ ws1 wb1 _ _. apply simw_run. }
  destruct (Hsim Hrel tt w0 E) as ([] & w' & Hw' & _ & Hrel' & _).
  rewrite Hw'. exists w'. split; [reflexivity|exact Hrel'].
Qed.

(** C4, amended. Replaying a script gives the same log record for record:
    whatever a script does on a new station (the trains it submits and the
    times at which it does) it does on any station at rest with the same
    timings, that is on any station whose earlier trains have all finished,
    and the log it adds there is the log of the new station, entry for entry,
    with the times counted from the moment of the replay.  And one step of
    the event loop, [Environment.step], resolves the entry of the queue that
    comes first by time, then by priority (the start of a process is urgent),
    and only then by sequence number: it takes that entry off the queue, sets
    the clock to its time, keeps every other entry, and whatever it adds is
    scheduled for that time or later with sequence numbers not yet given
    out. *)
Theorem replay_identical_priority_then_fifo
    (g : Globals) (script : list DriverStep) (fuel : nat) (w0 w : World)
    (ops : list DriverOp) (wq wq' : World) :
  play script fuel g = Some w0 ->
  at_rest w -> globals w = g ->
  exec ops (StationSimulation g) = Some wq ->
  Environment.step wq = Some (tt, wq') ->
  (exists w',
     play_on script fuel w = Some w'
     /\ event_log w' = event_log w ++ map (later (now w)) (event_log w0)
     /\ now w' = now w + now w0)
  /\ exists a q,
       queue wq = a :: q
       /\ Forall (fun b =>
            qtime a < qtime b
            \/ (qtime a = qtime b
                /\ ((qprio a < qprio b)%nat
                    \/ (qprio a = qprio b /\ (qeid a < qeid b)%nat)))) q
       /\ now wq' = qtime a
       /\ (a ∉ queue wq')
       /\ (forall b, b ∈ q -> b ∈ queue wq')
       /\ (forall c, c ∈ queue wq' ->
             (c ∈ q) \/ (qtime a <= qtime c
                         /\ forall b, b ∈ queue wq -> (qeid b < qeid c)%nat)).
Proof.
  intros Hplay Hrest Hg Hexec Hstep. split.
  - subst g. destruct (play_moved w script fuel w0 Hrest Hplay) as (w' & Hw' & Hrel).
    exists w'. split; [exact Hw'|].
    split; [exact (rel_log _ _ _ _ _ _ Hrel)|].
    rewrite (rel_now _ _ _ _ _ _ Hrel). lia.
  - pose proof (Inv_exec _ _ _ (Inv_StationSimulation g) Hexec) as HI.
    destruct (step_resolves_least wq tt wq' HI Hstep) as (a & q & H1 & H2 & H3).
    exists a, q. split; [exact H1|]. split; [|exact H3].
    eapply Forall_impl; [exact H2|]. intros b Hb. apply before_spec. exact Hb.
Qed.

(** The world after the next step of the loop: the start of B has been
    resolved, the end of A's dwell is still queued. *)
Definition urgent_next : World :=
  default urgent_world (apply_op env_step urgent_world).

Definition urgent_final : World :=
  default (StationSimulation initial_globals)
    (play urgent_script 40 initial_globals).

Lemma replay_identical_priority_then_fifo_witness :
  (exists w',
     play_on urgent_script 40 rested_world = Some w'
     /\ event_log w'
        = event_log rested_world
          ++ map (later (now rested_world)) (event_log urgent_final)
     /\ now w' = now rested_world + now urgent_final)
  /\ exists a q,
       queue urgent_world = a :: q
       /\ Forall (fun b =>
            qtime a < qtime b
            \/ (qtime a = qtime b
                /\ ((qprio a < qprio b)%nat
                    \/ (qprio a = qprio b /\ (qeid a < qeid b)%nat)))) q
       /\ now urgent_next = qtime a
       /\ (a ∉ queue urgent_next)
       /\ (forall b, b ∈ q -> b ∈ queue urgent_next)
       /\ (forall c, c ∈ queue urgent_next ->
             (c ∈ q) \/ (qtime a <= qtime c
                         /\ forall b, b ∈ queue urgent_world -> (qeid b < qeid c)%nat)).
Proof.
  apply (replay_identical_priority_then_fifo initial_globals urgent_script 40 urgent_final
           rested_world urgent_ops urgent_world urgent_next).
  - vm_compute. reflexivity.
  - apply (rest_summary_at_rest initial_globals). vm_compute. reflexivity.
  - vm_compute. reflexivity.
  - vm_compute. reflexivity.
  - vm_compute. reflexivity.
Defined.

(** ** What the log holds *)

(** The trains the driver has submitted, itself or by a script. *)
Definition script_trains (script : list DriverStep) : list Train :=
  flat_map (fun s => match s with Submit t => [t] | Wait _ => [] end) script.

Definition submitted (ops : list DriverOp) : list Train :=
  flat_map (fun op => match op with
                      | submit t => [t]
                      | start_runner script => script_trains script
                      | _ => []
                      end) ops.

(** A path run for the train [t]. *)
Definition path_of (T : list Train) (p : Path) (tid dir : string) : Prop :=
  exists t, t ∈ T /\ tid = train_id t /\ dir = direction t
            /\ path_function (route_decision t) = Some p.

(** A generator that works for trains of [T] only. *)
Definition works_for (T : list Train) (g : Gen) : Prop :=
  match g with
  | train_process_start t => t ∈ T
  | train_process_journey t => t ∈ T
  | path_start p tid dir => path_of T p tid dir
  | path_joint p tid dir _ => path_of T p tid dir
  | path_enter p tid dir _ _ _ _ => path_of T p tid dir
  | path_dwell p tid dir _ _ _ _ => path_of T p tid dir
  | test_runner script => forall t, t ∈ script_trains script -> t ∈ T
  | exhausted => True
  end.

(** An entry written for the train [t]: it carries the identity and the
    direction of the train, and it is [spawned] with the route asked for,
    [points_set] with the points and the position of the path of that route,
    [enter_track] with the name of a section of that path, or [finished]. *)
Definition written_for (t : Train) (e : LogEntry) : Prop :=
  log_train_id e = train_id t /\ log_direction e = direction t
  /\ ((event e = "spawned" /\ details e = route_details (route_decision t))
      \/ (event e = "points_set"
          /\ exists p, path_function (route_decision t) = Some p
                       /\ details e = points_details (path_points p) (path_state p))
      \/ (event e = "enter_track"
          /\ exists p s, path_function (route_decision t) = Some p
                         /\ s ∈ path_tracks p
                         /\ details e = track_details (snd (fst s)))
      \/ (event e = "finished" /\ details e = no_details)).

Definition written (T : list Train) (e : LogEntry) : Prop :=
  exists t, t ∈ T /\ written_for t e.

Record traced (T : list Train) (w : World) : Prop := {
  tr_frames : forall p g, frame (events w) p g -> works_for T g;
  tr_log : Forall (written T) (event_log w)
}.

Lemma stable_traced T : stable (traced T) (works_for T) (written T).
Proof.
  constructor.
  - intros w q n [H1 H2]. constructor; assumption.
  - intros w a [H1 H2]. constructor; assumption.
  - intros w rs [H1 H2]. constructor; assumption.
  - intros w e [H1 H2] He. constructor; cbn [events event_log set_event_log].
    + exact H1.
    + apply Forall_app. split; [exact H2|]. constructor; [exact He|constructor].
  - intros w x e e' [H1 H2] Hx Hk. constructor; cbn [events event_log set_events].
    + intros p g Hp. exact (H1 p g (frame_put_same _ _ _ _ _ _ Hx Hk Hp)).
    + exact H2.
  - intros w e [H1 H2] Hnew. constructor; cbn [events event_log set_events].
    + intros p g Hp. apply frame_app in Hp as [Hp|Hp]; [exact (H1 p g Hp)|].
      exact (Hnew g Hp).
    + exact H2.
Qed.

Lemma works_for_mono T T' g :
  (forall t, t ∈ T -> t ∈ T') -> works_for T g -> works_for T' g.
Proof.
  intros Hsub. destruct g; cbn [works_for]; try (apply Hsub); try tauto;
    try (intros (t0 & H0 & H1); exists t0; split; [exact (Hsub _ H0)|exact H1]).
  intros H t0 H0. exact (Hsub _ (H t0 H0)).
Qed.

Lemma traced_mono T T' w :
  (forall t, t ∈ T -> t ∈ T') -> traced T w -> traced T' w.
Proof.
  intros Hsub [H1 H2]. constructor.
  - intros p g Hp. exact (works_for_mono T T' g Hsub (H1 p g Hp)).
  - eapply Forall_impl; [exact H2|]. intros e (t & Ht & He).
    exists t. split; [exact (Hsub _ Ht)|exact He].
Qed.

Section tracing.

Variable T : list Train.

Let HS : stable (traced T) (works_for T) (written T) := stable_traced T.

Lemma traced_leave_points reqs w :
  traced T w ->
  wp (leave_points reqs)
     (fun sent w' => traced T w' /\ works_for T (fst sent)) w.
Proof.
  intros HT. unfold leave_points. apply wp_bind. eapply wp_mono.
  - apply (keeps_for_each (traced T)); [|exact HT].
    intros rq. exact (keeps_Request_exit _ _ _ HS _ _).
  - intros u w1 H1. apply wp_ret. split; [exact H1|exact I].
Qed.

Lemma traced_enter_track p tid dir reqs i w :
  traced T w -> path_of T p tid dir ->
  wp (enter_track p tid dir reqs i)
     (fun sent w' => traced T w' /\ works_for T (fst sent)) w.
Proof.
  intros HT Hp. unfold enter_track.
  destruct (path_tracks p !! i) as [[[track name] duration]|];
    [|exact (traced_leave_points reqs w HT)].
  apply wp_bind. eapply wp_mono; [exact (keeps_request _ _ _ HS track w HT)|].
  intros q w1 H1. apply wp_ret. split; [exact H1|exact Hp].
Qed.

Lemma traced_run_script : forall script w,
  traced T w -> (forall t, t ∈ script_trains script -> t ∈ T) ->
  wp (run_script script)
     (fun sent w' => traced T w' /\ works_for T (fst sent)) w.
Proof.
  induction script as [|[t|d] script IH]; intros w HT Hsub; cbn [run_script].
  - apply wp_ret. split; [exact HT|exact I].
  - apply wp_bind. eapply wp_mono.
    + apply (keeps_process _ _ _ HS (train_process_start t)); [|exact HT].
      apply Hsub. apply list_elem_of_here.
    + intros pr w1 H1. apply (IH w1 H1). intros t0 H0. apply Hsub.
      apply list_elem_of_further. exact H0.
  - apply wp_bind. eapply wp_mono; [exact (keeps_timeout _ _ _ HS d w HT)|].
    intros ev w1 H1. apply wp_ret. split; [exact H1|exact Hsub].
Qed.

Lemma traced_send g w :
  traced T w -> works_for T g ->
  wp (send g) (fun sent w' => traced T w' /\ works_for T (fst sent)) w.
Proof.
  intros HT Hg.
  destruct g as [t|t|path tid dir|path tid dir reqs|path tid dir reqs i track tr
                |path tid dir reqs i track tr|script|]; cbn [send works_for] in *.
  - (* train_process_start *)
    apply wp_bind. eapply wp_mono.
    { apply (keeps_log_event _ _ _ HS); [|exact HT].
      intros t0. exists t. split; [exact Hg|]. split; [reflexivity|].
      split; [reflexivity|]. left. split; reflexivity. }
    intros u w1 H1.
    destruct (path_function (route_decision t)) as [path|] eqn:E.
    + apply wp_bind. eapply wp_mono.
      { apply (keeps_process _ _ _ HS (path_start path (train_id t) (direction t)));
          [|exact H1].
        exists t. repeat split; [exact Hg|exact E]. }
      intros pr w2 H2. apply wp_ret. split; [exact H2|exact Hg].
    + apply wp_bind. eapply wp_mono.
      { apply (keeps_log_event _ _ _ HS); [|exact H1].
        intros t0. exists t. split; [exact Hg|]. split; [reflexivity|].
        split; [reflexivity|]. right. right. right. split; reflexivity. }
      intros u' w2 H2. apply wp_ret. split; [exact H2|exact I].
  - (* train_process_journey *)
    apply wp_bind. eapply wp_mono.
    { apply (keeps_log_event _ _ _ HS); [|exact HT].
      intros t0. exists t. split; [exact Hg|]. split; [reflexivity|].
      split; [reflexivity|]. right. right. right. split; reflexivity. }
    intros u w1 H1. apply wp_ret. split; [exact H1|exact I].
  - (* path_start *)
    apply wp_bind. eapply wp_mono.
    { apply (wp_map_m _ (traced T)); [|exact HT].
      intros name w1 _ H1. apply wp_bind, wp_get_point. intros pt.
      apply wp_bind. eapply wp_mono; [exact (keeps_request _ _ _ HS _ w1 H1)|].
      intros q w2 H2. apply wp_ret. exact H2. }
    intros reqs w1 H1. destruct reqs as [|[r q] rest]; [apply wp_raise|].
    apply wp_bind. eapply wp_mono; [exact (keeps_and_events _ _ _ HS _ _ w1 H1)|].
    intros c w2 H2. apply wp_ret. split; [exact H2|exact Hg].
  - (* path_joint *)
    destruct Hg as (t & Ht & -> & -> & Hpath).
    apply wp_bind. eapply wp_mono.
    { apply (wp_for_each _ (traced T)); [|exact HT].
      intros name w1 _ H1. unfold set_point_state.
      apply wp_bind, wp_get_point. intros pt. apply wp_modify.
      destruct H1 as [Ha Hb]. constructor; assumption. }
    intros u w1 H1. apply wp_bind. eapply wp_mono.
    { apply (keeps_log_event _ _ _ HS); [|exact H1].
      intros t0. exists t. split; [exact Ht|]. split; [reflexivity|].
      split; [reflexivity|]. right. left. split; [reflexivity|].
      exists path. split; [exact Hpath|reflexivity]. }
    intros u' w2 H2. apply (traced_enter_track _ _ _ _ _ w2 H2).
    exists t. repeat split; assumption.
  - (* path_enter *)
    destruct Hg as (t & Ht & -> & -> & Hpath).
    destruct (path_tracks path !! i) as [[[track0 name] duration]|] eqn:Ei;
      [|apply wp_raise].
    apply wp_bind. eapply wp_mono.
    { apply (keeps_log_event _ _ _ HS); [|exact HT].
      intros t0. exists t. split; [exact Ht|]. split; [reflexivity|].
      split; [reflexivity|]. right. right. left. split; [reflexivity|].
      exists path, (track0, name, duration). split; [exact Hpath|].
      split; [exact (list_elem_of_lookup_2 _ _ _ Ei)|reflexivity]. }
    intros u w1 H1. apply wp_bind, wp_gets.
    apply wp_bind. eapply wp_mono; [exact (keeps_timeout _ _ _ HS _ w1 H1)|].
    intros ev w2 H2. apply wp_ret. split; [exact H2|].
    exists t. repeat split; assumption.
  - (* path_dwell *)
    apply wp_bind. eapply wp_mono;
      [exact (keeps_Request_exit _ _ _ HS _ _ w HT)|].
    intros u w1 H1. exact (traced_enter_track _ _ _ _ _ w1 H1 Hg).
  - (* test_runner *)
    exact (traced_run_script script w HT Hg).
  - apply wp_raise.
Qed.

Lemma traced_put_generator w (p : ref) e g1 :
  traced T w -> events w !! p = Some e -> works_for T g1 ->
  traced T (set_events (<[p := {| callbacks := callbacks e;
                                  triggered := triggered e;
                                  kind := Process g1 |}]> (events w)) w).
Proof.
  intros [H1 H2] He Hg. constructor; cbn [events event_log set_events]; [|exact H2].
  intros p0 g0 (e0 & He0 & Hg0). destruct (decide (p0 = p)) as [->|Hne].
  - rewrite list_lookup_insert_eq in He0 by exact (lookup_lt_Some _ _ _ He).
    injection He0 as <-. cbn in Hg0. injection Hg0 as <-. exact Hg.
  - rewrite list_lookup_insert_ne in He0 by congruence.
    apply (H1 p0 g0). exists e0. split; assumption.
Qed.

Lemma traced_resume_loop : forall rounds p w,
  traced T w -> wp (Environment.resume_loop rounds p) (fun _ w' => traced T w') w.
Proof.
  induction rounds as [|rounds IH]; intros p w HT; cbn [Environment.resume_loop].
  all: apply wp_bind, wp_get_event; intros e He.
  all: destruct (kind e) as [| | | | |g] eqn:Hk; try apply wp_raise.
  all: assert (Hg : works_for T g)
         by (apply (tr_frames _ _ HT p); exists e; split; assumption).
  all: apply wp_bind; eapply wp_mono; [exact (traced_send g w HT Hg)|].
  all: intros [g1 yielded] w1 [H1 Hg1]; cbn [fst snd] in *.
  all: unfold Environment.set_generator.
  all: apply wp_bind, wp_bind, wp_get_event; intros e1 He1; apply wp_put_event.
  all: pose proof (traced_put_generator w1 p e1 g1 H1 He1 Hg1) as H2.
  all: destruct yielded as [ev|].
  all: try (apply wp_bind, wp_get_event; intros target Htarget;
            destruct (callbacks target);
            [exact (keeps_append_callback _ _ _ HS _ _ _ H2)|]).
  all: try (apply wp_bind, wp_get_event; intros e2 He2;
            apply wp_bind, wp_put_event;
            apply (keeps_schedule _ _ _ HS);
            apply (st_put _ _ _ HS _ p e2); [exact H2|exact He2|apply kind_same_refl]).
  - apply wp_raise.
  - exact (IH p _ H2).
Qed.

Lemma traced_resume p w :
  traced T w -> wp (Environment.resume p) (fun _ w' => traced T w') w.
Proof.
  intros HT. unfold Environment.resume. apply wp_bind, wp_modify.
  apply wp_bind, wp_get_event. intros e He.
  destruct (kind e); try apply wp_raise.
  apply wp_bind. eapply wp_mono.
  - apply traced_resume_loop. exact (st_active _ _ _ HS w (Some p) HT).
  - intros u w1 H1. apply wp_modify. exact (st_active _ _ _ HS w1 None H1).
Qed.

Lemma traced_call cb w :
  traced T w -> wp (Environment.call cb) (fun _ w' => traced T w') w.
Proof.
  intros HT. destruct cb as [p|c|c|r|r]; cbn [Environment.call].
  - exact (traced_resume p w HT).
  - exact (keeps_check _ _ _ HS c w HT).
  - exact (keeps_build_value _ _ _ HS c w HT).
  - exact (keeps_trigger_get _ _ _ HS r w HT).
  - exact (keeps_trigger_put _ _ _ HS r w HT).
Qed.

Lemma traced_step w u w' :
  traced T w -> Environment.step w = Some (u, w') -> traced T w'.
Proof.
  intros HT H.
  destruct (step_pops _ _ _ H) as (t & prio & i & ev & q & Hq & Hev).
  unfold process_event in Hev.
  set (w1 := set_now t (set_queue q (eid w) w)) in *.
  assert (H1 : traced T w1) by (destruct HT as [Ha Hb]; constructor; assumption).
  apply bind_Some in Hev as (e & w1' & Hget & Hev).
  unfold simpy.get_event in Hget.
  destruct (events w1 !! ev) as [e'|] eqn:He; [|discriminate].
  injection Hget as -> <-.
  destruct (callbacks e) as [cbs|] eqn:Hcbs; [|discriminate].
  apply bind_Some in Hev as ([] & w2 & H2 & Hev).
  unfold simpy.put_event, modify in H2. injection H2 as <-.
  refine (wp_for_each _ (traced T) cbs _ _ _ u w' Hev).
  - intros cb w2 _ H2. exact (traced_call cb w2 H2).
  - apply (st_put _ _ _ HS w1 ev e); [exact H1|exact He|apply kind_same_refl].
Qed.

End tracing.

Lemma traced_StationSimulation g : traced [] (StationSimulation g).
Proof.
  constructor; cbn [events event_log StationSimulation].
  - intros p g0 (e & He & _). rewrite lookup_nil in He. discriminate.
  - constructor.
Qed.

Lemma traced_apply_op T op w w' :
  traced T w -> apply_op op w = Some w' -> traced (T ++ submitted [op]) w'.
Proof.
  intros HT H.
  assert (HT' : traced (T ++ submitted [op]) w).
  { apply (traced_mono T); [|exact HT]. intros t Ht. apply elem_of_app. left. exact Ht. }
  destruct op as [t|script| |g]; cbn [apply_op] in H.
  - destruct (simpy.process _ w) as [[p w1]|] eqn:E; [|discriminate].
    injection H as <-.
    refine (keeps_process _ _ _ (stable_traced _) _ _ w HT' p w1 E).
    cbn. apply elem_of_app. right. apply list_elem_of_here.
  - destruct (simpy.process _ w) as [[p w1]|] eqn:E; [|discriminate].
    injection H as <-.
    refine (keeps_process _ _ _ (stable_traced _) _ _ w HT' p w1 E).
    cbn [works_for]. intros t Ht. apply elem_of_app. right.
    cbn [submitted flat_map]. rewrite app_nil_r. exact Ht.
  - destruct (Environment.step w) as [[u w1]|] eqn:E; [|discriminate].
    injection H as <-. exact (traced_step _ w u w1 HT' E).
  - injection H as <-. destruct HT' as [Ha Hb]. constructor; assumption.
Qed.

Lemma traced_exec ops : forall T w w',
  traced T w -> exec ops w = Some w' -> traced (T ++ submitted ops) w'.
Proof.
  induction ops as [|op ops IH]; intros T w w' HT H; cbn [exec] in H.
  - injection H as <-. cbn. rewrite app_nil_r. exact HT.
  - destruct (apply_op op w) as [w1|] eqn:E; [|discriminate].
    pose proof (IH _ w1 w' (traced_apply_op T op w w1 HT E) H) as H1.
    replace (T ++ submitted (op :: ops)) with ((T ++ submitted [op]) ++ submitted ops);
      [exact H1|].
    unfold submitted. cbn [flat_map]. rewrite app_nil_r, <- app_assoc. reflexivity.
Qed.

(** X15. The log holds nothing but what the station writes for the trains it
    was given.  In every world the driver can reach, every entry of the log
    was written for one of the trains the driver has submitted, itself or by
    a script: it carries the identity and the direction of that train, and it
    is [spawned] with the route asked for that train, [points_set] with the
    points and the position of the path of that route, [enter_track] with the
    name of a section of that path, or [finished] with no details. *)
Theorem the_log_holds_what_the_station_writes
    (g : Globals) (ops : list DriverOp) (w : World) (e : LogEntry) :
  exec ops (StationSimulation g) = Some w ->
  e ∈ event_log w ->
  exists t,
    t ∈ submitted ops
    /\ log_train_id e = train_id t /\ log_direction e = direction t
    /\ ((event e = "spawned" /\ details e = route_details (route_decision t))
        \/ (event e = "points_set"
            /\ exists p, path_function (route_decision t) = Some p
                         /\ details e
                            = points_details (path_points p) (path_state p))
        \/ (event e = "enter_track"
            /\ exists p s, path_function (route_decision t) = Some p
                           /\ s ∈ path_tracks p
                           /\ details e = track_details (snd (fst s)))
        \/ (event e = "finished" /\ details e = no_details)).
Proof.
  intros Hexec He.
  pose proof (traced_exec ops [] _ w (traced_StationSimulation g) Hexec) as HT.
  pose proof (tr_log _ _ HT) as HF. rewrite Forall_forall in HF.
  exact (HF e He).
Qed.

Definition test_entry : LogEntry :=
  default {| time := 0; log_train_id := ""; log_direction := "";
             event := ""; details := no_details |}
    (event_log test_world !! 7%nat).

Lemma the_log_holds_what_the_station_writes_witness :
  exists t,
    t ∈ submitted test_ops
    /\ log_train_id test_entry = train_id t
    /\ log_direction test_entry = direction t
    /\ ((event test_entry = "spawned"
         /\ details test_entry = route_details (route_decision t))
        \/ (event test_entry = "points_set"
            /\ exists p, path_function (route_decision t) = Some p
                         /\ details test_entry
                            = points_details (path_points p) (path_state p))
        \/ (event test_entry = "enter_track"
            /\ exists p s, path_function (route_decision t) = Some p
                           /\ s ∈ path_tracks p
                           /\ details test_entry = track_details (snd (fst s)))
        \/ (event test_entry = "finished" /\ details test_entry = no_details)).
Proof.
  apply (the_log_holds_what_the_station_writes initial_globals test_ops test_world
           test_entry).
  - vm_compute. reflexivity.
  - apply (list_elem_of_lookup_2 _ 7%nat). vm_compute. reflexivity.
Defined.
